(** * esy: build identifiers, dependency graphs, environment conflicts
    and the build driver

  A shallow embedding of the parts of esy that the properties below are
  about: [src/esy/util.js] (package-name normalisation),
  [src/esy/build-config.js] (store paths), [src/esy/build-sandbox.js]
  (crawler and build ids), [src/esy/graph.js] (graph traversals), the
  composition of the ejected environment (exclusive-variable
  diagnostics), [src/esy/lib/fs.js] (mtime checksum) and
  [src/esy/builders/*] (driver and path rewriting).

  JavaScript strings are modelled as [string] (sequences of 8-bit
  characters; the ASCII range is modelled exactly), JavaScript [Map]s as
  insertion-ordered association lists or as [gmap]s when only lookups
  matter, and promises by the value they resolve to together with an
  explicit outcome type where a promise may stay pending. *)

From Stdlib Require Import ZArith NArith Ascii String Lia Permutation.
From stdpp Require Import gmap strings list sorting pretty.

Set Warnings "-clear-no-such-hyp".

(** ** Text: characters, runs and replacement passes *)

Module Text.

Definition chars := list ascii.

Definition of_string (s : string) : chars := list_ascii_of_string s.
Definition to_string (l : chars) : string := string_of_list_ascii l.

(** [String.prototype.toLowerCase] on the ASCII range: [A]..[Z] are moved
    by 32, every other character is kept. *)
Definition lower_char (c : ascii) : ascii :=
  let n := nat_of_ascii c in
  if (65 <=? n)%nat && (n <=? 90)%nat then ascii_of_nat (n + 32) else c.

Definition toLowerCase (s : chars) : chars := map lower_char s.

(** [s.replace(/c/g, by)] for a single literal character [c]. *)
Definition replaceChar (c : ascii) (by_ : chars) (s : chars) : chars :=
  flat_map (λ x, if Ascii.eqb x c then by_ else [x]) s.

(** [s.replace(/_+/g, matched => matched + '__')]: the regular expression
    is greedy, so a match is a maximal run of underscores, and the run is
    followed by two more. *)
Fixpoint replaceUnderscoreRuns (s : chars) : chars :=
  match s with
  | [] => []
  | c :: rest =>
      if Ascii.eqb c "_" then
        match rest with
        | c' :: _ =>
            if Ascii.eqb c' "_" then c :: replaceUnderscoreRuns rest
            else c :: of_string "__" ++ replaceUnderscoreRuns rest
        | [] => c :: of_string "__"
        end
      else c :: replaceUnderscoreRuns rest
  end.

(** [s.split(c)] for a single-character separator: the pieces between the
    separators, empty ones kept. *)
Fixpoint split (c : ascii) (s : chars) : list chars :=
  match s with
  | [] => [[]]
  | x :: rest =>
      if Ascii.eqb x c then [] :: split c rest
      else match split c rest with
           | seg :: segs => (x :: seg) :: segs
           | [] => [[x]]
           end
  end.

(** [pieces.join(sep)]. *)
Fixpoint join (sep : chars) (pieces : list chars) : chars :=
  match pieces with
  | [] => []
  | [piece] => piece
  | piece :: rest => piece ++ sep ++ join sep rest
  end.

Definition joinStrings (sep : string) (pieces : list string) : string :=
  to_string (join (of_string sep) (map of_string pieces)).

(** The double quote character, and a string made of it. *)
Definition dquoteChar : ascii := ascii_of_nat 34.
Definition dquote : string := String dquoteChar EmptyString.

Definition nonNul (c : ascii) : Prop := c ≠ zero.

(** The digits of a [digest('hex')]. *)
Definition isHexDigit (c : ascii) : bool :=
  existsb (Ascii.eqb c) (of_string "0123456789abcdef").

(** [String.prototype.trim] on the ASCII range. *)
Fixpoint trimStart (s : chars) : chars :=
  match s with
  | c :: rest => if Ascii.is_space c then trimStart rest else s
  | [] => []
  end.
Definition trimChars (s : chars) : chars :=
  rev (trimStart (rev (trimStart s))).
Definition trim (s : string) : string := to_string (trimChars (of_string s)).

End Text.

(** ** [src/esy/util.js] *)

Module Util.
Import Text.

(** The three passes that follow the pass on underscores. *)
Definition laterPasses (s : chars) : chars :=
  replaceChar "-" (of_string "_")
    (replaceChar "." (of_string "__dot__")
       (replaceChar "/" (of_string "__slash__") s)).

(** [normalizePackageName]: the six passes in the order of the source. *)
Definition normalizeChars (name : chars) : chars :=
  laterPasses (replaceUnderscoreRuns (replaceChar "@" [] (toLowerCase name))).

Definition normalizePackageName (name : string) : string :=
  to_string (normalizeChars (of_string name)).

(** The reading of the specification: every single underscore becomes two
    underscores, the other characters as in the source. *)
Definition expandEach (c : ascii) : chars :=
  if Ascii.eqb c "@" then []
  else if Ascii.eqb c "_" then of_string "__"
  else if Ascii.eqb c "/" then of_string "__slash__"
  else if Ascii.eqb c "." then of_string "__dot__"
  else if Ascii.eqb c "-" then of_string "_"
  else [lower_char c].

Definition normalizeAsSpecified (name : string) : string :=
  to_string (flat_map expandEach (of_string name)).

(** One pass over a lower-cased name without [@]: a maximal run of
    underscores is kept and followed by two more, and the three other
    characters are spelled out. *)
Fixpoint expandRuns (s : chars) : chars :=
  match s with
  | [] => []
  | c :: rest =>
      if Ascii.eqb c "_" then
        match rest with
        | c' :: _ =>
            if Ascii.eqb c' "_" then c :: expandRuns rest
            else c :: of_string "__" ++ expandRuns rest
        | [] => c :: of_string "__"
        end
      else if Ascii.eqb c "/" then of_string "__slash__" ++ expandRuns rest
      else if Ascii.eqb c "." then of_string "__dot__" ++ expandRuns rest
      else if Ascii.eqb c "-" then "_"%char :: expandRuns rest
      else c :: expandRuns rest
  end.

End Util.

(** ** Node's [path] module (POSIX flavour), as far as [path.join] goes

    [path.join] as Node documents it: the arguments that are not empty are
    joined with [/] and the result is normalised, that is [.] segments and
    repeated separators are dropped, [..] removes the segment before it,
    and a trailing separator is kept. *)

Module Path.
Import Text.

(** [s.split('/')] and [segs.join('/')]. *)
Definition splitSlash (s : chars) : list chars := split "/" s.
Definition joinSlash (segs : list chars) : chars := join ["/"%char] segs.

Definition isDot (seg : chars) : bool := bool_decide (seg = of_string ".").
Definition isDotDot (seg : chars) : bool := bool_decide (seg = of_string "..").
Definition isEmpty (seg : chars) : bool := bool_decide (seg = []).

(** One segment of [normalizeString]: empty and [.] segments are dropped,
    [..] removes the last kept segment unless there is none or it is [..]
    itself, in which case it is kept only when [allowAboveRoot]. *)
Definition normalizeStep (allowAboveRoot : bool) (res : list chars) (seg : chars)
  : list chars :=
  if isEmpty seg || isDot seg then res
  else if isDotDot seg then
    match last res with
    | Some l =>
        if isDotDot l then (if allowAboveRoot then res ++ [seg] else res)
        else removelast res
    | None => if allowAboveRoot then res ++ [seg] else res
    end
  else res ++ [seg].

Definition normalizeString (allowAboveRoot : bool) (segs : list chars) : list chars :=
  fold_left (normalizeStep allowAboveRoot) segs [].

(** [path.normalize] on a path that is not empty. *)
Definition normalizeNonEmpty (path : chars) : chars :=
  let segs := splitSlash path in
  let isAbsolute := isEmpty (hd [] segs) in
  let trailingSeparator := isEmpty (List.last segs []) in
  let p := joinSlash (normalizeString (negb isAbsolute) segs) in
  let p := if isEmpty p && negb isAbsolute then of_string "." else p in
  let p := if negb (isEmpty p) && trailingSeparator then p ++ of_string "/" else p in
  if isAbsolute then "/"%char :: p else p.

(** [path.normalize]. *)
Definition normalize (path : chars) : chars :=
  match path with
  | [] => of_string "."
  | _ => normalizeNonEmpty path
  end.

(** [path.join(...args)]: zero-length arguments are ignored, the others are
    joined with [/] and the result is normalised. *)
Definition joinChars (args : list chars) : chars :=
  match List.filter (λ a, negb (isEmpty a)) args with
  | [] => of_string "."
  | nonempty => normalize (joinSlash nonempty)
  end.

Definition join (args : list string) : string :=
  to_string (joinChars (map of_string args)).

(** A segment that [normalizeString] keeps as it is. *)
Definition ordinary (seg : chars) : Prop :=
  seg ≠ [] ∧ seg ≠ of_string "." ∧ seg ≠ of_string ".." ∧ "/"%char ∉ seg.

(** Two lists that are equal, or differ in one element only, which is [t1]
    in the first and [t2] in the second. *)
Definition sameBut {A} (t1 t2 : A) (l1 l2 : list A) : Prop :=
  l1 = l2 ∨ ∃ a b, l1 = a ++ t1 :: b ∧ l2 = a ++ t2 :: b.

(** The same for texts and a piece of text. *)
Definition sameButPiece (t1 t2 : chars) (p1 p2 : chars) : Prop :=
  p1 = p2 ∨ ∃ x y, p1 = x ++ t1 ++ y ∧ p2 = x ++ t2 ++ y.

(** A valid POSIX path component: not empty, not [.] or [..], and without
    [/] and NUL. *)
Definition componentChar (c : ascii) : bool :=
  negb (Ascii.eqb c "/") && negb (Ascii.eqb c zero).

Definition isPathComponent (s : string) : bool :=
  negb (bool_decide (s = "")) && negb (bool_decide (s = "."))
  && negb (bool_decide (s = "..")) && forallb componentChar (of_string s).

End Path.

(** ** JSON values and [JSON.stringify] *)

Module Json.
Import Text.

(** The values that reach [hash] in [build-sandbox.js]. An object is the
    list of its own enumerable properties in iteration order; [JMap] is an
    ES6 [Map] instance, which is an object without own enumerable
    properties whatever its entries are. *)
#[warnings="-register-all"]
Inductive value :=
| JNull
| JUndefined
| JBool (b : bool)
| JNumber (n : Z)
| JString (s : string)
| JArray (items : list value)
| JObject (fields : list (string * value))
| JMap (entries : list (string * value)).

Definition hexDigit (n : nat) : ascii :=
  nth n (of_string "0123456789abcdef") "0"%char.

(** The escape of one character inside a JSON string. *)
Definition escapeChar (c : ascii) : chars :=
  let n := nat_of_ascii c in
  if (n =? 34)%nat then ["\"%char; dquoteChar]
  else if (n =? 92)%nat then ["\"%char; "\"%char]
  else if (n =? 8)%nat then of_string "\b"
  else if (n =? 9)%nat then of_string "\t"
  else if (n =? 10)%nat then of_string "\n"
  else if (n =? 12)%nat then of_string "\f"
  else if (n =? 13)%nat then of_string "\r"
  else if (n <? 32)%nat then
    of_string "\u00" ++ [hexDigit (n / 16); hexDigit (n mod 16)]
  else [c].

(** [JSON.stringify(s)] for a string [s]. *)
Definition quote (s : string) : string :=
  to_string (dquoteChar :: flat_map escapeChar (of_string s) ++ [dquoteChar]).

(** [JSON.stringify(a)] for an array [a] of strings. *)
Definition stringifyStrings (a : list string) : string :=
  "[" +:+ joinStrings "," (map quote a) +:+ "]".

(** [obj[key]]: the property, if the object has it. *)
Fixpoint getField (key : string) (fields : list (string * value)) : option value :=
  match fields with
  | [] => None
  | (k, v) :: rest => if decide (k = key) then Some v else getField key rest
  end.

(** [obj[key] = v]: an existing property keeps its place. *)
Fixpoint setField (key : string) (v : value) (fields : list (string * value))
  : list (string * value) :=
  match fields with
  | [] => [(key, v)]
  | (k, w) :: rest =>
      if decide (k = key) then (k, v) :: rest else (k, w) :: setField key v rest
  end.

(** [x == null]. *)
Definition isNullish (o : option value) : bool :=
  match o with
  | None | Some JNull | Some JUndefined => true
  | _ => false
  end.

(** [!!x]. *)
Definition truthy (v : value) : bool :=
  match v with
  | JNull | JUndefined => false
  | JBool b => b
  | JNumber n => negb (n =? 0)%Z
  | JString s => negb (bool_decide (s = ""))
  | JArray _ | JObject _ | JMap _ => true
  end.

(** Every object (and [Map]) inside the value has distinct keys. *)
#[warnings="-register-all"]
Inductive distinctKeys : value → Prop :=
| distinctKeys_null : distinctKeys JNull
| distinctKeys_undefined : distinctKeys JUndefined
| distinctKeys_bool b : distinctKeys (JBool b)
| distinctKeys_number n : distinctKeys (JNumber n)
| distinctKeys_string s : distinctKeys (JString s)
| distinctKeys_array items :
    Forall distinctKeys items → distinctKeys (JArray items)
| distinctKeys_object fields :
    NoDup (map fst fields) → Forall (λ kv, distinctKeys kv.2) fields →
    distinctKeys (JObject fields)
| distinctKeys_map entries :
    NoDup (map fst entries) → Forall (λ kv, distinctKeys kv.2) entries →
    distinctKeys (JMap entries).

(** The second value is the first with the properties of its objects (and
    the entries of its [Map]s) iterated in another order, at any depth. *)
#[warnings="-register-all"]
Inductive reordered : value → value → Prop :=
| reordered_null : reordered JNull JNull
| reordered_undefined : reordered JUndefined JUndefined
| reordered_bool b : reordered (JBool b) (JBool b)
| reordered_number n : reordered (JNumber n) (JNumber n)
| reordered_string s : reordered (JString s) (JString s)
| reordered_array items1 items2 :
    Forall2 reordered items1 items2 → reordered (JArray items1) (JArray items2)
| reordered_object fields1 fields fields2 :
    Forall2 (λ a b, a.1 = b.1 ∧ reordered a.2 b.2) fields1 fields →
    fields ≡ₚ fields2 →
    reordered (JObject fields1) (JObject fields2)
| reordered_map entries1 entries entries2 :
    Forall2 (λ a b, a.1 = b.1 ∧ reordered a.2 b.2) entries1 entries →
    entries ≡ₚ entries2 →
    reordered (JMap entries1) (JMap entries2).

End Json.

(** ** [src/esy/types.js]: the data model *)

Module Types.

(** An entry of [exportedEnv] in a manifest, and the built-in entries the
    environment code synthesises ([builtIn] stands for the field
    [__BUILT_IN_DO_NOT_USE_OR_YOU_WILL_BE_PIPd]). *)
Record EnvironmentVarExport := mkExport {
  val : option string;
  scope : option string;
  exclusive : bool;
  builtIn : bool
}.

(** A manifest as [readPackageJson] returns it. The two dependency
    mappings are kept in key order; [esy] is the object of the [esy]
    section. *)
Record PackageJson := mkPackageJson {
  pjName : string;
  pjVersion : option string;
  pjDependencies : list (string * string);
  pjPeerDependencies : list (string * string);
  _resolved : option string;
  esy : list (string * Json.value)
}.

(** A crawled build. [dependencies] is the source's
    [Map<string, BuildSpec>], kept as its entries in insertion order; the
    key of an entry is the [id] of the build it holds. *)
#[warnings="-register-all"]
Inductive BuildSpec := mkBuildSpec {
  id : string;
  name : string;
  version : option string;
  command : option (list Json.value);
  exportedEnv : option Json.value;
  sourcePath : string;
  mutatesSourcePath : bool;
  shouldBePersisted : bool;
  packageJson : PackageJson;
  dependencies : list BuildSpec;
  errors : list string
}.

End Types.

(** ** [src/esy/build-config.js] *)

Module Config.
Import Types.

Record BuildConfig := mkConfig {
  storePath : string;
  sandboxPath : string
}.

Definition sandboxLocalStorePath (c : BuildConfig) : string :=
  Path.join [sandboxPath c; "node_modules"; ".cache"; "_esy"; "store"].

(** The store a build lives in. *)
Definition storeRoot (c : BuildConfig) (build : BuildSpec) : string :=
  if shouldBePersisted build then storePath c else sandboxLocalStorePath c.

Definition genPath (c : BuildConfig) (build : BuildSpec) (tree : string)
    (segments : list string) : string :=
  if shouldBePersisted build then
    Path.join (storePath c :: tree :: id build :: segments)
  else
    Path.join (sandboxLocalStorePath c :: tree :: id build :: segments).

Definition getSourcePath (c : BuildConfig) (build : BuildSpec)
    (segments : list string) : string :=
  Path.join (sandboxPath c :: sourcePath build :: segments).

Definition getRootPath (c : BuildConfig) (build : BuildSpec)
    (segments : list string) : string :=
  if mutatesSourcePath build then genPath c build "_build" segments
  else Path.join (sandboxPath c :: sourcePath build :: segments).

Definition getBuildPath (c : BuildConfig) (build : BuildSpec)
    (segments : list string) : string :=
  genPath c build "_build" segments.

Definition getInstallPath (c : BuildConfig) (build : BuildSpec)
    (segments : list string) : string :=
  genPath c build "_insttmp" segments.

Definition getFinalInstallPath (c : BuildConfig) (build : BuildSpec)
    (segments : list string) : string :=
  genPath c build "_install" segments.

End Config.

(** ** Awaited computations *)

Module Async.

(** How an awaited computation ends: with a value, with an exception, or
    never, because it waits for a promise that is never settled.
    [OutOfFuel] is the model running out of recursion depth. *)
Inductive Outcome (A : Type) :=
| Done (a : A)
| Threw
| Hung
| OutOfFuel.
Arguments Done {A} a.
Arguments Threw {A}.
Arguments Hung {A}.
Arguments OutOfFuel {A}.

End Async.

(** ** [src/esy/build-sandbox.js] *)

Module Sandbox.
Import Text Json Types Async.

(** *** Hashing *)

Section hash.
(** [crypto.createHash('sha1').update(s).digest('hex')]. *)
Variable sha1 : string → string.

(** [hash(s)] for a string [s]: the digest of [JSON.stringify(s)]. *)
Definition hashString (s : string) : string := sha1 (quote s).

(** [hash(a)] for an array whose elements hash to [hs]:
    [hash(JSON.stringify(a.map(hash)))]. *)
Definition hashStrings (hs : list string) : string :=
  hashString (stringifyStrings hs).

Fixpoint lookupHash (key : string) (hashed : list (string * string)) : string :=
  match hashed with
  | [] => hashString "undefined"
  | (k, h) :: rest => if decide (k = key) then h else lookupHash key rest
  end.

(** [hash]. In the object case the source sorts the keys and hashes the
    array of [[k, v[k]]] pairs; here the properties are hashed first and
    the digest of [v[k]] is looked up by key, which is the same value.
    [keys.sort()] orders strings by their code units. *)
Fixpoint hash (v : value) : string :=
  match v with
  | JNull => hashString "null"
  | JUndefined => hashString "undefined"
  | JBool b => sha1 (if b then "true" else "false")
  | JNumber n => sha1 (pretty n)
  | JString s => hashString s
  | JArray items => hashStrings (map hash items)
  | JObject fields =>
      let hashed := map (λ kv, match kv with (k, x) => (k, hash x) end) fields in
      let keys := merge_sort String.le (map fst fields) in
      hashStrings
        (map (λ k, hashStrings [hashString k; lookupHash k hashed]) keys)
  | JMap _ => hashStrings []
  end.

(** The properties of an object with their values hashed. *)
Definition hashedFields (fields : list (string * value)) : list (string * string) :=
  map (λ kv, match kv with (k, x) => (k, hash x) end) fields.

Definition optionalString (o : option string) : value :=
  match o with
  | Some s => JString s
  | None => JUndefined
  end.

(** [version || '0.0.0']. *)
Definition versionOrDefault (v : option string) : string :=
  match v with
  | Some s => if decide (s = "") then "0.0.0" else s
  | None => "0.0.0"
  end.

(** [calculateBuildId]; [testMode] is [process.env.ESY__TEST]. *)
Definition calculateBuildId (testMode : bool) (env : value)
    (packageJson : PackageJson) (source : string)
    (dependencies : list BuildSpec) : string :=
  let h := hash (JObject [
    ("env", env);
    ("source", JString source);
    ("packageJson", JObject [
       ("name", JString (pjName packageJson));
       ("version", optionalString (pjVersion packageJson));
       ("esy", JObject (esy packageJson))]);
    ("dependencies", JArray (map (λ dep, JString (id dep)) dependencies))]) in
  let prefix :=
    Util.normalizePackageName (pjName packageJson) +:+ "-" +:+
    versionOrDefault (pjVersion packageJson) in
  if testMode then prefix else prefix +:+ "-" +:+ h.

End hash.

(** *** Dependency specifications and messages *)

(** [parseDependencySpec(spec).name]. *)
Definition parseDependencyName (spec : string) : string :=
  match of_string spec with
  | c :: _ =>
      if Ascii.eqb c "@" then
        "@" +:+ to_string (nth 1 (split "@" (of_string spec)) [])
      else to_string (hd [] (split "@" (of_string spec)))
  | [] => ""
  end.

Definition pushAbsent (x : string) (l : list string) : list string :=
  if decide (x ∈ l) then l else l ++ [x].

(** [objectToDependencySpecs(...objs)]. *)
Definition objectToDependencySpecs (objs : list (list (string * string)))
  : list string :=
  fold_left
    (λ acc obj,
       fold_left (λ acc nv, pushAbsent (nv.1 +:+ "@" +:+ nv.2) acc) obj acc)
    objs [].

Definition formatCircularDependenciesError (dependency : string)
    (dependencyTrace : list string) : string :=
  "Circular dependency " +:+ dquote +:+ dependency +:+ " detected" +:+
  String (ascii_of_nat 10) "  At " +:+ joinStrings " -> " dependencyTrace.

Definition formatMissingPackagesError (missingPackages : list string)
    (dependencyTrace : list string) : string :=
  let packagesToReport := take 3 missingPackages in
  let packagesMessage :=
    joinStrings ", " (map (λ p, dquote +:+ p +:+ dquote) packagesToReport) in
  let extraPackagesMessage :=
    if (length packagesToReport <? length missingPackages)%nat then
      " (and " +:+ pretty (length missingPackages - length packagesToReport)%nat
      +:+ " more)"
    else "" in
  "Cannot resolve " +:+ packagesMessage +:+ extraPackagesMessage +:+ " packages"
  +:+ String (ascii_of_nat 10) "  At " +:+ joinStrings " -> " dependencyTrace
  +:+ String (ascii_of_nat 10) "  Did you forget to run " +:+ dquote
  +:+ "esy install" +:+ dquote +:+ " command?".

(** *** The crawl *)

(** What the crawl asks of its host: the file system, module resolution
    and two functions of Node's [path]. The manifests are a finite map from
    the path of a [package.json] to its parsed content. *)
Record Host := mkHost {
  hostSandboxPath : string;
  readJson : gmap string PackageJson;
  resolveToRealpath : string → string → option string;
  realpath : string → string;
  dirname : string → string;
  relative : string → string → string;
  hostTestMode : bool;
  hostEnv : value
}.

(** A promise in [buildCache], as seen when it is awaited. *)
Inductive Promise :=
| Pending
| Resolved (build : BuildSpec).

(** The two caches of [fromDirectory]. A resolution is cached with the
    exception it may have raised. *)
Record Caches := mkCaches {
  resolutionCache : gmap string (option string);
  buildCache : gmap string Promise
}.

Definition M (A : Type) : Type := Caches → Outcome A * Caches.

Definition ret {A} (a : A) : M A := λ c, (Done a, c).

Definition bind {A B} (m : M A) (k : A → M B) : M B :=
  λ c, match m c with
       | (Done a, c') => k a c'
       | (Threw, c') => (Threw, c')
       | (Hung, c') => (Hung, c')
       | (OutOfFuel, c') => (OutOfFuel, c')
       end.

Notation "'let*' x ':=' m 'in' k" := (bind m (λ x, k))
  (at level 10, x name, m at level 100, k at level 200).

(** The accumulators of the loop of [crawlDependencies]. *)
Record DepsAcc := mkDepsAcc {
  accDependencies : list BuildSpec;
  accErrors : list string;
  accMissing : list string
}.

(** [dependencies.set(build.id, build)]. *)
Fixpoint mapSet (build : BuildSpec) (m : list BuildSpec) : list BuildSpec :=
  match m with
  | [] => [build]
  | b :: rest =>
      if decide (id b = id build) then build :: rest else b :: mapSet build rest
  end.

Section crawl.
Variable sha1 : string → string.
Variable host : Host.

(** [readPackageJson]: the manifest with the defaults of the [esy]
    section filled in. *)
Definition defaultEsy : list (string * value) :=
  [("build", JNull); ("exportedEnv", JObject []); ("buildsInSource", JBool false)].

Definition setDefault (key : string) (dflt : value) (fields : list (string * value))
  : list (string * value) :=
  if isNullish (getField key fields) then setField key dflt fields else fields.

Definition readPackageJson (filename : string) : option PackageJson :=
  match readJson host !! filename with
  | None => None
  | Some pj =>
      let e :=
        setDefault "buildsInSource" (JBool false)
          (setDefault "exportedEnv" (JObject [])
             (setDefault "build" JNull (esy pj))) in
      Some (mkPackageJson (pjName pj) (pjVersion pj) (pjDependencies pj)
              (pjPeerDependencies pj) (_resolved pj) e)
  end.

(** [resolveCached]. *)
Definition resolveCached (packageName baseDir : string) : M (option string) :=
  λ c,
    let key := baseDir +:+ "__" +:+ packageName in
    match resolutionCache c !! key with
    | Some resolution => (Done resolution, c)
    | None =>
        let resolution := resolveToRealpath host packageName baseDir in
        (Done resolution,
         mkCaches (<[key := resolution]> (resolutionCache c)) (buildCache c))
    end.

(** [context.crawlBuild], applied to a path and the [dependencyTrace] of the
    context. *)
Definition Crawler : Type := string → list string → M BuildSpec.

(** [crawlBuildCached]. The promise is stored as soon as [crawlBuild] has
    been called, that is before anything below it runs; a second request
    for the same path while the first is still running awaits that
    promise, which the first can then never settle. *)
Definition crawlBuildCached (crawlBuild : Crawler) : Crawler :=
  λ baseDirectory trace c,
    match buildCache c !! baseDirectory with
    | Some (Resolved build) => (Done build, c)
    | Some Pending => (Hung, c)
    | None =>
        let c1 := mkCaches (resolutionCache c)
                    (<[baseDirectory := Pending]> (buildCache c)) in
        match crawlBuild baseDirectory trace c1 with
        | (Done build, c2) =>
            (Done build,
             mkCaches (resolutionCache c2)
               (<[baseDirectory := Resolved build]> (buildCache c2)))
        | other => other
        end
    end.

(** The [for] loop of [crawlDependencies]. *)
Fixpoint crawlDependenciesLoop (crawlBuild : Crawler) (baseDir : string)
    (trace : list string) (specs : list string) (acc : DepsAcc) : M DepsAcc :=
  match specs with
  | [] => ret acc
  | spec :: rest =>
      let name := parseDependencyName spec in
      if decide (name ∈ trace) then
        crawlDependenciesLoop crawlBuild baseDir trace rest
          (mkDepsAcc (accDependencies acc)
             (accErrors acc ++ [formatCircularDependenciesError name trace])
             (accMissing acc))
      else
        let* resolution := resolveCached (name +:+ "/package.json") baseDir in
        match resolution with
        | None =>
            crawlDependenciesLoop crawlBuild baseDir trace rest
              (mkDepsAcc (accDependencies acc) (accErrors acc)
                 (accMissing acc ++ [name]))
        | Some dependencyPackageJsonPath =>
            let* build := crawlBuild dependencyPackageJsonPath trace in
            crawlDependenciesLoop crawlBuild baseDir trace rest
              (mkDepsAcc (mapSet build (accDependencies acc))
                 (accErrors acc ++ errors build)
                 (accMissing acc))
        end
  end.

Definition crawlDependencies (crawlBuild : Crawler) (baseDir : string)
    (specs : list string) (trace : list string)
  : M (list BuildSpec * list string) :=
  let* acc := crawlDependenciesLoop crawlBuild baseDir trace specs (mkDepsAcc [] [] []) in
  ret (accDependencies acc,
       match accMissing acc with
       | [] => accErrors acc
       | _ => accErrors acc ++ [formatMissingPackagesError (accMissing acc) trace]
       end).

Definition commandOf (e : list (string * value)) : option (list value) :=
  match getField "build" e with
  | None | Some JNull | Some JUndefined => None
  | Some (JArray items) => Some items
  | Some other => Some [other]
  end.

(** [crawlBuild]. [fuel] bounds the depth of the recursion through
    [context.crawlBuild]. *)
Fixpoint crawlBuild (fuel : nat) (packageJsonPath : string) (trace : list string)
  : M BuildSpec :=
  match fuel with
  | O => λ c, (OutOfFuel, c)
  | S fuel' =>
      let sourcePath := dirname host packageJsonPath in
      match readPackageJson packageJsonPath with
      | None => λ c, (Threw, c)
      | Some packageJson =>
          let isRootBuild := bool_decide (hostSandboxPath host = sourcePath) in
          let dependencySpecs :=
            objectToDependencySpecs
              [pjDependencies packageJson; pjPeerDependencies packageJson] in
          let* r := crawlDependencies (crawlBuildCached (crawlBuild fuel')) sourcePath
                dependencySpecs (trace ++ [pjName packageJson]) in
          let isInstalled := bool_decide (is_Some (_resolved packageJson)) in
          let source :=
            match _resolved packageJson with
            | Some url => if decide (url = "") then "local:" +:+ realpath host sourcePath
                          else url
            | None => "local:" +:+ realpath host sourcePath
            end in
          let id :=
            calculateBuildId sha1 (hostTestMode host) (hostEnv host) packageJson
              source r.1 in
          ret (mkBuildSpec id (pjName packageJson) (pjVersion packageJson)
                 (commandOf (esy packageJson))
                 (getField "exportedEnv" (esy packageJson))
                 (relative host (hostSandboxPath host) sourcePath)
                 (from_option truthy false (getField "buildsInSource" (esy packageJson)))
                 (negb (isRootBuild || negb isInstalled))
                 packageJson r.1 r.2)
      end
  end.

(** [fromDirectory(sandboxPath)]: the root build, or how the crawl ended. *)
Definition fromDirectory (fuel : nat) : Outcome BuildSpec :=
  (crawlBuild fuel (Path.join [hostSandboxPath host; "package.json"]) []
     (mkCaches ∅ ∅)).1.

End crawl.

End Sandbox.

(** ** Composing the ejected environment: [addEnvConfigForPackage] *)

Module Environment.
Import Text Types.

Record SeenVar := mkSeenVar {
  packageJsonPath : string;
  config : EnvironmentVarExport
}.

Record EnvironmentVar := mkEnvironmentVar {
  evName : string;
  evValue : option string;
  automaticDefault : bool
}.

(** [EnvironmentConfigState]. [seenVars] is an object used as a map from
    variable names to their last declaration; properties inherited from
    [Object.prototype] are not modelled. *)
Record EnvironmentConfigState := mkState {
  seenVars : gmap string SeenVar;
  errors : list string;
  normalizedEnvVars : list EnvironmentVar
}.

Section environment.
(** [fs.realpathSync], [pathIsInside] and [path.relative]. *)
Variable realpathSync : string → string.
Variable pathIsInside : string → string → bool.
Variable relative : string → string → string.

Definition relativeToSandbox (realFromPath toPath : string) : string :=
  let realToPath := realpathSync toPath in
  let toPathToUse :=
    if pathIsInside realFromPath realToPath then realToPath else toPath in
  let ret := relative realFromPath toPathToUse in
  if decide (ret = "0") then "$esy__sandbox" else "$esy__sandbox/" +:+ ret.

(** The message pushed when the variable was last set by a declaration
    with [exclusive:true]. *)
Definition overrideMessage (realPathSandboxRootOnEjectingHost packageName envVar : string)
    (seen : SeenVar) : string :=
  (if builtIn (config seen) then "Built-in variable " else "") +:+
  envVar +:+ " has already been set by " +:+
  relativeToSandbox realPathSandboxRootOnEjectingHost (packageJsonPath seen) +:+
  " " +:+
  "which configured it with exclusive:true. That means it wants to be the only one to set it. Yet "
  +:+ packageName +:+ " is trying to override it.".

(** The message pushed when the new declaration has [exclusive:true] and
    the variable exists already. *)
Definition exclusiveMessage (realPathSandboxRootOnEjectingHost packageName envVar : string)
    (seen : SeenVar) : string :=
  envVar +:+ " has already been set by " +:+
  relativeToSandbox realPathSandboxRootOnEjectingHost (packageJsonPath seen) +:+
  " " +:+ "and " +:+ packageName +:+ " has configured it with exclusive:true. " +:+
  "Sometimes you can reduce the likehood of conflicts by marking some packages as buildTimeOnlyDependencies.".

(** The errors pushed by one iteration of the loop of
    [addEnvConfigForPackage]: the two [if]s in their order. *)
Definition errorsForVar (seenVars : gmap string SeenVar)
    (realPathSandboxRootOnEjectingHost packageName : string)
    (entry : string * EnvironmentVarExport) : list string :=
  let envVar := entry.1 in
  let config := entry.2 in
  match seenVars !! envVar with
  | Some seen =>
      (if exclusive (Environment.config seen)
       then [overrideMessage realPathSandboxRootOnEjectingHost packageName envVar seen]
       else []) ++
      (if exclusive config
       then [exclusiveMessage realPathSandboxRootOnEjectingHost packageName envVar seen]
       else [])
  | None => []
  end.

(** One iteration of the loop, on the three [next...] accumulators. *)
Definition addEnvVar (seenVars : gmap string SeenVar)
    (realPathSandboxRootOnEjectingHost packageName packageJsonFilePath : string)
    (next : EnvironmentConfigState) (entry : string * EnvironmentVarExport)
  : EnvironmentConfigState :=
  let envVar := entry.1 in
  let config := entry.2 in
  mkState
    (<[envVar := mkSeenVar
                   (if decide (packageJsonFilePath = "") then "unknownPackage"
                    else packageJsonFilePath)
                   config]> (Environment.seenVars next))
    (errors next ++
     errorsForVar seenVars realPathSandboxRootOnEjectingHost packageName entry)
    (normalizedEnvVars next ++ [mkEnvironmentVar envVar (val config) (builtIn config)]).

(** [addEnvConfigForPackage]; [exportedEnv] is the object in the order of
    its keys. [{...seenVars, ...nextSeenVars}] lets the new declarations
    win. *)
Definition addEnvConfigForPackage (st : EnvironmentConfigState)
    (realPathSandboxRootOnEjectingHost packageName packageJsonFilePath : string)
    (exportedEnv : list (string * EnvironmentVarExport)) : EnvironmentConfigState :=
  let next :=
    fold_left
      (addEnvVar (seenVars st) realPathSandboxRootOnEjectingHost packageName
         packageJsonFilePath)
      exportedEnv (mkState ∅ [] []) in
  mkState (Environment.seenVars next ∪ seenVars st)
    (errors st ++ errors next)
    (normalizedEnvVars st ++ normalizedEnvVars next).

End environment.

End Environment.

(** ** [src/esy/lib/fs.js]: the checksum of modification times *)

Module FsLib.
Import Text.

(** What [walkdir] finds below a directory: regular files with their
    modification time (in milliseconds) and content, directories, and
    everything else. *)
#[warnings="-register-all"]
Inductive Tree :=
| File (mtime : Z) (content : string)
| Dir (entries : list (string * Tree))
| Other.

Record Stat := mkStat {
  isFile : bool;
  mtime_getTime : Z
}.

Definition statOf (t : Tree) : Stat :=
  match t with
  | File mtime _ => mkStat true mtime
  | Dir _ => mkStat false 0
  | Other => mkStat false 0
  end.

Section walk.
(** The paths handed to [w.ignore] by the listener. *)
Variable ignore : string → bool.

(** The ['path'] events of [walkdir(dirname)]: one for every entry below
    [dirname], with its absolute name and its [stat]; a directory is
    entered unless the listener has called [w.ignore] on it. *)
Fixpoint walkTree (name : string) (t : Tree) : list (string * Stat) :=
  (name, statOf t) ::
  match t with
  | Dir entries =>
      if ignore name then []
      else flat_map (λ e, match e with
                          | (n, sub) => walkTree (name +:+ "/" +:+ n) sub
                          end) entries
  | _ => []
  end.

Definition walkDir (dirname : string) (entries : list (string * Tree))
  : list (string * Stat) :=
  flat_map (λ e, match e with
                 | (n, sub) => walkTree (dirname +:+ "/" +:+ n) sub
                 end) entries.

End walk.

(** [mtimes.set(name, value)] on a [Map] kept as its entries in insertion
    order. *)
Fixpoint mapSet (name value : string) (m : list (string * string))
  : list (string * string) :=
  match m with
  | [] => [(name, value)]
  | (k, v) :: rest =>
      if decide (k = name) then (k, value) :: rest
      else (k, v) :: mapSet name value rest
  end.

(** [mtimes.get(name) || '']. *)
Fixpoint mapGet (name : string) (m : list (string * string)) : string :=
  match m with
  | [] => ""
  | (k, v) :: rest => if decide (k = name) then v else mapGet name rest
  end.

(** The same tree with the content of every file changed by [f]. *)
Fixpoint mapContents (f : string → string) (t : Tree) : Tree :=
  match t with
  | File mtime content => File mtime (f content)
  | Dir entries =>
      Dir (map (λ e, match e with (n, sub) => (n, mapContents f sub) end) entries)
  | Other => Other
  end.

Definition mapContentsOfEntries (f : string → string)
    (entries : list (string * Tree)) : list (string * Tree) :=
  map (λ e, match e with (n, sub) => (n, mapContents f sub) end) entries.

(** The listener of ['path']: files are recorded with [String(mtime)]. *)
Definition onPath (mtimes : list (string * string)) (ev : string * Stat)
  : list (string * string) :=
  if isFile ev.2 then mapSet ev.1 (pretty (mtime_getTime ev.2)) mtimes
  else mtimes.

(** The strings fed to the hasher by the listener of ['end'], in the order
    of the sorted names. *)
Definition mtimeSequence (events : list (string * Stat)) : list string :=
  let mtimes := fold_left onPath events [] in
  let filenames := merge_sort String.le (map fst mtimes) in
  map (λ filename, mapGet filename mtimes) filenames.

(** The reading of the specification: the modification times of the
    files, as strings, in the order of the sorted paths. *)
Definition byName (a b : string * Stat) : Prop := String.le a.1 b.1.

Global Instance byName_dec : RelDecision byName.
Proof. intros a b. unfold byName. apply _. Defined.

Global Instance byName_transitive : Transitive byName.
Proof. intros a b c. unfold byName. apply transitivity. Qed.

Global Instance byName_total : Total byName.
Proof. intros a b. unfold byName. apply total, _. Qed.

Definition mtimeString (e : string * Stat) : string := pretty (mtime_getTime e.2).

Definition entryOf (e : string * Stat) : string * string := (e.1, mtimeString e).

Definition sortedFileMtimes (events : list (string * Stat)) : list string :=
  map mtimeString (merge_sort byName (List.filter (λ e, isFile e.2) events)).

(** Renaming the paths of a walk. *)
Definition renameEvents (rename : string → string) (events : list (string * Stat))
  : list (string * Stat) :=
  map (λ e, (rename e.1, e.2)) events.

(** A renaming that keeps the order of the names. *)
Definition orderPreserving (rename : string → string) : Prop :=
  (∀ a b, rename a = rename b → a = b)
  ∧ (∀ a b, String.le a b → String.le (rename a) (rename b)).

Section checksum.
Variable sha1 : string → string.

(** A hasher is determined by the concatenation of its updates. *)
Definition digestOfUpdates (updates : list string) : string :=
  sha1 (fold_left (λ acc u, acc +:+ u) updates "").

Definition checksumOfEvents (events : list (string * Stat)) : string :=
  digestOfUpdates (mtimeSequence events).

(** [calculateMtimeChecksum(dirname, {ignore})] on a directory with the
    given entries. *)
Definition calculateMtimeChecksum (dirname : string) (ignore : string → bool)
    (entries : list (string * Tree)) : string :=
  checksumOfEvents (walkDir ignore dirname entries).

End checksum.

End FsLib.

(** ** A file system of paths *)

Module Fs.
Import Text.

Inductive Entry :=
| EFile (content : string)
| EDir.

(** [exists], [readFile] and [writeFile] of [util/fs]. Writing does not
    check the parent directory. *)
Definition exists_ (fs : gmap string Entry) (p : string) : bool :=
  bool_decide (is_Some (fs !! p)).

Definition readFile (fs : gmap string Entry) (p : string) : option string :=
  match fs !! p with
  | Some (EFile content) => Some content
  | _ => None
  end.

Definition writeFile (fs : gmap string Entry) (p content : string)
  : gmap string Entry :=
  <[p := EFile content]> fs.

End Fs.

(** ** [src/esy/builders/util.js]: rewriting a path inside a file *)

Module BuildersUtil.
Import Text Fs Async.

(** [needle] is at the start of [content]. *)
Fixpoint startsWith (needle content : chars) : bool :=
  match needle, content with
  | [], _ => true
  | n :: needle', c :: content' => Ascii.eqb n c && startsWith needle' content'
  | _ :: _, [] => false
  end.

(** [content.indexOf(needle)] on a buffer: the first offset at which the
    bytes of [needle] occur, [None] for [-1]. *)
Fixpoint indexOf (needle content : chars) : option nat :=
  if startsWith needle content then Some 0%nat
  else match content with
       | [] => None
       | _ :: rest => S <$> indexOf needle rest
       end.

(** The bytes of [s] laid over the start of [content]; what does not fit
    is dropped. *)
Fixpoint overlay (s content : chars) : chars :=
  match s, content with
  | x :: s', _ :: content' => x :: overlay s' content'
  | _, _ => content
  end.

(** [content.write(s, offset)]: the buffer keeps its length. *)
Fixpoint write (content s : chars) (offset : nat) : chars :=
  match offset, content with
  | O, _ => overlay s content
  | S o, c :: rest => c :: write rest s o
  | S _, [] => []
  end.

(** The [while] loop: [fuel] bounds the number of iterations, [None] is a
    loop that is still running when the fuel is used up. *)
Fixpoint rewriteLoop (fuel : nat) (content origPath destPath : chars)
  : option chars :=
  match indexOf origPath content with
  | None => Some content
  | Some offset =>
      match fuel with
      | O => None
      | S fuel' => rewriteLoop fuel' (write content destPath offset) origPath destPath
      end
  end.

(** A call of [fs.writeFile]. *)
Record WriteCall := mkWrite {
  writtenFile : string;
  writtenContent : string
}.

(** [rewritePathInFile]: the file system afterwards and the calls of
    [fs.writeFile] made. [fs.stat] throws on a path that does not exist. *)
Definition rewritePathInFile (fuel : nat) (fs : gmap string Entry)
    (filename origPath destPath : string)
  : Outcome (gmap string Entry * list WriteCall) :=
  match fs !! filename with
  | None => Threw
  | Some EDir => Done (fs, [])
  | Some (EFile content) =>
      let needRewrite :=
        bool_decide (is_Some (indexOf (of_string origPath) (of_string content))) in
      match rewriteLoop fuel (of_string content) (of_string origPath)
              (of_string destPath) with
      | None => OutOfFuel
      | Some content' =>
          if needRewrite then
            Done (writeFile fs filename (to_string content'),
                  [mkWrite filename (to_string content')])
          else Done (fs, [])
      end
  end.

End BuildersUtil.

(** ** [src/esy/builders/simple-builder.js]: the build driver *)

Module Driver.
Import Text Types Fs.

Record BuildTask := mkTask {
  taskId : string;
  spec : BuildSpec;
  taskEnv : list (string * string);
  taskCommand : option (list (string * string))
}.

Inductive BuildTaskState :=
| InProgress
| Success (timeEllapsed : option Z) (cached forced : bool)
| Failure (error : string).

(** What the driver does that can be observed: the calls of
    [onTaskStatus], of [performBuild] and of [writeStoreChecksum]. *)
Inductive Event :=
| TaskStatus (task : string) (status : BuildTaskState)
| PerformBuild (task : string)
| WriteStoreChecksum (task : string) (checksum : string).

(** The outside of the driver: the files of the stores and what [walkdir]
    finds below a source directory. *)
Record World := mkWorld {
  files : gmap string Entry;
  sourceTree : string → list (string * FsLib.Tree)
}.

Record DriverState := mkDriver {
  world : World;
  taskInProgress : gmap string BuildTaskState;
  events : list Event
}.

Definition IGNORE_FOR_CHECKSUM : list string :=
  ["node_modules"; "_build"; "_install"; "_esy"].

Section driver.
Variable sha1 : string → string.
Variable config : Config.BuildConfig.
(** [performBuild(task, config, sandbox)]: the world afterwards and the
    error thrown, if any; and the time it took. *)
Variable performBuild : BuildTask → World → option string * World.
Variable elapsed : BuildTask → World → Z.

Definition cachedSuccessStatus : BuildTaskState := Success None true false.

Definition isSpecExistsInStore (w : World) (spec : BuildSpec) : bool :=
  exists_ (files w) (Config.getFinalInstallPath config spec []).

Definition ignoreForChecksum (spec : BuildSpec) (name : string) : bool :=
  bool_decide
    (name ∈ map (λ s, Config.getSourcePath config spec [s]) IGNORE_FOR_CHECKSUM).

Definition calculateSourceChecksum (w : World) (spec : BuildSpec) : string :=
  FsLib.calculateMtimeChecksum sha1 (Config.getSourcePath config spec [])
    (ignoreForChecksum spec)
    (sourceTree w (Config.getSourcePath config spec [])).

Definition readSourceChecksum (w : World) (spec : BuildSpec) : option string :=
  let checksumFilename := Config.getBuildPath config spec ["_esy"; "checksum"] in
  if exists_ (files w) checksumFilename then
    trim <$> readFile (files w) checksumFilename
  else None.

Definition writeStoreChecksum (task : BuildTask) (checksum : string)
    (st : DriverState) : DriverState :=
  let checksumFilename :=
    Config.getBuildPath config (spec task) ["_esy"; "checksum"] in
  mkDriver
    (mkWorld (writeFile (files (world st)) checksumFilename (trim checksum))
       (sourceTree (world st)))
    (taskInProgress st)
    (events st ++ [WriteStoreChecksum (taskId task) (trim checksum)]).

Definition onTaskStatus (task : BuildTask) (status : BuildTaskState)
    (st : DriverState) : DriverState :=
  mkDriver (world st) (taskInProgress st)
    (events st ++ [TaskStatus (taskId task) status]).

(** [performBuildWithStatusReport(task, forced)], run to completion. *)
Definition performBuildWithStatusReport (task : BuildTask) (forced : bool)
    (st : DriverState) : BuildTaskState * DriverState :=
  let st1 := onTaskStatus task InProgress st in
  let st2 := mkDriver (world st1) (taskInProgress st1)
               (events st1 ++ [PerformBuild (taskId task)]) in
  match performBuild task (world st2) with
  | (Some error, w) =>
      let state := Failure error in
      (state, onTaskStatus task state (mkDriver w (taskInProgress st2) (events st2)))
  | (None, w) =>
      let state := Success (Some (elapsed task (world st2))) false forced in
      (state, onTaskStatus task state (mkDriver w (taskInProgress st2) (events st2)))
  end.

(** [performBuildMemoized(task, forced)]. The promise kept in
    [taskInProgress] is represented by the state it settles to. *)
Definition performBuildMemoized (task : BuildTask) (forced : bool)
    (st : DriverState) : BuildTaskState * DriverState :=
  match taskInProgress st !! taskId task with
  | Some inProgress => (inProgress, st)
  | None =>
      let '(inProgress, st') :=
        if forced then
          if shouldBePersisted (spec task) then
            performBuildWithStatusReport task true st
          else
            let '(result, st1) := performBuildWithStatusReport task true st in
            let currentChecksum := calculateSourceChecksum (world st1) (spec task) in
            (result, writeStoreChecksum task currentChecksum st1)
        else
          let isInStore := isSpecExistsInStore (world st) (spec task) in
          if shouldBePersisted (spec task) && isInStore then
            (cachedSuccessStatus, onTaskStatus task cachedSuccessStatus st)
          else if negb (shouldBePersisted (spec task)) then
            let currentChecksum := calculateSourceChecksum (world st) (spec task) in
            if isInStore &&
               bool_decide (readSourceChecksum (world st) (spec task)
                            = Some currentChecksum) then
              (cachedSuccessStatus, onTaskStatus task cachedSuccessStatus st)
            else
              let '(result, st1) := performBuildWithStatusReport task true st in
              (result, writeStoreChecksum task currentChecksum st1)
          else
            performBuildWithStatusReport task false st in
      (inProgress,
       mkDriver (world st') (<[taskId task := inProgress]> (taskInProgress st'))
         (events st'))
  end.

Definition isFailure (state : BuildTaskState) : bool :=
  match state with Failure _ => true | _ => false end.

Definition isForcedSuccess (state : BuildTaskState) : bool :=
  match state with Success _ _ forced => forced | _ => false end.

(** The function folded over the task graph by [build]; [states] are the
    settled states of the direct dependencies of [task]. *)
Definition buildStep (states : list BuildTaskState) (task : BuildTask)
    (st : DriverState) : BuildTaskState * DriverState :=
  if existsb isFailure states then
    (Failure "dependencies are not built", st)
  else if existsb isForcedSuccess states then
    performBuildMemoized task true st
  else
    performBuildMemoized task false st.

End driver.

End Driver.

(** ** [src/esy/graph.js] *)

Module Graph.

(** [type Node<N> = {id: string, dependencies: N[]}]. *)
#[warnings="-register-all"]
Inductive Node := mkNode {
  id : string;
  dependencies : list Node
}.

Section traverseDeepFirst.
Context {A : Type}.
(** The callback [f] is run for its effect; the effect is a change of a
    state of type [A]. *)
Variable f : Node → A → A.

(** The inner [traverse] of [traverseDeepFirst]: [seen] and the state of
    the callback are threaded through the recursion. *)
Fixpoint traverse (node : Node) (st : gset string * A) : gset string * A :=
  match node with
  | mkNode nid deps =>
      if decide (nid ∈ st.1) then st
      else
        let st1 := ({[nid]} ∪ st.1, st.2) in
        let st2 := fold_left (λ st dep, traverse dep st) deps st1 in
        (st2.1, f node st2.2)
  end.

Definition traverseDeepFirst (node : Node) (a : A) : A :=
  (traverse node (∅, a)).2.

End traverseDeepFirst.

(** The callback of [collectTransitiveDependencies]. The source tests
    [cur !== node] on object identity. [traverse] hands a node to the
    callback only when its id was not seen before, and the id of the root is
    the first to be marked, so the only node with the root's id that
    reaches the callback is the root itself: comparing ids decides the
    test. *)
Definition pushUnlessRoot (root cur : Node) (acc : list Node) : list Node :=
  if decide (id cur = id root) then acc else acc ++ [cur].

Definition collectTransitiveDependencies (node : Node) : list Node :=
  rev (traverseDeepFirst (pushUnlessRoot node) node []).

(** [m] is a direct or indirect dependency of [n]. *)
Inductive dependsOn : Node → Node → Prop :=
| dependsOn_direct n m : In m (dependencies n) → dependsOn n m
| dependsOn_trans n d m : In d (dependencies n) → dependsOn d m → dependsOn n m.

(** Every node of the graph below [root] is uniquely keyed by its id. *)
Definition uniqueIds (root : Node) : Prop :=
  ∀ n m, (n = root ∨ dependsOn root n) → (m = root ∨ dependsOn root m) →
         id n = id m → n = m.

End Graph.

(** ** [src/esy/util.js]: helpers on Maps and objects *)

Module Collections.

Section maps.
Context {K V : Type} `{EqDecision K}.

(** An ES6 [Map] is the list of its entries in insertion order.
    [map.get(key)], [None] for [undefined]. *)
Fixpoint get (key : K) (map : list (K * V)) : option V :=
  match map with
  | [] => None
  | (k, v) :: rest => if decide (k = key) then Some v else get key rest
  end.

(** [map.set(key, value)]: the entry of an existing key keeps its place. *)
Fixpoint set (key : K) (value : V) (map : list (K * V)) : list (K * V) :=
  match map with
  | [] => [(key, value)]
  | (k, v) :: rest =>
      if decide (k = key) then (k, value) :: rest else (k, v) :: set key value rest
  end.

(** [v == null] for a value of the map. *)
Variable isNull : V → bool.

(** [map.get(key) == null]. *)
Definition missing (key : K) (map : list (K * V)) : bool :=
  match get key map with
  | Some v => isNull v
  | None => true
  end.

(** [setDefaultToMap(map, key, makeDefaultValue)]: the value returned and
    the map afterwards. *)
Definition setDefaultToMap (map : list (K * V)) (key : K)
    (makeDefaultValue : unit → V) : V * list (K * V) :=
  match get key map with
  | Some existingValue =>
      if isNull existingValue then
        let value := makeDefaultValue () in (value, set key value map)
      else (existingValue, map)
  | None => let value := makeDefaultValue () in (value, set key value map)
  end.

(** [filterMap(map, filter)]. *)
Definition filterMap (map : list (K * V)) (filter : V → K → bool) : list (K * V) :=
  fold_left (λ res kv, if filter kv.2 kv.1 then set kv.1 kv.2 res else res) map [].

(** One iteration of the loop of [mergeIntoMap]. *)
Definition mergeEntry (merge : option (V → V → K → V)) (src : list (K * V))
    (kv : K * V) : list (K * V) :=
  match get kv.1 src, merge with
  | Some prev, Some mergeFn =>
      if isNull prev then set kv.1 kv.2 src
      else set kv.1 (mergeFn prev kv.2 kv.1) src
  | _, _ => set kv.1 kv.2 src
  end.

(** [mergeIntoMap(src, from, merge)]: [src] afterwards. *)
Definition mergeIntoMap (src from : list (K * V)) (merge : option (V → V → K → V))
  : list (K * V) :=
  fold_left (mergeEntry merge) from src.

End maps.

(** [mapObject(obj, f)]: an object is the list of its properties in the
    order of [for ... in]. *)
Definition mapObject {A B : Type} (obj : list (string * A)) (f : A → string → B)
  : list (string * B) :=
  fold_left (λ nextObj kv, set kv.1 (f kv.2 kv.1) nextObj) obj [].

(** [flattenArray(arrayOfArrays)]. *)
Definition flattenArray {T : Type} (arrayOfArrays : list (list T)) : list T :=
  concat arrayOfArrays.

End Collections.

(** ** The environment of a build: validation, built-in variables, rendering *)

Module Validation.
Import Text Types.

(** [String.prototype.toUpperCase] on the ASCII range. *)
Definition upper_char (c : ascii) : ascii :=
  let n := nat_of_ascii c in
  if (97 <=? n)%nat && (n <=? 122)%nat then ascii_of_nat (n - 32) else c.

Definition toUpperCase (s : chars) : chars := map upper_char s.

(** [getScopes(config)]: the keys of the object returned; each of them
    holds [true]. *)
Definition getScopes (config : EnvironmentVarExport) : list string :=
  match scope config with
  | None => []
  | Some s => if decide (s = "") then [] else map to_string (split "|" (of_string s))
  end.

(** [scopeObj.global], as a condition. *)
Definition isGlobal (config : EnvironmentVarExport) : bool :=
  bool_decide ("global" ∈ getScopes config).

Definition newline : string := String (ascii_of_nat 10) "".

Definition scopesFieldMessage (buildName envVar : string) : string :=
  envVar +:+ " has a field 'scopes' (plural). You probably meant 'scope'." +:+ newline
  +:+ "The owner of " +:+ buildName +:+ " likely made a mistake.".

Definition wrongCapitalizationMessage (buildName envVar prefix : string) : string :=
  "It looks like " +:+ envVar +:+
  " is trying to be configured as a package scoped variable, but it has the wrong capitalization. It should begin with "
  +:+ prefix +:+ ".  The owner of " +:+ buildName +:+ " likely made a mistake.".

Definition notPrefixedMessage (buildName envVar prefix : string) : string :=
  "Environment variable " +:+ envVar +:+ "  doesn't begin with " +:+ prefix +:+
  " but it is not marked as 'global'. You should either prefix variables with "
  +:+ prefix +:+ " or make them global." +:+ newline
  +:+ "The author of " +:+ buildName +:+ " likely made a mistake".

Definition stepsOnPackageMessage (buildName envVar : string) : string :=
  envVar +:+
  " looks like it's trying to step on another package because it has a double underscore - which is how we express namespaced env vars. The package owner for "
  +:+ buildName +:+ " likely made a mistake".

(** [s.indexOf(prefix) === 0]. *)
Definition beginsWith (prefix s : string) : bool :=
  BuildersUtil.startsWith (of_string prefix) (of_string s).

(** [validatePackageJsonExportedEnvVar(build, envVar, config)];
    [hasScopes] is [config.scopes !== undefined]. *)
Definition validatePackageJsonExportedEnvVar (buildName envVar : string)
    (hasScopes : bool) (config : EnvironmentVarExport) : list string :=
  let envVarConfigPrefix := Util.normalizePackageName buildName in
  let beginsWithPackagePrefix := beginsWith envVarConfigPrefix envVar in
  let ret := if hasScopes then [scopesFieldMessage buildName envVar] else [] in
  if negb (isGlobal config) then
    if negb beginsWithPackagePrefix then
      if BuildersUtil.startsWith (of_string envVarConfigPrefix)
           (toUpperCase (of_string envVar))
      then ret ++ [wrongCapitalizationMessage buildName envVar envVarConfigPrefix]
      else ret ++ [notPrefixedMessage buildName envVar envVarConfigPrefix]
    else ret
  else
    if negb beginsWithPackagePrefix
       && bool_decide (is_Some (BuildersUtil.indexOf (of_string "__") (of_string envVar)))
    then ret ++ [stepsOnPackageMessage buildName envVar]
    else ret.

(** [builtIn(val)] of [builtInsPerPackage]. *)
Definition builtIn (val : option string) : EnvironmentVarExport :=
  mkExport val None true true.

(** [builtInsPerPackage(config, build, currentlyBuilding)]: the properties
    of the object in the order they are written. *)
Definition builtInsPerPackage (config : Config.BuildConfig) (build : BuildSpec)
    (currentlyBuilding : bool) : list (string * EnvironmentVarExport) :=
  let prefix :=
    if currentlyBuilding then "cur" else Util.normalizePackageName (name build) in
  let sub (dir : string) := builtIn (Some ("$" +:+ prefix +:+ "__install/" +:+ dir)) in
  [ (prefix +:+ "__name", builtIn (Some (name build)));
    (prefix +:+ "__version",
     builtIn (match version build with
              | Some v => if decide (v = "") then None else Some v
              | None => None
              end));
    (prefix +:+ "__root",
     builtIn (Some (if currentlyBuilding && mutatesSourcePath build
                    then Config.getBuildPath config build []
                    else Config.getRootPath config build [])));
    (prefix +:+ "__depends",
     builtIn (Some (joinStrings " " (map name (dependencies build)))));
    (prefix +:+ "__target_dir", builtIn (Some (Config.getBuildPath config build [])));
    (prefix +:+ "__install",
     builtIn (Some (if currentlyBuilding
                    then Config.getInstallPath config build []
                    else Config.getFinalInstallPath config build [])));
    (prefix +:+ "__bin", sub "bin");
    (prefix +:+ "__sbin", sub "sbin");
    (prefix +:+ "__lib", sub "lib");
    (prefix +:+ "__man", sub "man");
    (prefix +:+ "__doc", sub "doc");
    (prefix +:+ "__stublibs", sub "stublibs");
    (prefix +:+ "__toplevel", sub "toplevel");
    (prefix +:+ "__share", sub "share");
    (prefix +:+ "__etc", sub "etc") ].

End Validation.

(** ** [renderWithScope]: substitution of [$name] *)

Module Scope.
Import Text.

(** The class [[a-zA-Z0-9_]] of [FIND_VAR_RE]. *)
Definition isVarChar (c : ascii) : bool :=
  let n := nat_of_ascii c in
  ((48 <=? n)%nat && (n <=? 57)%nat)
  || ((65 <=? n)%nat && (n <=? 90)%nat)
  || ((97 <=? n)%nat && (n <=? 122)%nat)
  || (n =? 95)%nat.

(** The longest run of name characters at the start of [s], and what
    follows it: the group [([a-zA-Z0-9_]+)] is greedy. *)
Fixpoint takeName (s : chars) : chars * chars :=
  match s with
  | c :: rest =>
      if isVarChar c then
        let '(name, after) := takeName rest in (c :: name, after)
      else ([], s)
  | [] => ([], [])
  end.

(** The replacer of [renderWithScope]: the value of the variable in the
    scope, or the match itself. *)
Definition replacement (scope : gmap string string) (name : chars) : chars :=
  match scope !! to_string name with
  | Some value => of_string value
  | None => "$"%char :: name
  end.

(** [value.replace(FIND_VAR_RE, replacer)]: the matches are found from
    left to right, what replaces a match is not searched again, and a
    [$] that no name follows is no match. Every step consumes a
    character, so [fuel] is the length of what is left to scan. *)
Fixpoint replaceVars (scope : gmap string string) (fuel : nat) (s : chars) : chars :=
  match fuel with
  | O => s
  | S fuel' =>
      match s with
      | [] => []
      | c :: rest =>
          if Ascii.eqb c "$" then
            match takeName rest with
            | ([], _) => c :: replaceVars scope fuel' rest
            | (name, after) => replacement scope name ++ replaceVars scope fuel' after
            end
          else c :: replaceVars scope fuel' rest
      end
  end.

(** [renderWithScope(value, scope).rendered]. *)
Definition renderWithScope (value : string) (scope : gmap string string) : string :=
  to_string (replaceVars scope (String.length value) (of_string value)).

End Scope.

(** ** [src/esy/graph.js]: the breadth-first traversal *)

Module Breadth.
Import Graph.

Section traverse.
Context {A : Type}.
(** The callback [f], as a change of a state of type [A]. *)
Variable f : Node → A → A.

(** The [while] loop of [traverse]: [queue.shift()] takes the first node,
    [queue.push(...cur.dependencies)] puts its dependencies at the end.
    [fuel] bounds the number of iterations, [None] is a loop that is
    still running when the fuel is used up. *)
Fixpoint loop (fuel : nat) (queue : list Node) (seen : gset string) (a : A)
  : option A :=
  match queue with
  | [] => Some a
  | cur :: rest =>
      match fuel with
      | O => None
      | S fuel' =>
          if decide (id cur ∈ seen) then loop fuel' rest seen a
          else loop fuel' (rest ++ dependencies cur) ({[id cur]} ∪ seen) (f cur a)
      end
  end.

Definition traverse (fuel : nat) (node : Node) (a : A) : option A :=
  loop fuel [node] ∅ a.

End traverse.

End Breadth.

(** ** [topologicalFold] over arrays of dependencies

    The sources hold more than one revision of this function. This is the
    one that looks its node up in [memoized] first and keeps [seen] and
    [need] for every call. *)

Module Fold.
Import Graph.

Section topologicalFold.
Context {V S : Type}.
(** [value == null]. *)
Variable isNull : V → bool.
(** The function that is folded. It may act on the world around it, whose
    state is of type [S]. *)
Variable f : list V → list V → Node → S → V * S.

(** The variables of one call of [topologicalFoldImpl] that the callback
    it hands down can change. *)
Record Frame := mkFrame {
  directDependencies : list V;
  allDependencies : list V;
  seen : gset string;
  need : gset string
}.

(** The body of that callback, before it calls [onNode]: the changes to
    the frame it was made in. *)
Definition onDependency (value : V) (node : Node) (fr : Frame) : Frame :=
  let fr1 :=
    if decide (id node ∈ seen fr) then fr
    else mkFrame (directDependencies fr) (allDependencies fr ++ [value])
           ({[id node]} ∪ seen fr) (need fr) in
  if decide (id node ∈ need fr1) then
    mkFrame (directDependencies fr1 ++ [value]) (allDependencies fr1) (seen fr1)
      (need fr1 ∖ {[id node]})
  else fr1.

(** The state of a fold: the world, the [memoized] map and the frames of
    the calls that are running, the innermost first. *)
Record State := mkState {
  world : S;
  memoized : gmap string V;
  frames : list Frame
}.

(** [onNode(value, node)]: the callback of the innermost call changes its
    frame and calls the callback it was given itself, and so on up to
    [value => value]: every frame is changed, and the value comes back. *)
Definition onNode (value : V) (node : Node) (st : State) : State :=
  mkState (world st) (memoized st) (map (onDependency value node) (frames st)).

(** [memoized.get(node.id)], when it is not null. *)
Definition cachedValue (node : Node) (st : State) : option V :=
  match memoized st !! id node with
  | Some cached => if isNull cached then None else Some cached
  | None => None
  end.

(** [topologicalFoldImpl(node, f, memoized, onNode)]: the value returned
    and the state afterwards. *)
Fixpoint topologicalFoldImpl (node : Node) (st : State) : V * State :=
  match node with
  | mkNode nid deps =>
      match cachedValue (mkNode nid deps) st with
      | Some cached => (cached, onNode cached (mkNode nid deps) st)
      | None =>
          let frame := mkFrame [] [] ∅ (list_to_set (map id deps)) in
          let st1 :=
            fold_left (λ st dep, (topologicalFoldImpl dep st).2) deps
              (mkState (world st) (memoized st) (frame :: frames st)) in
          let frame1 := hd frame (frames st1) in
          let '(value, w) :=
            f (directDependencies frame1) (allDependencies frame1)
              (mkNode nid deps) (world st1) in
          (value,
           onNode value (mkNode nid deps)
             (mkState w (<[nid := value]> (memoized st1)) (tl (frames st1))))
      end
  end.

(** [topologicalFold(node, f)]: the value and the world afterwards. *)
Definition topologicalFold (node : Node) (s : S) : V * S :=
  let '(value, st) := topologicalFoldImpl node (mkState s ∅ []) in
  (value, world st).

End topologicalFold.

End Fold.

(** ** [src/esy/graph.js]: [topologicalFold]

    The revision of [src/esy/graph.js]: a call looks the dependencies of
    its node up in [memoized], not its node, and a memoized dependency is
    not reported to the callers above. *)

Module GraphJsFold.
Import Graph.

Section topologicalFold.
Context {V S : Type}.
(** [value == null]. *)
Variable isNull : V → bool.
(** The function that is folded. It may act on the world around it, whose
    state is of type [S]. *)
Variable f : list V → list V → Node → S → V * S.

(** The variables of one call of [topologicalFoldImpl] that its loop and
    the callback it hands down change. *)
Record Frame := mkFrame {
  directDependencies : list V;
  allDependencies : list V;
  seen : gset string;
  toVisit : gset string
}.

(** [toVisit.delete(id)], when it returns true. *)
Definition deleteToVisit (k : string) (fr : Frame) : Frame :=
  mkFrame (directDependencies fr) (allDependencies fr) (seen fr) (toVisit fr ∖ {[k]}).

(** [directDependencies.push(value)]. *)
Definition pushDirect (value : V) (fr : Frame) : Frame :=
  mkFrame (directDependencies fr ++ [value]) (allDependencies fr) (seen fr) (toVisit fr).

(** The body of the callback, before it calls [onNode]: the changes to
    the frame it was made in. *)
Definition onDependency (value : V) (dep : Node) (fr : Frame) : Frame :=
  let fr1 :=
    if decide (id dep ∈ toVisit fr) then pushDirect value (deleteToVisit (id dep) fr)
    else fr in
  let fr2 :=
    if decide (id dep ∈ seen fr1) then fr1
    else mkFrame (directDependencies fr1) (allDependencies fr1 ++ [value])
           (seen fr1) (toVisit fr1) in
  mkFrame (directDependencies fr2) (allDependencies fr2) ({[id dep]} ∪ seen fr2)
    (toVisit fr2).

(** The state of a fold: the world, the [memoized] map and the frames of
    the calls above the running one, the innermost first. *)
Record State := mkState {
  world : S;
  memoized : gmap string V;
  frames : list Frame
}.

(** [onNode(value, node)]: the callback of the call above changes its
    frame and calls the callback it was given itself, and so on up to
    [value => value]: every frame is changed, and the value comes back. *)
Definition onNode (value : V) (node : Node) (st : State) : State :=
  mkState (world st) (memoized st) (map (onDependency value node) (frames st)).

(** [memoized.get(dep.id)], when it is not null. *)
Definition memoizedValue (dep : Node) (st : State) : option V :=
  match memoized st !! id dep with
  | Some value => if isNull value then None else Some value
  | None => None
  end.

(** One turn of the [for] loop of [topologicalFoldImpl], [fr] being the
    frame of the call that runs the loop and [impl] the recursive call.
    While the call for [dep] runs, that frame is the first of the frames
    its callback changes. *)
Definition visitDependency (impl : Node → State → V * State)
    (loop : Frame * State) (dep : Node) : Frame * State :=
  let '(fr, st) := loop in
  if decide (id dep ∈ toVisit fr) then
    let fr1 := deleteToVisit (id dep) fr in
    match memoizedValue dep st with
    | Some value => (pushDirect value fr1, st)
    | None =>
        let '(value, st1) :=
          impl dep (mkState (world st) (memoized st) (fr1 :: frames st)) in
        (pushDirect value (hd fr1 (frames st1)),
         mkState (world st1) (<[id dep := value]> (memoized st1)) (tl (frames st1)))
    end
  else loop.

(** [topologicalFoldImpl(node, f, memoized, onNode)]: the value returned
    and the state afterwards. *)
Fixpoint topologicalFoldImpl (node : Node) (st : State) : V * State :=
  match node with
  | mkNode nid deps =>
      let frame := mkFrame [] [] ∅ (list_to_set (map id deps)) in
      let '(fr, st1) :=
        fold_left (visitDependency topologicalFoldImpl) deps (frame, st) in
      let '(value, w) :=
        f (directDependencies fr) (allDependencies fr) (mkNode nid deps) (world st1) in
      (value, onNode value (mkNode nid deps) (mkState w (memoized st1) (frames st1)))
  end.

(** [topologicalFold(node, f)]: the value and the world afterwards. *)
Definition topologicalFold (node : Node) (s : S) : V * S :=
  let '(value, st) := topologicalFoldImpl node (mkState s ∅ []) in
  (value, world st).

End topologicalFold.

End GraphJsFold.

(** ** [topologicalFold] over Maps of dependencies

    The revision of the graph functions in which [dependencies] is a
    [Map<string, N>] and the folded function is given Maps from ids to
    values. A Map is kept as the list of its entries in insertion
    order. *)

Module MapFold.

(** [type Node<N> = {id: string, dependencies: Map<string, N>}]. *)
#[warnings="-register-all"]
Inductive Node := mkNode {
  id : string;
  dependencies : list (string * Node)
}.

Section topologicalFold.
Context {V S : Type}.
(** [value == null]. *)
Variable isNull : V → bool.
(** The function that is folded. It may act on the world around it, whose
    state is of type [S]. *)
Variable f : list (string * V) → list (string * V) → Node → S → V * S.

(** [map.has(key)]. *)
Definition has (key : string) (map : list (string * V)) : bool :=
  bool_decide (key ∈ map.*1).

(** The variables of one call of [topologicalFoldImpl] that the callback
    it hands down can change. *)
Record Frame := mkFrame {
  directDependencies : list (string * V);
  allDependencies : list (string * V);
  need : gset string
}.

(** The body of that callback, before it calls [onNode]: the changes to
    the frame it was made in. [set] on a key that the Map does not have
    adds an entry at the end. *)
Definition onDependency (value : V) (node : Node) (fr : Frame) : Frame :=
  let fr1 :=
    if has (id node) (allDependencies fr) then fr
    else mkFrame (directDependencies fr) (allDependencies fr ++ [(id node, value)])
           (need fr) in
  if decide (id node ∈ need fr1) then
    let fr2 :=
      mkFrame (directDependencies fr1) (allDependencies fr1) (need fr1 ∖ {[id node]}) in
    if has (id node) (directDependencies fr2) then fr2
    else mkFrame (directDependencies fr2 ++ [(id node, value)]) (allDependencies fr2)
           (need fr2)
  else fr1.

(** The state of a fold: the world, the [memoized] map and the frames of
    the calls that are running, the innermost first. *)
Record State := mkState {
  world : S;
  memoized : gmap string V;
  frames : list Frame
}.

(** [onNode(value, node)]: the callback of the innermost call changes its
    frame and calls the callback it was given itself, and so on up to
    [value => value]: every frame is changed, and the value comes back. *)
Definition onNode (value : V) (node : Node) (st : State) : State :=
  mkState (world st) (memoized st) (map (onDependency value node) (frames st)).

(** [memoized.get(node.id)], when it is not null. *)
Definition cachedValue (node : Node) (st : State) : option V :=
  match memoized st !! id node with
  | Some cached => if isNull cached then None else Some cached
  | None => None
  end.

(** [topologicalFoldImpl(node, f, memoized, onNode)]: the value returned
    and the state afterwards. *)
Fixpoint topologicalFoldImpl (node : Node) (st : State) : V * State :=
  match node with
  | mkNode nid deps =>
      match cachedValue (mkNode nid deps) st with
      | Some cached => (cached, onNode cached (mkNode nid deps) st)
      | None =>
          let frame := mkFrame [] [] (list_to_set (map fst deps)) in
          let st1 :=
            fold_left (λ st dep, (topologicalFoldImpl dep.2 st).2) deps
              (mkState (world st) (memoized st) (frame :: frames st)) in
          let frame1 := hd frame (frames st1) in
          let '(value, w) :=
            f (directDependencies frame1) (allDependencies frame1)
              (mkNode nid deps) (world st1) in
          (value,
           onNode value (mkNode nid deps)
             (mkState w (<[nid := value]> (memoized st1)) (tl (frames st1))))
      end
  end.

(** [topologicalFold(node, f)]: the value and the world afterwards. *)
Definition topologicalFold (node : Node) (s : S) : V * S :=
  let '(value, st) := topologicalFoldImpl node (mkState s ∅ []) in
  (value, world st).

End topologicalFold.

End MapFold.

(** ** Concrete inputs used in the examples *)

(** A digest function for the examples: forty hexadecimal digits whatever
    the input. It stands for SHA-1 where only the shape of a digest
    matters. *)
Definition constantDigest (_ : string) : string :=
  "da39a3ee5e6b4b0d3255bfef95601890afd80709".

Definition manifestMyPkg : Types.PackageJson :=
  Types.mkPackageJson "@scope/My_pkg.js" (Some "1.2.3") [] [] None [].

Definition manifestSlashVersion : Types.PackageJson :=
  Types.mkPackageJson "a_b" (Some "1/2") [] [] None [].

Definition manifestNulName : Types.PackageJson :=
  Types.mkPackageJson (String Ascii.zero "") (Some "1.0.0") [] [] None [].

(** Concrete inputs: a variable [CONFLICT] declared with [exclusive:true]
    by one package and then by another. *)
Definition seenConflict : Environment.SeenVar :=
  Environment.mkSeenVar "node_modules/a/package.json"
    (Types.mkExport (Some "1") None true false).

Definition stateWithConflict : Environment.EnvironmentConfigState :=
  Environment.mkState {["CONFLICT" := seenConflict]} [] [].

Definition exclusiveConflict : Types.EnvironmentVarExport :=
  Types.mkExport (Some "2") None true false.

(** Concrete inputs for the driver: a store with the library [lib] not yet
    built and the application [app], which depends on it, already
    installed; both are persisted builds. [performBuild] succeeds and
    leaves the final install directory behind. *)
Definition exampleConfig : Config.BuildConfig := Config.mkConfig "/store" "/sandbox".

Definition exampleSpec (name : string) (persisted : bool) : Types.BuildSpec :=
  Types.mkBuildSpec (name +:+ "-1.0.0-0a1b") name (Some "1.0.0") None None
    ("node_modules/" +:+ name) false persisted
    (Types.mkPackageJson name (Some "1.0.0") [] [] None []) [] [].

Definition exampleTask (name : string) (persisted : bool) : Driver.BuildTask :=
  Driver.mkTask (name +:+ "-1.0.0-0a1b") (exampleSpec name persisted) [] None.

Definition examplePerformBuild (task : Driver.BuildTask) (w : Driver.World)
  : option string * Driver.World :=
  (None,
   Driver.mkWorld
     (<[Config.getFinalInstallPath exampleConfig (Driver.spec task) [] := Fs.EDir]>
        (Driver.files w))
     (Driver.sourceTree w)).

Definition exampleElapsed (_ : Driver.BuildTask) (_ : Driver.World) : Z := 12.

Definition exampleDigest (s : string) : string := "digest(" +:+ s +:+ ")".

Definition appInstalled : Driver.DriverState :=
  Driver.mkDriver
    (Driver.mkWorld {["/store/_install/app-1.0.0-0a1b" := Fs.EDir]} (λ _, []))
    ∅ [].

Definition exampleBuildStep :=
  Driver.buildStep exampleDigest exampleConfig examplePerformBuild exampleElapsed.

(** The library is built first, then the application with the state of
    the library as the state of its only direct dependency. *)
Definition libThenApp : Driver.BuildTaskState * (Driver.BuildTaskState * Driver.DriverState) :=
  let '(libState, st1) := exampleBuildStep [] (exampleTask "lib" true) appInstalled in
  (libState, exampleBuildStep [libState] (exampleTask "app" true) st1).

Definition sourcesChanged : Driver.DriverState :=
  Driver.mkDriver
    (Driver.mkWorld
       {["/sandbox/node_modules/.cache/_esy/store/_install/dev-1.0.0-0a1b" := Fs.EDir;
         "/sandbox/node_modules/.cache/_esy/store/_build/dev-1.0.0-0a1b/_esy/checksum"
           := Fs.EFile "stale"]}
       (λ _, [("main.ml", FsLib.File 1500000000000 "let () = ()")]))
    ∅ [].

(** Concrete inputs: two source directories with different file names and
    contents and the same modification times in the order of the names. *)
Definition sourcesBefore : list (string * FsLib.Tree) :=
  [("b.ml", FsLib.File 1500000000002 "let b = 2");
   ("a.ml", FsLib.File 1500000000001 "let a = 1");
   ("node_modules", FsLib.Dir [("dep.ml", FsLib.File 7 "")])].

Definition sourcesRenamed : list (string * FsLib.Tree) :=
  [("c.ml", FsLib.File 1500000000001 "let c = 3");
   ("d.ml", FsLib.File 1500000000002 "let d = 4")].

(** The source tag of [crawlBuild]:
    [packageJson._resolved || `local:${await fs.realpath(sourcePath)}`]. *)
Definition sourceTag (host : Sandbox.Host) (packageJson : Types.PackageJson)
    (sourcePath : string) : string :=
  match Types._resolved packageJson with
  | Some url =>
      if decide (url = "") then "local:" +:+ Sandbox.realpath host sourcePath
      else url
  | None => "local:" +:+ Sandbox.realpath host sourcePath
  end.

(** Concrete inputs: the same manifest with the keys of [exportedEnv] and
    of the [esy] section in two orders, and two dependency maps with the
    same ids. *)
Definition esyOneOrder : list (string * Json.value) :=
  [("build", Json.JString "make");
   ("exportedEnv", Json.JObject
      [("pkg__a", Json.JObject [("val", Json.JString "1")]);
       ("pkg__b", Json.JObject [("val", Json.JString "2"); ("scope", Json.JString "global")])]);
   ("buildsInSource", Json.JBool false)].

Definition esyOtherOrder : list (string * Json.value) :=
  [("exportedEnv", Json.JObject
      [("pkg__b", Json.JObject [("scope", Json.JString "global"); ("val", Json.JString "2")]);
       ("pkg__a", Json.JObject [("val", Json.JString "1")])]);
   ("buildsInSource", Json.JBool false);
   ("build", Json.JString "make")].

Definition manifestOneOrder : Types.PackageJson :=
  Types.mkPackageJson "pkg" (Some "1.0.0") [("dep", "*")] [] None esyOneOrder.

Definition manifestOtherOrder : Types.PackageJson :=
  Types.mkPackageJson "pkg" (Some "1.0.0") [] [("dep", "^1.0.0")] (Some "")
    esyOtherOrder.

(** A short toy digest: a rolling sum of the code units, in decimal. *)
Definition rollingDigest (s : string) : string :=
  pretty (fold_left (λ acc c, (acc * 31 + Z.of_N (N_of_ascii c)) mod 1000003)%Z
            (Text.of_string s) 7%Z).

Definition dirnameOf (p : string) : string :=
  Text.to_string
    (Path.joinSlash (removelast (Path.splitSlash (Text.of_string p)))).

(** Concrete input: a sandbox whose root requires the packages [a] and
    [b], installed below [/sb/node_modules]; the keys of [dependencies] in
    the manifest of the root are in the order given. *)
Definition orderedManifests (rootDependencies : list (string * string))
  : gmap string Types.PackageJson :=
  {[ "/sb/package.json" :=
       Types.mkPackageJson "root" (Some "1.0.0") rootDependencies [] None [];
     "/sb/node_modules/a/package.json" :=
       Types.mkPackageJson "a" (Some "1.0.0") [] [] (Some "https://r/a") [];
     "/sb/node_modules/b/package.json" :=
       Types.mkPackageJson "b" (Some "1.0.0") [] [] (Some "https://r/b") [] ]}.

Definition orderedHost (rootDependencies : list (string * string)) : Sandbox.Host :=
  Sandbox.mkHost "/sb" (orderedManifests rootDependencies)
    (λ name _, Some ("/sb/node_modules/" +:+ name))
    (λ p, p) dirnameOf (λ _ p, p) false (Json.JMap []).

(** The same installation with another [b]: another version from another
    place, with a build command. *)
Definition siblingHost : Sandbox.Host :=
  Sandbox.mkHost "/sb"
    (<["/sb/node_modules/b/package.json" :=
         Types.mkPackageJson "b" (Some "2.0.0") [] [] (Some "https://r/b2")
           [("build", Json.JString "make")]]>
       (orderedManifests [("a", "*"); ("b", "*")]))
    (λ name _, Some ("/sb/node_modules/" +:+ name))
    (λ p, p) dirnameOf (λ _ p, p) false (Json.JMap []).

(** The ids of the dependencies of the root, by name. *)
Definition dependencyIds (o : Async.Outcome Types.BuildSpec)
  : list (string * string) :=
  match o with
  | Async.Done root => map (λ d, (Types.name d, Types.id d)) (Types.dependencies root)
  | _ => []
  end.

(** Notions used to state the order of a traversal. *)

Fixpoint nodeSize (n : Graph.Node) : nat :=
  match n with
  | Graph.mkNode _ deps => S (fold_right (λ d acc, nodeSize d + acc)%nat 0%nat deps)
  end.

(** The ids of a list of nodes, as a set. *)
Definition idsOf (l : list Graph.Node) : gset string :=
  list_to_set (map Graph.id l).

(** Every node of the list has its direct dependencies before it. *)
Definition dependenciesFirst (l : list Graph.Node) : Prop :=
  ∀ l1 m l2, l = l1 ++ m :: l2 →
             ∀ d, In d (Graph.dependencies m) → d ∈ l1.

(** The state of [traverse] while the nodes with ids in [stack] are being
    visited: [seen] holds the ids of the visited nodes and of the ones on
    the stack, the visited nodes are nodes below [root] with distinct ids,
    and every one of them comes after its dependencies. *)
Definition traversalInv (root : Graph.Node) (stack : gset string)
    (st : gset string * list Graph.Node) : Prop :=
  st.1 = idsOf st.2 ∪ stack
  ∧ idsOf st.2 ## stack
  ∧ Forall (Graph.dependsOn root) st.2
  ∧ NoDup (map Graph.id st.2)
  ∧ dependenciesFirst st.2.

(** Concrete input: a root that depends on [a] and [b], where [a] depends
    on [b]. *)
Definition leafB : Graph.Node := Graph.mkNode "b" [].
Definition midA : Graph.Node := Graph.mkNode "a" [leafB].
Definition chainRoot : Graph.Node := Graph.mkNode "root" [midA; leafB].

(** The manifests that have not been requested from [buildCache] yet: the
    crawl can go as deep as their number, and no deeper. *)
Definition uncrawled (host : Sandbox.Host) (c : Sandbox.Caches) : nat :=
  size (dom (Sandbox.readJson host) ∖ dom (Sandbox.buildCache c)).

(** The build cache only grows. *)
Definition cacheGrows (c c' : Sandbox.Caches) : Prop :=
  dom (Sandbox.buildCache c) ⊆ dom (Sandbox.buildCache c').

(** What is needed of [context.crawlBuild] for the loop to end. *)
Definition endsWithin (host : Sandbox.Host) (fuel : nat) (crawl : Sandbox.Crawler)
  : Prop :=
  ∀ p trace c, (uncrawled host c < fuel)%nat →
               (crawl p trace c).1 ≠ Async.OutOfFuel
               ∧ cacheGrows c (crawl p trace c).2.

(** What the manifests require: the name of every dependency of every
    manifest, with the directory it is resolved from. *)
Definition requirements (host : Sandbox.Host) : list (string * string) :=
  entry ← map_to_list (Sandbox.readJson host);
  spec ← Sandbox.objectToDependencySpecs
            [Types.pjDependencies entry.2; Types.pjPeerDependencies entry.2];
  [(Sandbox.parseDependencyName spec, Sandbox.dirname host entry.1)].

(** The key of [resolutionCache] for a requirement, and its resolution. *)
Definition resolutionKey (r : string * string) : string :=
  r.2 +:+ "__" +:+ r.1 +:+ "/package.json".

Definition resolutionOf (host : Sandbox.Host) (r : string * string) : option string :=
  Sandbox.resolveToRealpath host (r.1 +:+ "/package.json") r.2.

(** An installation in which every package is found under the name of its
    manifest: the root has a manifest; a dependency that a manifest
    requires and that resolves has a manifest, which carries the name it
    was required by; and two requirements with the same key in
    [resolutionCache] have the same resolution. *)
Definition namedAsRequired (host : Sandbox.Host) : bool :=
  bool_decide (is_Some (Sandbox.readJson host
                          !! Path.join [Sandbox.hostSandboxPath host; "package.json"]))
  && forallb
       (λ r, match resolutionOf host r with
             | None => true
             | Some p =>
                 match Sandbox.readJson host !! p with
                 | Some pj => bool_decide (Types.pjName pj = r.1)
                 | None => false
                 end
             end)
       (requirements host)
  && forallb
       (λ r, forallb
               (λ r', implb (bool_decide (resolutionKey r = resolutionKey r'))
                        (bool_decide (resolutionOf host r = resolutionOf host r')))
               (requirements host))
       (requirements host).

(** Every cached resolution is the resolution of a requirement with its
    key. *)
Definition resolutionsSound (host : Sandbox.Host) (c : Sandbox.Caches) : Prop :=
  ∀ key r, Sandbox.resolutionCache c !! key = Some r →
           ∃ req, req ∈ requirements host ∧ key = resolutionKey req
                  ∧ r = resolutionOf host req.

(** Every build that is being crawled has its name on the trace. *)
Definition pendingOnTrace (host : Sandbox.Host) (c : Sandbox.Caches)
    (trace : list string) : Prop :=
  ∀ p, Sandbox.buildCache c !! p = Some Sandbox.Pending →
       ∃ pj, Sandbox.readJson host !! p = Some pj ∧ Types.pjName pj ∈ trace.

(** No promise is left pending that was not pending before. *)
Definition pendingShrinks (c c' : Sandbox.Caches) : Prop :=
  ∀ p, Sandbox.buildCache c' !! p = Some Sandbox.Pending →
       Sandbox.buildCache c !! p = Some Sandbox.Pending.

(** What is needed of [context.crawlBuild] for the loop to end with a
    value. *)
Definition doneWithin (host : Sandbox.Host) (fuel : nat) (crawl : Sandbox.Crawler)
    (trace : list string) : Prop :=
  ∀ p pj c,
    (uncrawled host c < fuel)%nat →
    Sandbox.readJson host !! p = Some pj → Types.pjName pj ∉ trace →
    resolutionsSound host c → pendingOnTrace host c trace →
    ∃ b c', crawl p trace c = (Async.Done b, c')
            ∧ cacheGrows c c' ∧ resolutionsSound host c' ∧ pendingShrinks c c'.

(** Concrete input: the root [R] requires [A], [A] requires [B], and [B]
    requires [A] again and then [C]. Packages are installed flat below
    [/sb/node_modules]. *)
Definition cyclicManifests : gmap string Types.PackageJson :=
  {[ "/sb/package.json" := Types.mkPackageJson "R" None [("A", "*")] [] None [];
     "/sb/node_modules/A/package.json" :=
       Types.mkPackageJson "A" (Some "1.0.0") [("B", "*")] [] (Some "https://r/A") [];
     "/sb/node_modules/B/package.json" :=
       Types.mkPackageJson "B" (Some "1.0.0") [("A", "*"); ("C", "*")] []
         (Some "https://r/B") [];
     "/sb/node_modules/C/package.json" :=
       Types.mkPackageJson "C" (Some "1.0.0") [] [] (Some "https://r/C") [] ]}.

Definition cyclicHost : Sandbox.Host :=
  Sandbox.mkHost "/sb" cyclicManifests
    (λ name _, Some ("/sb/node_modules/" +:+ name))
    (λ p, p) dirnameOf (λ _ p, p) true (Json.JMap []).

(** Concrete input: as above, but [B] requires, after [A], the name [B2],
    under which [B] itself is installed a second time (a link to its own
    directory). *)
Definition aliasManifests : gmap string Types.PackageJson :=
  {[ "/sb/package.json" := Types.mkPackageJson "R" None [("A", "*")] [] None [];
     "/sb/node_modules/A/package.json" :=
       Types.mkPackageJson "A" (Some "1.0.0") [("B", "*")] [] (Some "https://r/A") [];
     "/sb/node_modules/B/package.json" :=
       Types.mkPackageJson "B" (Some "1.0.0") [("A", "*"); ("B2", "*")] []
         (Some "https://r/B") [] ]}.

Definition aliasHost : Sandbox.Host :=
  Sandbox.mkHost "/sb" aliasManifests
    (λ name _, if decide (name = "B2/package.json")
               then Some "/sb/node_modules/B/package.json"
               else Some ("/sb/node_modules/" +:+ name))
    (λ p, p) dirnameOf (λ _ p, p) true (Json.JMap []).

(** The build found for a dependency name among the dependencies of a
    build. *)
Definition dependencyNamed (n : string) (b : Types.BuildSpec) : option Types.BuildSpec :=
  List.find (λ d, bool_decide (Types.name d = n)) (Types.dependencies b).

Definition cyclicCrawl : Async.Outcome Types.BuildSpec :=
  Sandbox.fromDirectory exampleDigest cyclicHost 6.

(** The build of [B] inside the result of the crawl. *)
Definition cyclicB : option Types.BuildSpec :=
  match cyclicCrawl with
  | Async.Done root =>
      match dependencyNamed "A" root with
      | Some a => dependencyNamed "B" a
      | None => None
      end
  | _ => None
  end.

(** A buffer read as a number in base 256, first byte first. It goes down
    (or up) with every overwrite of the loop when the two paths have the
    same length, which is why the loop ends. *)
Fixpoint bufferValue (l : Text.chars) : N :=
  match l with
  | [] => 0
  | c :: rest => N_of_ascii c * 256 ^ N.of_nat (length rest) + bufferValue rest
  end.

(** What the loop makes of a buffer, told without the loop: a buffer
    without an occurrence of [origPath] stays as it is; otherwise the
    bytes of [destPath] are written over the first occurrence, at its
    offset, and the same is done to the buffer so obtained. *)
Inductive overwritten (origPath destPath : Text.chars)
  : Text.chars → Text.chars → Prop :=
| overwritten_none (content : Text.chars) :
    BuildersUtil.indexOf origPath content = None →
    overwritten origPath destPath content content
| overwritten_first (before after result : Text.chars) :
    BuildersUtil.indexOf origPath (before ++ origPath ++ after)
    = Some (length before) →
    overwritten origPath destPath
      (BuildersUtil.write (before ++ origPath ++ after) destPath (length before))
      result →
    overwritten origPath destPath (before ++ origPath ++ after) result.

(** Concrete inputs: a file in which the staging path occurs twice, the
    occurrences overlapping; and a file without it. *)
Definition overlappingFile : gmap string Fs.Entry :=
  {["/store/_insttmp/x/lib/conf" := Fs.EFile "/a/a/a"]}.

Definition unrelatedFile : gmap string Fs.Entry :=
  {["/store/_insttmp/x/lib/conf" := Fs.EFile "prefix=/usr/local"]}.

(** A file that names the staging path twice, apart from each other. *)
Definition stagedFile : gmap string Fs.Entry :=
  {["/store/_insttmp/x/lib/conf" :=
      Fs.EFile "lib=/store/_insttmp/x/lib:bin=/store/_insttmp/x/bin"]}.

(** A package name as [objectToDependencySpecs] meets it: not empty, and
    with no [@] after its first character (a scoped name starts with
    one). *)
Definition isPackageName (name : string) : bool :=
  match Text.of_string name with
  | [] => false
  | _ :: rest => forallb (λ c, negb (Ascii.eqb c "@")) rest
  end.

(** [v[k]] for a property that may be absent. *)
Definition fieldOrUndefined (k : string) (fields : list (string * Json.value))
  : Json.value :=
  default Json.JUndefined (Json.getField k fields).

(** The array [keys.map(k => [k, v[k]])] of [hash], for sorted [keys]. *)
Definition sortedEntries (fields : list (string * Json.value)) : Json.value :=
  Json.JArray
    (map (λ k, Json.JArray [Json.JString k; fieldOrUndefined k fields])
       (merge_sort String.le (map fst fields))).

(** The errors of every dependency of a build are errors of the build, at
    any depth. *)
#[warnings="-register-all"]
Inductive errorsBubbleUp : Types.BuildSpec → Prop :=
| errorsBubbleUp_build b :
    Forall (λ d, errorsBubbleUp d ∧ ∀ e, e ∈ Types.errors d → e ∈ Types.errors b)
      (Types.dependencies b) →
    errorsBubbleUp b.

(** [d] is a direct or indirect dependency of the build [b]. *)
Inductive buildDependsOn : Types.BuildSpec → Types.BuildSpec → Prop :=
| buildDependsOn_direct b d : d ∈ Types.dependencies b → buildDependsOn b d
| buildDependsOn_trans b d e :
    d ∈ Types.dependencies b → buildDependsOn d e → buildDependsOn b e.
(** Every build that the build cache holds carries the errors of its
    dependencies. *)
Definition cacheBubblesUp (c : Sandbox.Caches) : Prop :=
  ∀ p b, Sandbox.buildCache c !! p = Some (Sandbox.Resolved b) → errorsBubbleUp b.

(** What the loop of [crawlDependencies] keeps of its accumulators. *)
Definition accInv (acc : Sandbox.DepsAcc) : Prop :=
  NoDup (map Types.id (Sandbox.accDependencies acc))
  ∧ Forall (λ d, errorsBubbleUp d
                 ∧ ∀ e, e ∈ Types.errors d → e ∈ Sandbox.accErrors acc)
      (Sandbox.accDependencies acc).

(** The events of a run that write a checksum. *)
Definition writesChecksum (e : Driver.Event) : bool :=
  match e with Driver.WriteStoreChecksum _ _ => true | _ => false end.

(** The value that [mergeIntoMap] leaves for a key of [from] that comes
    with the value [v]: what [merge] makes of the previous value and [v]
    when there is a [merge] and a previous value that is not null, and [v]
    otherwise. *)
Definition mergedValue {K V : Type} `{EqDecision K} (isNull : V → bool)
    (merge : option (V → V → K → V)) (src : list (K * V)) (key : K) (v : V) : V :=
  match Collections.get key src, merge with
  | Some prev, Some mergeFn => if isNull prev then v else mergeFn prev v key
  | _, _ => v
  end.

(** Concrete input: a scope with two variables and an update of it. *)
Definition scopeBefore : list (string * nat) := [("PATH", 1%nat); ("SHELL", 2%nat)].
Definition scopeUpdate : list (string * nat) := [("OCAMLPATH", 3%nat); ("PATH", 4%nat)].

(** The record that [addEnvConfigForPackage] keeps of a declaration. *)
Definition seenAs (packageJsonFilePath : string) (config : Types.EnvironmentVarExport)
  : Environment.SeenVar :=
  Environment.mkSeenVar
    (if decide (packageJsonFilePath = "") then "unknownPackage" else packageJsonFilePath)
    config.

(** The variable that a declaration normalises to. *)
Definition normalizedVar (entry : string * Types.EnvironmentVarExport)
  : Environment.EnvironmentVar :=
  Environment.mkEnvironmentVar entry.1 (Types.val entry.2) (Types.builtIn entry.2).

(** A declaration that meets no exclusive declaration and is not exclusive
    against an existing one. *)
Definition compatible (seenVars : gmap string Environment.SeenVar)
    (entry : string * Types.EnvironmentVarExport) : Prop :=
  ∀ seen, seenVars !! entry.1 = Some seen →
          Types.exclusive (Environment.config seen) = false
          ∧ Types.exclusive entry.2 = false.

(** Concrete input: a variable that nothing marks as exclusive. *)
Definition sharedVar : Types.EnvironmentVarExport :=
  Types.mkExport (Some "3") None false false.

(** A lower-case letter of the ASCII range. *)
Definition isLower (c : ascii) : bool :=
  let n := nat_of_ascii c in (97 <=? n)%nat && (n <=? 122)%nat.

(** A character of a package name that leaves a lower-case letter in the
    normalised name: a letter, or a [/] or [.], which are spelled out. *)
Definition leavesLetter (c : ascii) : bool :=
  isLower (Text.lower_char c) || Ascii.eqb c "/" || Ascii.eqb c ".".

(** A name as [FIND_VAR_RE] matches it. *)
Definition isVarName (name : string) : bool :=
  negb (bool_decide (name = "")) && forallb Scope.isVarChar (Text.of_string name).

(** What follows a match of [FIND_VAR_RE]: nothing, or a character that
    cannot be part of a name. *)
Definition endsName (suffix : string) : bool :=
  match Text.of_string suffix with
  | [] => true
  | c :: _ => negb (Scope.isVarChar c)
  end.

(** What [renderWithScope] puts for [$name]. *)
Definition valueOrItself (scope : gmap string string) (name : string) : string :=
  match scope !! name with
  | Some value => value
  | None => "$" +:+ name
  end.

(** The scan of a whole text. *)
Definition renderChars (scope : gmap string string) (s : Text.chars) : Text.chars :=
  Scope.replaceVars scope (length s) s.

(** Concrete input: a scope in which the value of one variable mentions
    another. *)
Definition exampleScope : gmap string string :=
  {[ "cur__install" := "/store/_insttmp/pkg"; "cur__bin" := "$cur__install/bin" ]}.

(** The three things [path.normalize] keeps of a path: whether it is
    absolute, its segments, and whether it ends with a separator; and the
    text it writes for them. *)
Definition isAbsolute (path : Text.chars) : bool :=
  Path.isEmpty (hd [] (Path.splitSlash path)).

Definition hasTrailingSeparator (path : Text.chars) : bool :=
  Path.isEmpty (List.last (Path.splitSlash path) []).

Definition renderPath (absolute : bool) (segs : list Text.chars) (trailing : bool)
  : Text.chars :=
  let p := Path.joinSlash segs in
  let p := if Path.isEmpty p && negb absolute then Text.of_string "." else p in
  let p := if negb (Path.isEmpty p) && trailing then p ++ Text.of_string "/" else p in
  if absolute then "/"%char :: p else p.

(** Normalised segments: [..] segments, at the front only and only where
    they are allowed, followed by ordinary segments. *)
Definition normalSegments (allowAboveRoot : bool) (segs : list Text.chars) : Prop :=
  ∃ k ords,
    segs = replicate k (Text.of_string "..") ++ ords
    ∧ Forall Path.ordinary ords
    ∧ (allowAboveRoot = false → k = 0%nat).

(** The segments of the text of a normalised path. *)
Definition segmentsOfRendered (absolute : bool) (segs : list Text.chars)
    (trailing : bool) : list Text.chars :=
  match segs with
  | [] => if absolute then [[]; []]
          else if trailing then [Text.of_string "."; []] else [Text.of_string "."]
  | _ => (if absolute then [[]] else []) ++ segs ++ (if trailing then [[]] else [])
  end.

(** Two trees at the path [name] that are the same outside the directories
    that the walk does not enter: below such a directory they may hold
    anything. *)
#[warnings="-register-all"]
Inductive sameOutsideIgnored (ignore : string → bool) : string → FsLib.Tree → FsLib.Tree → Prop :=
| sameOutsideIgnored_same name t : sameOutsideIgnored ignore name t t
| sameOutsideIgnored_ignored name entries entries' :
    ignore name = true →
    sameOutsideIgnored ignore name (FsLib.Dir entries) (FsLib.Dir entries')
| sameOutsideIgnored_dir name entries entries' :
    Forall2 (λ e e', e.1 = e'.1
                     ∧ sameOutsideIgnored ignore (name +:+ "/" +:+ e.1) e.2 e'.2)
      entries entries' →
    sameOutsideIgnored ignore name (FsLib.Dir entries) (FsLib.Dir entries').

(** The same for the entries of the directory that is walked. *)
Definition entriesSameOutsideIgnored (ignore : string → bool) (dirname : string)
    (entries entries' : list (string * FsLib.Tree)) : Prop :=
  Forall2 (λ e e', e.1 = e'.1
                   ∧ sameOutsideIgnored ignore (dirname +:+ "/" +:+ e.1) e.2 e'.2)
    entries entries'.

(** The text ends with a separator. *)
Definition endsWithSeparator (path : string) : bool :=
  match last (Text.of_string path) with
  | Some c => Ascii.eqb c "/"
  | None => false
  end.

(** Two entries of the source directory that are the same, or two
    directories with one of the names of [IGNORE_FOR_CHECKSUM] and
    anything below them. *)
Definition sameButIgnored (e e' : string * FsLib.Tree) : Prop :=
  e.1 = e'.1
  ∧ (e.2 = e'.2
     ∨ (e.1 ∈ Driver.IGNORE_FOR_CHECKSUM
        ∧ ∃ entries entries', e.2 = FsLib.Dir entries ∧ e'.2 = FsLib.Dir entries')).

(** Concrete input: the sources of [sourcesBefore] after an install has
    changed what is below [node_modules]. *)
Definition sourcesReinstalled : list (string * FsLib.Tree) :=
  [("b.ml", FsLib.File 1500000000002 "let b = 2");
   ("a.ml", FsLib.File 1500000000001 "let a = 1");
   ("node_modules",
    FsLib.Dir [("dep.ml", FsLib.File 8 "");
               ("other", FsLib.Dir [("x.ml", FsLib.File 9 "")])])].

(** The number of nodes in the trees of a queue: no traversal of the
    queue takes more iterations. *)
Definition queueWeight (queue : list Graph.Node) : nat :=
  fold_right (λ d acc, nodeSize d + acc)%nat 0%nat queue.

(** The callback that records the nodes it is called with. *)
Definition recordVisit (n : Graph.Node) (acc : list Graph.Node) : list Graph.Node :=
  acc ++ [n].

(** The root or one of its direct or indirect dependencies. *)
Definition reachable (root n : Graph.Node) : Prop := n = root ∨ Graph.dependsOn root n.

(** The state of the loop of [traverse] with the recording callback: the
    visited nodes are the ones whose ids are in [seen], they have distinct
    ids, the root was visited first, every node at hand is reachable, and
    the dependencies of a visited node are visited or waiting. *)
Definition breadthInv (root : Graph.Node) (queue : list Graph.Node)
    (seen : gset string) (acc : list Graph.Node) : Prop :=
  seen = idsOf acc
  ∧ NoDup (map Graph.id acc)
  ∧ (acc = [] ∧ queue = [root] ∨ hd_error acc = Some root)
  ∧ Forall (reachable root) (acc ++ queue)
  ∧ (∀ n d, n ∈ acc → In d (Graph.dependencies n) → Graph.id d ∈ seen ∨ d ∈ queue).

(** One call of the folded function: its arguments and its result. *)
Record Call (V : Type) := mkCall {
  callDirect : list V;
  callAll : list V;
  callNode : Graph.Node;
  callResult : V
}.
Arguments mkCall {V} _ _ _ _.
Arguments callDirect {V} _.
Arguments callAll {V} _.
Arguments callNode {V} _.
Arguments callResult {V} _.

(** The folded function [f], made to write down every call in the world
    it acts on. *)
Definition logged {V S : Type} (f : list V → list V → Graph.Node → S → V * S)
    (direct all : list V) (node : Graph.Node) (w : S * list (Call V))
  : V * (S * list (Call V)) :=
  let '(value, s) := f direct all node w.1 in
  (value, (s, w.2 ++ [mkCall direct all node value])).

Definition callEvent {V : Type} (c : Call V) : V * Graph.Node :=
  (callResult c, callNode c).

(** [values] are the results of the calls for [nodes], one by one. *)
Definition valuesOf {V : Type} (log : list (Call V)) (nodes : list Graph.Node)
    (values : list V) : Prop :=
  Forall2 (λ n v, ∃ c, c ∈ log ∧ callNode c = n ∧ callResult c = v) nodes values.

(** The calls made so far and the [memoized] map, at a point of a fold of
    the graph below [root] where every result is memoized; [arguments]
    is what the fold gives to a call. *)
Definition logInv {V : Type} (arguments : list (Call V) → Call V → Prop)
    (isNull : V → bool) (root : Graph.Node)
    (log : list (Call V)) (memo : gmap string V) : Prop :=
  (∀ k v, memo !! k = Some v
          ↔ ∃ c, c ∈ log ∧ Graph.id (callNode c) = k ∧ callResult c = v)
  ∧ NoDup (map (λ c, Graph.id (callNode c)) log)
  ∧ Forall (λ c, reachable root (callNode c)) log
  ∧ Forall (λ c, isNull (callResult c) = false) log
  ∧ dependenciesFirst (map callNode log)
  ∧ Forall (arguments log) log.

(** The calls of [onNode] between two points of a fold, in their order:
    what they do to a frame. *)
Definition deliver {V : Type} (evs : list (V * Graph.Node)) (fr : @Fold.Frame V)
  : @Fold.Frame V :=
  fold_left (λ fr e, Fold.onDependency e.1 e.2 fr) evs fr.

Definition eventIds {V : Type} (evs : list (V * Graph.Node)) : gset string :=
  list_to_set (map (λ e, Graph.id e.2) evs).

(** The first call of [onNode] for every id that is not in [seen]. *)
Fixpoint firstSeen {V : Type} (seen : gset string) (evs : list (V * Graph.Node))
  : list (V * Graph.Node) :=
  match evs with
  | [] => []
  | e :: rest =>
      if decide (Graph.id e.2 ∈ seen) then firstSeen seen rest
      else e :: firstSeen ({[Graph.id e.2]} ∪ seen) rest
  end.

(** What a call was given: as [directDependencies] the results for the
    dependencies of its node, each one once; as [allDependencies] results
    for nodes below its node, no node twice, those of the dependencies
    among them. *)
Definition argumentsOf {V : Type} (log : list (Call V)) (c : Call V) : Prop :=
  ∃ direct all : list Graph.Node,
    valuesOf log direct (callDirect c)
    ∧ valuesOf log all (callAll c)
    ∧ NoDup direct
    ∧ (∀ d, d ∈ direct ↔ In d (Graph.dependencies (callNode c)))
    ∧ NoDup all
    ∧ (∀ a, a ∈ all → Graph.dependsOn (callNode c) a)
    ∧ direct ⊆ all.

(** What the fold of the graph below [n] adds: the calls [new], all for
    nodes of that graph, and the calls [evs] of [onNode], each with the
    memoized value of such a node; the first of these calls for a node
    that had no value before is the one that follows its computation. *)
Definition foldPost {V : Type} (n : Graph.Node) (memo memo' : gmap string V)
    (new : list (Call V)) (evs : list (V * Graph.Node)) : Prop :=
  Forall (λ c, reachable n (callNode c)) new
  ∧ Forall (λ e, reachable n e.2 ∧ memo' !! Graph.id e.2 = Some e.1) evs
  ∧ firstSeen (dom memo) evs = map callEvent new.

(** Concrete input: a folded function that returns the id of its node;
    [x], [a] that depends on [x], [b] that depends on [a], and a root that
    depends on [a] and [b]. *)
Definition nodeName (direct all : list string) (node : Graph.Node) (s : unit)
  : string * unit :=
  (Graph.id node, s).
Definition leafX : Graph.Node := Graph.mkNode "x" [].
Definition nodeA : Graph.Node := Graph.mkNode "a" [leafX].
Definition nodeB : Graph.Node := Graph.mkNode "b" [nodeA].
Definition diamondRoot : Graph.Node := Graph.mkNode "root" [nodeA; nodeB].

(** The calls of [onNode] between two points of a fold of [graph.js], in
    their order: what they do to a frame. *)
Definition deliverJs {V : Type} (evs : list (V * Graph.Node))
    (fr : @GraphJsFold.Frame V) : @GraphJsFold.Frame V :=
  fold_left (λ fr e, GraphJsFold.onDependency e.1 e.2 fr) evs fr.

(** What a call was given by the fold of [graph.js]: as
    [directDependencies] the results for the dependencies of its node,
    each one once; as [allDependencies] the results of the calls that
    were made for it, which are the calls [during] just before it, for
    the nodes below its node that had no call [before]. *)
Definition argumentsJs {V : Type} (log : list (Call V)) (c : Call V) : Prop :=
  (∃ direct : list Graph.Node,
     valuesOf log direct (callDirect c)
     ∧ NoDup direct
     ∧ ∀ d, d ∈ direct ↔ In d (Graph.dependencies (callNode c)))
  ∧ ∃ before during after,
      log = before ++ during ++ c :: after
      ∧ callAll c = map callResult during
      ∧ Forall (λ c', Graph.dependsOn (callNode c) (callNode c')) during
      ∧ ∀ m, Graph.dependsOn (callNode c) m → m ∈ map callNode (before ++ during).

(** The frame of the call for [n] while its loop runs, [new] being the
    calls made since the loop began. *)
Definition frameInv {V : Type} (n : Graph.Node) (log new : list (Call V))
    (fr : @GraphJsFold.Frame V) : Prop :=
  GraphJsFold.allDependencies fr = map callResult new
  ∧ GraphJsFold.seen fr = eventIds (map callEvent new)
  ∧ GraphJsFold.toVisit fr ⊆ idsOf (Graph.dependencies n)
  ∧ eventIds (map callEvent new) ## GraphJsFold.toVisit fr
  ∧ ∃ direct : list Graph.Node,
      valuesOf (log ++ new) direct (GraphJsFold.directDependencies fr)
      ∧ NoDup direct
      ∧ ∀ d, d ∈ direct
             ↔ In d (Graph.dependencies n) ∧ Graph.id d ∉ GraphJsFold.toVisit fr.

(** The graph of a node with Maps of dependencies, as a graph with arrays
    of dependencies: the values of the Maps in their order. *)
Fixpoint erase (n : MapFold.Node) : Graph.Node :=
  match n with
  | MapFold.mkNode nid deps => Graph.mkNode nid (map (λ kd, erase kd.2) deps)
  end.

(** The other way round: every dependency under its id. *)
Fixpoint restore (n : Graph.Node) : MapFold.Node :=
  match n with
  | Graph.mkNode nid deps =>
      MapFold.mkNode nid (map (λ d, (Graph.id d, restore d)) deps)
  end.

(** Every dependency of every node of the graph is kept under its id, as
    [crawlBuild] and the task graph keep them. *)
Fixpoint keyedById (n : MapFold.Node) : bool :=
  match n with
  | MapFold.mkNode _ deps =>
      forallb (λ kd, bool_decide (kd.1 = MapFold.id kd.2) && keyedById kd.2) deps
  end.

(** A function folded over Maps, as a function folded over arrays whose
    values are the entries of those Maps. *)
Definition withIds {V S : Type}
    (f : list (string * V) → list (string * V) → MapFold.Node → S → V * S)
    (direct all : list (string * V)) (node : Graph.Node) (s : S)
  : (string * V) * S :=
  let '(value, s') := f direct all (restore node) s in
  ((Graph.id node, value), s').

Definition nullEntry {V : Type} (isNull : V → bool) (entry : string * V) : bool :=
  isNull entry.2.

(** A frame, a [memoized] map and a state of the fold over Maps, as the
    fold over arrays has them. *)
Definition arrayFrame {V : Type} (fr : @MapFold.Frame V) : @Fold.Frame (string * V) :=
  Fold.mkFrame (MapFold.directDependencies fr) (MapFold.allDependencies fr)
    (list_to_set (MapFold.allDependencies fr).*1) (MapFold.need fr).

Definition arrayMemoized {V : Type} (memo : gmap string V) : gmap string (string * V) :=
  map_imap (λ k v, Some (k, v)) memo.

Definition arrayState {V S : Type} (st : @MapFold.State V S)
  : @Fold.State (string * V) S :=
  Fold.mkState (MapFold.world st) (arrayMemoized (MapFold.memoized st))
    (map arrayFrame (MapFold.frames st)).

(** No direct dependency that was delivered is still needed. *)
Definition deliveredOnce {V : Type} (fr : @MapFold.Frame V) : Prop :=
  (list_to_set (MapFold.directDependencies fr).*1 : gset string) ## MapFold.need fr.

(** Concrete input: the chain of [chainRoot] with Maps of dependencies. *)
Definition chainRootByMaps : MapFold.Node := restore chainRoot.
Definition entryName (direct all : list (string * string)) (node : MapFold.Node)
    (s : unit) : string * unit :=
  (MapFold.id node, s).

(** The ends of the names of the built-in variables of a package. *)
Definition builtInSuffixes : list string :=
  ["__name"; "__version"; "__root"; "__depends"; "__target_dir"; "__install";
   "__bin"; "__sbin"; "__lib"; "__man"; "__doc"; "__stublibs"; "__toplevel";
   "__share"; "__etc"].

(** [l] begins with [p]. *)
Fixpoint beginsWithChars (p l : Text.chars) : bool :=
  match p, l with
  | [], _ => true
  | a :: p', b :: l' => Ascii.eqb a b && beginsWithChars p' l'
  | _ :: _, [] => false
  end.

(** Concrete input: two packages whose names differ in case only. *)
Definition upperCaseBuild : Types.BuildSpec :=
  Types.mkBuildSpec "Pkg-1.0.0-0000" "Pkg" (Some "1.0.0") None None
    "node_modules/Pkg" false true
    (Types.mkPackageJson "Pkg" (Some "1.0.0") [] [] None []) [] [].
Definition lowerCaseBuild : Types.BuildSpec :=
  Types.mkBuildSpec "pkg-1.0.0-0000" "pkg" (Some "1.0.0") None None
    "node_modules/pkg" false true
    (Types.mkPackageJson "pkg" (Some "1.0.0") [] [] None []) [] [].

(** * Verification *)

(** ** Facts about the text model *)

Section text_facts.
Import Text.

Lemma to_of_string (s : string) : to_string (of_string s) = s.
Proof. apply string_of_list_ascii_of_string. Qed.

Lemma of_to_string (l : chars) : of_string (to_string l) = l.
Proof. apply list_ascii_of_string_of_list_ascii. Qed.

Lemma of_string_app (s t : string) :
  of_string (s +:+ t) = of_string s ++ of_string t.
Proof.
  induction s as [|c s IH]; [reflexivity|].
  change (of_string (String c (s +:+ t)) = c :: (of_string s ++ of_string t)).
  unfold of_string in *; simpl; now rewrite IH.
Qed.

Lemma to_string_app (l k : chars) :
  to_string (l ++ k) = to_string l +:+ to_string k.
Proof.
  rewrite <- (of_to_string l), <- (of_to_string k) at 1.
  now rewrite <- of_string_app, to_of_string.
Qed.

Lemma length_of_string (s : string) : length (of_string s) = String.length s.
Proof. induction s; simpl; [reflexivity | now f_equal]. Qed.

Lemma length_to_string (l : chars) : String.length (to_string l) = length l.
Proof. now rewrite <- length_of_string, of_to_string. Qed.

Lemma of_string_inj (s t : string) : of_string s = of_string t → s = t.
Proof. intros H. now rewrite <- (to_of_string s), H, to_of_string. Qed.

End text_facts.

Example join_example :
  Path.join ["/store"; "_insttmp"; "pkg-1.0.0-abc"; "lib"; ".."; "bin/"]
  = "/store/_insttmp/pkg-1.0.0-abc/bin/".
Proof. vm_compute. reflexivity. Qed.

Example join_example2 : Path.join [""; ""] = "." ∧ Path.join ["a"; "../.."; "b"] = "../b"
  ∧ Path.join ["/a"; "../.."; "b"] = "/b" ∧ Path.join ["a/"; ".."] = "."
  ∧ Path.join ["a/"; "../"] = "./" ∧ Path.join ["/"; ""] = "/".
Proof. vm_compute. repeat split. Qed.

(** ** Package names and build ids as path components *)

Section normalize_facts.
Import Text Util.

Lemma replaceChar_app c by_ (s t : chars) :
  replaceChar c by_ (s ++ t) = replaceChar c by_ s ++ replaceChar c by_ t.
Proof. unfold replaceChar. apply flat_map_app. Qed.

Lemma replaceChar_cons_eq c by_ (s : chars) :
  replaceChar c by_ (c :: s) = by_ ++ replaceChar c by_ s.
Proof. unfold replaceChar. simpl. now rewrite Ascii.eqb_refl. Qed.

Lemma replaceChar_cons_ne c x by_ (s : chars) :
  x ≠ c → replaceChar c by_ (x :: s) = x :: replaceChar c by_ s.
Proof.
  intros Hne. unfold replaceChar. simpl.
  destruct (Ascii.eqb_spec x c); [contradiction | reflexivity].
Qed.

Lemma laterPasses_app (s t : chars) :
  laterPasses (s ++ t) = laterPasses s ++ laterPasses t.
Proof. unfold laterPasses. now rewrite !replaceChar_app. Qed.

Lemma laterPasses_cons c (s : chars) :
  laterPasses (c :: s) = laterPasses [c] ++ laterPasses s.
Proof. apply (laterPasses_app [c] s). Qed.

Lemma laterPasses_plain c :
  c ≠ "/"%char → c ≠ "."%char → c ≠ "-"%char → laterPasses [c] = [c].
Proof.
  intros H1 H2 H3. unfold laterPasses.
  rewrite (replaceChar_cons_ne "/" c) by assumption.
  rewrite (replaceChar_cons_ne "." c) by assumption.
  now rewrite (replaceChar_cons_ne "-" c) by assumption.
Qed.

Lemma laterPasses_underscore (s : chars) :
  laterPasses ("_"%char :: s) = "_"%char :: laterPasses s.
Proof. rewrite laterPasses_cons, laterPasses_plain; [reflexivity | done..]. Qed.

(** The four last passes of the source are the single pass [expandRuns]:
    the underscores written for [/], [.] and [-] come after the pass on
    runs and are not extended. *)
Lemma laterPasses_runs (s : chars) :
  laterPasses (replaceUnderscoreRuns s) = expandRuns s.
Proof.
  induction s as [|c rest IH]; [reflexivity|].
  cbn [replaceUnderscoreRuns expandRuns].
  destruct (Ascii.eqb_spec c "_") as [->|Hu].
  - destruct rest as [|c' rest'].
    + reflexivity.
    + destruct (Ascii.eqb_spec c' "_") as [->|Hu'].
      * now rewrite laterPasses_underscore, IH.
      * change ("_"%char :: of_string "__" ++ replaceUnderscoreRuns (c' :: rest'))
          with (of_string "___" ++ replaceUnderscoreRuns (c' :: rest')).
        rewrite laterPasses_app, IH. reflexivity.
  - rewrite laterPasses_cons, IH.
    destruct (Ascii.eqb_spec c "/") as [->|H1]; [reflexivity|].
    destruct (Ascii.eqb_spec c ".") as [->|H2]; [reflexivity|].
    destruct (Ascii.eqb_spec c "-") as [->|H3]; [reflexivity|].
    now rewrite laterPasses_plain.
Qed.

Lemma normalizeChars_expandRuns (name : chars) :
  normalizeChars name = expandRuns (replaceChar "@" [] (toLowerCase name)).
Proof. unfold normalizeChars. apply laterPasses_runs. Qed.

(** A run of [k] underscores comes out [k + 2] long. *)
Lemma expandRuns_replicate (k : nat) :
  expandRuns (replicate (S k) "_"%char) = replicate (S k + 2) "_"%char.
Proof.
  induction k as [|k IH]; [reflexivity|].
  change (replicate (S (S k)) "_"%char) with ("_"%char :: "_"%char :: replicate k "_"%char).
  change (expandRuns ("_"%char :: "_"%char :: replicate k "_"%char))
    with ("_"%char :: expandRuns (replicate (S k) "_"%char)).
  rewrite IH. reflexivity.
Qed.

Lemma underscores_untouched (k : nat) :
  replaceChar "@" [] (toLowerCase (replicate k "_"%char)) = replicate k "_"%char.
Proof.
  induction k as [|k IH]; [reflexivity|].
  cbn [replicate toLowerCase map]. fold (toLowerCase (replicate k "_"%char)).
  change (lower_char "_") with "_"%char.
  rewrite replaceChar_cons_ne by done. now rewrite IH.
Qed.

Lemma normalizeChars_run (k : nat) :
  normalizeChars (replicate (S k) "_"%char) = replicate (S k + 2) "_"%char.
Proof.
  now rewrite normalizeChars_expandRuns, underscores_untouched, expandRuns_replicate.
Qed.

End normalize_facts.

Section component_facts.
Import Text Util Json Types Sandbox.

Lemma componentChar_spec c : Path.componentChar c = true ↔ c ≠ "/"%char ∧ nonNul c.
Proof.
  unfold Path.componentChar, nonNul.
  destruct (Ascii.eqb_spec c "/"), (Ascii.eqb_spec c zero); simpl; intuition congruence.
Qed.

Lemma isHexDigit_component c : isHexDigit c = true → Path.componentChar c = true.
Proof.
  destruct c as [[] [] [] [] [] [] [] []]; vm_compute; congruence.
Qed.

Lemma Forall_replaceChar (P : ascii → Prop) c by_ (s : chars) :
  Forall P by_ → Forall (λ x, x ≠ c → P x) s → Forall P (replaceChar c by_ s).
Proof.
  intros Hby Hs. induction Hs as [|x s Hx Hs IH]; [constructor|].
  destruct (Ascii.eqb_spec x c) as [->|Hne].
  - rewrite replaceChar_cons_eq. apply Forall_app; auto.
  - rewrite replaceChar_cons_ne by assumption. constructor; auto.
Qed.

Lemma Forall_replaceUnderscoreRuns (P : ascii → Prop) (s : chars) :
  P "_"%char → Forall P s → Forall P (replaceUnderscoreRuns s).
Proof.
  intros Hu Hs. induction Hs as [|x s Hx Hs IH]; [constructor|].
  cbn [replaceUnderscoreRuns].
  destruct (Ascii.eqb x "_"); [|constructor; auto].
  destruct s as [|c' s'].
  - repeat constructor; auto.
  - destruct (Ascii.eqb c' "_"); repeat constructor; auto.
Qed.

Lemma lower_char_nonNul c : nonNul c → nonNul (lower_char c).
Proof.
  unfold nonNul.
  destruct c as [[] [] [] [] [] [] [] []]; vm_compute; congruence.
Qed.

Lemma forallb_componentChar (s : chars) :
  forallb Path.componentChar s = true ↔ Forall (λ c, c ≠ "/"%char ∧ nonNul c) s.
Proof.
  rewrite forallb_forall, List.Forall_forall.
  split; intros H c Hc; apply componentChar_spec, H, Hc.
Qed.

(** The normalised name never contains [/], and contains NUL only if the
    name does. *)
Lemma normalizeChars_component (name : chars) :
  Forall nonNul name →
  Forall (λ c, c ≠ "/"%char ∧ nonNul c) (normalizeChars name).
Proof.
  intros Hname. unfold normalizeChars, laterPasses.
  assert (Hlow : Forall nonNul (toLowerCase name)).
  { unfold toLowerCase. apply Forall_map.
    eapply Forall_impl; [exact Hname|]. intros c. apply lower_char_nonNul. }
  assert (Hat : Forall nonNul (replaceChar "@" [] (toLowerCase name))).
  { apply Forall_replaceChar; [constructor|].
    eapply Forall_impl; [exact Hlow|]. auto. }
  assert (Hruns : Forall nonNul
            (replaceUnderscoreRuns (replaceChar "@" [] (toLowerCase name)))).
  { apply Forall_replaceUnderscoreRuns; [unfold nonNul, zero; congruence | exact Hat]. }
  apply Forall_replaceChar.
  { now apply forallb_componentChar. }
  eapply Forall_impl; [|intros c Hc _; exact Hc].
  apply Forall_replaceChar.
  { now apply forallb_componentChar. }
  eapply Forall_impl; [|intros c Hc _; exact Hc].
  apply Forall_replaceChar.
  { now apply forallb_componentChar. }
  eapply Forall_impl; [exact Hruns|]. intros c Hc Hne. split; assumption.
Qed.

(** A string with a dash in it and only component characters is a path
    component. *)
Lemma isPathComponent_dash (s : string) :
  In "-"%char (of_string s) →
  forallb Path.componentChar (of_string s) = true →
  Path.isPathComponent s = true.
Proof.
  intros Hdash Hall. unfold Path.isPathComponent. rewrite Hall.
  assert (H0 : s ≠ "") by (intros ->; destruct Hdash).
  assert (H1 : s ≠ ".") by (intros ->; simpl in Hdash; intuition congruence).
  assert (H2 : s ≠ "..") by (intros ->; simpl in Hdash; intuition congruence).
  now rewrite !bool_decide_eq_false_2.
Qed.

End component_facts.

Section build_id_component.
Import Text Util Json Types Sandbox.

Lemma calculateBuildId_chars sha1 testMode env pj source deps :
  ∃ suffix,
    of_string (calculateBuildId sha1 testMode env pj source deps)
    = normalizeChars (of_string (pjName pj)) ++ "-"%char ::
      of_string (versionOrDefault (pjVersion pj)) ++ suffix
    ∧ (suffix = [] ∨ ∃ h, suffix = "-"%char :: of_string (sha1 h)).
Proof.
  unfold calculateBuildId, normalizePackageName.
  destruct testMode.
  - exists []. split; [|now left].
    rewrite !of_string_app, of_to_string, app_nil_r. reflexivity.
  - eexists. split; [|right; eexists; reflexivity].
    rewrite !of_string_app, of_to_string, <- !app_assoc. reflexivity.
Qed.

(** C5, as amended: [normalizePackageName] lower-cases the name, strips
    every [@], follows every maximal run of underscores by two more
    underscores (a run of [k] becomes [k + 2] long), and spells [/] as
    [__slash__], [.] as [__dot__] and [-] as [_]; and the id made of the
    normalised name, the version (or [0.0.0]) and the hexadecimal digest
    is a valid POSIX path component whenever the name has no NUL and the
    version has neither [/] nor NUL. *)
Theorem normalizePackageName_runs_and_id_component :
  (∀ name : string,
     normalizePackageName name
     = to_string (expandRuns (replaceChar "@" [] (toLowerCase (of_string name)))))
  ∧ (∀ k : nat,
       normalizeChars (replicate (S k) "_"%char) = replicate (S k + 2) "_"%char)
  ∧ (∀ (sha1 : string → string) (testMode : bool) (env : value)
       (pj : PackageJson) (source : string) (deps : list BuildSpec),
       (∀ s, forallb isHexDigit (of_string (sha1 s)) = true) →
       Forall nonNul (of_string (pjName pj)) →
       (∀ v, pjVersion pj = Some v →
             forallb Path.componentChar (of_string v) = true) →
       Path.isPathComponent (calculateBuildId sha1 testMode env pj source deps)
       = true).
Proof.
  split; [|split].
  - intros name. unfold normalizePackageName. now rewrite normalizeChars_expandRuns.
  - apply normalizeChars_run.
  - intros sha1 testMode env pj source deps Hhex Hname Hversion.
    destruct (calculateBuildId_chars sha1 testMode env pj source deps)
      as (suffix & Hchars & Hsuffix).
    apply isPathComponent_dash; rewrite Hchars.
    + apply in_or_app. right. now left.
    + apply forallb_componentChar.
      apply Forall_app. split; [now apply normalizeChars_component|].
      constructor; [split; unfold nonNul, zero; congruence|].
      apply Forall_app. split.
      * apply forallb_componentChar. unfold versionOrDefault.
        destruct (pjVersion pj) as [v|] eqn:Hv; [|reflexivity].
        destruct (decide (v = "")); [reflexivity | now apply Hversion].
      * destruct Hsuffix as [->|[h ->]]; [constructor|].
        constructor; [split; unfold nonNul, zero; congruence|].
        apply forallb_componentChar, forallb_forall. intros c Hc.
        apply isHexDigit_component.
        specialize (Hhex h). rewrite forallb_forall in Hhex. now apply Hhex.
Qed.

End build_id_component.

Section build_id_examples.
Import Text Util Json Types Sandbox.

Lemma normalizePackageName_runs_and_id_component_witness :
  Path.isPathComponent
    (calculateBuildId constantDigest false (JMap []) manifestMyPkg "local:/sandbox" [])
  = true.
Proof.
  apply (proj2 (proj2 normalizePackageName_runs_and_id_component)).
  - intros s. reflexivity.
  - vm_compute. repeat constructor; congruence.
  - intros v Hv. injection Hv as <-. reflexivity.
Defined.

(** C5 fails as stated: a single underscore becomes three, not two; a
    version with a slash puts the slash into the id; and so does a name
    with a NUL character. *)
Lemma normalizePackageName_counterexample :
  normalizePackageName "a_b" = "a___b"
  ∧ normalizeAsSpecified "a_b" = "a__b"
  ∧ normalizePackageName "a_b" ≠ normalizeAsSpecified "a_b"
  ∧ Path.isPathComponent
      (calculateBuildId constantDigest false (JMap []) manifestSlashVersion
         "local:/sandbox" [])
    = false
  ∧ Path.isPathComponent
      (calculateBuildId constantDigest false (JMap []) manifestNulName
         "local:/sandbox" [])
    = false.
Proof. vm_compute. repeat split; congruence. Qed.

End build_id_examples.

(** ** Store paths: the staging and the final install path *)

Section split_join.
Import Text.

Lemma split_nonempty c (s : chars) : split c s ≠ [].
Proof.
  destruct s as [|x rest]; simpl; [discriminate|].
  destruct (Ascii.eqb x c); [discriminate|].
  destruct (split c rest); discriminate.
Qed.

Lemma split_app_sep c (a b : chars) :
  split c (a ++ c :: b) = split c a ++ split c b.
Proof.
  induction a as [|x a IH]; simpl.
  - now rewrite Ascii.eqb_refl.
  - destruct (Ascii.eqb x c); [now rewrite IH|].
    rewrite IH. pose proof (split_nonempty c a) as Hne.
    destruct (split c a); [contradiction | reflexivity].
Qed.

Lemma split_join c (pieces : list chars) :
  pieces ≠ [] → split c (join [c] pieces) = flat_map (split c) pieces.
Proof.
  induction pieces as [|p rest IH]; [contradiction|]. intros _.
  destruct rest as [|q rest'].
  - simpl. now rewrite app_nil_r.
  - change (join [c] (p :: q :: rest')) with (p ++ c :: join [c] (q :: rest')).
    rewrite split_app_sep, IH by discriminate. reflexivity.
Qed.

(** A piece without the separator is one segment. *)
Lemma split_plain c (s : chars) : c ∉ s → split c s = [s].
Proof.
  induction s as [|x s IH]; intros Hc; [reflexivity|].
  simpl. destruct (Ascii.eqb_spec x c) as [->|Hne].
  - exfalso. apply Hc. left.
  - rewrite IH; [reflexivity|]. intros Hin. apply Hc. now right.
Qed.

Lemma join_middle sep (a b : list chars) :
  ∃ x y, ∀ t : chars, join sep (a ++ t :: b) = x ++ t ++ y.
Proof.
  induction a as [|p a (x & y & IH)].
  - destruct b as [|q b].
    + exists [], []. intros t'. simpl. now rewrite app_nil_r.
    + exists [], (sep ++ join sep (q :: b)). intros t'. reflexivity.
  - exists (p ++ sep ++ x), y. intros t'.
    change ((p :: a) ++ t' :: b) with (p :: (a ++ t' :: b)).
    destruct (a ++ t' :: b) eqn:E.
    { destruct a; discriminate. }
    rewrite <- E.
    transitivity (p ++ sep ++ join sep (a ++ t' :: b)).
    { rewrite E. reflexivity. }
    rewrite IH. now rewrite <- !app_assoc.
Qed.

End split_join.

Section normalize_facts.
Import Text Path.

Lemma ordinary_flags (t : chars) :
  ordinary t → isEmpty t = false ∧ isDot t = false ∧ isDotDot t = false.
Proof.
  intros (H0 & H1 & H2 & _). unfold isEmpty, isDot, isDotDot.
  now rewrite !bool_decide_eq_false_2.
Qed.

Lemma normalizeStep_ordinary allow (res : list chars) (t : chars) :
  ordinary t → normalizeStep allow res t = res ++ [t].
Proof.
  intros Ht. destruct (ordinary_flags t Ht) as (H0 & H1 & H2).
  unfold normalizeStep. now rewrite H0, H1, H2.
Qed.

Lemma normalizeStep_sameBut allow (t1 t2 : chars) (r1 r2 : list chars) seg :
  ordinary t1 → ordinary t2 →
  sameBut t1 t2 r1 r2 →
  sameBut t1 t2 (normalizeStep allow r1 seg) (normalizeStep allow r2 seg).
Proof.
  intros Ht1 Ht2 [->|(a & b & -> & ->)]; [now left|].
  destruct (ordinary_flags t1 Ht1) as (_ & _ & Hd1).
  destruct (ordinary_flags t2 Ht2) as (_ & _ & Hd2).
  unfold normalizeStep.
  destruct (isEmpty seg || isDot seg); [right; eauto|].
  assert (Hpush : sameBut t1 t2 ((a ++ t1 :: b) ++ [seg]) ((a ++ t2 :: b) ++ [seg])).
  { right. exists a, (b ++ [seg]). now rewrite <- !app_assoc. }
  destruct (isDotDot seg); [|exact Hpush].
  destruct b as [|z b _] using rev_ind.
  - rewrite !last_snoc, Hd1, Hd2.
    change (a ++ [t1]) with (a ++ [t1]). rewrite !removelast_last. now left.
  - replace (a ++ t1 :: b ++ [z]) with ((a ++ t1 :: b) ++ [z])
      by now rewrite <- app_assoc.
    replace (a ++ t2 :: b ++ [z]) with ((a ++ t2 :: b) ++ [z])
      by now rewrite <- app_assoc.
    rewrite !last_snoc.
    destruct (isDotDot z).
    + destruct allow.
      * right. exists a, ((b ++ [z]) ++ [seg]). now rewrite <- !app_assoc.
      * right. exists a, (b ++ [z]). now rewrite <- !app_assoc.
    + rewrite !removelast_last. right. eauto.
Qed.

Lemma fold_normalizeStep_sameBut allow (t1 t2 : chars) segs :
  ordinary t1 → ordinary t2 →
  ∀ r1 r2, sameBut t1 t2 r1 r2 →
  sameBut t1 t2 (fold_left (normalizeStep allow) segs r1)
    (fold_left (normalizeStep allow) segs r2).
Proof.
  intros Ht1 Ht2. induction segs as [|seg segs IH]; intros r1 r2 H; [exact H|].
  simpl. apply IH. now apply normalizeStep_sameBut.
Qed.

Lemma normalizeString_sameBut allow (t1 t2 : chars) (a b : list chars) :
  ordinary t1 → ordinary t2 →
  sameBut t1 t2 (normalizeString allow (a ++ t1 :: b))
    (normalizeString allow (a ++ t2 :: b)).
Proof.
  intros Ht1 Ht2. unfold normalizeString.
  rewrite !fold_left_app. simpl.
  apply fold_normalizeStep_sameBut; [assumption..|].
  rewrite !normalizeStep_ordinary by assumption.
  right. eauto.
Qed.

Lemma joinSlash_sameBut (t1 t2 : chars) (l1 l2 : list chars) :
  sameBut t1 t2 l1 l2 → sameButPiece t1 t2 (joinSlash l1) (joinSlash l2).
Proof.
  intros [->|(a & b & -> & ->)]; [now left|].
  destruct (join_middle ["/"%char] a b) as (x & y & H).
  right. exists x, y. unfold joinSlash. now rewrite !H.
Qed.

Lemma sameButPiece_length (t1 t2 p1 p2 : chars) :
  length t1 = length t2 → sameButPiece t1 t2 p1 p2 → length p1 = length p2.
Proof.
  intros Hlen [->|(x & y & -> & ->)]; [reflexivity|].
  rewrite !length_app. lia.
Qed.

Lemma sameButPiece_isEmpty (t1 t2 p1 p2 : chars) :
  t1 ≠ [] → t2 ≠ [] → sameButPiece t1 t2 p1 p2 → isEmpty p1 = isEmpty p2.
Proof.
  intros H1 H2 [->|(x & y & -> & ->)]; [reflexivity|].
  assert (N : ∀ t : chars, t ≠ [] → x ++ t ++ y ≠ []).
  { intros t Ht E. apply app_eq_nil in E as [_ E]. apply app_eq_nil in E as [E _]. auto. }
  unfold isEmpty.
  rewrite (bool_decide_eq_false_2 _ (N t1 H1)), (bool_decide_eq_false_2 _ (N t2 H2)).
  reflexivity.
Qed.

Lemma sameButPiece_app_r (t1 t2 p1 p2 z : chars) :
  sameButPiece t1 t2 p1 p2 → sameButPiece t1 t2 (p1 ++ z) (p2 ++ z).
Proof.
  intros [->|(x & y & -> & ->)]; [now left|].
  right. exists x, (y ++ z). now rewrite <- !app_assoc.
Qed.

Lemma sameButPiece_cons (t1 t2 p1 p2 : chars) c :
  sameButPiece t1 t2 p1 p2 → sameButPiece t1 t2 (c :: p1) (c :: p2).
Proof.
  intros [->|(x & y & -> & ->)]; [now left|].
  right. exists (c :: x), y. split; reflexivity.
Qed.

(** The texts [normalize] returns for two lists of segments that differ in
    one ordinary segment differ in that segment at most. *)
Lemma normalizeNonEmpty_sameBut (t1 t2 : chars) (a b : list chars) (path1 path2 : chars) :
  ordinary t1 → ordinary t2 →
  splitSlash path1 = a ++ t1 :: b →
  splitSlash path2 = a ++ t2 :: b →
  sameButPiece t1 t2 (normalizeNonEmpty path1) (normalizeNonEmpty path2).
Proof.
  intros Ht1 Ht2 E1 E2. unfold normalizeNonEmpty. rewrite E1, E2.
  destruct (ordinary_flags t1 Ht1) as (He1 & _ & _).
  destruct (ordinary_flags t2 Ht2) as (He2 & _ & _).
  assert (Hhd : isEmpty (hd [] (a ++ t1 :: b)) = isEmpty (hd [] (a ++ t2 :: b))).
  { destruct a; simpl; [now rewrite He1, He2 | reflexivity]. }
  assert (Hlast : isEmpty (List.last (a ++ t1 :: b) [])
                  = isEmpty (List.last (a ++ t2 :: b) [])).
  { destruct b as [|z b _] using rev_ind.
    - rewrite !List.last_last. now rewrite He1, He2.
    - replace (a ++ t1 :: b ++ [z]) with ((a ++ t1 :: b) ++ [z])
        by now rewrite <- app_assoc.
      replace (a ++ t2 :: b ++ [z]) with ((a ++ t2 :: b) ++ [z])
        by now rewrite <- app_assoc.
      now rewrite !List.last_last. }
  rewrite <- Hhd, <- Hlast.
  set (abs := isEmpty (hd [] (a ++ t1 :: b))).
  set (trailing := isEmpty (List.last (a ++ t1 :: b) [])).
  pose proof (joinSlash_sameBut t1 t2 _ _
                (normalizeString_sameBut (negb abs) t1 t2 a b Ht1 Ht2)) as Hp.
  set (p1 := joinSlash (normalizeString (negb abs) (a ++ t1 :: b))) in *.
  set (p2 := joinSlash (normalizeString (negb abs) (a ++ t2 :: b))) in *.
  assert (Hempty : isEmpty p1 = isEmpty p2).
  { apply (sameButPiece_isEmpty t1 t2); [apply Ht1 | apply Ht2 | exact Hp]. }
  assert (Hq : sameButPiece t1 t2
            (if isEmpty p1 && negb abs then of_string "." else p1)
            (if isEmpty p2 && negb abs then of_string "." else p2)).
  { rewrite <- Hempty. destruct (isEmpty p1 && negb abs); [now left | exact Hp]. }
  set (q1 := if isEmpty p1 && negb abs then of_string "." else p1) in *.
  set (q2 := if isEmpty p2 && negb abs then of_string "." else p2) in *.
  assert (Hempty' : isEmpty q1 = isEmpty q2).
  { apply (sameButPiece_isEmpty t1 t2); [apply Ht1 | apply Ht2 | exact Hq]. }
  rewrite <- Hempty'.
  assert (Hr : sameButPiece t1 t2
            (if negb (isEmpty q1) && trailing then q1 ++ of_string "/" else q1)
            (if negb (isEmpty q1) && trailing then q2 ++ of_string "/" else q2)).
  { destruct (negb (isEmpty q1) && trailing); [now apply sameButPiece_app_r | exact Hq]. }
  destruct abs; [now apply sameButPiece_cons | exact Hr].
Qed.

Lemma filter_nonempty_middle (root t : chars) (rest : list chars) :
  t ≠ [] →
  List.filter (λ a, negb (isEmpty a)) (root :: t :: rest)
  = List.filter (λ a, negb (isEmpty a)) [root]
    ++ t :: List.filter (λ a, negb (isEmpty a)) rest.
Proof.
  intros Ht. change (root :: t :: rest) with ([root] ++ t :: rest).
  rewrite List.filter_app. f_equal. simpl.
  unfold isEmpty at 1. now rewrite bool_decide_eq_false_2.
Qed.

(** [path.join] of arguments that differ in one ordinary segment. *)
Lemma joinChars_sameBut (t1 t2 : chars) (root : chars) (rest : list chars) :
  ordinary t1 → ordinary t2 →
  sameButPiece t1 t2 (joinChars (root :: t1 :: rest)) (joinChars (root :: t2 :: rest)).
Proof.
  intros Ht1 Ht2. unfold joinChars.
  rewrite (filter_nonempty_middle root t1 rest) by apply Ht1.
  rewrite (filter_nonempty_middle root t2 rest) by apply Ht2.
  set (pre := List.filter (λ a, negb (isEmpty a)) [root]).
  set (post := List.filter (λ a, negb (isEmpty a)) rest).
  assert (Hsplit : ∀ t, ordinary t →
            splitSlash (joinSlash (pre ++ t :: post))
            = flat_map splitSlash pre ++ t :: flat_map splitSlash post).
  { intros t Ht. unfold splitSlash, joinSlash.
    rewrite split_join by (destruct pre; discriminate).
    rewrite flat_map_app. simpl. rewrite split_plain by apply Ht. reflexivity. }
  assert (Hne : ∀ t, ordinary t → joinSlash (pre ++ t :: post) ≠ []).
  { intros t Ht E. specialize (Hsplit t Ht). rewrite E in Hsplit.
    simpl in Hsplit. destruct (flat_map splitSlash pre) as [|s0 l0]; simpl in Hsplit.
    - injection Hsplit as E' _. destruct Ht as [Ht _]. auto.
    - injection Hsplit as _ E'. destruct l0; discriminate. }
  unfold normalize.
  pose proof (Hne t1 Ht1) as N1. pose proof (Hne t2 Ht2) as N2.
  assert (G := normalizeNonEmpty_sameBut t1 t2 _ _ _ _ Ht1 Ht2
                 (Hsplit t1 Ht1) (Hsplit t2 Ht2)).
  destruct (pre ++ t1 :: post) eqn:E1; [destruct pre; discriminate|].
  destruct (pre ++ t2 :: post) eqn:E2; [destruct pre; discriminate|].
  destruct (joinSlash (c :: l)); [contradiction|].
  destruct (joinSlash (c0 :: l0)); [contradiction|].
  exact G.
Qed.

End normalize_facts.

Section install_paths.
Import Text Path Types Config.

Lemma ordinary_insttmp : ordinary (of_string "_insttmp").
Proof.
  repeat split; try discriminate.
  intros H. apply list_elem_of_In in H. simpl in H. intuition discriminate.
Qed.

Lemma ordinary_install : ordinary (of_string "_install").
Proof.
  repeat split; try discriminate.
  intros H. apply list_elem_of_In in H. simpl in H. intuition discriminate.
Qed.

Lemma genPath_storeRoot c build tree segments :
  genPath c build tree segments
  = Path.join (storeRoot c build :: tree :: id build :: segments).
Proof. unfold genPath, storeRoot. now destruct (shouldBePersisted build). Qed.

(** C6: for every build and every list of segments [getInstallPath] and
    [getFinalInstallPath] return paths of the same length: both are
    [path.join] of the store selected by [shouldBePersisted], the subtree
    name, the id and the segments; the subtree names [_insttmp] and
    [_install] are 8 characters each; and the two paths are the same text
    except for that name (or the same text altogether when [..] segments
    remove it). *)
Theorem install_paths_same_length (c : BuildConfig) (build : BuildSpec)
    (segments : list string) :
  String.length (getInstallPath c build segments)
  = String.length (getFinalInstallPath c build segments)
  ∧ getInstallPath c build segments
    = Path.join (storeRoot c build :: "_insttmp" :: id build :: segments)
  ∧ getFinalInstallPath c build segments
    = Path.join (storeRoot c build :: "_install" :: id build :: segments)
  ∧ String.length "_insttmp" = 8%nat ∧ String.length "_install" = 8%nat
  ∧ (getInstallPath c build segments = getFinalInstallPath c build segments
     ∨ ∃ pre post,
         getInstallPath c build segments = pre +:+ "_insttmp" +:+ post
         ∧ getFinalInstallPath c build segments = pre +:+ "_install" +:+ post).
Proof.
  unfold getInstallPath, getFinalInstallPath. rewrite !genPath_storeRoot.
  set (root := storeRoot c build).
  pose proof (joinChars_sameBut (of_string "_insttmp") (of_string "_install")
                (of_string root) (map of_string (id build :: segments))
                ordinary_insttmp ordinary_install) as H.
  change (of_string root :: of_string "_insttmp" :: map of_string (id build :: segments))
    with (map of_string (root :: "_insttmp" :: id build :: segments)) in H.
  change (of_string root :: of_string "_install" :: map of_string (id build :: segments))
    with (map of_string (root :: "_install" :: id build :: segments)) in H.
  unfold Path.join.
  repeat split; try reflexivity.
  - rewrite !length_to_string.
    now apply (sameButPiece_length (of_string "_insttmp") (of_string "_install")).
  - destruct H as [->|(x & y & -> & ->)]; [now left|].
    right. exists (to_string x), (to_string y).
    rewrite !to_string_app. split; reflexivity.
Qed.

End install_paths.

Example install_paths_example :
  Config.getInstallPath (Config.mkConfig "/home/u/.esy" "/sandbox")
    (Types.mkBuildSpec "pkg-1.0.0-abc" "pkg" (Some "1.0.0") None None "" false true
       (Types.mkPackageJson "pkg" (Some "1.0.0") [] [] None []) [] [])
    ["lib"]
  = "/home/u/.esy/_insttmp/pkg-1.0.0-abc/lib".
Proof. vm_compute. reflexivity. Qed.

(** ** Exclusive variables in the ejected environment *)

Section exclusive_facts.
Import Text Types Environment.

Variable realpathSync : string → string.
Variable pathIsInside : string → string → bool.
Variable relative : string → string → string.

Local Abbreviation relativeToSandbox := (relativeToSandbox realpathSync pathIsInside relative).
Local Abbreviation overrideMessage := (overrideMessage realpathSync pathIsInside relative).
Local Abbreviation exclusiveMessage := (exclusiveMessage realpathSync pathIsInside relative).
Local Abbreviation errorsForVar := (errorsForVar realpathSync pathIsInside relative).
Local Abbreviation addEnvVar := (addEnvVar realpathSync pathIsInside relative).
Local Abbreviation addEnvConfigForPackage :=
  (addEnvConfigForPackage realpathSync pathIsInside relative).

Lemma fold_addEnvVar_errors seen root packageName path
    (l : list (string * EnvironmentVarExport)) (next : EnvironmentConfigState) :
  errors (fold_left (addEnvVar seen root packageName path) l next)
  = errors next ++ flat_map (errorsForVar seen root packageName) l.
Proof.
  revert next. induction l as [|entry l IH]; intros next; simpl.
  - now rewrite app_nil_r.
  - rewrite IH. simpl. now rewrite <- app_assoc.
Qed.

Lemma addEnvConfigForPackage_errors st root packageName path exportedEnv :
  errors (addEnvConfigForPackage st root packageName path exportedEnv)
  = errors st ++ flat_map (errorsForVar (seenVars st) root packageName) exportedEnv.
Proof.
  unfold Environment.addEnvConfigForPackage. simpl.
  now rewrite fold_addEnvVar_errors.
Qed.

(** The two messages end differently. *)
Lemma two_last_differ (l1 l2 : chars) (a b c : ascii) :
  a ≠ b → l1 ++ [a; c] ≠ l2 ++ [b; c].
Proof.
  intros Hab E.
  change (l1 ++ [a; c]) with (l1 ++ [a] ++ [c]) in E.
  change (l2 ++ [b; c]) with (l2 ++ [b] ++ [c]) in E.
  rewrite !app_assoc in E.
  apply app_inj_tail in E as [E _]. apply app_inj_tail in E as [_ E]. auto.
Qed.

Lemma messages_differ root packageName envVar (seen : SeenVar) :
  overrideMessage root packageName envVar seen
  ≠ exclusiveMessage root packageName envVar seen.
Proof.
  intros E. apply (f_equal of_string) in E.
  unfold Environment.overrideMessage, Environment.exclusiveMessage in E.
  rewrite !of_string_app in E.
  change (of_string " is trying to override it.")
    with (of_string " is trying to override i" ++ ["t"; "."]%char) in E.
  change (of_string "Sometimes you can reduce the likehood of conflicts by marking some packages as buildTimeOnlyDependencies.")
    with (of_string "Sometimes you can reduce the likehood of conflicts by marking some packages as buildTimeOnlyDependencie" ++ ["s"; "."]%char) in E.
  rewrite !app_assoc in E.
  revert E. apply two_last_differ. discriminate.
Qed.


End exclusive_facts.


(** ** The build driver: cache hits, change detection, forced builds *)

Section driver_facts.
Import Text Types Fs Driver.

Variable sha1 : string → string.
Variable config : Config.BuildConfig.
Variable performBuild : BuildTask → World → option string * World.
Variable elapsed : BuildTask → World → Z.

Local Abbreviation performBuildWithStatusReport :=
  (performBuildWithStatusReport performBuild elapsed).
Local Abbreviation performBuildMemoized :=
  (performBuildMemoized sha1 config performBuild elapsed).
Local Abbreviation buildStep := (buildStep sha1 config performBuild elapsed).
Local Abbreviation calculateSourceChecksum := (calculateSourceChecksum sha1 config).
Local Abbreviation readSourceChecksum := (readSourceChecksum config).
Local Abbreviation isSpecExistsInStore := (isSpecExistsInStore config).

(** What a run of [performBuildWithStatusReport] leaves behind. *)
Lemma performBuildWithStatusReport_spec task forced st result st' :
  performBuildWithStatusReport task forced st = (result, st') →
  events st' = events st ++ [TaskStatus (taskId task) InProgress;
                             PerformBuild (taskId task);
                             TaskStatus (taskId task) result]
  ∧ taskInProgress st' = taskInProgress st
  ∧ ((∃ t, result = Success (Some t) false forced) ∨ ∃ e, result = Failure e).
Proof.
  unfold Driver.performBuildWithStatusReport, onTaskStatus. simpl.
  destruct (performBuild task _) as [[e|] w]; intros [= <- <-]; simpl;
    rewrite <- !app_assoc; simpl; eauto 6.
Qed.

(** A task that is not persisted, installed, and whose stored checksum is
    the checksum of its sources, is reported as cached and left alone. *)
Lemma performBuildMemoized_hit (task : BuildTask) (st : DriverState) :
  shouldBePersisted (spec task) = false →
  taskInProgress st !! taskId task = None →
  isSpecExistsInStore (world st) (spec task) = true →
  readSourceChecksum (world st) (spec task)
  = Some (calculateSourceChecksum (world st) (spec task)) →
  performBuildMemoized task false st
  = (cachedSuccessStatus,
     mkDriver (world st)
       (<[taskId task := cachedSuccessStatus]> (taskInProgress st))
       (events st ++ [TaskStatus (taskId task) cachedSuccessStatus])).
Proof.
  intros Hpers Hfresh Hstore Hsum.
  unfold Driver.performBuildMemoized.
  rewrite Hfresh, Hpers, Hstore. simpl.
  now rewrite (bool_decide_eq_true_2 _ Hsum).
Qed.

(** C4: for a task that is not persisted, not forced and not yet started,
    the driver reports the cached success and performs no build exactly
    when the final install directory exists and the checksum read from
    [<build path>/_esy/checksum] is the checksum just computed from the
    sources; then it does nothing but report. In every other case it
    builds, and afterwards (on success in particular) the checksum file
    holds the checksum computed before the build. *)
Theorem unpersisted_skips_iff_installed_and_checksum_matches
    (task : BuildTask) (st : DriverState) (result : BuildTaskState)
    (st' : DriverState) :
  shouldBePersisted (spec task) = false →
  taskInProgress st !! taskId task = None →
  performBuildMemoized task false st = (result, st') →
  let current := calculateSourceChecksum (world st) (spec task) in
  let hit :=
    isSpecExistsInStore (world st) (spec task) = true
    ∧ readSourceChecksum (world st) (spec task) = Some current in
  ∃ new,
    events st' = events st ++ new
    ∧ ((result = cachedSuccessStatus ∧ PerformBuild (taskId task) ∉ new) ↔ hit)
    ∧ (hit → new = [TaskStatus (taskId task) cachedSuccessStatus]
             ∧ world st' = world st)
    ∧ (¬ hit →
       new = [TaskStatus (taskId task) InProgress;
              PerformBuild (taskId task);
              TaskStatus (taskId task) result;
              WriteStoreChecksum (taskId task) (trim current)]
       ∧ ((∃ t, result = Success (Some t) false true) ∨ ∃ e, result = Failure e)
       ∧ readFile (files (world st'))
           (Config.getBuildPath config (spec task) ["_esy"; "checksum"])
         = Some (trim current)).
Proof.
  intros Hpers Hfresh Hrun current hit.
  unfold Driver.performBuildMemoized in Hrun.
  rewrite Hfresh, Hpers in Hrun. simpl in Hrun.
  fold current in Hrun.
  destruct (isSpecExistsInStore (world st) (spec task)) eqn:Hstore;
    [destruct (decide (readSourceChecksum (world st) (spec task) = Some current))
       as [Hsum|Hsum]|].
  - (* the install directory exists and the checksum matches *)
    rewrite (bool_decide_eq_true_2 _ Hsum) in Hrun. simpl in Hrun.
    injection Hrun as <- <-. simpl.
    exists [TaskStatus (taskId task) cachedSuccessStatus].
    assert (Hhit : hit) by (split; [reflexivity | exact Hsum]).
    split; [reflexivity|]. split; [|split].
    + split; [intros _; exact Hhit|]. intros _. split; [reflexivity|].
      intros Hin. apply list_elem_of_singleton in Hin. discriminate.
    + intros _. split; reflexivity.
    + intros Hno. contradiction.
  - (* the checksum differs or was never written *)
    rewrite (bool_decide_eq_false_2 _ Hsum) in Hrun. simpl in Hrun.
    destruct (performBuildWithStatusReport task true st) as [r st1] eqn:Hbuild.
    injection Hrun as <- <-.
    destruct (performBuildWithStatusReport_spec _ _ _ _ _ Hbuild)
      as (Hev & _ & Hres).
    eexists. split; [simpl; rewrite Hev, <- app_assoc; reflexivity|].
    assert (Hmiss : ¬ hit) by (intros [_ H]; contradiction).
    split; [|split].
    + split; [|intros H; contradiction]. intros [_ Hno]. exfalso. apply Hno.
      simpl. repeat constructor.
    + intros H. contradiction.
    + intros _. split; [reflexivity|]. split; [exact Hres|].
      simpl. unfold readFile, writeFile. now rewrite lookup_insert_eq.
  - (* nothing is installed *)
    simpl in Hrun.
    destruct (performBuildWithStatusReport task true st) as [r st1] eqn:Hbuild.
    injection Hrun as <- <-.
    destruct (performBuildWithStatusReport_spec _ _ _ _ _ Hbuild)
      as (Hev & _ & Hres).
    eexists. split; [simpl; rewrite Hev, <- app_assoc; reflexivity|].
    assert (Hmiss : ¬ hit) by (intros [H _]; discriminate).
    split; [|split].
    + split; [|intros H; contradiction]. intros [_ Hno]. exfalso. apply Hno.
      simpl. repeat constructor.
    + intros H. contradiction.
    + intros _. split; [reflexivity|]. split; [exact Hres|].
      simpl. unfold readFile, writeFile. now rewrite lookup_insert_eq.
Qed.


End driver_facts.



Lemma unpersisted_skips_iff_installed_and_checksum_matches_witness :
  ∃ new,
    Driver.events
      (Driver.performBuildMemoized exampleDigest exampleConfig examplePerformBuild
         exampleElapsed (exampleTask "dev" false) false sourcesChanged).2
    = Driver.events sourcesChanged ++ new.
Proof.
  destruct (unpersisted_skips_iff_installed_and_checksum_matches exampleDigest
              exampleConfig examplePerformBuild exampleElapsed
              (exampleTask "dev" false) sourcesChanged _ _
              eq_refl eq_refl (surjective_pairing _)) as (new & H & _).
  exists new. exact H.
Defined.

(** ** The checksum of modification times *)

Section mtime_facts.
Import Text FsLib.

Lemma mapSet_fresh name value (m : list (string * string)) :
  name ∉ map fst m → mapSet name value m = m ++ [(name, value)].
Proof.
  induction m as [|[k v] m IH]; intros Hfresh; [reflexivity|].
  simpl. destruct (decide (k = name)) as [->|Hne].
  - exfalso. apply Hfresh. simpl. left.
  - rewrite IH; [reflexivity|]. intros Hin. apply Hfresh. simpl. now right.
Qed.

(** With distinct names the map of the listener holds the files of the
    walk in the order of the walk. *)
Lemma fold_onPath (events : list (string * Stat)) (acc : list (string * string)) :
  NoDup (map fst events) →
  (∀ n, n ∈ map fst events → n ∉ map fst acc) →
  fold_left onPath events acc
  = acc ++ map entryOf (List.filter (λ e, isFile e.2) events).
Proof.
  revert acc. induction events as [|[n s] events IH]; intros acc Hnd Hdisj; simpl.
  - now rewrite app_nil_r.
  - apply NoDup_cons in Hnd as [Hn Hnd].
    unfold onPath at 2. simpl. destruct (isFile s) eqn:Hfile.
    + rewrite mapSet_fresh by (apply Hdisj; simpl; left).
      rewrite IH; [now rewrite <- app_assoc| assumption |].
      intros k Hk. rewrite map_app. simpl. intros Hin.
      apply elem_of_app in Hin as [Hin|Hin].
      * revert Hin. apply Hdisj. simpl. now right.
      * apply list_elem_of_singleton in Hin. subst k. contradiction.
    + apply IH; [assumption|]. intros k Hk. apply Hdisj. simpl. now right.
Qed.

Lemma mapGet_NoDup (m : list (string * string)) k v :
  NoDup (map fst m) → (k, v) ∈ m → mapGet k m = v.
Proof.
  induction m as [|[k' v'] m IH]; intros Hnd Hin; [inversion Hin|].
  simpl in *. apply NoDup_cons in Hnd as [Hk Hnd].
  destruct (decide (k' = k)) as [->|Hne].
  - apply elem_of_cons in Hin as [[= <-]|Hin]; [reflexivity|].
    exfalso. apply Hk. apply (list_elem_of_fmap_2 fst) in Hin. exact Hin.
  - apply elem_of_cons in Hin as [[= <- <-]|Hin]; [contradiction|]. now apply IH.
Qed.

Lemma NoDup_filter_fst (events : list (string * Stat)) (p : string * Stat → bool) :
  NoDup (map fst events) → NoDup (map fst (List.filter p events)).
Proof.
  induction events as [|e events IH]; intros Hnd; simpl; [constructor|].
  apply NoDup_cons in Hnd as [He Hnd].
  destruct (p e); simpl; [|now apply IH].
  apply NoDup_cons. split; [|now apply IH].
  intros Hin. apply He.
  apply list_elem_of_fmap in Hin as (x & -> & Hx).
  apply list_elem_of_fmap. exists x. split; [reflexivity|].
  apply list_elem_of_In in Hx. apply List.filter_In in Hx as [Hx _].
  now apply list_elem_of_In.
Qed.

(** The names in sorted order, computed on names or on events. *)
Lemma sort_names (l : list (string * Stat)) :
  merge_sort String.le (map fst l) = map fst (merge_sort byName l).
Proof.
  apply (Sorted_unique String.le).
  - apply Sorted_merge_sort, _.
  - apply (Sorted_fmap fst byName String.le); [auto|].
    apply Sorted_merge_sort, _.
  - rewrite merge_sort_Permutation.
    change (map fst (merge_sort byName l)) with (fst <$> merge_sort byName l).
    change (map fst l) with (fst <$> l).
    now rewrite merge_sort_Permutation.
Qed.

(** What the hasher is fed: the modification times of the files, sorted
    by path. *)
Lemma mtimeSequence_sorted (events : list (string * Stat)) :
  NoDup (map fst events) → mtimeSequence events = sortedFileMtimes events.
Proof.
  intros Hnd. unfold mtimeSequence, sortedFileMtimes.
  rewrite fold_onPath; [|assumption|intros n _ Hin; inversion Hin]. simpl.
  set (files := List.filter (λ e, isFile e.2) events).
  assert (Hkeys : map fst (map entryOf files) = map fst files).
  { rewrite map_map. reflexivity. }
  rewrite Hkeys, sort_names, map_map.
  apply map_ext_in. intros e He.
  apply mapGet_NoDup.
  - rewrite Hkeys. now apply NoDup_filter_fst.
  - apply list_elem_of_In in He. rewrite merge_sort_Permutation in He.
    change (e.1, mtimeString e) with (entryOf e).
    change (map entryOf files) with (entryOf <$> files).
    now apply list_elem_of_fmap_2.
Qed.

Lemma same_name_same_event (l : list (string * Stat)) (x y : string * Stat) :
  NoDup (map fst l) → x ∈ l → y ∈ l → x.1 = y.1 → x = y.
Proof.
  induction l as [|e l IH]; intros Hnd Hx Hy Hxy; [inversion Hx|].
  simpl in Hnd. apply NoDup_cons in Hnd as [He Hnd].
  apply elem_of_cons in Hx as [->|Hx]; apply elem_of_cons in Hy as [->|Hy].
  - reflexivity.
  - exfalso. apply He. rewrite Hxy. now apply (list_elem_of_fmap_2 fst).
  - exfalso. apply He. rewrite <- Hxy. now apply (list_elem_of_fmap_2 fst).
  - now apply IH.
Qed.

(** Sorting commutes with a renaming that keeps the order. *)
Lemma sort_renamed rename (l : list (string * Stat)) :
  orderPreserving rename → NoDup (map fst l) →
  merge_sort byName (renameEvents rename l)
  = renameEvents rename (merge_sort byName l).
Proof.
  intros [Hinj Hmono] Hnd.
  assert (Hnd' : NoDup (map fst (renameEvents rename l))).
  { unfold renameEvents. rewrite map_map. simpl.
    rewrite <- (map_map fst rename).
    change (map rename (map fst l)) with (rename <$> map fst l).
    apply NoDup_fmap_2; [|assumption]. intros a b. apply Hinj. }
  assert (Hperm : merge_sort byName (renameEvents rename l)
                  ≡ₚ renameEvents rename (merge_sort byName l)).
  { rewrite merge_sort_Permutation. unfold renameEvents.
    change (map ?f ?x) with (f <$> x).
    now rewrite merge_sort_Permutation. }
  apply (StronglySorted_unique_strong byName); [| | |exact Hperm].
  - intros x1 x2 H1 H2 H12 H21.
    apply (same_name_same_event (renameEvents rename l)); [assumption| | |].
    + now rewrite merge_sort_Permutation in H1.
    + rewrite <- Hperm in H2. now rewrite merge_sort_Permutation in H2.
    + unfold byName in *. now apply (anti_symm String.le).
  - apply StronglySorted_merge_sort; apply _.
  - unfold renameEvents. change (map ?f ?x) with (f <$> x).
    apply (StronglySorted_fmap _ byName byName).
    + intros x y. unfold byName. simpl. apply Hmono.
    + apply StronglySorted_merge_sort; apply _.
Qed.

Lemma filter_renamed rename (l : list (string * Stat)) :
  List.filter (λ e, isFile e.2) (renameEvents rename l)
  = renameEvents rename (List.filter (λ e, isFile e.2) l).
Proof.
  induction l as [|e l IH]; [reflexivity|].
  simpl. destruct (isFile e.2); simpl; now rewrite IH.
Qed.

(** Renaming the files in a way that keeps their order keeps the
    sequence that is hashed. *)
Lemma mtimeSequence_renamed rename (events : list (string * Stat)) :
  orderPreserving rename → NoDup (map fst events) →
  mtimeSequence (renameEvents rename events) = mtimeSequence events.
Proof.
  intros Hren Hnd.
  assert (Hnd' : NoDup (map fst (renameEvents rename events))).
  { unfold renameEvents. rewrite map_map. simpl.
    rewrite <- (map_map fst rename).
    change (map rename (map fst events)) with (rename <$> map fst events).
    apply NoDup_fmap_2; [|assumption]. intros a b. apply Hren. }
  rewrite !mtimeSequence_sorted by assumption.
  unfold sortedFileMtimes.
  rewrite filter_renamed, sort_renamed; [|assumption|now apply NoDup_filter_fst].
  unfold renameEvents. rewrite map_map. reflexivity.
Qed.

End mtime_facts.

Section checksum_facts.
Import Text Types FsLib Driver.

Lemma statOf_mapContents f (t : Tree) : statOf (mapContents f t) = statOf t.
Proof. destruct t; reflexivity. Qed.

Lemma Tree_induction (P : Tree → Prop) :
  (∀ mtime content, P (File mtime content)) →
  (∀ entries, Forall (λ e, P e.2) entries → P (Dir entries)) →
  P Other →
  ∀ t, P t.
Proof.
  intros Hfile Hdir Hother. fix IH 1. intros [mtime content|entries|].
  - apply Hfile.
  - apply Hdir. induction entries as [|[n sub] entries IHentries]; constructor.
    + apply IH.
    + exact IHentries.
  - exact Hother.
Qed.

Lemma walkTree_mapContents ignore f (t : Tree) :
  ∀ name, walkTree ignore name (mapContents f t) = walkTree ignore name t.
Proof.
  induction t as [mtime content|entries IH|] using Tree_induction; intros name;
    try reflexivity.
  simpl. f_equal. destruct (ignore name); [reflexivity|].
  induction IH as [|[n sub] entries Hsub _ IHentries]; [reflexivity|].
  simpl in *. now rewrite Hsub, IHentries.
Qed.

Lemma walkDir_mapContents ignore f dirname (entries : list (string * Tree)) :
  walkDir ignore dirname (mapContentsOfEntries f entries)
  = walkDir ignore dirname entries.
Proof.
  unfold walkDir, mapContentsOfEntries.
  induction entries as [|[n sub] entries IH]; [reflexivity|].
  simpl. now rewrite walkTree_mapContents, IH.
Qed.

(** C10: [calculateMtimeChecksum] hashes the modification times of the
    files, as strings, in the order of the sorted file names, and nothing
    else. So two trees with the same sequence have the same checksum; in
    particular the checksum survives a renaming of the files that keeps
    their order and any change of their contents; and a task that is not
    persisted, whose install directory exists and whose stored checksum
    was computed from a tree with the same sequence, is reported as cached
    and not built. *)
Theorem mtime_checksum_sees_sorted_mtimes_only (sha1 : string → string) :
  (∀ events, NoDup (map fst events) →
     checksumOfEvents sha1 events = digestOfUpdates sha1 (sortedFileMtimes events))
  ∧ (∀ dirname ignore entries1 entries2,
       mtimeSequence (walkDir ignore dirname entries1)
       = mtimeSequence (walkDir ignore dirname entries2) →
       calculateMtimeChecksum sha1 dirname ignore entries1
       = calculateMtimeChecksum sha1 dirname ignore entries2)
  ∧ (∀ rename events, orderPreserving rename → NoDup (map fst events) →
       checksumOfEvents sha1 (renameEvents rename events)
       = checksumOfEvents sha1 events)
  ∧ (∀ f dirname ignore entries,
       calculateMtimeChecksum sha1 dirname ignore (mapContentsOfEntries f entries)
       = calculateMtimeChecksum sha1 dirname ignore entries)
  ∧ (∀ config performBuild elapsed (task : BuildTask) (st : DriverState)
       (before : list (string * Tree)),
       let dirname := Config.getSourcePath config (spec task) [] in
       let ignore := ignoreForChecksum config (spec task) in
       shouldBePersisted (spec task) = false →
       taskInProgress st !! taskId task = None →
       isSpecExistsInStore config (world st) (spec task) = true →
       readSourceChecksum config (world st) (spec task)
       = Some (calculateMtimeChecksum sha1 dirname ignore before) →
       mtimeSequence (walkDir ignore dirname before)
       = mtimeSequence (walkDir ignore dirname (sourceTree (world st) dirname)) →
       let run := performBuildMemoized sha1 config performBuild elapsed task false st in
       run.1 = cachedSuccessStatus
       ∧ events run.2 = events st ++ [TaskStatus (taskId task) cachedSuccessStatus]).
Proof.
  split; [|split; [|split; [|split]]].
  - intros events Hnd. unfold checksumOfEvents. now rewrite mtimeSequence_sorted.
  - intros dirname ignore entries1 entries2 Hseq.
    unfold calculateMtimeChecksum, checksumOfEvents. now rewrite Hseq.
  - intros rename events Hren Hnd. unfold checksumOfEvents.
    now rewrite mtimeSequence_renamed.
  - intros f dirname ignore entries. unfold calculateMtimeChecksum.
    now rewrite walkDir_mapContents.
  - intros config performBuild elapsed task st before dirname ignore
      Hpers Hfresh Hstore Hsum Hseq run.
    assert (Hhit : readSourceChecksum config (world st) (spec task)
                   = Some (calculateSourceChecksum sha1 config (world st) (spec task))).
    { rewrite Hsum. f_equal.
      unfold Driver.calculateSourceChecksum, calculateMtimeChecksum, checksumOfEvents.
      fold dirname. fold ignore. now rewrite Hseq. }
    unfold run.
    rewrite (performBuildMemoized_hit sha1 config performBuild elapsed task st
               Hpers Hfresh Hstore Hhit).
    split; reflexivity.
Qed.

End checksum_facts.

Lemma mtime_checksum_sees_sorted_mtimes_only_witness :
  FsLib.calculateMtimeChecksum exampleDigest "/sandbox"
    (λ name, bool_decide (name = "/sandbox/node_modules")) sourcesBefore
  = FsLib.calculateMtimeChecksum exampleDigest "/sandbox"
      (λ name, bool_decide (name = "/sandbox/node_modules")) sourcesRenamed.
Proof.
  apply (proj1 (proj2 (mtime_checksum_sees_sorted_mtimes_only exampleDigest))).
  vm_compute. reflexivity.
Defined.

(** ** Build ids do not depend on the order of object keys *)

Section hash_facts.
Import Text Json Types Async Sandbox.

Variable sha1 : string → string.

Local Abbreviation hash := (hash sha1).
Local Abbreviation lookupHash := (lookupHash sha1).
Local Abbreviation hashStrings := (hashStrings sha1).
Local Abbreviation hashString := (hashString sha1).

(** Sorting forgets the order of the keys. *)
Lemma sort_keys_perm (keys1 keys2 : list string) :
  keys1 ≡ₚ keys2 → merge_sort String.le keys1 = merge_sort String.le keys2.
Proof.
  intros Hperm. apply (Sorted_unique String.le).
  - apply Sorted_merge_sort, _.
  - apply Sorted_merge_sort, _.
  - now rewrite !merge_sort_Permutation.
Qed.

(** With distinct keys a lookup forgets the order of the properties. *)
Lemma lookupHash_perm (l1 l2 : list (string * string)) key :
  NoDup (map fst l1) → l1 ≡ₚ l2 → lookupHash key l1 = lookupHash key l2.
Proof.
  intros Hnd Hperm. induction Hperm as [|[k h] l1 l2 Hperm IH
                                        |[k1 h1] [k2 h2] l|l1 l2 l3 H12 IH12 H23 IH23].
  - reflexivity.
  - simpl in *. apply NoDup_cons in Hnd as [_ Hnd].
    destruct (decide (k = key)); [reflexivity | now apply IH].
  - simpl in *. apply NoDup_cons in Hnd as [Hk2 _].
    destruct (decide (k1 = key)) as [->|]; destruct (decide (k2 = key)) as [->|];
      try reflexivity.
    exfalso. apply Hk2. simpl. left.
  - rewrite IH12 by assumption. apply IH23.
    change (map fst l2) with (fst <$> l2). change (map fst l1) with (fst <$> l1) in Hnd.
    now rewrite <- H12.
Qed.

(** Structural induction on values, with the elements of arrays and the
    values of properties as smaller values. *)
Lemma value_induction (P : value → Prop) :
  P JNull → P JUndefined → (∀ b, P (JBool b)) → (∀ n, P (JNumber n)) →
  (∀ s, P (JString s)) →
  (∀ items, Forall P items → P (JArray items)) →
  (∀ fields, Forall (λ kv, P kv.2) fields → P (JObject fields)) →
  (∀ entries, Forall (λ kv, P kv.2) entries → P (JMap entries)) →
  ∀ v, P v.
Proof.
  intros Hnull Hundef Hbool Hnum Hstr Harr Hobj Hmap.
  fix IH 1. intros [| |b|n|s|items|fields|entries].
  - exact Hnull.
  - exact Hundef.
  - apply Hbool.
  - apply Hnum.
  - apply Hstr.
  - apply Harr. induction items as [|x items IHitems]; constructor.
    + apply IH.
    + exact IHitems.
  - apply Hobj. induction fields as [|[k x] fields IHfields]; constructor.
    + apply IH.
    + exact IHfields.
  - apply Hmap. induction entries as [|[k x] entries IHentries]; constructor.
    + apply IH.
    + exact IHentries.
Qed.

Local Abbreviation hashedFields := (hashedFields sha1).

Lemma hashedFields_keys fields : map fst (hashedFields fields) = map fst fields.
Proof.
  unfold hashedFields. rewrite map_map. apply map_ext. now intros [k x].
Qed.

Lemma hash_object fields :
  hash (JObject fields)
  = hashStrings
      (map (λ k, hashStrings [hashString k; lookupHash k (hashedFields fields)])
         (merge_sort String.le (map fst fields))).
Proof. reflexivity. Qed.

(** [hash] does not see the order in which objects list their
    properties. *)
Lemma hash_reordered (v1 : value) :
  ∀ v2, distinctKeys v1 → reordered v1 v2 → hash v1 = hash v2.
Proof.
  induction v1 as [| |b|n|s|items IH|fields IH|entries IH] using value_induction;
    intros v2 Hwf Hre; inversion Hre; subst; try reflexivity.
  - (* arrays *)
    inversion Hwf as [| | | | |? Hitems| |]; subst.
    simpl. f_equal.
    match goal with H : Forall2 reordered items _ |- _ => rename H into H2 end.
    clear Hre Hwf. induction H2 as [|x y items items' Hxy H2 IH2]; [reflexivity|].
    apply Forall_cons in IH as [IHx IH]. apply Forall_cons in Hitems as [Hx Hitems].
    simpl. f_equal; [now apply IHx | now apply IH2].
  - (* objects *)
    inversion Hwf as [| | | | | |? Hnd Hfields|]; subst.
    match goal with
    | H : Forall2 _ fields ?f, H' : ?f ≡ₚ _ |- _ => rename H into H2; rename H' into Hperm
    end.
    assert (Hsame : hashedFields fields = hashedFields fields0).
    { clear Hre Hwf Hnd Hperm.
      induction H2 as [|[k x] [k' y] fields fields' [Hk Hxy] H2 IH2]; [reflexivity|].
      apply Forall_cons in IH as [IHx IH]. apply Forall_cons in Hfields as [Hx Hfields].
      simpl in *. subst k'. f_equal; [f_equal; now apply IHx | now apply IH2]. }
    assert (Hkeys : map fst fields ≡ₚ map fst fields2).
    { rewrite <- (hashedFields_keys fields), Hsame, hashedFields_keys.
      change (map fst ?l) with (fst <$> l). now rewrite Hperm. }
    rewrite !hash_object. f_equal.
    rewrite (sort_keys_perm _ _ Hkeys).
    apply map_ext. intros k.
    assert (Hlook : lookupHash k (hashedFields fields)
                    = lookupHash k (hashedFields fields2)); [|now rewrite Hlook].
    rewrite Hsame. apply lookupHash_perm.
    + rewrite <- Hsame, hashedFields_keys. exact Hnd.
    + unfold hashedFields. change (map ?f ?l) with (f <$> l). now rewrite Hperm.
Qed.

Lemma reordered_refl (v : value) : reordered v v.
Proof.
  induction v as [| |b|n|s|items IH|fields IH|entries IH] using value_induction;
    try constructor.
  - induction IH; constructor; auto.
  - apply (reordered_object fields fields fields); [|reflexivity].
    induction IH; constructor; auto.
  - apply (reordered_map entries entries entries); [|reflexivity].
    induction IH; constructor; auto.
Qed.

Lemma distinctKeys_strings (l : list string) :
  Forall distinctKeys (map JString l).
Proof. induction l; constructor; [constructor | assumption]. Qed.

(** The id of every crawled build is [calculateBuildId] of the seeded
    environment, the manifest read at its path, the source tag of that
    manifest and directory, and its own direct dependencies. *)
Lemma crawlBuild_id host fuel path trace c b c' :
  crawlBuild sha1 host fuel path trace c = (Done b, c') →
  readPackageJson host path = Some (packageJson b)
  ∧ id b = calculateBuildId sha1 (hostTestMode host) (hostEnv host)
             (packageJson b)
             (sourceTag host (packageJson b) (dirname host path))
             (dependencies b).
Proof.
  destruct fuel as [|fuel]; [discriminate|]. simpl.
  destruct (readPackageJson host path) as [pj|]; [|discriminate].
  unfold bind, ret.
  destruct (crawlDependencies host _ _ _ _ c) as [[r| | |] c1]; try discriminate.
  intros [= <- <-]. simpl. split; reflexivity.
Qed.

End hash_facts.

(** Distinctness of a list of literal strings, by computation. *)
Ltac distinct_literals := apply (bool_decide_unpack _); vm_compute; exact I.

Section build_id_facts.
Import Text Json Types Async Sandbox.

(** Reordering keys leaves [calculateBuildId] as it is. *)
Lemma calculateBuildId_reordered (sha1 : string → string) (testMode : bool)
    (env env' : value) (pj pj' : PackageJson) (source : string)
    (deps deps' : list BuildSpec) :
  distinctKeys env → distinctKeys (JObject (esy pj)) →
  reordered env env' →
  reordered (JObject (esy pj)) (JObject (esy pj')) →
  pjName pj = pjName pj' → pjVersion pj = pjVersion pj' →
  map id deps = map id deps' →
  calculateBuildId sha1 testMode env pj source deps
  = calculateBuildId sha1 testMode env' pj' source deps'.
Proof.
  intros Henv Hesy Hre_env Hre_esy Hname Hversion Hids.
  unfold calculateBuildId. rewrite <- Hname, <- Hversion.
  assert (Hdeps : map (λ dep, JString (id dep)) deps
                  = map (λ dep, JString (id dep)) deps').
  { rewrite <- (map_map id JString deps), <- (map_map id JString deps').
    now rewrite Hids. }
  rewrite <- Hdeps.
  set (ids := map (λ dep, JString (id dep)) deps).
  assert (Hids' : ids = map JString (map id deps)) by (unfold ids; now rewrite map_map).
  assert (Hhash :
    hash sha1 (JObject [("env", env); ("source", JString source);
      ("packageJson", JObject [("name", JString (pjName pj));
         ("version", optionalString (pjVersion pj)); ("esy", JObject (esy pj))]);
      ("dependencies", JArray ids)])
    = hash sha1 (JObject [("env", env'); ("source", JString source);
      ("packageJson", JObject [("name", JString (pjName pj));
         ("version", optionalString (pjVersion pj)); ("esy", JObject (esy pj'))]);
      ("dependencies", JArray ids)])).
  { apply hash_reordered.
    - apply distinctKeys_object; [distinct_literals|].
      repeat apply Forall_cons_2; try apply Forall_nil_2; simpl.
      + exact Henv.
      + constructor.
      + apply distinctKeys_object; [distinct_literals|].
        repeat apply Forall_cons_2; try apply Forall_nil_2; simpl.
        * constructor.
        * destruct (pjVersion pj); constructor.
        * exact Hesy.
      + constructor. rewrite Hids'. apply distinctKeys_strings.
    - eapply reordered_object; [|reflexivity].
      repeat apply Forall2_cons_2; try apply Forall2_nil_2; simpl;
        (split; [reflexivity|]).
      + exact Hre_env.
      + apply reordered_refl.
      + eapply reordered_object; [|reflexivity].
        repeat apply Forall2_cons_2; try apply Forall2_nil_2; simpl;
          (split; [reflexivity|]).
        * apply reordered_refl.
        * apply reordered_refl.
        * exact Hre_esy.
      + apply reordered_refl. }
  now rewrite Hhash.
Qed.

(** C1, as amended: [calculateBuildId] returns the same id for inputs that
    differ only in the order in which the objects that are hashed list
    their keys: the seeded environment and the [esy] section of the
    manifest with its [exportedEnv], at any depth. The ids of the direct
    dependencies are hashed as a list, in the order of the crawl, which is
    the key order of [dependencies] and [peerDependencies] in the
    manifest; the id is the same only for the same list. The id of a
    crawled build is [calculateBuildId] of the seeded environment, the
    manifest read at its path, the source tag ([_resolved], or [local:]
    and the real path of its directory) and its own direct dependencies;
    so two crawled builds, of any two crawls, that agree on these up to
    key order have the same id, whatever else differs between the crawls:
    the rest of the manifests, the dependencies below the direct ones and
    every other build. *)
Theorem build_id_ignores_key_order (sha1 : string → string) :
  (∀ (testMode : bool) (env env' : value) (pj pj' : PackageJson)
     (source : string) (deps deps' : list BuildSpec),
     distinctKeys env → distinctKeys (JObject (esy pj)) →
     reordered env env' →
     reordered (JObject (esy pj)) (JObject (esy pj')) →
     pjName pj = pjName pj' → pjVersion pj = pjVersion pj' →
     map id deps = map id deps' →
     calculateBuildId sha1 testMode env pj source deps
     = calculateBuildId sha1 testMode env' pj' source deps')
  ∧ (∀ (host : Host) (fuel : nat) (path : string) (trace : list string)
       (c c' : Caches) (b : BuildSpec),
       crawlBuild sha1 host fuel path trace c = (Done b, c') →
       readPackageJson host path = Some (packageJson b)
       ∧ id b = calculateBuildId sha1 (hostTestMode host) (hostEnv host)
                  (packageJson b)
                  (sourceTag host (packageJson b) (dirname host path))
                  (dependencies b))
  ∧ (∀ (host host' : Host) (fuel fuel' : nat) (path path' : string)
       (trace trace' : list string) (c c1 c' c1' : Caches) (b b' : BuildSpec),
       crawlBuild sha1 host fuel path trace c = (Done b, c1) →
       crawlBuild sha1 host' fuel' path' trace' c' = (Done b', c1') →
       hostTestMode host = hostTestMode host' →
       distinctKeys (hostEnv host) →
       reordered (hostEnv host) (hostEnv host') →
       distinctKeys (JObject (esy (packageJson b))) →
       reordered (JObject (esy (packageJson b))) (JObject (esy (packageJson b'))) →
       pjName (packageJson b) = pjName (packageJson b') →
       pjVersion (packageJson b) = pjVersion (packageJson b') →
       sourceTag host (packageJson b) (dirname host path)
       = sourceTag host' (packageJson b') (dirname host' path') →
       map id (dependencies b) = map id (dependencies b') →
       id b = id b').
Proof.
  split; [|split].
  - intros. now apply calculateBuildId_reordered.
  - intros. eapply crawlBuild_id; eassumption.
  - intros host host' fuel fuel' path path' trace trace' c c1 c' c1' b b'
      Hb Hb' Htest Henv Hre_env Hesy Hre_esy Hname Hversion Hsource Hids.
    apply crawlBuild_id in Hb as [_ ->]. apply crawlBuild_id in Hb' as [_ ->].
    rewrite Htest, Hsource. now apply calculateBuildId_reordered.
Qed.

End build_id_facts.

Lemma esy_reordered_example :
  Json.reordered (Json.JObject esyOneOrder) (Json.JObject esyOtherOrder).
Proof.
  apply (Json.reordered_object _
           [("build", Json.JString "make");
            ("exportedEnv", Json.JObject
               [("pkg__b", Json.JObject [("scope", Json.JString "global");
                                         ("val", Json.JString "2")]);
                ("pkg__a", Json.JObject [("val", Json.JString "1")])]);
            ("buildsInSource", Json.JBool false)]).
  - repeat constructor; simpl.
    apply (Json.reordered_object _
             [("pkg__a", Json.JObject [("val", Json.JString "1")]);
              ("pkg__b", Json.JObject [("scope", Json.JString "global");
                                       ("val", Json.JString "2")])]).
    + repeat constructor; simpl.
      * apply (Json.reordered_object _ [("val", Json.JString "1")]);
          [repeat constructor | reflexivity].
      * apply (Json.reordered_object _ [("val", Json.JString "2");
                                        ("scope", Json.JString "global")]);
          [repeat constructor | apply perm_swap].
    + apply perm_swap.
  - etransitivity; [apply perm_swap|]. apply perm_skip, perm_swap.
Qed.

Lemma esy_distinctKeys_example : Json.distinctKeys (Json.JObject esyOneOrder).
Proof.
  apply Json.distinctKeys_object; [distinct_literals|].
  repeat apply Forall_cons_2; try apply Forall_nil_2; simpl; try constructor.
  - distinct_literals.
  - repeat apply Forall_cons_2; try apply Forall_nil_2; simpl;
      (apply Json.distinctKeys_object; [distinct_literals|]);
      repeat constructor.
Qed.

(** Another sibling: the id of [b] changes, the id of [a] does not. *)
Example sibling_changes_a_stays :
  dependencyIds
    (Sandbox.fromDirectory rollingDigest (orderedHost [("a", "*"); ("b", "*")]) 3)
  = [("a", "a-1.0.0-535642"); ("b", "b-1.0.0-865107")]
  ∧ ∃ other,
      dependencyIds (Sandbox.fromDirectory rollingDigest siblingHost 3)
      = [("a", "a-1.0.0-535642"); ("b", other)]
      ∧ other ≠ "b-1.0.0-865107".
Proof.
  split; [vm_compute; reflexivity|].
  eexists. split; [vm_compute; reflexivity|]. discriminate.
Qed.

(** C1 fails as stated: two sandboxes whose root manifests differ only in
    the order of the keys of [dependencies]. The dependencies are the same
    builds with the same ids, crawled in the other order, and the id of
    the root differs. *)
Lemma build_id_key_order_counterexample :
  ∃ root root',
    Sandbox.fromDirectory rollingDigest (orderedHost [("a", "*"); ("b", "*")]) 3
    = Async.Done root
    ∧ Sandbox.fromDirectory rollingDigest (orderedHost [("b", "*"); ("a", "*")]) 3
      = Async.Done root'
    ∧ Types.dependencies root' = reverse (Types.dependencies root)
    ∧ Types.id root ≠ Types.id root'.
Proof.
  eexists _, _. split; [vm_compute; reflexivity|].
  split; [vm_compute; reflexivity|].
  split; [vm_compute; reflexivity|].
  vm_compute. discriminate.
Qed.

(** The order of the dependencies is part of what is hashed: the same two
    dependencies in the other order give another id (with a digest that
    tells the two serialisations apart). *)
Example dependency_order_is_hashed :
  Sandbox.calculateBuildId rollingDigest false (Json.JMap []) manifestOneOrder
    "local:/sandbox" [exampleSpec "a" true; exampleSpec "b" true]
  ≠ Sandbox.calculateBuildId rollingDigest false (Json.JMap []) manifestOneOrder
      "local:/sandbox" [exampleSpec "b" true; exampleSpec "a" true].
Proof. vm_compute. discriminate. Qed.

Lemma build_id_ignores_key_order_witness :
  Sandbox.calculateBuildId exampleDigest false (Json.JMap []) manifestOneOrder
    "local:/sandbox" [exampleSpec "dep" true]
  = Sandbox.calculateBuildId exampleDigest false (Json.JMap []) manifestOtherOrder
      "local:/sandbox" [exampleSpec "dep" false]
  ∧ ∃ b b' c1 c1',
      Sandbox.crawlBuild rollingDigest (orderedHost [("a", "*"); ("b", "*")]) 2
        "/sb/node_modules/a/package.json" ["root"] (Sandbox.mkCaches ∅ ∅)
      = (Async.Done b, c1)
      ∧ Sandbox.crawlBuild rollingDigest siblingHost 2
          "/sb/node_modules/a/package.json" ["root"; "b"] (Sandbox.mkCaches ∅ ∅)
        = (Async.Done b', c1')
      ∧ Types.id b = Types.id b'.
Proof.
  split.
  - apply (proj1 (build_id_ignores_key_order exampleDigest)).
    + constructor; constructor.
    + apply esy_distinctKeys_example.
    + apply (Json.reordered_map [] [] []); [constructor | reflexivity].
    + apply esy_reordered_example.
    + reflexivity.
    + reflexivity.
    + reflexivity.
  - eexists _, _, _, _.
    split; [vm_compute; reflexivity|]. split; [vm_compute; reflexivity|].
    eapply (proj2 (proj2 (build_id_ignores_key_order rollingDigest))
              (orderedHost [("a", "*"); ("b", "*")]) siblingHost 2%nat 2%nat
              "/sb/node_modules/a/package.json" "/sb/node_modules/a/package.json"
              ["root"] ["root"; "b"] (Sandbox.mkCaches ∅ ∅) _ (Sandbox.mkCaches ∅ ∅) _).
    + vm_compute; reflexivity.
    + vm_compute; reflexivity.
    + reflexivity.
    + constructor; constructor.
    + apply (Json.reordered_map [] [] []); [constructor | reflexivity].
    + apply Json.distinctKeys_object; [distinct_literals|].
      repeat apply Forall_cons_2; try apply Forall_nil_2; simpl; try constructor.
      * distinct_literals.
      * constructor.
    + apply reordered_refl.
    + reflexivity.
    + reflexivity.
    + reflexivity.
    + reflexivity.
Defined.

(** ** The order of [collectTransitiveDependencies] *)

Section graph_facts.
Import Graph.

Lemma Node_induction (P : Node → Prop) :
  (∀ nid deps, Forall P deps → P (mkNode nid deps)) → ∀ n, P n.
Proof.
  intros Hnode. fix IH 1. intros [nid deps]. apply Hnode.
  induction deps as [|d deps IHdeps]; constructor.
  - apply IH.
  - exact IHdeps.
Qed.

Lemma nodeSize_dependency (n d : Node) :
  In d (dependencies n) → (nodeSize d < nodeSize n)%nat.
Proof.
  destruct n as [nid deps]. simpl.
  induction deps as [|x deps IH]; intros Hin; [destruct Hin|].
  simpl. destruct Hin as [->|Hin]; [lia|]. specialize (IH Hin). lia.
Qed.

Lemma dependsOn_size (n m : Node) : dependsOn n m → (nodeSize m < nodeSize n)%nat.
Proof.
  induction 1 as [n m Hin|n d m Hin _ IH].
  - now apply nodeSize_dependency.
  - apply nodeSize_dependency in Hin. lia.
Qed.

(** The graph of a finite tree of nodes has no cycle. *)
Lemma dependsOn_irrefl (n : Node) : ¬ dependsOn n n.
Proof. intros H. apply dependsOn_size in H. lia. Qed.

Lemma dependsOn_transitive (a b c : Node) :
  dependsOn a b → dependsOn b c → dependsOn a c.
Proof.
  induction 1 as [a b Hin|a d b Hin _ IH]; intros Hbc.
  - now apply dependsOn_trans with b.
  - apply dependsOn_trans with d; auto.
Qed.

Lemma dependsOn_step (a b d : Node) :
  dependsOn a b → In d (dependencies b) → dependsOn a d.
Proof.
  intros Hab Hd. apply dependsOn_transitive with b; [assumption|].
  now apply dependsOn_direct.
Qed.

Lemma elem_of_idsOf (l : list Node) (x : string) :
  x ∈ idsOf l ↔ ∃ n, n ∈ l ∧ id n = x.
Proof.
  unfold idsOf. rewrite elem_of_list_to_set.
  change (map id l) with (id <$> l). rewrite list_elem_of_fmap.
  split; intros (n & H1 & H2); exists n; auto.
Qed.

Lemma idsOf_app (l k : list Node) : idsOf (l ++ k) = idsOf l ∪ idsOf k.
Proof. unfold idsOf. rewrite map_app. apply list_to_set_app_L. Qed.

Lemma idsOf_singleton (n : Node) : idsOf [n] = {[id n]}.
Proof. unfold idsOf. simpl. apply union_empty_r_L. Qed.

Lemma dependenciesFirst_snoc (l : list Node) (n : Node) :
  dependenciesFirst l →
  (∀ d, In d (dependencies n) → d ∈ l) →
  dependenciesFirst (l ++ [n]).
Proof.
  intros Hl Hn l1 m l2 E d Hd.
  destruct l2 as [|z l2 _] using rev_ind.
  - apply app_inj_tail in E as [<- <-]. now apply Hn.
  - change (l1 ++ m :: l2 ++ [z]) with (l1 ++ (m :: l2) ++ [z]) in E.
    rewrite app_assoc in E. apply app_inj_tail in E as [-> _].
    now apply (Hl l1 m l2).
Qed.

(** Dependencies come first at any distance. *)
Lemma dependenciesFirst_transitive (l : list Node) :
  dependenciesFirst l →
  ∀ x y, dependsOn x y → ∀ l1 l2, l = l1 ++ x :: l2 → y ∈ l1.
Proof.
  intros Hl x y Hxy.
  induction Hxy as [x y Hin|x d y Hin _ IH]; intros l1 l2 E.
  - now apply (Hl l1 x l2).
  - pose proof (Hl l1 x l2 E d Hin) as Hd.
    apply list_elem_of_split in Hd as (l1a & l1b & ->).
    assert (Hy : y ∈ l1a).
    { apply (IH l1a (l1b ++ x :: l2)). rewrite E, <- app_assoc. reflexivity. }
    apply elem_of_app. now left.
Qed.

Section traverse_facts.
Variable root : Node.
Hypothesis Hunique : uniqueIds root.

Local Abbreviation visit := (traverse (pushUnlessRoot root)).

Lemma below_root_not_root (n : Node) : dependsOn root n → id n ≠ id root.
Proof.
  intros Hn E. assert (n = root) as -> by (apply Hunique; auto).
  now apply dependsOn_irrefl in Hn.
Qed.

(** A visited node with the id of a node of the graph is that node. *)
Lemma visited_by_id (acc : list Node) (d : Node) :
  Forall (dependsOn root) acc → dependsOn root d → id d ∈ idsOf acc → d ∈ acc.
Proof.
  intros Hacc Hd Hin. apply elem_of_idsOf in Hin as (e & He & Hid).
  assert (e = d) as <-; [|assumption].
  apply Hunique; [right|right|]; auto.
  rewrite List.Forall_forall in Hacc. apply Hacc. now apply list_elem_of_In.
Qed.

Lemma traverse_unfold (n : Node) (st : gset string * list Node) :
  visit n st
  = if decide (id n ∈ st.1) then st
    else
      let st2 := fold_left (λ st dep, visit dep st) (dependencies n)
                   ({[id n]} ∪ st.1, st.2) in
      (st2.1, pushUnlessRoot root n st2.2).
Proof. destruct n. reflexivity. Qed.

(** The loop over the dependencies of a node that is on the stack. *)
Lemma visit_dependencies (stack : gset string) (deps : list Node) :
  Forall (λ d, ∀ st,
            dependsOn root d →
            (∀ e, e = d ∨ dependsOn d e → id e ∉ stack) →
            traversalInv root stack st →
            traversalInv root stack (visit d st)
            ∧ (∃ new, (visit d st).2 = st.2 ++ new)
            ∧ id d ∈ idsOf (visit d st).2) deps →
  ∀ st,
    (∀ d, In d deps → dependsOn root d
                      ∧ ∀ e, e = d ∨ dependsOn d e → id e ∉ stack) →
    traversalInv root stack st →
    let st' := fold_left (λ st dep, visit dep st) deps st in
    traversalInv root stack st'
    ∧ (∃ new, st'.2 = st.2 ++ new)
    ∧ (∀ d, In d deps → id d ∈ idsOf st'.2).
Proof.
  induction 1 as [|d deps Hd _ IH]; intros st Hdeps Hinv; simpl.
  - split; [assumption|]. split; [exists []; now rewrite app_nil_r|]. intros d [].
  - destruct (Hdeps d (or_introl eq_refl)) as [Hroot Hstack].
    destruct (Hd st Hroot Hstack Hinv) as (Hinv1 & (new1 & Hnew1) & Hid1).
    destruct (IH (visit d st) (λ x Hx, Hdeps x (or_intror Hx)) Hinv1)
      as (Hinv2 & (new2 & Hnew2) & Hids2).
    split; [assumption|]. split.
    + exists (new1 ++ new2). now rewrite Hnew2, Hnew1, <- app_assoc.
    + intros x [<-|Hx]; [|now apply Hids2].
      rewrite Hnew2, idsOf_app. apply elem_of_union. now left.
Qed.

(** The visit of a node below the root whose descendants are not on the
    stack keeps the invariant, only adds nodes, and leaves the node among
    the visited ones. *)
Lemma visit_spec (n : Node) :
  ∀ (stack : gset string) (st : gset string * list Node),
    dependsOn root n →
    (∀ e, e = n ∨ dependsOn n e → id e ∉ stack) →
    traversalInv root stack st →
    traversalInv root stack (visit n st)
    ∧ (∃ new, (visit n st).2 = st.2 ++ new)
    ∧ id n ∈ idsOf (visit n st).2.
Proof.
  induction n as [nid deps IH] using Node_induction.
  intros stack st Hroot Hstack Hinv.
  set (n := mkNode nid deps) in *.
  rewrite traverse_unfold.
  destruct Hinv as (Hseen & Hdisj & Hbelow & Hnodup & Hfirst).
  destruct (decide (id n ∈ st.1)) as [Hin|Hnew].
  - (* already visited *)
    split; [unfold traversalInv; split_and!; assumption|].
    split; [exists []; now rewrite app_nil_r|].
    rewrite Hseen in Hin. apply elem_of_union in Hin as [Hin|Hin]; [assumption|].
    exfalso. apply (Hstack n); auto.
  - (* first visit: the node goes on the stack while its dependencies run *)
    set (stack' := stack ∪ {[id n]}).
    assert (Hinv1 : traversalInv root stack' ({[id n]} ∪ st.1, st.2)).
    { unfold traversalInv. split_and!; simpl; try assumption.
      - rewrite Hseen. unfold stack'. set_solver.
      - unfold stack'. rewrite Hseen in Hnew. set_solver. }
    assert (Hdeps : ∀ d, In d (dependencies n) →
              dependsOn root d ∧ ∀ e, e = d ∨ dependsOn d e → id e ∉ stack').
    { intros d Hd. split; [now apply dependsOn_step with n|].
      intros e He.
      assert (Hne : dependsOn n e).
      { destruct He as [->|He]; [now apply dependsOn_direct|].
        now apply dependsOn_trans with d. }
      unfold stack'. apply not_elem_of_union. split; [apply Hstack; auto|].
      rewrite elem_of_singleton. intros E.
      assert (e = n) as ->.
      { apply Hunique; [right|right|]; auto.
        now apply dependsOn_transitive with n. }
      now apply dependsOn_irrefl in Hne. }
    assert (IH' : Forall (λ d, ∀ st,
              dependsOn root d →
              (∀ e, e = d ∨ dependsOn d e → id e ∉ stack') →
              traversalInv root stack' st →
              traversalInv root stack' (visit d st)
              ∧ (∃ new, (visit d st).2 = st.2 ++ new)
              ∧ id d ∈ idsOf (visit d st).2) deps).
    { eapply Forall_impl; [exact IH|]. intros d Hd st0. apply Hd. }
    destruct (visit_dependencies stack' (dependencies n) IH' _ Hdeps Hinv1)
      as (Hinv2 & (new & Hnew2) & Hids).
    cbn [snd] in Hnew2.
    set (st2 := fold_left (λ st dep, visit dep st) (dependencies n)
                  ({[id n]} ∪ st.1, st.2)) in *.
    destruct Hinv2 as (Hseen2 & Hdisj2 & Hbelow2 & Hnodup2 & Hfirst2).
    unfold pushUnlessRoot.
    destruct (decide (id n = id root)) as [E|_];
      [now apply below_root_not_root in E|].
    assert (Hfresh : id n ∉ idsOf st2.2) by (unfold stack' in Hdisj2; set_solver).
    simpl. split; [|split].
    + unfold traversalInv. split_and!; simpl.
      * rewrite Hseen2, idsOf_app, idsOf_singleton. unfold stack'. set_solver.
      * rewrite idsOf_app, idsOf_singleton. unfold stack' in Hdisj2.
        assert (id n ∉ stack) by (apply Hstack; auto). set_solver.
      * apply Forall_app. split; [assumption|]. now constructor.
      * rewrite map_app. apply NoDup_app. split; [assumption|]. split.
        -- intros x Hx Hx'. apply list_elem_of_singleton in Hx'. subst x.
           apply Hfresh. unfold idsOf. now apply elem_of_list_to_set.
        -- apply NoDup_singleton.
      * apply dependenciesFirst_snoc; [assumption|].
        intros d Hd. apply visited_by_id; [assumption| |now apply Hids].
        now apply dependsOn_step with n.
    + exists (new ++ [n]). now rewrite Hnew2, <- app_assoc.
    + rewrite idsOf_app, idsOf_singleton. set_solver.
Qed.

(** The visited nodes when the traversal from the root is over. *)
Lemma traverseDeepFirst_spec :
  let post := traverseDeepFirst (pushUnlessRoot root) root [] in
  Forall (dependsOn root) post
  ∧ NoDup (map id post)
  ∧ dependenciesFirst post
  ∧ (∀ d, In d (dependencies root) → d ∈ post).
Proof.
  unfold traverseDeepFirst. rewrite traverse_unfold. simpl.
  destruct (decide (id root ∈ (∅ : gset string))) as [Hin|_]; [set_solver|].
  set (stack := ({[id root]} : gset string)).
  assert (Hinv : traversalInv root stack ({[id root]} ∪ ∅, [])).
  { unfold traversalInv. split_and!; simpl.
    - unfold stack, idsOf. simpl. set_solver.
    - unfold idsOf. simpl. set_solver.
    - constructor.
    - constructor.
    - intros l1 m l2 E. destruct l1; discriminate. }
  assert (Hdeps : ∀ d, In d (dependencies root) →
            dependsOn root d ∧ ∀ e, e = d ∨ dependsOn d e → id e ∉ stack).
  { intros d Hd. split; [now apply dependsOn_direct|].
    intros e He. unfold stack. rewrite elem_of_singleton.
    apply below_root_not_root.
    destruct He as [->|He]; [now apply dependsOn_direct|].
    now apply dependsOn_trans with d. }
  assert (IH : Forall (λ d, ∀ st,
            dependsOn root d →
            (∀ e, e = d ∨ dependsOn d e → id e ∉ stack) →
            traversalInv root stack st →
            traversalInv root stack (visit d st)
            ∧ (∃ new, (visit d st).2 = st.2 ++ new)
            ∧ id d ∈ idsOf (visit d st).2) (dependencies root)).
  { apply List.Forall_forall. intros d _ st. apply visit_spec. }
  destruct (visit_dependencies stack (dependencies root) IH _ Hdeps Hinv)
    as ((_ & _ & Hbelow & Hnodup & Hfirst) & _ & Hids).
  unfold pushUnlessRoot. destruct (decide (id root = id root)); [|contradiction].
  split_and!; try assumption.
  intros d Hd. apply visited_by_id; [assumption| |now apply Hids].
  now apply dependsOn_direct.
Qed.

End traverse_facts.

(** C2, as amended: for a graph whose nodes are uniquely keyed by id,
    [collectTransitiveDependencies root] holds exactly the direct and
    indirect dependencies of the root, the root excluded and every node
    once, in an order in which every node comes before all of its own
    direct and indirect dependencies: dependents first, leaves last. *)
Theorem collectTransitiveDependencies_dependents_first (root : Node) :
  uniqueIds root →
  let result := collectTransitiveDependencies root in
  (∀ m, m ∈ result ↔ dependsOn root m)
  ∧ (root ∉ result)
  ∧ NoDup (map id result)
  ∧ (∀ i j x y, result !! i = Some x → result !! j = Some y →
                dependsOn x y → (i < j)%nat).
Proof.
  intros Hunique result.
  destruct (traverseDeepFirst_spec root Hunique)
    as (Hbelow & Hnodup & Hfirst & Hdirect).
  unfold result, collectTransitiveDependencies.
  set (post := traverseDeepFirst (pushUnlessRoot root) root []) in *.
  assert (Hmem : ∀ m, m ∈ rev post ↔ dependsOn root m).
  { intros m. rewrite list_elem_of_In, <- List.in_rev, <- list_elem_of_In. split.
    - intros Hm. rewrite List.Forall_forall in Hbelow. apply Hbelow.
      now apply list_elem_of_In.
    - intros Hm.
      assert (Hgen : ∀ n, dependsOn n m → n = root ∨ n ∈ post → m ∈ post);
        [|apply (Hgen root); auto].
      clear Hm. intros n Hnm.
      assert (Hchild : ∀ a d, a = root ∨ a ∈ post → In d (dependencies a) → d ∈ post).
      { intros a d [->|Ha] Hd; [now apply Hdirect|].
        apply list_elem_of_split in Ha as (l1 & l2 & E).
        pose proof (Hfirst l1 a l2 E d Hd) as Hd1.
        rewrite E. apply elem_of_app. now left. }
      induction Hnm as [n m Hin|n d m Hin _ IH]; intros Hn.
      + now apply Hchild with n.
      + apply IH. right. now apply Hchild with n. }
  assert (Hnd : NoDup (map id (rev post))).
  { rewrite List.map_rev. apply NoDup_ListNoDup, List.NoDup_rev.
    now apply NoDup_ListNoDup. }
  split_and!; try assumption.
  - intros Hroot. apply Hmem in Hroot. now apply dependsOn_irrefl in Hroot.
  - intros i j x y Hi Hj Hxy.
    pose proof (take_drop_middle _ _ _ Hi) as E.
    assert (Epost : post = rev (drop (S i) (rev post)) ++ x :: rev (take i (rev post))).
    { rewrite <- (List.rev_involutive post) at 1. rewrite <- E at 1.
      rewrite List.rev_app_distr. simpl. now rewrite <- app_assoc. }
    pose proof (dependenciesFirst_transitive post Hfirst x y Hxy _ _ Epost) as Hy.
    rewrite list_elem_of_In, <- List.in_rev, <- list_elem_of_In in Hy.
    apply list_elem_of_lookup in Hy as (k & Hk).
    rewrite lookup_drop in Hk.
    assert (j = (S i + k)%nat); [|lia].
    apply (NoDup_lookup (rev post) j (S i + k) y); [|assumption..].
    change (map id (rev post)) with (id <$> rev post) in Hnd.
    now apply NoDup_fmap_1 in Hnd.
Qed.

End graph_facts.

Section chain_example.
Import Graph.

Example collect_chain : collectTransitiveDependencies chainRoot = [midA; leafB].
Proof. vm_compute. reflexivity. Qed.

Lemma below_chainRoot (n : Node) : dependsOn chainRoot n → n = midA ∨ n = leafB.
Proof.
  intros H. inversion H as [? ? Hin|? d ? Hin Hd]; subst; simpl in Hin.
  - intuition.
  - destruct Hin as [<-|[<-|[]]].
    + inversion Hd as [? ? Hin'|? d' ? Hin' Hd']; subst; simpl in Hin'.
      * intuition.
      * destruct Hin' as [<-|[]]. inversion Hd' as [? ? F|? ? ? F]; destruct F.
    + inversion Hd as [? ? F|? ? ? F]; destruct F.
Qed.

Lemma uniqueIds_chainRoot : uniqueIds chainRoot.
Proof.
  intros n m Hn Hm E.
  assert (Hn' : n = chainRoot ∨ n = midA ∨ n = leafB).
  { destruct Hn as [->|Hn]; [auto | right; now apply below_chainRoot]. }
  assert (Hm' : m = chainRoot ∨ m = midA ∨ m = leafB).
  { destruct Hm as [->|Hm]; [auto | right; now apply below_chainRoot]. }
  destruct Hn' as [->|[->| ->]], Hm' as [->|[->| ->]];
    try reflexivity; discriminate E.
Qed.

(** C2 fails as stated: in [root -> a -> b] the leaf [b] comes last, after
    [a], which depends on it. *)
Lemma collectTransitiveDependencies_counterexample :
  uniqueIds chainRoot
  ∧ collectTransitiveDependencies chainRoot = [midA; leafB]
  ∧ (∃ i j x y,
        collectTransitiveDependencies chainRoot !! i = Some x
        ∧ collectTransitiveDependencies chainRoot !! j = Some y
        ∧ dependsOn y x
        ∧ ¬ (i < j)%nat).
Proof.
  split; [apply uniqueIds_chainRoot|]. split; [vm_compute; reflexivity|].
  exists 1%nat, 0%nat, leafB, midA.
  split; [vm_compute; reflexivity|]. split; [vm_compute; reflexivity|].
  split; [apply dependsOn_direct; simpl; auto | lia].
Qed.

Lemma collectTransitiveDependencies_dependents_first_witness :
  NoDup (map id (collectTransitiveDependencies chainRoot)).
Proof.
  apply (collectTransitiveDependencies_dependents_first chainRoot
           uniqueIds_chainRoot).
Defined.

End chain_example.

(** ** The crawl ends, cycles included *)

Section crawl_facts.
Import Text Json Types Async Sandbox.

Variable sha1 : string → string.
Variable host : Host.

Local Abbreviation crawlBuild := (crawlBuild sha1 host).
Local Abbreviation crawlDependencies := (crawlDependencies host).
Local Abbreviation crawlDependenciesLoop := (crawlDependenciesLoop host).
Local Abbreviation resolveCached := (resolveCached host).

(** The visit that closes a cycle: the error is recorded, nothing is
    resolved or crawled, the caches are untouched, and the loop goes on
    with the remaining dependencies. *)
Lemma crawlDependenciesLoop_cycle (crawl : Crawler) baseDir trace spec rest acc c :
  parseDependencyName spec ∈ trace →
  crawlDependenciesLoop crawl baseDir trace (spec :: rest) acc c
  = crawlDependenciesLoop crawl baseDir trace rest
      (mkDepsAcc (accDependencies acc)
         (accErrors acc
          ++ [formatCircularDependenciesError (parseDependencyName spec) trace])
         (accMissing acc)) c.
Proof.
  intros Hin. simpl. destruct (decide (parseDependencyName spec ∈ trace));
    [reflexivity | contradiction].
Qed.

Lemma cacheGrows_refl c : cacheGrows c c.
Proof. unfold cacheGrows. reflexivity. Qed.

Lemma cacheGrows_trans c1 c2 c3 : cacheGrows c1 c2 → cacheGrows c2 c3 → cacheGrows c1 c3.
Proof. unfold cacheGrows. set_solver. Qed.

Lemma uncrawled_mono c c' : cacheGrows c c' → (uncrawled host c' ≤ uncrawled host c)%nat.
Proof.
  unfold cacheGrows, uncrawled. intros H. apply subseteq_size. set_solver.
Qed.

Lemma uncrawled_insert c p (pr : Promise) :
  is_Some (readJson host !! p) → buildCache c !! p = None →
  (uncrawled host (mkCaches (resolutionCache c) (<[p := pr]> (buildCache c)))
   < uncrawled host c)%nat.
Proof.
  intros Hp Hc. unfold uncrawled. simpl. apply subset_size.
  rewrite dom_insert_L.
  apply elem_of_dom in Hp. apply not_elem_of_dom in Hc.
  set_solver.
Qed.

Lemma resolveCached_buildCache name baseDir c :
  ∃ r c', resolveCached name baseDir c = (Done r, c') ∧ buildCache c' = buildCache c.
Proof.
  unfold Sandbox.resolveCached.
  destruct (resolutionCache c !! _); eauto.
Qed.

Local Abbreviation endsWithin := (endsWithin host).
Local Abbreviation resolutionsSound := (resolutionsSound host).
Local Abbreviation pendingOnTrace := (pendingOnTrace host).
Local Abbreviation doneWithin := (doneWithin host).

Lemma crawlDependenciesLoop_ends fuel (crawl : Crawler) baseDir trace specs :
  endsWithin fuel crawl →
  ∀ acc c, (uncrawled host c < fuel)%nat →
    (crawlDependenciesLoop crawl baseDir trace specs acc c).1 ≠ OutOfFuel
    ∧ cacheGrows c (crawlDependenciesLoop crawl baseDir trace specs acc c).2.
Proof.
  intros Hcrawl. induction specs as [|spec rest IH]; intros acc c Hc.
  - simpl. split; [discriminate | apply cacheGrows_refl].
  - simpl. destruct (decide (parseDependencyName spec ∈ trace)); [now apply IH|].
    unfold bind.
    destruct (resolveCached_buildCache (parseDependencyName spec +:+ "/package.json")
                baseDir c) as (r & c1 & -> & Hc1).
    assert (G1 : cacheGrows c c1) by (unfold cacheGrows; now rewrite Hc1).
    assert (B1 : (uncrawled host c1 < fuel)%nat).
    { pose proof (uncrawled_mono _ _ G1). lia. }
    destruct r as [p|].
    + destruct (Hcrawl p trace c1 B1) as [Hout Hgrow].
      destruct (crawl p trace c1) as [[build| | |] c2]; simpl in *;
        try (split; [discriminate | now apply cacheGrows_trans with c1]);
        try contradiction.
      assert (B2 : (uncrawled host c2 < fuel)%nat).
      { pose proof (uncrawled_mono _ _ Hgrow). lia. }
      destruct (IH (mkDepsAcc (mapSet build (accDependencies acc))
                      (accErrors acc ++ errors build) (accMissing acc)) c2 B2)
        as [Hout' Hgrow'].
      split; [assumption|].
      apply cacheGrows_trans with c1; [assumption|].
      now apply cacheGrows_trans with c2.
    + destruct (IH (mkDepsAcc (accDependencies acc) (accErrors acc)
                      (accMissing acc ++ [parseDependencyName spec])) c1 B1)
        as [Hout' Hgrow'].
      split; [assumption | now apply cacheGrows_trans with c1].
Qed.

Lemma crawlDependencies_ends fuel (crawl : Crawler) baseDir specs trace c :
  endsWithin fuel crawl → (uncrawled host c < fuel)%nat →
  (crawlDependencies crawl baseDir specs trace c).1 ≠ OutOfFuel
  ∧ cacheGrows c (crawlDependencies crawl baseDir specs trace c).2.
Proof.
  intros Hcrawl Hc. unfold Sandbox.crawlDependencies, bind.
  destruct (crawlDependenciesLoop_ends fuel crawl baseDir trace specs Hcrawl
              (mkDepsAcc [] [] []) c Hc) as [Hout Hgrow].
  destruct (crawlDependenciesLoop crawl baseDir trace specs _ c) as [[acc| | |] c1];
    simpl in *; try contradiction; (split; [discriminate | assumption]).
Qed.

Lemma readPackageJson_missing p :
  readJson host !! p = None → readPackageJson host p = None.
Proof. unfold readPackageJson. now intros ->. Qed.

(** With more fuel than manifests that were never requested, and one to
    spare, the crawl of a build ends. *)
Lemma crawlBuild_ends (fuel : nat) :
  ∀ p trace c, (uncrawled host c + 1 < fuel)%nat →
    (crawlBuild fuel p trace c).1 ≠ OutOfFuel
    ∧ cacheGrows c (crawlBuild fuel p trace c).2.
Proof.
  induction fuel as [|fuel IH]; intros p trace c Hc; [lia|].
  assert (Hcached : endsWithin fuel (crawlBuildCached (crawlBuild fuel))).
  { intros q tr c0 Hc0. unfold crawlBuildCached.
    destruct (buildCache c0 !! q) as [[|build]|] eqn:Hq;
      try (split; [discriminate | apply cacheGrows_refl]).
    set (c1 := mkCaches (resolutionCache c0) (<[q := Pending]> (buildCache c0))).
    assert (G1 : cacheGrows c0 c1).
    { unfold cacheGrows, c1. simpl. rewrite dom_insert_L. set_solver. }
    destruct (readJson host !! q) as [pj|] eqn:Hpj.
    - assert (B1 : (uncrawled host c1 + 1 < fuel)%nat).
      { pose proof (uncrawled_insert c0 q Pending (mk_is_Some _ _ Hpj) Hq).
        fold c1 in H. lia. }
      destruct (IH q tr c1 B1) as [Hout Hgrow].
      destruct (crawlBuild fuel q tr c1) as [[build| | |] c2]; simpl in *;
        try contradiction;
        try (split; [discriminate | now apply cacheGrows_trans with c1]).
      split; [discriminate|].
      apply cacheGrows_trans with c1; [assumption|].
      apply cacheGrows_trans with c2; [assumption|].
      unfold cacheGrows. simpl. rewrite dom_insert_L. set_solver.
    - destruct fuel as [|fuel']; [lia|]. simpl.
      rewrite (readPackageJson_missing q Hpj). simpl.
      split; [discriminate | assumption]. }
  simpl. destruct (readPackageJson host p) as [pj|];
    [|split; [discriminate | apply cacheGrows_refl]].
  unfold bind.
  assert (Hc' : (uncrawled host c < fuel)%nat) by lia.
  destruct (crawlDependencies_ends fuel (crawlBuildCached (crawlBuild fuel))
              (dirname host p)
              (objectToDependencySpecs [pjDependencies pj; pjPeerDependencies pj])
              (trace ++ [pjName pj]) c Hcached Hc') as [Hout Hgrow].
  destruct (crawlDependencies _ _ _ _ c) as [[r| | |] c1]; simpl in *;
    try contradiction; (split; [discriminate | assumption]).
Qed.

(** The whole crawl ends within a depth of the number of manifests plus
    two. *)
Lemma fromDirectory_ends (fuel : nat) :
  (size (readJson host) + 1 < fuel)%nat → fromDirectory sha1 host fuel ≠ OutOfFuel.
Proof.
  intros Hfuel. unfold fromDirectory. apply crawlBuild_ends.
  unfold uncrawled. simpl. rewrite dom_empty_L, difference_empty_L, size_dom. lia.
Qed.

(** The errors of the loop only grow, a dependency whose name is on the
    trace leaves its error among them, and no dependency is added for
    it. *)
Lemma mapSet_length (build : BuildSpec) (m : list BuildSpec) :
  (length (mapSet build m) ≤ S (length m))%nat.
Proof.
  induction m as [|b m IH]; simpl; [lia|].
  destruct (decide (id b = id build)); simpl; lia.
Qed.

Lemma crawlDependenciesLoop_errors (crawl : Crawler) baseDir trace specs :
  ∀ acc c acc' c',
    crawlDependenciesLoop crawl baseDir trace specs acc c = (Done acc', c') →
    (∀ e, e ∈ accErrors acc → e ∈ accErrors acc')
    ∧ (∀ spec, spec ∈ specs → parseDependencyName spec ∈ trace →
         formatCircularDependenciesError (parseDependencyName spec) trace
         ∈ accErrors acc')
    ∧ (length (accDependencies acc')
       ≤ length (accDependencies acc)
         + length (filter (λ spec, parseDependencyName spec ∉ trace) specs))%nat.
Proof.
  induction specs as [|spec rest IH]; intros acc c acc' c' H.
  - simpl in H. injection H as <- <-. split; [auto|]. split; [|simpl; lia].
    intros spec Hin. now apply elem_of_nil in Hin.
  - simpl in H. destruct (decide (parseDependencyName spec ∈ trace)) as [Hon|Hoff].
    + apply IH in H as (Hgrow & Hcycle & Hlen). simpl in Hgrow, Hlen.
      split; [|split].
      * intros e He. apply Hgrow, elem_of_app. now left.
      * intros spec' Hin Hon'. apply elem_of_cons in Hin as [->|Hin].
        -- apply Hgrow, elem_of_app. right. left.
        -- now apply Hcycle.
      * rewrite filter_cons_False by (intros Hn; now apply Hn). exact Hlen.
    + unfold bind in H.
      destruct (resolveCached_buildCache (parseDependencyName spec +:+ "/package.json")
                  baseDir c) as (r & c1 & Hr & _).
      rewrite Hr in H. destruct r as [p|].
      * destruct (crawl p trace c1) as [[build| | |] c2]; try discriminate.
        apply IH in H as (Hgrow & Hcycle & Hlen). simpl in Hgrow, Hlen.
        pose proof (mapSet_length build (accDependencies acc)) as Hset.
        split; [|split].
        -- intros e He. apply Hgrow, elem_of_app. now left.
        -- intros spec' Hin Hon'. apply elem_of_cons in Hin as [->|Hin];
             [contradiction | now apply Hcycle].
        -- rewrite filter_cons_True by assumption. simpl. lia.
      * apply IH in H as (Hgrow & Hcycle & Hlen). simpl in Hgrow, Hlen.
        split; [|split].
        -- exact Hgrow.
        -- intros spec' Hin Hon'. apply elem_of_cons in Hin as [->|Hin];
             [contradiction | now apply Hcycle].
        -- rewrite filter_cons_True by assumption. simpl. lia.
Qed.

(** The build that [crawlBuild] returns carries the error of every cycle
    that one of its own dependencies closes, and has no dependency for
    it. *)
Lemma crawlBuild_errors fuel p trace c b c' :
  crawlBuild fuel p trace c = (Done b, c') →
  name b = pjName (packageJson b)
  ∧ (∀ spec,
       spec ∈ objectToDependencySpecs
                [pjDependencies (packageJson b); pjPeerDependencies (packageJson b)] →
       parseDependencyName spec ∈ trace ++ [name b] →
       formatCircularDependenciesError (parseDependencyName spec) (trace ++ [name b])
       ∈ errors b)
  ∧ (length (dependencies b)
     ≤ length (filter (λ spec, parseDependencyName spec ∉ trace ++ [name b])
                 (objectToDependencySpecs
                    [pjDependencies (packageJson b);
                     pjPeerDependencies (packageJson b)])))%nat.
Proof.
  destruct fuel as [|fuel]; [discriminate|]. simpl.
  destruct (readPackageJson host p) as [pj|]; [|discriminate].
  unfold bind, Sandbox.crawlDependencies, bind, ret.
  destruct (crawlDependenciesLoop _ _ _ _ _ c) as [[acc| | |] c1] eqn:Hloop;
    try discriminate.
  intros [= <- <-]. simpl.
  apply crawlDependenciesLoop_errors in Hloop as (_ & Hcycle & Hlen).
  split; [reflexivity|]. split; [|exact Hlen].
  intros spec Hin Hon. specialize (Hcycle spec Hin Hon).
  destruct (accMissing acc); [assumption|]. apply elem_of_app. now left.
Qed.

Section installed.
Hypothesis Hnamed : namedAsRequired host = true.

Lemma namedAsRequired_root :
  is_Some (readJson host !! Path.join [hostSandboxPath host; "package.json"]).
Proof.
  unfold namedAsRequired in Hnamed.
  apply andb_true_iff in Hnamed as [H _]. apply andb_true_iff in H as [H _].
  now apply bool_decide_eq_true in H.
Qed.

Lemma namedAsRequired_name r p :
  r ∈ requirements host → resolutionOf host r = Some p →
  ∃ pj, readJson host !! p = Some pj ∧ pjName pj = r.1.
Proof.
  intros Hin Hres. unfold namedAsRequired in Hnamed.
  apply andb_true_iff in Hnamed as [H _]. apply andb_true_iff in H as [_ H].
  rewrite forallb_forall in H. specialize (H r (proj1 (list_elem_of_In _ _) Hin)).
  simpl in H. rewrite Hres in H.
  destruct (readJson host !! p) as [pj|]; [|discriminate].
  exists pj. split; [reflexivity|]. now apply bool_decide_eq_true in H.
Qed.

Lemma namedAsRequired_key r r' :
  r ∈ requirements host → r' ∈ requirements host →
  resolutionKey r = resolutionKey r' → resolutionOf host r = resolutionOf host r'.
Proof.
  intros Hin Hin' Hkey. unfold namedAsRequired in Hnamed.
  apply andb_true_iff in Hnamed as [_ H].
  rewrite forallb_forall in H. specialize (H r (proj1 (list_elem_of_In _ _) Hin)).
  simpl in H. rewrite forallb_forall in H.
  specialize (H r' (proj1 (list_elem_of_In _ _) Hin')). simpl in H.
  rewrite (bool_decide_eq_true_2 _ Hkey) in H. simpl in H.
  now apply bool_decide_eq_true in H.
Qed.

(** The dependencies of a manifest are requirements. *)
Lemma requirements_of_manifest p pj spec :
  readJson host !! p = Some pj →
  spec ∈ objectToDependencySpecs [pjDependencies pj; pjPeerDependencies pj] →
  (parseDependencyName spec, dirname host p) ∈ requirements host.
Proof.
  intros Hpj Hspec. unfold requirements.
  apply list_elem_of_bind. exists (p, pj). split; [|now apply elem_of_map_to_list].
  apply list_elem_of_bind. exists spec. split; [|exact Hspec].
  simpl. left.
Qed.

Lemma resolveCached_sound name baseDir c :
  (name, baseDir) ∈ requirements host → resolutionsSound c →
  ∃ c', resolveCached (name +:+ "/package.json") baseDir c
        = (Done (resolveToRealpath host (name +:+ "/package.json") baseDir), c')
        ∧ buildCache c' = buildCache c ∧ resolutionsSound c'.
Proof.
  intros Hreq Hsound. unfold Sandbox.resolveCached.
  change (baseDir +:+ "__" +:+ name +:+ "/package.json")
    with (resolutionKey (name, baseDir)).
  change (resolveToRealpath host (name +:+ "/package.json") baseDir)
    with (resolutionOf host (name, baseDir)).
  destruct (resolutionCache c !! resolutionKey (name, baseDir)) as [r|] eqn:Hr.
  - exists c. destruct (Hsound _ r Hr) as (req & Hin & Hkey & ->).
    rewrite (namedAsRequired_key (name, baseDir) req Hreq Hin Hkey). auto.
  - eexists. split; [reflexivity|]. split; [reflexivity|].
    intros key r'. simpl. intros Hl.
    destruct (decide (resolutionKey (name, baseDir) = key)) as [E|Hne].
    + rewrite E, lookup_insert_eq in Hl. injection Hl as <-.
      exists (name, baseDir). auto.
    + rewrite lookup_insert_ne in Hl by assumption. now apply Hsound.
Qed.

Lemma pendingShrinks_refl c : pendingShrinks c c.
Proof. intros p H. exact H. Qed.

Lemma pendingShrinks_trans c1 c2 c3 :
  pendingShrinks c1 c2 → pendingShrinks c2 c3 → pendingShrinks c1 c3.
Proof. intros H12 H23 p H. apply H12, H23, H. Qed.

Lemma pendingOnTrace_shrinks c c' trace :
  pendingShrinks c c' → pendingOnTrace c trace → pendingOnTrace c' trace.
Proof. intros Hs Hc p Hp. apply Hc, Hs, Hp. Qed.

Lemma crawlDependenciesLoop_done fuel (crawl : Crawler) baseDir trace specs :
  doneWithin fuel crawl trace →
  (∀ spec, spec ∈ specs → (parseDependencyName spec, baseDir) ∈ requirements host) →
  ∀ acc c, (uncrawled host c < fuel)%nat →
    resolutionsSound c → pendingOnTrace c trace →
    ∃ acc' c', crawlDependenciesLoop crawl baseDir trace specs acc c = (Done acc', c')
               ∧ cacheGrows c c' ∧ resolutionsSound c' ∧ pendingShrinks c c'.
Proof.
  intros Hcrawl. induction specs as [|spec rest IH];
    intros Hreq acc c Hc Hsound Hpending.
  - exists acc, c. simpl.
    split_and!; auto using cacheGrows_refl, pendingShrinks_refl.
  - assert (Hrest : ∀ spec', spec' ∈ rest →
                      (parseDependencyName spec', baseDir) ∈ requirements host).
    { intros spec' Hin. apply Hreq. now right. }
    assert (Hspec : (parseDependencyName spec, baseDir) ∈ requirements host).
    { apply Hreq. left. }
    simpl. destruct (decide (parseDependencyName spec ∈ trace)) as [|Hfresh];
      [now apply IH|].
    unfold bind.
    destruct (resolveCached_sound (parseDependencyName spec) baseDir c Hspec Hsound)
      as (c1 & -> & Hc1 & Hsound1).
    assert (G1 : cacheGrows c c1) by (unfold cacheGrows; now rewrite Hc1).
    assert (S1 : pendingShrinks c c1) by (intros p; now rewrite Hc1).
    assert (B1 : (uncrawled host c1 < fuel)%nat).
    { pose proof (uncrawled_mono _ _ G1). lia. }
    assert (P1 : pendingOnTrace c1 trace) by now apply pendingOnTrace_shrinks with c.
    destruct (resolveToRealpath host _ baseDir) as [p|] eqn:Hres.
    + destruct (namedAsRequired_name _ p Hspec Hres) as (pj & Hpj & Hname).
      simpl in Hname. rewrite <- Hname in Hfresh.
      destruct (Hcrawl p pj c1 B1 Hpj Hfresh Hsound1 P1)
        as (b & c2 & -> & G2 & Hsound2 & S2).
      assert (B2 : (uncrawled host c2 < fuel)%nat).
      { pose proof (uncrawled_mono _ _ G2). lia. }
      destruct (IH Hrest (mkDepsAcc (mapSet b (accDependencies acc))
                      (accErrors acc ++ errors b) (accMissing acc)) c2 B2 Hsound2
                  (pendingOnTrace_shrinks _ _ _ S2 P1))
        as (acc' & c3 & -> & G3 & Hsound3 & S3).
      exists acc', c3. split_and!; eauto using cacheGrows_trans, pendingShrinks_trans.
    + destruct (IH Hrest (mkDepsAcc (accDependencies acc) (accErrors acc)
                      (accMissing acc ++ [parseDependencyName spec])) c1 B1 Hsound1 P1)
        as (acc' & c3 & -> & G3 & Hsound3 & S3).
      exists acc', c3. split_and!; eauto using cacheGrows_trans, pendingShrinks_trans.
Qed.

Lemma readPackageJson_name p pj :
  readJson host !! p = Some pj →
  ∃ pj', readPackageJson host p = Some pj' ∧ pjName pj' = pjName pj
         ∧ pjDependencies pj' = pjDependencies pj
         ∧ pjPeerDependencies pj' = pjPeerDependencies pj.
Proof. unfold readPackageJson. intros ->. eexists. split; [reflexivity|]. auto. Qed.

(** In such an installation the crawl of a build ends with the build. *)
Lemma crawlBuild_done (fuel : nat) :
  ∀ p pj trace c,
    (uncrawled host c + 1 < fuel)%nat →
    readJson host !! p = Some pj →
    resolutionsSound c → pendingOnTrace c (trace ++ [pjName pj]) →
    ∃ b c', crawlBuild fuel p trace c = (Done b, c')
            ∧ cacheGrows c c' ∧ resolutionsSound c' ∧ pendingShrinks c c'.
Proof.
  induction fuel as [|fuel IH]; intros p pj trace c Hc Hpj Hsound Hpending; [lia|].
  assert (Hcached : ∀ T, doneWithin fuel (crawlBuildCached (crawlBuild fuel)) T).
  { intros T q qj c0 Hc0 Hqj Hfresh Hsound0 Hpending0. unfold crawlBuildCached.
    destruct (buildCache c0 !! q) as [[|build]|] eqn:Hq.
    - destruct (Hpending0 q Hq) as (qj' & Hqj' & Hin).
      rewrite Hqj in Hqj'. injection Hqj' as <-. contradiction.
    - exists build, c0.
      split_and!; auto using cacheGrows_refl, pendingShrinks_refl.
    - set (c1 := mkCaches (resolutionCache c0) (<[q := Pending]> (buildCache c0))).
      assert (G1 : cacheGrows c0 c1).
      { unfold cacheGrows, c1. simpl. rewrite dom_insert_L. set_solver. }
      assert (B1 : (uncrawled host c1 + 1 < fuel)%nat).
      { pose proof (uncrawled_insert c0 q Pending (mk_is_Some _ _ Hqj) Hq) as Hlt.
        fold c1 in Hlt. lia. }
      assert (P1 : pendingOnTrace c1 (T ++ [pjName qj])).
      { intros x Hx. unfold c1 in Hx. simpl in Hx.
        destruct (decide (q = x)) as [<-|Hne].
        - exists qj. split; [assumption|]. apply elem_of_app. right. left.
        - rewrite lookup_insert_ne in Hx by assumption.
          destruct (Hpending0 x Hx) as (xj & Hxj & Hin).
          exists xj. split; [assumption|]. apply elem_of_app. now left. }
      destruct (IH q qj T c1 B1 Hqj Hsound0 P1) as (b & c2 & -> & G2 & Hsound2 & S2).
      eexists b, _. split; [reflexivity|]. split_and!.
      + apply cacheGrows_trans with c1; [assumption|].
        apply cacheGrows_trans with c2; [assumption|].
        unfold cacheGrows. simpl. rewrite dom_insert_L. set_solver.
      + exact Hsound2.
      + intros x Hx. simpl in Hx.
        destruct (decide (q = x)) as [<-|Hne].
        * rewrite lookup_insert_eq in Hx. discriminate.
        * rewrite lookup_insert_ne in Hx by assumption.
          apply S2 in Hx. unfold c1 in Hx. simpl in Hx.
          now rewrite lookup_insert_ne in Hx by assumption. }
  simpl.
  destruct (readPackageJson_name p pj Hpj) as (pj' & -> & Hname & Hdeps & Hpeer).
  unfold bind, Sandbox.crawlDependencies, bind.
  assert (Hc' : (uncrawled host c < fuel)%nat) by lia.
  rewrite <- Hname in Hpending.
  destruct (crawlDependenciesLoop_done fuel (crawlBuildCached (crawlBuild fuel))
              (dirname host p)
              (trace ++ [pjName pj'])
              (objectToDependencySpecs [pjDependencies pj'; pjPeerDependencies pj'])
              (Hcached _)
              ltac:(intros spec Hspec; rewrite Hdeps, Hpeer in Hspec;
                    now apply requirements_of_manifest with pj)
              (mkDepsAcc [] [] []) c Hc' Hsound Hpending)
    as (acc' & c1 & -> & G1 & Hsound1 & S1).
  unfold ret. eexists _, c1. split; [reflexivity|]. auto.
Qed.

(** The crawl of such an installation returns the root build. *)
Lemma fromDirectory_done (fuel : nat) :
  (size (readJson host) + 1 < fuel)%nat → ∃ root, fromDirectory sha1 host fuel = Done root.
Proof.
  intros Hfuel. unfold fromDirectory.
  destruct namedAsRequired_root as [pj Hpj].
  destruct (crawlBuild_done fuel (Path.join [hostSandboxPath host; "package.json"])
              pj [] (mkCaches ∅ ∅)) as (b & c' & -> & _).
  - unfold uncrawled. simpl. rewrite dom_empty_L, difference_empty_L, size_dom. lia.
  - exact Hpj.
  - intros key r Hr. simpl in Hr. now rewrite lookup_empty in Hr.
  - intros p Hp. simpl in Hp. now rewrite lookup_empty in Hp.
  - now exists b.
Qed.

End installed.


End crawl_facts.

(** The cycle [A -> B -> A]: the crawl returns, [B] carries the error of
    the cycle, and [C], required by [B] after [A], is still crawled. *)
Example crawl_cycle_example :
  (∃ root, cyclicCrawl = Async.Done root)
  ∧ Types.errors <$> cyclicB
    = Some [Sandbox.formatCircularDependenciesError "A" ["R"; "A"; "B"]]
  ∧ map Types.name <$> (Types.dependencies <$> cyclicB) = Some ["C"].
Proof. vm_compute. split; [eexists; reflexivity | split; reflexivity]. Qed.



(** ** Rewriting the staging path inside the files of a build *)

Section buffer_facts.
Import Text Fs Async BuildersUtil.

Lemma startsWith_app (needle rest : chars) : startsWith needle (needle ++ rest) = true.
Proof. induction needle as [|c needle IH]; simpl; [reflexivity|]. now rewrite Ascii.eqb_refl. Qed.

Lemma startsWith_inv (needle content : chars) :
  startsWith needle content = true → ∃ rest, content = needle ++ rest.
Proof.
  revert content. induction needle as [|c needle IH]; intros content H.
  - now exists content.
  - destruct content as [|x content]; [discriminate|]. simpl in H.
    apply andb_true_iff in H as [Hc H]. apply Ascii.eqb_eq in Hc as ->.
    destruct (IH content H) as [rest ->]. now exists rest.
Qed.

Lemma indexOf_unfold (needle content : chars) :
  indexOf needle content
  = if startsWith needle content then Some 0%nat
    else match content with
         | [] => None
         | _ :: rest => S <$> indexOf needle rest
         end.
Proof. destruct content; reflexivity. Qed.

(** [indexOf] finds an occurrence, and nothing but one. *)
Lemma indexOf_Some (needle content : chars) (offset : nat) :
  indexOf needle content = Some offset →
  ∃ before after, content = before ++ needle ++ after ∧ length before = offset.
Proof.
  revert offset. induction content as [|c content IH]; intros offset H;
    rewrite indexOf_unfold in H.
  - destruct (startsWith needle []) eqn:Hs; [|discriminate].
    injection H as <-. apply startsWith_inv in Hs as [rest ->]. now exists [], rest.
  - destruct (startsWith needle (c :: content)) eqn:Hs.
    + injection H as <-. apply startsWith_inv in Hs as [rest ->]. now exists [], rest.
    + destruct (indexOf needle content) as [o|] eqn:Ho; [|discriminate].
      injection H as <-. destruct (IH o eq_refl) as (before & after & -> & <-).
      now exists (c :: before), after.
Qed.

Lemma indexOf_None (needle before after : chars) :
  indexOf needle (before ++ needle ++ after) ≠ None.
Proof.
  induction before as [|c before IH]; rewrite indexOf_unfold.
  - simpl. now rewrite startsWith_app.
  - destruct (startsWith needle _); [discriminate|]. simpl.
    destruct (indexOf needle (before ++ needle ++ after)); [discriminate|contradiction].
Qed.

Lemma length_overlay (s content : chars) : length (overlay s content) = length content.
Proof.
  revert content. induction s as [|x s IH]; intros [|c content]; simpl; auto.
Qed.

Lemma length_write (content s : chars) (offset : nat) :
  length (write content s offset) = length content.
Proof.
  revert content. induction offset as [|o IH]; intros content.
  - destruct content; simpl; [now destruct s|]. apply length_overlay.
  - destruct content as [|c content]; simpl; [reflexivity | now rewrite IH].
Qed.

Lemma overlay_same_length (s x after : chars) :
  length s = length x → overlay s (x ++ after) = s ++ after.
Proof.
  revert x. induction s as [|c s IH]; intros [|y x] H; try discriminate.
  - now destruct after.
  - simpl. f_equal. apply IH. now injection H.
Qed.

(** Writing over an occurrence with a text of the same length replaces
    it. *)
Lemma write_occurrence (before x after s : chars) :
  length s = length x →
  write (before ++ x ++ after) s (length before) = before ++ s ++ after.
Proof.
  intros H. induction before as [|c before IH]; simpl.
  - rewrite <- (overlay_same_length s x after H). now destruct (x ++ after).
  - now rewrite IH.
Qed.

(** More fuel does not change a result. *)
Lemma rewriteLoop_more (fuel : nat) :
  ∀ content origPath destPath result,
    rewriteLoop fuel content origPath destPath = Some result →
    rewriteLoop (S fuel) content origPath destPath = Some result.
Proof.
  induction fuel as [|fuel IH]; intros content origPath destPath result H.
  - simpl in *. destruct (indexOf origPath content); [discriminate | assumption].
  - simpl in H. simpl. destruct (indexOf origPath content) as [offset|]; [|assumption].
    apply IH in H. exact H.
Qed.

(** What the loop returns has the length of the content and no occurrence
    of the path left. *)
Lemma rewriteLoop_result (fuel : nat) :
  ∀ content origPath destPath result,
    rewriteLoop fuel content origPath destPath = Some result →
    length result = length content ∧ indexOf origPath result = None.
Proof.
  induction fuel as [|fuel IH]; intros content origPath destPath result H; simpl in H.
  - destruct (indexOf origPath content) eqn:E; [discriminate|].
    injection H as <-. auto.
  - destruct (indexOf origPath content) as [offset|] eqn:E.
    + destruct (IH _ _ _ _ H) as [Hlen Hnone]. now rewrite length_write in Hlen.
    + injection H as <-. auto.
Qed.

(** The offset [indexOf] returns is the first at which the needle is
    found. *)
Lemma indexOf_first (needle content : chars) (offset : nat) :
  indexOf needle content = Some offset →
  ∀ i, (i < offset)%nat → startsWith needle (drop i content) = false.
Proof.
  revert offset. induction content as [|c content IH]; intros offset H i Hi;
    rewrite indexOf_unfold in H.
  - destruct (startsWith needle []); [injection H as <-; lia | discriminate].
  - destruct (startsWith needle (c :: content)) eqn:Hs; [injection H as <-; lia|].
    destruct (indexOf needle content) as [o|] eqn:Ho; [|discriminate].
    injection H as <-. destruct i as [|i]; [exact Hs|].
    simpl. apply (IH o eq_refl). lia.
Qed.

(** The loop does what [overwritten] tells, and nothing else. *)
Lemma rewriteLoop_overwritten (fuel : nat) :
  ∀ content origPath destPath result,
    rewriteLoop fuel content origPath destPath = Some result →
    overwritten origPath destPath content result.
Proof.
  induction fuel as [|fuel IH]; intros content origPath destPath result H; simpl in H.
  - destruct (indexOf origPath content) eqn:E; [discriminate|].
    injection H as <-. now apply overwritten_none.
  - destruct (indexOf origPath content) as [offset|] eqn:E.
    + destruct (indexOf_Some _ _ _ E) as (before & after & -> & <-).
      apply overwritten_first; [exact E|]. now apply IH.
    + injection H as <-. now apply overwritten_none.
Qed.

Lemma overwritten_rewriteLoop (origPath destPath content result : chars) :
  overwritten origPath destPath content result →
  ∃ fuel, rewriteLoop fuel content origPath destPath = Some result.
Proof.
  induction 1 as [content Hnone|before after result Hfirst _ [fuel IH]].
  - exists 0%nat. simpl. now rewrite Hnone.
  - exists (S fuel). simpl. now rewrite Hfirst.
Qed.

Lemma bufferValue_bound (l : chars) :
  (bufferValue l < 256 ^ N.of_nat (length l))%N.
Proof.
  induction l as [|c l IH]; [simpl; lia|].
  cbn [bufferValue length]. rewrite Nat2N.inj_succ, N.pow_succ_r'.
  pose proof (N_ascii_bounded c). nia.
Qed.

Lemma bufferValue_app (a b : chars) :
  bufferValue (a ++ b)
  = (bufferValue a * 256 ^ N.of_nat (length b) + bufferValue b)%N.
Proof.
  induction a as [|c a IH]; [simpl; lia|].
  cbn [bufferValue app length]. rewrite IH, length_app, Nat2N.inj_add, N.pow_add_r.
  lia.
Qed.

(** Overwriting an occurrence moves the value of the buffer the way the
    value of the text moves. *)
Lemma bufferValue_replace (before x y after : chars) :
  length x = length y →
  (bufferValue x < bufferValue y)%N →
  (bufferValue (before ++ x ++ after) < bufferValue (before ++ y ++ after))%N.
Proof.
  intros Hlen Hlt. rewrite !bufferValue_app, !length_app, Hlen.
  assert (256 ^ N.of_nat (length after) ≠ 0)%N by (apply N.pow_nonzero; lia).
  nia.
Qed.

Lemma bufferValue_inj (a b : chars) :
  length a = length b → bufferValue a = bufferValue b → a = b.
Proof.
  revert b. induction a as [|c a IH]; intros [|d b] Hlen Hval; try discriminate;
    [reflexivity|].
  injection Hlen as Hlen. cbn [bufferValue] in Hval. rewrite Hlen in Hval.
  pose proof (bufferValue_bound a) as Ba. pose proof (bufferValue_bound b) as Bb.
  rewrite Hlen in Ba.
  assert (Hc : N_of_ascii c = N_of_ascii d) by nia.
  assert (c = d) as ->.
  { rewrite <- (ascii_N_embedding c), <- (ascii_N_embedding d). now rewrite Hc. }
  f_equal. apply IH; [assumption|]. nia.
Qed.

(** A loop whose every overwrite lowers a measure ends. *)
Lemma rewriteLoop_ends_by_measure (measure : chars → nat) (origPath destPath : chars) :
  (∀ content offset,
     indexOf origPath content = Some offset →
     (measure (write content destPath offset) < measure content)%nat) →
  ∀ content, ∃ fuel result, rewriteLoop fuel content origPath destPath = Some result.
Proof.
  intros Hdown content.
  remember (measure content) as n eqn:Hn. revert content Hn.
  induction n as [n IH] using lt_wf_ind. intros content ->.
  destruct (indexOf origPath content) as [offset|] eqn:E.
  - destruct (IH _ (Hdown content offset E) _ eq_refl) as (fuel & result & H).
    exists (S fuel), result. simpl. now rewrite E.
  - exists 0%nat, content. simpl. now rewrite E.
Qed.

(** For two different paths of the same length the loop ends. *)
Lemma rewriteLoop_ends (origPath destPath : chars) :
  length destPath = length origPath → destPath ≠ origPath →
  ∀ content, ∃ fuel result, rewriteLoop fuel content origPath destPath = Some result.
Proof.
  intros Hlen Hne.
  assert (Hval : bufferValue destPath ≠ bufferValue origPath).
  { intros E. apply Hne. now apply bufferValue_inj. }
  destruct (N.lt_total (bufferValue destPath) (bufferValue origPath))
    as [Hlt|[E|Hgt]]; [|contradiction|].
  - (* every overwrite lowers the value of the buffer *)
    apply (rewriteLoop_ends_by_measure (λ c, N.to_nat (bufferValue c))).
    intros content offset Hoff.
    destruct (indexOf_Some _ _ _ Hoff) as (before & after & -> & <-).
    rewrite write_occurrence by assumption.
    pose proof (bufferValue_replace before destPath origPath after Hlen Hlt). lia.
  - (* every overwrite raises it, below the bound of its length *)
    apply (rewriteLoop_ends_by_measure
             (λ c, N.to_nat (256 ^ N.of_nat (length c) - bufferValue c))).
    intros content offset Hoff.
    destruct (indexOf_Some _ _ _ Hoff) as (before & after & -> & <-).
    rewrite write_occurrence by assumption.
    pose proof (bufferValue_replace before origPath destPath after (eq_sym Hlen) Hgt)
      as Hup.
    pose proof (bufferValue_bound (before ++ destPath ++ after)) as Hb.
    rewrite !length_app, Hlen in *. lia.
Qed.


End buffer_facts.

(** Two occurrences apart from each other are both replaced by the final
    path. *)
Example rewritePathInFile_replaces_both :
  BuildersUtil.rewritePathInFile 2 stagedFile "/store/_insttmp/x/lib/conf"
    "/store/_insttmp/x" "/store/_install/x"
  = Async.Done
      ({["/store/_insttmp/x/lib/conf" :=
           Fs.EFile "lib=/store/_install/x/lib:bin=/store/_install/x/bin"]},
       [BuildersUtil.mkWrite "/store/_insttmp/x/lib/conf"
          "lib=/store/_install/x/lib:bin=/store/_install/x/bin"]).
Proof. vm_compute. reflexivity. Qed.



(** * Further properties of the code *)

(** ** [build-sandbox.js]: dependency specifications, manifests, hashing *)

Section spec_facts.
Import Text Json Types Async Sandbox.

Lemma forallb_not_at (l : chars) :
  forallb (λ c, negb (Ascii.eqb c "@")) l = true → "@"%char ∉ l.
Proof.
  induction l as [|x l IH]; simpl; intros H Hin; [inversion Hin|].
  apply andb_prop in H as [Hx Hl].
  apply elem_of_cons in Hin as [<-|Hin]; [discriminate Hx | now apply IH].
Qed.

(** X1: the name that [parseDependencySpec] reads from the specification
    [name@versionSpec] built by [objectToDependencySpecs] is [name]
    again, for a scoped name ([@scope/pkg]) as for a plain one, whatever
    the version specification holds. *)
Theorem parseDependencySpec_recovers_name (name versionSpec : string) :
  isPackageName name = true →
  parseDependencyName (name +:+ "@" +:+ versionSpec) = name.
Proof.
  unfold isPackageName, parseDependencyName. intros Hname.
  rewrite !of_string_app.
  change (of_string "@") with ["@"%char].
  destruct (of_string name) as [|c rest] eqn:E; [discriminate|].
  apply forallb_not_at in Hname.
  assert (Hn : name = to_string (c :: rest)) by (now rewrite <- E, to_of_string).
  cbn [app].
  destruct (Ascii.eqb_spec c "@") as [->|Hc].
  - assert (Hs : ∀ r, split "@" ("@"%char :: r) = [] :: split "@" r) by reflexivity.
    change ("@"%char :: rest ++ ["@"%char] ++ of_string versionSpec)
      with ("@"%char :: (rest ++ "@"%char :: of_string versionSpec)).
    rewrite Hs, split_app_sep, (split_plain _ rest Hname). simpl.
    rewrite Hn. reflexivity.
  - rewrite app_comm_cons, split_app_sep, split_plain.
    + simpl. now rewrite Hn.
    + intros Hin. apply elem_of_cons in Hin as [E'|Hin]; [now symmetry in E'|].
      contradiction.
Qed.

Lemma pushAbsent_spec (x : string) (l : list string) :
  NoDup l → NoDup (pushAbsent x l) ∧ ∀ s, s ∈ pushAbsent x l ↔ s ∈ l ∨ s = x.
Proof.
  intros Hl. unfold pushAbsent. destruct (decide (x ∈ l)) as [Hin|Hout].
  - split; [assumption|]. intros s. split; [auto|]. now intros [?| ->].
  - split.
    + apply NoDup_app. split; [assumption|]. split; [|apply NoDup_singleton].
      intros y Hy Hy'. apply list_elem_of_singleton in Hy'. now subst.
    + intros s. rewrite elem_of_app, list_elem_of_singleton. tauto.
Qed.

Lemma fold_pushAbsent_spec (obj : list (string * string)) :
  ∀ acc, NoDup acc →
    let r := fold_left (λ acc nv, pushAbsent (nv.1 +:+ "@" +:+ nv.2) acc) obj acc in
    NoDup r
    ∧ ∀ s, s ∈ r ↔ s ∈ acc ∨ ∃ nv, nv ∈ obj ∧ s = nv.1 +:+ "@" +:+ nv.2.
Proof.
  induction obj as [|nv obj IH]; intros acc Hacc; simpl.
  - split; [assumption|]. intros s. split; [auto|].
    intros [?|(nv & Hnv & _)]; [assumption | inversion Hnv].
  - destruct (pushAbsent_spec (nv.1 +:+ "@" +:+ nv.2) acc Hacc) as [Hnd Hmem].
    destruct (IH _ Hnd) as [Hnd' Hmem']. split; [assumption|].
    intros s. rewrite Hmem', Hmem. split.
    + intros [[?| ->]|(nv' & Hin & ->)]; eauto.
      * right. exists nv. split; [left|reflexivity].
      * right. exists nv'. split; [now right|reflexivity].
    + intros [?|(nv' & Hin & ->)]; [auto|].
      apply elem_of_cons in Hin as [->|Hin]; eauto.
Qed.

(** X2: [objectToDependencySpecs] lists every [name@versionSpec] of the
    given objects, nothing else, and none of them twice. *)
Theorem objectToDependencySpecs_distinct (objs : list (list (string * string))) :
  NoDup (objectToDependencySpecs objs)
  ∧ ∀ s, s ∈ objectToDependencySpecs objs
         ↔ ∃ obj nv, obj ∈ objs ∧ nv ∈ obj ∧ s = nv.1 +:+ "@" +:+ nv.2.
Proof.
  unfold objectToDependencySpecs.
  assert (G : ∀ acc, NoDup acc →
    let r := fold_left
      (λ acc obj,
         fold_left (λ acc nv, pushAbsent (nv.1 +:+ "@" +:+ nv.2) acc) obj acc)
      objs acc in
    NoDup r
    ∧ ∀ s, s ∈ r ↔ s ∈ acc
                    ∨ ∃ obj nv, obj ∈ objs ∧ nv ∈ obj ∧ s = nv.1 +:+ "@" +:+ nv.2).
  { induction objs as [|obj objs IH]; intros acc Hacc; simpl.
    - split; [assumption|]. intros s. split; [auto|].
      intros [?|(obj & nv & Hobj & _)]; [assumption | inversion Hobj].
    - destruct (fold_pushAbsent_spec obj acc Hacc) as [Hnd Hmem].
      destruct (IH _ Hnd) as [Hnd' Hmem']. split; [assumption|].
      intros s. rewrite Hmem', Hmem. split.
      + intros [[?|(nv & Hin & ->)]|(obj' & nv & Hobj & Hin & ->)]; eauto.
        * right. exists obj, nv. split; [left|auto].
        * right. exists obj', nv. split; [now right|auto].
      + intros [?|(obj' & nv & Hobj & Hin & ->)]; [auto|].
        apply elem_of_cons in Hobj as [->|Hobj]; eauto 6. }
  destruct (G [] (NoDup_nil_2)) as [Hnd Hmem]. split; [assumption|].
  intros s. rewrite Hmem. split; [|auto].
  intros [Hin|?]; [inversion Hin | assumption].
Qed.

End spec_facts.

Lemma parseDependencySpec_recovers_name_witness :
  Sandbox.parseDependencyName ("@scope/pkg" +:+ "@" +:+ "^1.0.0") = "@scope/pkg".
Proof. apply parseDependencySpec_recovers_name. reflexivity. Defined.

Section manifest_facts.
Import Text Json Types Async Sandbox.

Lemma getField_setField_eq key v fields : getField key (setField key v fields) = Some v.
Proof.
  induction fields as [|[k w] rest IH]; simpl.
  - destruct (decide (key = key)); [reflexivity | contradiction].
  - destruct (decide (k = key)) as [->|Hne]; simpl.
    + destruct (decide (key = key)); [reflexivity | contradiction].
    + destruct (decide (k = key)); [contradiction | assumption].
Qed.

Lemma getField_setField_ne key key' v fields :
  key ≠ key' → getField key' (setField key v fields) = getField key' fields.
Proof.
  intros Hne. induction fields as [|[k w] rest IH]; simpl.
  - destruct (decide (key = key')); [contradiction | reflexivity].
  - destruct (decide (k = key)) as [->|Hk]; simpl.
    + destruct (decide (key = key')); [contradiction | reflexivity].
    + destruct (decide (k = key')); [reflexivity | assumption].
Qed.

Lemma keys_setField key v fields :
  map fst (setField key v fields)
  = if decide (key ∈ map fst fields) then map fst fields else map fst fields ++ [key].
Proof.
  induction fields as [|[k w] rest IH]; simpl.
  - destruct (decide (key ∈ [])) as [Hin|_]; [inversion Hin | reflexivity].
  - destruct (decide (k = key)) as [->|Hk]; simpl.
    + destruct (decide (key ∈ key :: map fst rest)) as [_|Hout]; [reflexivity|].
      exfalso. apply Hout. left.
    + rewrite IH. destruct (decide (key ∈ map fst rest)) as [Hin|Hout].
      * destruct (decide (key ∈ k :: map fst rest)) as [_|Hout]; [reflexivity|].
        exfalso. apply Hout. now right.
      * destruct (decide (key ∈ k :: map fst rest)) as [Hin|_]; [|reflexivity].
        apply elem_of_cons in Hin as [->|Hin]; [contradiction | contradiction].
Qed.

(** What [setDefault] leaves behind. *)
Lemma setDefault_spec key dflt fields :
  isNullish (Some dflt) = false ∨ dflt = JNull →
  let fields' := setDefault key dflt fields in
  (∀ v, getField key fields = Some v → isNullish (Some v) = false →
        getField key fields' = Some v)
  ∧ (isNullish (getField key fields) = true → getField key fields' = Some dflt)
  ∧ (∀ key', key ≠ key' → getField key' fields' = getField key' fields).
Proof.
  intros _ fields'. unfold fields', setDefault. split_and!.
  - intros v Hv Hnn. rewrite Hv, Hnn. exact Hv.
  - intros Hnull. rewrite Hnull. apply getField_setField_eq.
  - intros key' Hne. destruct (isNullish (getField key fields)); [|reflexivity].
    now apply getField_setField_ne.
Qed.

(** X3: [readPackageJson] fails on a path without a manifest; on a
    manifest it keeps the name, the version, the dependencies and every
    property of the [esy] section that is set, and it fills in the three
    defaults: afterwards [esy.exportedEnv] and [esy.buildsInSource] are
    never null or undefined, and [esy.build] is always a property, null at
    worst. *)
Theorem readPackageJson_fills_defaults (host : Host) (filename : string) :
  (readJson host !! filename = None → readPackageJson host filename = None)
  ∧ ∀ pj, readJson host !! filename = Some pj →
      ∃ pj', readPackageJson host filename = Some pj'
        ∧ pjName pj' = pjName pj ∧ pjVersion pj' = pjVersion pj
        ∧ pjDependencies pj' = pjDependencies pj
        ∧ pjPeerDependencies pj' = pjPeerDependencies pj
        ∧ _resolved pj' = _resolved pj
        ∧ (∀ key v, getField key (esy pj) = Some v → isNullish (Some v) = false →
                    getField key (esy pj') = Some v)
        ∧ (∀ key, key ∉ ["build"; "exportedEnv"; "buildsInSource"] →
                  getField key (esy pj') = getField key (esy pj))
        ∧ (isNullish (getField "build" (esy pj)) = true →
           getField "build" (esy pj') = Some JNull)
        ∧ (isNullish (getField "exportedEnv" (esy pj)) = true →
           getField "exportedEnv" (esy pj') = Some (JObject []))
        ∧ (isNullish (getField "buildsInSource" (esy pj)) = true →
           getField "buildsInSource" (esy pj') = Some (JBool false))
        ∧ is_Some (getField "build" (esy pj'))
        ∧ isNullish (getField "exportedEnv" (esy pj')) = false
        ∧ isNullish (getField "buildsInSource" (esy pj')) = false.
Proof.
  split; [unfold readPackageJson; now intros ->|].
  intros pj Hpj. unfold readPackageJson. rewrite Hpj.
  eexists. split; [reflexivity|]. simpl.
  set (e1 := setDefault "build" JNull (esy pj)).
  set (e2 := setDefault "exportedEnv" (JObject []) e1).
  set (e3 := setDefault "buildsInSource" (JBool false) e2).
  destruct (setDefault_spec "build" JNull (esy pj) (or_intror eq_refl))
    as (K1 & N1 & O1). fold e1 in K1, N1, O1.
  destruct (setDefault_spec "exportedEnv" (JObject []) e1 (or_introl eq_refl))
    as (K2 & N2 & O2). fold e2 in K2, N2, O2.
  destruct (setDefault_spec "buildsInSource" (JBool false) e2 (or_introl eq_refl))
    as (K3 & N3 & O3). fold e3 in K3, N3, O3.
  assert (Hkeep : ∀ key v, getField key (esy pj) = Some v → isNullish (Some v) = false →
                           getField key e3 = Some v).
  { intros key v Hv Hnn.
    assert (H1 : getField key e1 = Some v).
    { destruct (decide ("build" = key)) as [<-|Hne]; [now apply K1|].
      now rewrite O1. }
    assert (H2 : getField key e2 = Some v).
    { destruct (decide ("exportedEnv" = key)) as [<-|Hne]; [now apply K2|].
      now rewrite O2. }
    destruct (decide ("buildsInSource" = key)) as [<-|Hne]; [now apply K3|].
    now rewrite O3. }
  assert (Hbuild : getField "build" e3 = getField "build" e1).
  { rewrite O3 by discriminate. now rewrite O2 by discriminate. }
  assert (Henv : getField "exportedEnv" e3 = getField "exportedEnv" e2).
  { now rewrite O3 by discriminate. }
  assert (Henv1 : getField "exportedEnv" e1 = getField "exportedEnv" (esy pj)).
  { now rewrite O1 by discriminate. }
  assert (Hsrc2 : getField "buildsInSource" e2 = getField "buildsInSource" (esy pj)).
  { rewrite O2 by discriminate. now rewrite O1 by discriminate. }
  split_and!; try reflexivity.
  - exact Hkeep.
  - intros key Hkey. rewrite O3, O2, O1; [reflexivity|..];
      intros <-; apply Hkey; repeat constructor.
  - intros Hnull. rewrite Hbuild. now apply N1.
  - intros Hnull. rewrite Henv. apply N2. now rewrite Henv1.
  - intros Hnull. apply N3. now rewrite Hsrc2.
  - rewrite Hbuild.
    destruct (isNullish (getField "build" (esy pj))) eqn:Hnull.
    + rewrite (N1 eq_refl). eauto.
    + destruct (getField "build" (esy pj)) as [v|] eqn:Hv; [|discriminate].
      rewrite (K1 v eq_refl Hnull). eauto.
  - rewrite Henv.
    destruct (isNullish (getField "exportedEnv" e1)) eqn:Hnull.
    + now rewrite (N2 eq_refl).
    + destruct (getField "exportedEnv" e1) as [v|] eqn:Hv; [|discriminate].
      now rewrite (K2 v eq_refl Hnull).
  - destruct (isNullish (getField "buildsInSource" e2)) eqn:Hnull.
    + now rewrite (N3 eq_refl).
    + destruct (getField "buildsInSource" e2) as [v|] eqn:Hv; [|discriminate].
      now rewrite (K3 v eq_refl Hnull).
Qed.

End manifest_facts.

Section hash_entries.
Import Text Json Types Async Sandbox.
Variable sha1 : string → string.

Lemma lookupHash_getField (k : string) (fields : list (string * value)) :
  lookupHash sha1 k (hashedFields sha1 fields) = hash sha1 (fieldOrUndefined k fields).
Proof.
  unfold fieldOrUndefined.
  induction fields as [|[k' x] rest IH]; [reflexivity|].
  cbn [hashedFields map lookupHash getField]. fold (hashedFields sha1 rest).
  destruct (decide (k' = k)); [reflexivity | exact IH].
Qed.

(** [hash] of an object is [hash] of the array of its [[key, value]]
    pairs in the order of the sorted keys, so that an object and this
    array get the same digest. *)
Theorem hash_object_is_hash_of_sorted_entries (fields : list (string * value)) :
  hash sha1 (JObject fields) = hash sha1 (sortedEntries fields).
Proof.
  rewrite hash_object. unfold sortedEntries.
  cbn [hash]. rewrite map_map. f_equal. apply map_ext. intros k.
  cbn [map hash]. now rewrite lookupHash_getField.
Qed.

End hash_entries.

Lemma readPackageJson_fills_defaults_witness :
  ∃ pj', Sandbox.readPackageJson cyclicHost "/sb/package.json" = Some pj'
         ∧ Json.getField "build" (Types.esy pj') = Some Json.JNull.
Proof.
  assert (Hpj : Sandbox.readJson cyclicHost !! "/sb/package.json"
                = Some (Types.mkPackageJson "R" None [("A", "*")] [] None []))
    by (vm_compute; reflexivity).
  destruct (proj2 (readPackageJson_fills_defaults cyclicHost "/sb/package.json") _ Hpj)
    as (pj' & Hread & _ & _ & _ & _ & _ & _ & _ & Hbuild & _).
  exists pj'. split; [exact Hread | apply Hbuild; reflexivity].
Defined.

Section crawl_invariants.
Import Text Json Types Async Sandbox.

Variable sha1 : string → string.
Variable host : Host.

Lemma mapSet_ids (b : BuildSpec) (m : list BuildSpec) :
  NoDup (map id m) →
  NoDup (map id (mapSet b m))
  ∧ (∀ d, d ∈ mapSet b m → d = b ∨ d ∈ m)
  ∧ (length (mapSet b m) ≤ S (length m))%nat.
Proof.
  induction m as [|x m IH]; simpl; intros Hnd.
  - split_and!; [apply NoDup_singleton | | lia].
    intros d Hd. apply list_elem_of_singleton in Hd. now left.
  - apply NoDup_cons in Hnd as [Hx Hnd].
    destruct (decide (id x = id b)) as [E|Hne]; simpl.
    + split_and!; [| |lia].
      * apply NoDup_cons. rewrite <- E. now split.
      * intros d Hd. apply elem_of_cons in Hd as [->|Hd]; [now left|].
        right. now right.
    + destruct (IH Hnd) as (Hnd' & Hsub & Hlen). split_and!; [| |lia].
      * apply NoDup_cons. split; [|assumption].
        intros Hin. change (map id (mapSet b m)) with (id <$> mapSet b m) in Hin.
        apply list_elem_of_fmap in Hin as (d & Hid & Hd).
        destruct (Hsub d Hd) as [->|Hdm]; [now apply Hne|].
        apply Hx. rewrite Hid. change (map id m) with (id <$> m).
        apply list_elem_of_fmap. eauto.
      * intros d Hd. apply elem_of_cons in Hd as [->|Hd]; [right; left|].
        destruct (Hsub d Hd) as [->|Hdm]; [now left | right; now right].
Qed.

Lemma crawlDependenciesLoop_inv (crawl : Crawler) baseDir trace specs :
  (∀ p c b c', cacheBubblesUp c → crawl p trace c = (Done b, c') →
               errorsBubbleUp b ∧ cacheBubblesUp c') →
  ∀ acc c acc' c',
    cacheBubblesUp c → accInv acc →
    crawlDependenciesLoop host crawl baseDir trace specs acc c = (Done acc', c') →
    cacheBubblesUp c' ∧ accInv acc'
    ∧ (∀ e, e ∈ accErrors acc → e ∈ accErrors acc')
    ∧ (length (accDependencies acc')
       ≤ length (accDependencies acc) + length specs)%nat.
Proof.
  intros Hcrawl. induction specs as [|spec rest IH]; intros acc c acc' c' Hc Hacc.
  - simpl. intros [= <- <-]. split_and!; auto. lia.
  - simpl. destruct (decide (parseDependencyName spec ∈ trace)) as [Hcyc|Hfresh].
    + intros Hloop. apply IH in Hloop as (H1 & H2 & H3 & H4); [| assumption |].
      * split_and!; [assumption..| |simpl in H4; lia].
        intros e He. apply H3. simpl. apply elem_of_app. now left.
      * destruct Hacc as [Hnd Hall]. split; [assumption|]. simpl.
        eapply Forall_impl; [exact Hall|]. intros d [Hd He]. split; [assumption|].
        intros e Hin. apply elem_of_app. left. now apply He.
    + unfold bind.
      destruct (resolveCached_buildCache host (parseDependencyName spec +:+ "/package.json")
                  baseDir c) as (r & c1 & -> & Hc1).
      assert (Hb1 : cacheBubblesUp c1) by (intros p b; rewrite Hc1; apply Hc).
      destruct r as [p|].
      * destruct (crawl p trace c1) as [[build| | |] c2] eqn:Hcr; try discriminate.
        destruct (Hcrawl p c1 build c2 Hb1 Hcr) as [Hbuild Hb2].
        intros Hloop. apply IH in Hloop as (H1 & H2 & H3 & H4); [| assumption |].
        -- destruct Hacc as [Hnd _].
           destruct (mapSet_ids build (accDependencies acc) Hnd) as (_ & _ & Hlen).
           split_and!; [assumption..| |simpl in H4; lia].
           intros e He. apply H3. simpl. apply elem_of_app. now left.
        -- destruct Hacc as [Hnd Hall].
           destruct (mapSet_ids build (accDependencies acc) Hnd) as (Hnd' & Hsub & _).
           split; [assumption|]. simpl.
           apply List.Forall_forall. intros d Hd. apply list_elem_of_In in Hd.
           destruct (Hsub d Hd) as [->|Hdm].
           ++ split; [assumption|]. intros e He. apply elem_of_app. now right.
           ++ rewrite List.Forall_forall in Hall.
              destruct (Hall d) as [Hd1 Hd2]; [now apply list_elem_of_In|].
              split; [assumption|]. intros e He. apply elem_of_app. left. now apply Hd2.
      * intros Hloop. apply IH in Hloop as (H1 & H2 & H3 & H4); [| assumption |].
        -- split_and!; [assumption..|simpl in H4; lia].
        -- exact Hacc.
Qed.

Lemma crawlDependencies_inv (crawl : Crawler) baseDir specs trace c r c' :
  (∀ p c b c', cacheBubblesUp c → crawl p trace c = (Done b, c') →
               errorsBubbleUp b ∧ cacheBubblesUp c') →
  cacheBubblesUp c →
  crawlDependencies host crawl baseDir specs trace c = (Done r, c') →
  cacheBubblesUp c'
  ∧ NoDup (map id r.1)
  ∧ Forall (λ d, errorsBubbleUp d ∧ ∀ e, e ∈ errors d → e ∈ r.2) r.1
  ∧ (length r.1 ≤ length specs)%nat.
Proof.
  intros Hcrawl Hc. unfold Sandbox.crawlDependencies, bind, ret.
  destruct (crawlDependenciesLoop host crawl baseDir trace specs _ c)
    as [[acc| | |] c1] eqn:Hloop; try discriminate.
  intros [= <- <-].
  apply (crawlDependenciesLoop_inv crawl baseDir trace specs Hcrawl) in Hloop
    as (H1 & [Hnd Hall] & _ & Hlen); [|assumption|].
  - simpl in *. split_and!; try assumption.
    eapply Forall_impl; [exact Hall|]. intros d [Hd He]. split; [assumption|].
    intros e Hin. destruct (accMissing acc); [now apply He|].
    apply elem_of_app. left. now apply He.
  - split; simpl; constructor.
Qed.

Lemma crawlBuild_inv (fuel : nat) :
  ∀ p trace c b c',
    cacheBubblesUp c →
    crawlBuild sha1 host fuel p trace c = (Done b, c') →
    (errorsBubbleUp b ∧ cacheBubblesUp c')
    ∧ NoDup (map id (dependencies b))
    ∧ (length (dependencies b)
       ≤ length (objectToDependencySpecs
                   [pjDependencies (packageJson b);
                    pjPeerDependencies (packageJson b)]))%nat.
Proof.
  induction fuel as [|fuel IH]; intros p trace c b c' Hc; [discriminate|].
  simpl. destruct (readPackageJson host p) as [pj|]; [|discriminate].
  unfold bind, ret.
  destruct (crawlDependencies host _ _ _ _ c) as [[r| | |] c1] eqn:Hdeps;
    try discriminate.
  intros [= <- <-].
  apply crawlDependencies_inv in Hdeps as (H1 & Hnd & Hall & Hlen); [| |assumption].
  - simpl. split_and!; try assumption. now constructor.
  - intros q c0 b0 c0' Hc0. unfold crawlBuildCached.
    destruct (buildCache c0 !! q) as [[|build]|] eqn:Hq; try discriminate.
    + intros [= <- <-]. split; [now apply (Hc0 q)|assumption].
    + destruct (crawlBuild sha1 host fuel q _ _) as [[build| | |] c2] eqn:Hcr;
        try discriminate.
      intros [= <- <-].
      apply IH in Hcr as ([Hb Hc2] & _).
      * split; [assumption|]. intros x bx. simpl.
        destruct (decide (q = x)) as [<-|Hne].
        -- rewrite lookup_insert_eq. now intros [= <-].
        -- rewrite lookup_insert_ne by assumption. apply Hc2.
      * intros x bx. simpl. destruct (decide (q = x)) as [<-|Hne].
        -- rewrite lookup_insert_eq. discriminate.
        -- rewrite lookup_insert_ne by assumption. apply Hc0.
Qed.

Lemma cacheBubblesUp_empty : cacheBubblesUp (mkCaches ∅ ∅).
Proof. intros p b. simpl. now rewrite lookup_empty. Qed.

Lemma errorsBubbleUp_all (b : BuildSpec) :
  errorsBubbleUp b → ∀ d, buildDependsOn b d → ∀ e, e ∈ errors d → e ∈ errors b.
Proof.
  intros Hb d Hd. revert Hb.
  induction Hd as [b d Hin|b d x Hin _ IH]; intros Hb e He;
    destruct Hb as [b Hall]; rewrite List.Forall_forall in Hall;
    destruct (Hall d) as [Hd1 Hd2]; try (now apply list_elem_of_In).
  - now apply Hd2.
  - apply Hd2. now apply IH.
Qed.

(** X4: the dependencies of a crawled build are keyed by their id: no two
    of them have the same id (a build found again replaces the one found
    before), and there are no more of them than dependency
    specifications in the manifest. *)
Theorem crawled_dependencies_have_distinct_ids
    (fuel : nat) (p : string) (trace : list string) (c c' : Caches) (b : BuildSpec) :
  crawlBuild sha1 host fuel p trace c = (Done b, c') →
  NoDup (map id (dependencies b))
  ∧ (length (dependencies b)
     ≤ length (objectToDependencySpecs
                 [pjDependencies (packageJson b);
                  pjPeerDependencies (packageJson b)]))%nat.
Proof.
  destruct fuel as [|fuel]; [discriminate|]. simpl.
  destruct (readPackageJson host p) as [pj|]; [|discriminate].
  unfold bind, ret, Sandbox.crawlDependencies, bind, ret.
  destruct (crawlDependenciesLoop host _ _ _ _ _ c) as [[acc| | |] c1] eqn:Hloop;
    try discriminate.
  intros [= <- <-]. simpl.
  revert Hloop.
  generalize (crawlBuildCached (crawlBuild sha1 host fuel)) as crawl.
  generalize (objectToDependencySpecs [pjDependencies pj; pjPeerDependencies pj]) as specs.
  intros specs crawl.
  assert (G : ∀ acc0 c0,
    NoDup (map id (accDependencies acc0)) →
    crawlDependenciesLoop host crawl (dirname host p) (trace ++ [pjName pj]) specs acc0 c0
    = (Done acc, c1) →
    NoDup (map id (accDependencies acc))
    ∧ (length (accDependencies acc) ≤ length (accDependencies acc0) + length specs)%nat).
  { induction specs as [|spec rest IH]; intros acc0 c0 Hnd; simpl.
    - intros [= <- <-]. split; [assumption | lia].
    - destruct (decide (parseDependencyName spec ∈ trace ++ [pjName pj])) as [Hcyc|Hfresh].
      + intros Hloop. apply IH in Hloop as [H1 H2]; [|assumption].
        split; [assumption | simpl in H2; lia].
      + unfold bind.
        destruct (resolveCached_buildCache host
                    (parseDependencyName spec +:+ "/package.json")
                    (dirname host p) c0) as (r & c2 & -> & _).
        destruct r as [q|].
        * destruct (crawl q _ c2) as [[build| | |] c3]; try discriminate.
          destruct (mapSet_ids build (accDependencies acc0) Hnd) as (Hnd' & _ & Hlen).
          intros Hloop. apply IH in Hloop as [H1 H2]; [|assumption].
          split; [assumption | simpl in H2; lia].
        * intros Hloop. apply IH in Hloop as [H1 H2]; [|assumption].
          split; [assumption | simpl in H2; lia]. }
  intros Hloop. apply G in Hloop as [H1 H2]; [|constructor].
  split; [assumption | simpl in H2; lia].
Qed.

(** X5: the errors found anywhere in the crawl reach the root: every error
    of a direct or indirect dependency of the build that [fromDirectory]
    returns is an error of that build. *)
Theorem crawl_errors_reach_the_root (fuel : nat) (root : BuildSpec) :
  fromDirectory sha1 host fuel = Done root →
  ∀ d, buildDependsOn root d → ∀ e, e ∈ errors d → e ∈ errors root.
Proof.
  unfold fromDirectory. intros Hroot.
  destruct (crawlBuild sha1 host fuel _ [] (mkCaches ∅ ∅)) as [o c'] eqn:Hcr.
  simpl in Hroot. subst o.
  apply crawlBuild_inv in Hcr as ([Hb _] & _); [|apply cacheBubblesUp_empty].
  now apply errorsBubbleUp_all.
Qed.

End crawl_invariants.

Lemma crawled_dependencies_have_distinct_ids_witness :
  ∃ root c',
    Sandbox.crawlBuild exampleDigest cyclicHost 6 "/sb/package.json" []
      (Sandbox.mkCaches ∅ ∅) = (Async.Done root, c')
    ∧ NoDup (map Types.id (Types.dependencies root)).
Proof.
  assert (H : ∃ root c',
    Sandbox.crawlBuild exampleDigest cyclicHost 6 "/sb/package.json" []
      (Sandbox.mkCaches ∅ ∅) = (Async.Done root, c'))
    by (vm_compute; eexists _, _; reflexivity).
  destruct H as (root & c' & H). exists root, c'. split; [exact H|].
  exact (proj1 (crawled_dependencies_have_distinct_ids exampleDigest cyclicHost
                  6 "/sb/package.json" [] _ c' root H)).
Defined.

Lemma crawl_errors_reach_the_root_witness :
  ∃ root,
    Sandbox.fromDirectory exampleDigest cyclicHost 6 = Async.Done root
    ∧ ∀ d, buildDependsOn root d → ∀ e, e ∈ Types.errors d → e ∈ Types.errors root.
Proof.
  assert (H : ∃ root, Sandbox.fromDirectory exampleDigest cyclicHost 6 = Async.Done root)
    by (vm_compute; eexists; reflexivity).
  destruct H as (root & H). exists root. split; [exact H|].
  exact (crawl_errors_reach_the_root exampleDigest cyclicHost 6 root H).
Defined.

(** ** The build driver: one build per task, persisted builds, the next run *)

Section driver_more.
Import Text Types Fs Driver.

Variable sha1 : string → string.
Variable config : Config.BuildConfig.
Variable performBuild : BuildTask → World → option string * World.
Variable elapsed : BuildTask → World → Z.

Local Abbreviation performBuildWithStatusReport :=
  (performBuildWithStatusReport performBuild elapsed).
Local Abbreviation performBuildMemoized :=
  (performBuildMemoized sha1 config performBuild elapsed).
Local Abbreviation calculateSourceChecksum := (calculateSourceChecksum sha1 config).
Local Abbreviation readSourceChecksum := (readSourceChecksum config).
Local Abbreviation isSpecExistsInStore := (isSpecExistsInStore config).
Local Abbreviation writeStoreChecksum := (writeStoreChecksum config).

Lemma performBuildMemoized_recorded task forced st result st' :
  performBuildMemoized task forced st = (result, st') →
  taskInProgress st' !! taskId task = Some result.
Proof.
  unfold Driver.performBuildMemoized.
  destruct (taskInProgress st !! taskId task) as [s|] eqn:Hs.
  - now intros [= <- <-].
  - destruct (if forced then _ else _) as [r st1].
    intros [= <- <-]. simpl. now rewrite lookup_insert_eq.
Qed.


(** X8: for a persisted task that has not been started, the sources are
    never looked at and no checksum is written. Not forced, the task is
    reported as cached, and nothing is built, exactly when its final
    install directory exists; otherwise, and always when forced, it is
    built, and a success reports [cached = false] and the [forced] flag
    it was requested with. *)
Theorem persisted_task_skips_iff_installed
    (task : BuildTask) (forced : bool) (st st' : DriverState)
    (result : BuildTaskState) :
  shouldBePersisted (spec task) = true →
  taskInProgress st !! taskId task = None →
  performBuildMemoized task forced st = (result, st') →
  let hit := forced = false ∧ isSpecExistsInStore (world st) (spec task) = true in
  ∃ new,
    events st' = events st ++ new
    ∧ existsb writesChecksum new = false
    ∧ (hit → result = cachedSuccessStatus
             ∧ new = [TaskStatus (taskId task) cachedSuccessStatus]
             ∧ world st' = world st)
    ∧ (¬ hit →
       new = [TaskStatus (taskId task) InProgress;
              PerformBuild (taskId task);
              TaskStatus (taskId task) result]
       ∧ world st' = (performBuild task (world st)).2
       ∧ ((∃ t, result = Success (Some t) false forced) ∨ ∃ e, result = Failure e)).
Proof.
  intros Hpers Hfresh Hrun hit.
  unfold Driver.performBuildMemoized in Hrun. rewrite Hfresh, Hpers in Hrun.
  assert (Hbuild : ∀ f r st1,
    performBuildWithStatusReport task f st = (r, st1) →
    events st1 = events st ++ [TaskStatus (taskId task) InProgress;
                               PerformBuild (taskId task);
                               TaskStatus (taskId task) r]
    ∧ world st1 = (performBuild task (world st)).2
    ∧ ((∃ t, r = Success (Some t) false f) ∨ ∃ e, r = Failure e)).
  { intros f r st1 H.
    destruct (performBuildWithStatusReport_spec _ _ _ _ _ _ _ H) as (Hev & _ & Hres).
    split; [exact Hev|]. split; [|exact Hres].
    unfold Driver.performBuildWithStatusReport, onTaskStatus in H. simpl in H.
    destruct (performBuild task (world st)) as [[e|] w]; injection H as <- <-;
      reflexivity. }
  destruct forced.
  - destruct (performBuildWithStatusReport task true st) as [r st1] eqn:Hb.
    injection Hrun as <- <-. simpl.
    destruct (Hbuild _ _ _ Hb) as (Hev & Hw & Hres).
    eexists. split; [exact Hev|]. split; [reflexivity|].
    split; [intros [H _]; discriminate|]. intros _. auto.
  - simpl in Hrun.
    destruct (isSpecExistsInStore (world st) (spec task)) eqn:Hstore.
    + injection Hrun as <- <-. simpl.
      eexists. split; [reflexivity|]. split; [reflexivity|].
      split; [auto|]. intros Hno. exfalso. apply Hno. now split.
    + simpl in Hrun.
      destruct (performBuildWithStatusReport task false st) as [r st1] eqn:Hb.
      injection Hrun as <- <-. simpl.
      destruct (Hbuild _ _ _ Hb) as (Hev & Hw & Hres).
      eexists. split; [exact Hev|]. split; [reflexivity|].
      split; [intros [_ H]; discriminate|]. intros _. auto.
Qed.

Lemma read_after_write (task : BuildTask) (checksum : string) (st : DriverState) :
  readSourceChecksum (world (writeStoreChecksum task checksum st)) (spec task)
  = Some (trim (trim checksum)).
Proof.
  unfold Driver.readSourceChecksum, Driver.writeStoreChecksum, exists_, readFile,
    writeFile. simpl. rewrite lookup_insert_eq.
  rewrite bool_decide_eq_true_2 by eauto. reflexivity.
Qed.

Lemma installed_after_write (task : BuildTask) (checksum : string) (st : DriverState) :
  isSpecExistsInStore (world st) (spec task) = true →
  isSpecExistsInStore (world (writeStoreChecksum task checksum st)) (spec task) = true.
Proof.
  unfold Driver.isSpecExistsInStore, Driver.writeStoreChecksum, exists_, writeFile.
  simpl. intros H. apply bool_decide_eq_true in H. apply bool_decide_eq_true.
  destruct (decide (Config.getBuildPath config (spec task) ["_esy"; "checksum"]
                    = Config.getFinalInstallPath config (spec task) [])) as [E|Hne].
  - rewrite E, lookup_insert_eq. eauto.
  - now rewrite lookup_insert_ne.
Qed.

(** X9: the checksum that a build of a task that is not persisted leaves
    behind is the one the next run looks for. When such a task has been
    built in forced mode and its final install directory is in place, a
    later run of the driver over the same files and sources reports the
    task as cached and builds nothing (the digest being free of
    surrounding white space, as a hexadecimal digest is). *)
Theorem forced_build_is_cached_in_the_next_run
    (task : BuildTask) (st st' next : DriverState) (result : BuildTaskState) :
  shouldBePersisted (spec task) = false →
  taskInProgress st !! taskId task = None →
  performBuildMemoized task true st = (result, st') →
  isSpecExistsInStore ((performBuild task (world st)).2) (spec task) = true →
  (∀ s, trim (sha1 s) = sha1 s) →
  world next = world st' →
  taskInProgress next !! taskId task = None →
  performBuildMemoized task false next
  = (cachedSuccessStatus,
     mkDriver (world next)
       (<[taskId task := cachedSuccessStatus]> (taskInProgress next))
       (events next ++ [TaskStatus (taskId task) cachedSuccessStatus])).
Proof.
  intros Hpers Hfresh Hrun Hinst Htrim Hworld Hnext.
  unfold Driver.performBuildMemoized in Hrun. rewrite Hfresh, Hpers in Hrun.
  destruct (performBuildWithStatusReport task true st) as [r st1] eqn:Hb.
  injection Hrun as <- <-.
  assert (Hw1 : world st1 = (performBuild task (world st)).2).
  { unfold Driver.performBuildWithStatusReport, onTaskStatus in Hb. simpl in Hb.
    destruct (performBuild task (world st)) as [[e|] w]; injection Hb as <- <-;
      reflexivity. }
  set (current := calculateSourceChecksum (world st1) (spec task)) in *.
  assert (Hcur : trim current = current) by apply Htrim.
  assert (Hw : world next = world (writeStoreChecksum task current st1))
    by exact Hworld.
  apply performBuildMemoized_hit; [assumption..| |]; rewrite Hw.
  - apply installed_after_write. now rewrite Hw1.
  - rewrite read_after_write, !Hcur. reflexivity.
Qed.

End driver_more.


Lemma persisted_task_skips_iff_installed_witness :
  ∃ new,
    Driver.events
      (Driver.performBuildMemoized exampleDigest exampleConfig examplePerformBuild
         exampleElapsed (exampleTask "app" true) false appInstalled).2
    = Driver.events appInstalled ++ new
    ∧ existsb writesChecksum new = false.
Proof.
  destruct (persisted_task_skips_iff_installed exampleDigest exampleConfig
              examplePerformBuild exampleElapsed (exampleTask "app" true) false
              appInstalled _ _ eq_refl eq_refl (surjective_pairing _))
    as (new & H1 & H2 & _).
  exists new. split; [exact H1 | exact H2].
Defined.

Lemma forced_build_is_cached_in_the_next_run_witness :
  (Driver.performBuildMemoized constantDigest exampleConfig examplePerformBuild
     exampleElapsed (exampleTask "dev" false) false
     (Driver.mkDriver
        (Driver.world
           (Driver.performBuildMemoized constantDigest exampleConfig
              examplePerformBuild exampleElapsed (exampleTask "dev" false) true
              sourcesChanged).2)
        ∅ [])).1
  = Driver.cachedSuccessStatus.
Proof.
  rewrite (forced_build_is_cached_in_the_next_run constantDigest exampleConfig
             examplePerformBuild exampleElapsed (exampleTask "dev" false)
             sourcesChanged _ _ _ eq_refl eq_refl (surjective_pairing _));
    [reflexivity | vm_compute; reflexivity | intros s; vm_compute; reflexivity
    | reflexivity | reflexivity].
Defined.

(** ** [util.js]: Maps *)

Section map_facts.
Import Collections.
Context {K V : Type} `{EqDecision K}.
Variable isNull : V → bool.

Local Abbreviation mergedValue := (mergedValue isNull).

Lemma get_set_eq (key : K) (v : V) (m : list (K * V)) : get key (set key v m) = Some v.
Proof.
  induction m as [|[k w] m IH]; simpl.
  - destruct (decide (key = key)); [reflexivity | contradiction].
  - destruct (decide (k = key)) as [->|Hne]; simpl.
    + destruct (decide (key = key)); [reflexivity | contradiction].
    + destruct (decide (k = key)); [contradiction | exact IH].
Qed.

Lemma get_set_ne (key key' : K) (v : V) (m : list (K * V)) :
  key ≠ key' → get key' (set key v m) = get key' m.
Proof.
  intros Hne. induction m as [|[k w] m IH]; simpl.
  - destruct (decide (key = key')); [contradiction | reflexivity].
  - destruct (decide (k = key)) as [->|Hk]; simpl.
    + destruct (decide (key = key')); [contradiction | reflexivity].
    + destruct (decide (k = key')); [reflexivity | exact IH].
Qed.

Lemma get_None (key : K) (m : list (K * V)) : get key m = None ↔ key ∉ map fst m.
Proof.
  induction m as [|[k w] m IH]; simpl.
  - split; [intros _ Hin; inversion Hin | reflexivity].
  - destruct (decide (k = key)) as [->|Hne].
    + split; [discriminate|]. intros Hout. exfalso. apply Hout. left.
    + rewrite IH. split.
      * intros Hout Hin. apply elem_of_cons in Hin as [->|Hin]; contradiction.
      * intros Hout Hin. apply Hout. now right.
Qed.

Lemma get_Some_elem (key : K) (v : V) (m : list (K * V)) :
  get key m = Some v → (key, v) ∈ m.
Proof.
  induction m as [|[k w] m IH]; simpl; [discriminate|].
  destruct (decide (k = key)) as [->|Hne].
  - intros [= ->]. left.
  - intros Hget. right. now apply IH.
Qed.

Lemma elem_get (key : K) (v : V) (m : list (K * V)) :
  NoDup (map fst m) → (key, v) ∈ m → get key m = Some v.
Proof.
  induction m as [|[k w] m IH]; simpl; intros Hnd Hin; [inversion Hin|].
  apply NoDup_cons in Hnd as [Hk Hnd].
  apply elem_of_cons in Hin as [[= -> ->]|Hin].
  - destruct (decide (k = k)); [reflexivity | contradiction].
  - destruct (decide (k = key)) as [->|Hne]; [|now apply IH].
    exfalso. apply Hk. change (map fst m) with (fst <$> m).
    apply list_elem_of_fmap. now exists (key, v).
Qed.

Lemma set_fresh (key : K) (v : V) (m : list (K * V)) :
  key ∉ map fst m → set key v m = m ++ [(key, v)].
Proof.
  induction m as [|[k w] m IH]; simpl; intros Hout; [reflexivity|].
  destruct (decide (k = key)) as [->|Hne].
  - exfalso. apply Hout. left.
  - f_equal. apply IH. intros Hin. apply Hout. now right.
Qed.

Lemma keys_set (key : K) (v : V) (m : list (K * V)) :
  map fst (set key v m)
  = if decide (key ∈ map fst m) then map fst m else map fst m ++ [key].
Proof.
  destruct (decide (key ∈ map fst m)) as [Hin|Hout].
  - induction m as [|[k w] m IH]; simpl in *; [inversion Hin|].
    destruct (decide (k = key)) as [->|Hne]; simpl; [reflexivity|].
    f_equal. apply IH. apply elem_of_cons in Hin as [->|Hin]; [contradiction | assumption].
  - rewrite set_fresh by assumption. now rewrite map_app.
Qed.

Lemma NoDup_keys_set (key : K) (v : V) (m : list (K * V)) :
  NoDup (map fst m) → NoDup (map fst (set key v m)).
Proof.
  intros Hnd. rewrite keys_set. destruct (decide (key ∈ map fst m)); [assumption|].
  apply NoDup_app. split; [assumption|]. split; [|apply NoDup_singleton].
  intros x Hx Hx'. apply list_elem_of_singleton in Hx'. now subst.
Qed.

(** X10: [setDefaultToMap] returns the value the map holds for the key
    when there is one that is not null, and leaves the map as it is,
    whatever the default would have been; otherwise it stores the default
    and returns it. Afterwards the map holds the returned value for the
    key, every other key is as before, and asking again returns the same
    value and changes nothing (for a value that is not null). *)
Theorem setDefaultToMap_get_or_insert
    (m : list (K * V)) (key : K) (makeDefaultValue : unit → V) :
  let r := setDefaultToMap isNull m key makeDefaultValue in
  (missing isNull key m = false → get key m = Some r.1 ∧ r.2 = m)
  ∧ (missing isNull key m = true → r.1 = makeDefaultValue ())
  ∧ get key r.2 = Some r.1
  ∧ (∀ key', key ≠ key' → get key' r.2 = get key' m)
  ∧ (isNull r.1 = false →
     ∀ otherDefault, setDefaultToMap isNull r.2 key otherDefault = r).
Proof.
  unfold setDefaultToMap, missing.
  destruct (get key m) as [existing|] eqn:Hget; [destruct (isNull existing) eqn:Hnull|];
    simpl.
  - split_and!; try discriminate; try reflexivity.
    + apply get_set_eq.
    + intros key' Hne. now apply get_set_ne.
    + intros Hnn other. rewrite get_set_eq, Hnn. reflexivity.
  - split_and!; try discriminate; auto.
    intros _ other. rewrite Hget, Hnull. reflexivity.
  - split_and!; try discriminate; try reflexivity.
    + apply get_set_eq.
    + intros key' Hne. now apply get_set_ne.
    + intros Hnn other. rewrite get_set_eq, Hnn. reflexivity.
Qed.

Lemma filterMap_acc (filter : V → K → bool) (m res : list (K * V)) :
  NoDup (map fst (res ++ m)) →
  fold_left (λ res kv, if filter kv.2 kv.1 then set kv.1 kv.2 res else res) m res
  = res ++ List.filter (λ kv, filter kv.2 kv.1) m.
Proof.
  revert res. induction m as [|[k v] m IH]; intros res Hnd; simpl.
  - now rewrite app_nil_r.
  - assert (Hk : k ∉ map fst res).
    { rewrite map_app in Hnd. apply NoDup_app in Hnd as (_ & Hdisj & _).
      intros Hin. apply (Hdisj k Hin). left. }
    destruct (filter v k).
    + rewrite set_fresh by assumption. rewrite IH.
      * now rewrite <- app_assoc.
      * now rewrite <- app_assoc.
    + apply IH. rewrite map_app in *. simpl in Hnd.
      apply NoDup_app in Hnd as (H1 & H2 & H3). apply NoDup_cons in H3 as [_ H3].
      apply NoDup_app. split_and!; try assumption.
      intros x Hx Hx'. apply (H2 x Hx). now right.
Qed.

(** X11: [filterMap] keeps exactly the entries of the map that pass the
    filter, in their order. *)
Theorem filterMap_keeps_passing_entries (m : list (K * V)) (filter : V → K → bool) :
  NoDup (map fst m) →
  filterMap m filter = List.filter (λ kv, filter kv.2 kv.1) m.
Proof. intros Hnd. unfold filterMap. now rewrite filterMap_acc. Qed.

Lemma mergeEntry_get merge (src : list (K * V)) (kv : K * V) key :
  get key (mergeEntry isNull merge src kv)
  = if decide (kv.1 = key) then Some (mergedValue merge src kv.1 kv.2)
    else get key src.
Proof.
  unfold mergeEntry, mergedValue.
  destruct (decide (kv.1 = key)) as [<-|Hne].
  - destruct (get kv.1 src) as [prev|], merge as [mergeFn|];
      try destruct (isNull prev); apply get_set_eq.
  - destruct (get kv.1 src) as [prev|], merge as [mergeFn|];
      try destruct (isNull prev); now apply get_set_ne.
Qed.

Lemma mergeEntry_keys merge (src : list (K * V)) (kv : K * V) :
  map fst (mergeEntry isNull merge src kv)
  = if decide (kv.1 ∈ map fst src) then map fst src else map fst src ++ [kv.1].
Proof.
  unfold mergeEntry.
  destruct (get kv.1 src) as [prev|], merge as [mergeFn|];
    try destruct (isNull prev); apply keys_set.
Qed.

Lemma mergeIntoMap_spec merge (from : list (K * V)) :
  NoDup (map fst from) →
  ∀ src,
    (∀ key, get key (mergeIntoMap isNull src from merge)
            = match get key from with
              | Some v => Some (mergedValue merge src key v)
              | None => get key src
              end)
    ∧ map fst (mergeIntoMap isNull src from merge)
      = map fst src ++ List.filter (λ k, bool_decide (k ∉ map fst src)) (map fst from).
Proof.
  unfold mergeIntoMap.
  induction from as [|[k v] from IH]; intros Hnd src.
  - split; [reflexivity | simpl; now rewrite app_nil_r].
  - change (map fst ((k, v) :: from)) with (k :: map fst from) in *.
    apply NoDup_cons in Hnd as [Hk Hnd].
    cbn [fold_left].
    destruct (IH Hnd (mergeEntry isNull merge src (k, v))) as [Hget Hkeys].
    split.
    + intros key. rewrite Hget, mergeEntry_get. cbn [get fst snd].
      destruct (decide (k = key)) as [<-|Hne].
      * apply get_None in Hk. now rewrite Hk.
      * destruct (get key from) as [w|] eqn:Hw; [|reflexivity].
        f_equal. unfold mergedValue. rewrite mergeEntry_get. cbn [fst snd].
        destruct (decide (k = key)); [contradiction | reflexivity].
    + rewrite Hkeys, mergeEntry_keys. cbn [fst snd List.filter].
      destruct (decide (k ∈ map fst src)) as [Hin|Hout].
      * rewrite bool_decide_eq_false_2 by (intros Hno; contradiction).
        reflexivity.
      * rewrite bool_decide_eq_true_2 by assumption.
        rewrite <- app_assoc. cbn [app]. f_equal. f_equal.
        apply filter_ext_in. intros x Hx.
        apply bool_decide_ext. rewrite elem_of_app, list_elem_of_singleton. split.
        -- intros Hno Hin. apply Hno. now left.
        -- intros Hno [Hin| ->]; [contradiction|].
           apply Hk. now apply list_elem_of_In.
Qed.

(** X12: after [mergeIntoMap(src, from)] the map holds, for a key of
    [from], the value of [from] (or what the [merge] function makes of the
    previous value and it, when there is a function and a previous value
    that is not null), and for any other key what it held before; the keys
    of [src] keep their places and the new keys follow in the order of
    [from]. *)
Theorem mergeIntoMap_overrides (src from : list (K * V))
    (merge : option (V → V → K → V)) :
  NoDup (map fst from) →
  (∀ key, get key (mergeIntoMap isNull src from merge)
          = match get key from with
            | Some v => Some (mergedValue merge src key v)
            | None => get key src
            end)
  ∧ (merge = None → ∀ key v, get key from = Some v →
       get key (mergeIntoMap isNull src from merge) = Some v)
  ∧ map fst (mergeIntoMap isNull src from merge)
    = map fst src ++ List.filter (λ k, bool_decide (k ∉ map fst src)) (map fst from).
Proof.
  intros Hnd. destruct (mergeIntoMap_spec merge from Hnd src) as [Hget Hkeys].
  split_and!; try assumption.
  intros -> key v Hv. rewrite Hget, Hv. unfold mergedValue.
  now destruct (get key src).
Qed.

End map_facts.

Lemma setDefaultToMap_get_or_insert_witness :
  Collections.get "PATH"
    (Collections.setDefaultToMap (λ _, false) scopeBefore "PATH" (λ _, 9%nat)).2
  = Some (Collections.setDefaultToMap (λ _, false) scopeBefore "PATH" (λ _, 9%nat)).1
  ∧ (Collections.setDefaultToMap (λ _, false) scopeBefore "PATH" (λ _, 9%nat)).2
    = scopeBefore.
Proof.
  destruct (setDefaultToMap_get_or_insert (λ _ : nat, false) scopeBefore "PATH"
              (λ _, 9%nat)) as (Hkept & _ & Hget & _).
  split; [exact Hget | apply Hkept; reflexivity].
Defined.

Lemma filterMap_keeps_passing_entries_witness :
  Collections.filterMap scopeBefore (λ v _, Nat.eqb v 2) = [("SHELL", 2%nat)].
Proof.
  rewrite (filterMap_keeps_passing_entries scopeBefore (λ v _, Nat.eqb v 2));
    [reflexivity | apply (bool_decide_unpack _); vm_compute; exact I].
Defined.

Lemma mergeIntoMap_overrides_witness :
  map fst (Collections.mergeIntoMap (λ _, false) scopeBefore scopeUpdate None)
  = ["PATH"; "SHELL"; "OCAMLPATH"]
  ∧ Collections.get "PATH"
      (Collections.mergeIntoMap (λ _, false) scopeBefore scopeUpdate None)
    = Some 4%nat.
Proof.
  destruct (mergeIntoMap_overrides (λ _ : nat, false) scopeBefore scopeUpdate None)
    as (_ & Hget & Hkeys); [apply (bool_decide_unpack _); vm_compute; exact I|].
  split; [rewrite Hkeys; reflexivity | apply Hget; reflexivity].
Defined.

(** ** The ejected environment: what [addEnvConfigForPackage] records *)

Section environment_facts.
Import Text Types Environment.

Variable realpathSync : string → string.
Variable pathIsInside : string → string → bool.
Variable relative : string → string → string.

Local Abbreviation errorsForVar := (errorsForVar realpathSync pathIsInside relative).
Local Abbreviation addEnvVar := (addEnvVar realpathSync pathIsInside relative).
Local Abbreviation addEnvConfigForPackage :=
  (addEnvConfigForPackage realpathSync pathIsInside relative).

Lemma errorsForVar_nil seen root packageName entry :
  errorsForVar seen root packageName entry = [] ↔ compatible seen entry.
Proof.
  unfold Environment.errorsForVar, compatible.
  destruct (seen !! entry.1) as [s|]; [|split; [intros _ s; discriminate | reflexivity]].
  split.
  - intros Hnil s' [= <-].
    destruct (exclusive (config s)); [discriminate|].
    destruct (exclusive entry.2); [discriminate|]. auto.
  - intros Hc. destruct (Hc s eq_refl) as [-> ->]. reflexivity.
Qed.

Lemma flat_map_nil {A B} (f : A → list B) (l : list A) :
  flat_map f l = [] ↔ ∀ x, x ∈ l → f x = [].
Proof.
  induction l as [|a l IH]; simpl.
  - split; [intros _ x Hx; inversion Hx | reflexivity].
  - split.
    + intros Hnil. apply app_eq_nil in Hnil as [Ha Hl].
      intros x Hx. apply elem_of_cons in Hx as [->|Hx]; [assumption|].
      now apply IH.
    + intros Hall. rewrite (Hall a) by left. apply IH.
      intros x Hx. apply Hall. now right.
Qed.


Lemma fold_addEnvVar_state seen root packageName path
    (l : list (string * EnvironmentVarExport)) :
  ∀ next,
    normalizedEnvVars (fold_left (addEnvVar seen root packageName path) l next)
    = normalizedEnvVars next ++ map normalizedVar l
    ∧ ∀ k,
        Environment.seenVars (fold_left (addEnvVar seen root packageName path) l next) !! k
        = match Collections.get k (rev l) with
          | Some config => Some (seenAs path config)
          | None => Environment.seenVars next !! k
          end.
Proof.
  induction l as [|[envVar config] l IH] using rev_ind; intros next.
  - simpl. split; [now rewrite app_nil_r | reflexivity].
  - rewrite fold_left_app. simpl. destruct (IH next) as [Hvars Hseen].
    split.
    + rewrite Hvars, map_app, <- app_assoc. reflexivity.
    + intros k. rewrite rev_app_distr. simpl.
      destruct (decide (envVar = k)) as [->|Hne].
      * now rewrite lookup_insert_eq.
      * rewrite lookup_insert_ne by assumption. apply Hseen.
Qed.

Lemma get_rev_NoDup (k : string) (l : list (string * EnvironmentVarExport)) :
  NoDup (map fst l) → Collections.get k (rev l) = Collections.get k l.
Proof.
  induction l as [|[k' c] l IH] using rev_ind; intros Hnd; [reflexivity|].
  rewrite rev_app_distr. simpl.
  rewrite map_app in Hnd. apply NoDup_app in Hnd as (Hl & Hdisj & _).
  rewrite (IH Hl).
  destruct (decide (k' = k)) as [->|Hne].
  - assert (Hout : k ∉ map fst l).
    { intros Hin. apply (Hdisj k Hin). left. }
    clear IH Hdisj Hl. induction l as [|[k2 c2] l IH]; simpl.
    + destruct (decide (k = k)); [reflexivity | contradiction].
    + destruct (decide (k2 = k)) as [->|Hne2].
      * exfalso. apply Hout. left.
      * apply IH. intros Hin. apply Hout. now right.
  - clear IH Hdisj Hl. induction l as [|[k2 c2] l IH]; simpl.
    + destruct (decide (k' = k)); [contradiction | reflexivity].
    + destruct (decide (k2 = k)); [reflexivity | exact IH].
Qed.

(** X14: [addEnvConfigForPackage] appends one normalised variable for
    every declaration of the package, in their order, to the ones it was
    given; and afterwards [seenVars] holds, for every variable the
    package declares, that declaration with the path of the package
    ([unknownPackage] for an empty path), and for every other variable
    what it held before. *)
Theorem addEnvConfigForPackage_records_declarations
    (st : EnvironmentConfigState) (root packageName packageJsonFilePath : string)
    (exportedEnv : list (string * EnvironmentVarExport)) :
  NoDup (map fst exportedEnv) →
  let st' := addEnvConfigForPackage st root packageName packageJsonFilePath exportedEnv in
  normalizedEnvVars st' = normalizedEnvVars st ++ map normalizedVar exportedEnv
  ∧ (∀ envVar config, (envVar, config) ∈ exportedEnv →
       seenVars st' !! envVar = Some (seenAs packageJsonFilePath config))
  ∧ (∀ envVar, envVar ∉ map fst exportedEnv →
       seenVars st' !! envVar = seenVars st !! envVar).
Proof.
  intros Hnd st'. unfold st', Environment.addEnvConfigForPackage.
  destruct (fold_addEnvVar_state (seenVars st) root packageName packageJsonFilePath
              exportedEnv (mkState ∅ [] [])) as [Hvars Hseen].
  cbn [normalizedEnvVars Environment.seenVars].
  split_and!.
  - now rewrite Hvars.
  - intros envVar config Hin.
    apply lookup_union_Some_l. rewrite Hseen, get_rev_NoDup by assumption.
    clear Hvars Hseen. induction exportedEnv as [|[k c] l IH]; [inversion Hin|].
    simpl in *. apply NoDup_cons in Hnd as [Hk Hnd].
    apply elem_of_cons in Hin as [[= -> ->]|Hin].
    + destruct (decide (k = k)); [reflexivity | contradiction].
    + destruct (decide (k = envVar)) as [->|Hne]; [|now apply IH].
      exfalso. apply Hk. change (map fst l) with (fst <$> l).
      apply list_elem_of_fmap. now exists (envVar, config).
  - intros envVar Hout.
    rewrite lookup_union_r; [reflexivity|].
    rewrite Hseen, get_rev_NoDup by assumption. simpl.
    clear Hvars Hseen Hnd. induction exportedEnv as [|[k c] l IH]; [reflexivity|].
    simpl in *. destruct (decide (k = envVar)) as [->|Hne].
    + exfalso. apply Hout. left.
    + apply IH. intros Hin. apply Hout. now right.
Qed.

End environment_facts.


Lemma addEnvConfigForPackage_records_declarations_witness :
  Environment.seenVars
    (Environment.addEnvConfigForPackage (λ p, p) (λ _ _, true) (λ _ p, p)
       stateWithConflict "/sandbox" "b" "" [("CONFLICT", sharedVar)]) !! "CONFLICT"
  = Some (Environment.mkSeenVar "unknownPackage" sharedVar).
Proof.
  apply (addEnvConfigForPackage_records_declarations (λ p, p) (λ _ _, true)
           (λ _ p, p) stateWithConflict "/sandbox" "b" "" [("CONFLICT", sharedVar)]).
  - apply (bool_decide_unpack _). vm_compute. exact I.
  - left.
Defined.

(** ** Validation of the variables a package exports *)

Section validation_facts.
Import Text Util Types Validation.

Lemma upper_char_not_lower (c : ascii) : isLower (upper_char c) = false.
Proof. destruct c as [[] [] [] [] [] [] [] []]; reflexivity. Qed.

Lemma toUpperCase_not_lower (s : chars) (y : ascii) :
  y ∈ toUpperCase s → isLower y = false.
Proof.
  unfold toUpperCase. change (map upper_char s) with (upper_char <$> s).
  intros Hy. apply list_elem_of_fmap in Hy as (z & -> & _).
  apply upper_char_not_lower.
Qed.

Lemma elem_replaceChar (c x : ascii) (by_ s : chars) :
  x ≠ c → x ∈ s → x ∈ replaceChar c by_ s.
Proof.
  intros Hne Hin. unfold replaceChar. apply list_elem_of_In, in_flat_map.
  exists x. split; [now apply list_elem_of_In|].
  destruct (Ascii.eqb_spec x c); [contradiction | now left].
Qed.

Lemma elem_replaceUnderscoreRuns (x : ascii) (s : chars) :
  x ∈ s → x ∈ replaceUnderscoreRuns s.
Proof.
  induction s as [|c rest IH]; intros Hin; [inversion Hin|].
  cbn [replaceUnderscoreRuns].
  apply elem_of_cons in Hin as [->|Hin].
  - destruct (Ascii.eqb c "_"); [destruct rest as [|c' rest']|]; try left.
    destruct (Ascii.eqb c' "_"); left.
  - specialize (IH Hin).
    destruct (Ascii.eqb c "_"); [destruct rest as [|c' rest']|].
    + inversion Hin.
    + destruct (Ascii.eqb c' "_"); [now right|].
      right. apply elem_of_app. now right.
    + now right.
Qed.

(** The normalised name of a package with a letter, a dot or a slash in
    its name holds a lower-case letter. *)
Lemma normalizeChars_has_lower (name : chars) :
  existsb leavesLetter name = true →
  ∃ y, y ∈ normalizeChars name ∧ isLower y = true.
Proof.
  intros Hex. apply existsb_exists in Hex as (c & Hc & Hletter).
  apply list_elem_of_In in Hc.
  set (x := lower_char c).
  assert (Hx : x ∈ toLowerCase name).
  { unfold toLowerCase. change (map lower_char name) with (lower_char <$> name).
    apply list_elem_of_fmap. now exists c. }
  assert (Hat : x ≠ "@"%char).
  { unfold x. intros E. unfold leavesLetter in Hletter. rewrite E in Hletter.
    destruct c as [[] [] [] [] [] [] [] []]; discriminate. }
  assert (Hu : x ∈ replaceUnderscoreRuns (replaceChar "@" [] (toLowerCase name))).
  { apply elem_replaceUnderscoreRuns. now apply elem_replaceChar. }
  apply list_elem_of_split in Hu as (a & b & Hab).
  unfold normalizeChars. rewrite Hab.
  change (a ++ x :: b) with (a ++ [x] ++ b). rewrite !laterPasses_app.
  assert (Hx' : ∃ y, y ∈ laterPasses [x] ∧ isLower y = true).
  { unfold x, leavesLetter in *.
    destruct c as [[] [] [] [] [] [] [] []]; try discriminate Hletter;
      (eexists; split; [vm_compute; repeat constructor | reflexivity]). }
  destruct Hx' as (y & Hy & Hlow). exists y. split; [|assumption].
  rewrite !elem_of_app. auto.
Qed.

(** X15: the test for a wrongly capitalised prefix compares the variable
    in upper case with the normalised package name, which is in lower
    case; so for a package with a letter, a dot or a slash in its name the
    test never holds: a variable that is not global and does not begin
    with the normalised name is always reported with the message that it
    does not begin with it (after the message about [scopes], if that
    field is there), whatever its capitalisation. *)
Theorem unprefixed_variable_is_reported_as_not_prefixed
    (buildName envVar : string) (hasScopes : bool) (config : EnvironmentVarExport) :
  existsb leavesLetter (of_string buildName) = true →
  isGlobal config = false →
  beginsWith (normalizePackageName buildName) envVar = false →
  validatePackageJsonExportedEnvVar buildName envVar hasScopes config
  = (if hasScopes then [scopesFieldMessage buildName envVar] else [])
    ++ [notPrefixedMessage buildName envVar (normalizePackageName buildName)].
Proof.
  intros Hname Hglobal Hbegins.
  unfold validatePackageJsonExportedEnvVar. rewrite Hglobal, Hbegins. simpl.
  destruct (BuildersUtil.startsWith (of_string (normalizePackageName buildName))
              (toUpperCase (of_string envVar))) eqn:Hs; [|reflexivity].
  exfalso. apply startsWith_inv in Hs as [rest Hrest].
  unfold normalizePackageName in Hrest. rewrite of_to_string in Hrest.
  destruct (normalizeChars_has_lower _ Hname) as (y & Hy & Hlow).
  assert (Hup : y ∈ toUpperCase (of_string envVar)).
  { rewrite Hrest. apply elem_of_app. now left. }
  apply toUpperCase_not_lower in Hup. congruence.
Qed.

End validation_facts.

Lemma unprefixed_variable_is_reported_as_not_prefixed_witness :
  Validation.validatePackageJsonExportedEnvVar "my-pkg" "MY_PKG__FLAGS" false sharedVar
  = [Validation.notPrefixedMessage "my-pkg" "MY_PKG__FLAGS" "my_pkg"].
Proof.
  apply (unprefixed_variable_is_reported_as_not_prefixed "my-pkg" "MY_PKG__FLAGS"
           false sharedVar); reflexivity.
Defined.

(** ** [renderWithScope] *)

Section scope_facts.
Import Text Scope.

Variable scope : gmap string string.

Local Abbreviation render := (renderChars scope).

Lemma takeName_spec (s : chars) :
  s = (takeName s).1 ++ (takeName s).2
  ∧ forallb isVarChar (takeName s).1 = true
  ∧ match (takeName s).2 with [] => True | c :: _ => isVarChar c = false end.
Proof.
  induction s as [|c rest IH]; [cbn; auto|]. cbn [takeName].
  destruct (isVarChar c) eqn:Hc; [|cbn [fst snd app forallb]; auto].
  destruct (takeName rest) as [name after]. cbn [fst snd app forallb] in *.
  destruct IH as (E & Hall & Hend). rewrite Hc. split_and!; [now f_equal | auto..].
Qed.

Lemma takeName_length (s : chars) : (length (takeName s).2 ≤ length s)%nat.
Proof.
  destruct (takeName_spec s) as (E & _ & _).
  rewrite E at 2. rewrite length_app. lia.
Qed.

Lemma takeName_app (name suffix : chars) :
  forallb isVarChar name = true →
  match suffix with [] => True | c :: _ => isVarChar c = false end →
  takeName (name ++ suffix) = (name, suffix).
Proof.
  intros Hname Hend. induction name as [|c name IH]; cbn [app forallb takeName] in *.
  - destruct suffix as [|x suffix]; [reflexivity|]. cbn [takeName]. now rewrite Hend.
  - apply andb_prop in Hname as [Hc Hname]. rewrite Hc, (IH Hname). reflexivity.
Qed.

(** A character that cannot be part of a name ends the name wherever it
    comes. *)
Lemma takeName_stop (p rest : chars) (x : ascii) :
  isVarChar x = false →
  takeName (p ++ x :: rest) = ((takeName p).1, (takeName p).2 ++ x :: rest).
Proof.
  intros Hx. induction p as [|c p IH]; cbn [app takeName].
  - now rewrite Hx.
  - destruct (isVarChar c); [|reflexivity].
    rewrite IH. destruct (takeName p). reflexivity.
Qed.

(** More fuel than characters changes nothing. *)
Lemma replaceVars_fuel (fuel : nat) :
  ∀ s, (length s ≤ fuel)%nat → replaceVars scope fuel s = render s.
Proof.
  induction fuel as [fuel IH] using lt_wf_ind. intros s Hlen. unfold renderChars.
  destruct s as [|c rest]; [destruct fuel; reflexivity|].
  destruct fuel as [|fuel]; [simpl in Hlen; lia|].
  cbn [replaceVars length]. simpl in Hlen.
  pose proof (takeName_length rest) as Hafter.
  destruct (Ascii.eqb c "$").
  - destruct (takeName rest) as [[|n name] after] eqn:Htake; simpl in Hafter.
    + f_equal. apply IH; lia.
    + f_equal.
      rewrite (IH fuel) by lia.
      symmetry. apply (IH (length rest)); lia.
  - f_equal. apply IH; lia.
Qed.

Lemma render_nil : render [] = [].
Proof. reflexivity. Qed.

Lemma render_cons (c : ascii) (rest : chars) :
  render (c :: rest)
  = if Ascii.eqb c "$" then
      match takeName rest with
      | ([], _) => c :: render rest
      | (name, after) => replacement scope name ++ render after
      end
    else c :: render rest.
Proof.
  unfold renderChars at 1. cbn [replaceVars length]. fold (renderChars scope rest).
  pose proof (takeName_length rest) as Hafter.
  destruct (Ascii.eqb c "$"); [|reflexivity].
  destruct (takeName rest) as [[|n name] after]; [reflexivity|].
  simpl in Hafter. f_equal. now apply replaceVars_fuel.
Qed.

Lemma dollar_not_varChar : isVarChar "$" = false.
Proof. reflexivity. Qed.

(** The scan can be cut in front of any [$]. *)
Lemma render_split (n : nat) :
  ∀ prefix rest, length prefix = n →
    render (prefix ++ "$"%char :: rest) = render prefix ++ render ("$"%char :: rest).
Proof.
  induction n as [n IH] using lt_wf_ind. intros prefix rest Hn.
  destruct prefix as [|c p]; [reflexivity|].
  change ((c :: p) ++ "$"%char :: rest) with (c :: (p ++ "$"%char :: rest)).
  rewrite (render_cons c (p ++ _)), (render_cons c p).
  simpl in Hn.
  destruct (Ascii.eqb c "$").
  - rewrite (takeName_stop p rest "$" dollar_not_varChar).
    pose proof (takeName_length p) as Hafter.
    destruct (takeName p) as [[|x name] after]; simpl in *.
    + f_equal. apply (IH (length p)); [lia | reflexivity].
    + rewrite <- app_assoc. f_equal.
      apply (IH (length after)); [lia | reflexivity].
  - cbn [app]. f_equal. apply (IH (length p)); [lia | reflexivity].
Qed.

Lemma render_variable (name suffix : chars) :
  name ≠ [] → forallb isVarChar name = true →
  match suffix with [] => True | c :: _ => isVarChar c = false end →
  render ("$"%char :: name ++ suffix) = replacement scope name ++ render suffix.
Proof.
  intros Hne Hname Hend. rewrite render_cons. simpl (Ascii.eqb "$" "$").
  rewrite (takeName_app name suffix Hname Hend).
  destruct name; [contradiction | reflexivity].
Qed.

Lemma renderWithScope_render (value : string) :
  renderWithScope value scope = to_string (render (of_string value)).
Proof. unfold renderWithScope, renderChars. now rewrite length_of_string. Qed.

(** X16: [renderWithScope] replaces [$name] by the value that the scope
    holds for [name], and leaves it as it is when the scope holds none;
    what comes before and after is rendered on its own, and the value put
    in is not rendered again. Here [name] is a whole name: a run of
    letters, digits and underscores that is not empty and that no such
    character follows. *)
Theorem renderWithScope_substitutes_variable (prefix name suffix : string) :
  isVarName name = true → endsName suffix = true →
  renderWithScope (prefix +:+ "$" +:+ name +:+ suffix) scope
  = renderWithScope prefix scope +:+ valueOrItself scope name
    +:+ renderWithScope suffix scope.
Proof.
  unfold isVarName, endsName. intros Hname Hend.
  apply andb_prop in Hname as [Hne Hall].
  rewrite !renderWithScope_render, !of_string_app.
  change (of_string "$") with ["$"%char].
  change (["$"%char] ++ of_string name ++ of_string suffix)
    with ("$"%char :: of_string name ++ of_string suffix).
  rewrite (render_split (length (of_string prefix))) by reflexivity.
  rewrite render_variable.
  - rewrite !to_string_app. f_equal. f_equal.
    unfold replacement, valueOrItself. rewrite to_of_string.
    destruct (scope !! name); [apply to_of_string|].
    change ("$"%char :: of_string name) with (of_string ("$" +:+ name)).
    apply to_of_string.
  - intros E. apply negb_true_iff, bool_decide_eq_false in Hne. apply Hne.
    now apply of_string_inj.
  - exact Hall.
  - destruct (of_string suffix); [exact I|]. now apply negb_true_iff.
Qed.

Lemma render_plain (s : chars) : "$"%char ∉ s → render s = s.
Proof.
  induction s as [|c rest IH]; intros Hno; [reflexivity|].
  rewrite render_cons.
  destruct (Ascii.eqb_spec c "$") as [->|Hc]; [exfalso; apply Hno; left|].
  f_equal. apply IH. intros Hin. apply Hno. now right.
Qed.

End scope_facts.

Section scope_identity.
Import Text Scope.

Lemma render_empty_scope (fuel : nat) :
  ∀ s, replaceVars ∅ fuel s = s.
Proof.
  induction fuel as [fuel IH] using lt_wf_ind. intros s.
  destruct fuel as [|fuel]; [reflexivity|].
  destruct s as [|c rest]; [reflexivity|]. cbn [replaceVars].
  destruct (Ascii.eqb_spec c "$") as [->|Hc].
  - destruct (takeName_spec rest) as (E & _ & _).
    destruct (takeName rest) as [[|x name] after]; simpl in E.
    + f_equal. apply IH. lia.
    + unfold replacement. rewrite lookup_empty, IH by lia.
      rewrite E. reflexivity.
  - f_equal. apply IH. lia.
Qed.

(** X17: [renderWithScope] changes nothing in a value without [$],
    whatever the scope, and nothing at all when the scope is empty: a
    variable that the scope does not hold stays in the text as
    [$name]. *)
Theorem renderWithScope_leaves_unknown_variables :
  (∀ value, renderWithScope value ∅ = value)
  ∧ (∀ value scope, "$"%char ∉ of_string value → renderWithScope value scope = value).
Proof.
  split.
  - intros value. unfold renderWithScope. rewrite render_empty_scope.
    apply to_of_string.
  - intros value scope Hno. rewrite renderWithScope_render, render_plain by assumption.
    apply to_of_string.
Qed.

End scope_identity.

Lemma renderWithScope_substitutes_variable_witness :
  Scope.renderWithScope ("PATH=" +:+ "$" +:+ "cur__bin" +:+ ":$PATH") exampleScope
  = "PATH=$cur__install/bin:$PATH".
Proof.
  rewrite (renderWithScope_substitutes_variable exampleScope "PATH=" "cur__bin" ":$PATH");
    reflexivity.
Defined.

Lemma renderWithScope_leaves_unknown_variables_witness :
  Scope.renderWithScope "make -j4" exampleScope = "make -j4".
Proof.
  apply (proj2 renderWithScope_leaves_unknown_variables).
  intros Hin. apply list_elem_of_In in Hin. vm_compute in Hin. intuition discriminate.
Defined.

(** ** Store paths: the path functions compose with [path.join] *)

Section path_facts.
Import Text Path.

Lemma normalizeNonEmpty_render (path : chars) :
  normalizeNonEmpty path
  = renderPath (isAbsolute path)
      (normalizeString (negb (isAbsolute path)) (splitSlash path))
      (hasTrailingSeparator path).
Proof. reflexivity. Qed.

Lemma split_no_separator c (s : chars) : Forall (λ seg, c ∉ seg) (split c s).
Proof.
  induction s as [|x s IH]; simpl.
  - constructor; [intros H; inversion H | constructor].
  - destruct (Ascii.eqb_spec x c) as [->|Hne].
    + constructor; [intros H; inversion H | exact IH].
    + destruct (split c s) as [|seg segs]; [repeat constructor|].
      * intros H. apply elem_of_cons in H as [H|H]; [now symmetry in H | inversion H].
      * inversion IH as [|? ? Hseg Hsegs]; subst. constructor; [|assumption].
        intros H. apply elem_of_cons in H as [H|H]; [now symmetry in H | contradiction].
Qed.

Lemma dotdot_flags :
  isEmpty (of_string "..") = false ∧ isDot (of_string "..") = false
  ∧ isDotDot (of_string "..") = true.
Proof. repeat split. Qed.

Lemma not_ordinary_dotdot : ¬ ordinary (of_string "..").
Proof. intros (_ & _ & H & _). now apply H. Qed.

Lemma last_replicate_dotdot k (ords : list chars) :
  Forall ordinary ords →
  ∀ l, last (replicate k (of_string "..") ++ ords) = Some l →
       isDotDot l = true → ords = [].
Proof.
  intros Hords l Hl Hdd.
  destruct ords as [|o ords _] using rev_ind; [reflexivity|].
  rewrite app_assoc, last_snoc in Hl. injection Hl as <-.
  apply Forall_app in Hords as [_ Ho]. inversion Ho as [|? ? Hord _]; subst.
  destruct (ordinary_flags o Hord) as (_ & _ & H). congruence.
Qed.

Lemma normalSegments_nil allow : normalSegments allow [].
Proof. exists 0%nat, []. split_and!; [reflexivity | constructor | reflexivity]. Qed.

Lemma classify (seg : chars) :
  "/"%char ∉ seg →
  isEmpty seg = true ∨ isDot seg = true ∨ isDotDot seg = true ∨ ordinary seg.
Proof.
  intros Hslash. unfold isEmpty, isDot, isDotDot.
  destruct (decide (seg = [])) as [->|H0]; [left; now apply bool_decide_eq_true|].
  destruct (decide (seg = of_string ".")) as [->|H1];
    [right; left; now apply bool_decide_eq_true|].
  destruct (decide (seg = of_string "..")) as [->|H2];
    [right; right; left; now apply bool_decide_eq_true|].
  right. right. right. repeat split; assumption.
Qed.

Lemma removelast_snoc {A} (l : list A) (x : A) : removelast (l ++ [x]) = l.
Proof. apply removelast_last. Qed.

(** A step of [normalizeString] keeps the segments normalised. *)
Lemma normalizeStep_normal allow (res : list chars) (seg : chars) :
  "/"%char ∉ seg → normalSegments allow res →
  normalSegments allow (normalizeStep allow res seg).
Proof.
  intros Hslash (k & ords & -> & Hords & Hk).
  destruct (classify seg Hslash) as [He|[Hd|[Hdd|Hord]]].
  - unfold normalizeStep. rewrite He. cbn [orb]. now exists k, ords.
  - unfold normalizeStep. rewrite Hd, orb_true_r. now exists k, ords.
  - unfold normalizeStep. assert (He : isEmpty seg = false ∧ isDot seg = false).
    { unfold isDotDot in Hdd. apply bool_decide_eq_true in Hdd. subst seg.
      split; reflexivity. }
    destruct He as [-> ->]. cbn [orb]. rewrite Hdd.
    assert (Eseg : seg = of_string "..").
    { unfold isDotDot in Hdd. now apply bool_decide_eq_true in Hdd. }
    destruct ords as [|o ords' _] using rev_ind.
    + rewrite app_nil_r. destruct k as [|k].
      * cbn [replicate last]. destruct allow.
        -- exists 1%nat, []. rewrite Eseg.
           split_and!; [reflexivity | constructor | discriminate].
        -- apply normalSegments_nil.
      * rewrite replicate_S_end, last_snoc.
        change (isDotDot (of_string "..")) with true. cbn iota.
        rewrite <- replicate_S_end.
        destruct allow.
        -- exists (S (S k)), []. split_and!; [|constructor|discriminate].
           rewrite app_nil_r, Eseg. now rewrite <- replicate_S_end.
        -- exists (S k), []. now rewrite app_nil_r.
    + rewrite app_assoc, last_snoc.
      apply Forall_app in Hords as [Hords' Ho].
      inversion Ho as [|? ? Hord _]; subst.
      destruct (ordinary_flags o Hord) as (_ & _ & ->).
      rewrite removelast_snoc. now exists k, ords'.
  - rewrite normalizeStep_ordinary by assumption.
    exists k, (ords ++ [seg]). rewrite app_assoc. split_and!; [reflexivity| |assumption].
    apply Forall_app. split; [assumption | now constructor].
Qed.

Lemma fold_normalizeStep_normal allow (segs : list chars) :
  Forall (λ seg, "/"%char ∉ seg) segs →
  ∀ res, normalSegments allow res →
         normalSegments allow (fold_left (normalizeStep allow) segs res).
Proof.
  induction 1 as [|seg segs Hseg _ IH]; intros res Hres; [assumption|].
  simpl. apply IH. now apply normalizeStep_normal.
Qed.

Lemma normalizeString_normal allow (path : chars) :
  normalSegments allow (normalizeString allow (splitSlash path)).
Proof.
  apply fold_normalizeStep_normal; [apply split_no_separator | apply normalSegments_nil].
Qed.

(** Normalised segments go through [normalizeString] unchanged. *)
Lemma fold_normalizeStep_stable allow (ords : list chars) :
  Forall ordinary ords →
  ∀ res, fold_left (normalizeStep allow) ords res = res ++ ords.
Proof.
  induction 1 as [|o ords Ho _ IH]; intros res; simpl; [now rewrite app_nil_r|].
  rewrite normalizeStep_ordinary by assumption. rewrite IH, <- app_assoc. reflexivity.
Qed.

Lemma fold_normalizeStep_dotdots (k : nat) :
  ∀ j, fold_left (normalizeStep true) (replicate k (of_string ".."))
         (replicate j (of_string ".."))
       = replicate (j + k) (of_string "..").
Proof.
  induction k as [|k IH]; intros j; cbn [replicate fold_left].
  - f_equal. lia.
  - assert (Hstep : normalizeStep true (replicate j (of_string "..")) (of_string "..")
                    = replicate (S j) (of_string "..")).
    { unfold normalizeStep.
      change (isEmpty (of_string "..") || isDot (of_string "..")) with false.
      change (isDotDot (of_string "..")) with true. cbn iota.
      destruct j as [|j].
      - reflexivity.
      - rewrite replicate_S_end, last_snoc.
        change (isDotDot (of_string "..")) with true. cbn iota.
        now rewrite <- !replicate_S_end. }
    rewrite Hstep, IH. f_equal. lia.
Qed.

Lemma normalizeString_stable allow (segs : list chars) :
  normalSegments allow segs →
  fold_left (normalizeStep allow) segs [] = segs.
Proof.
  intros (k & ords & -> & Hords & Hk).
  rewrite fold_left_app.
  destruct allow.
  - change (@nil chars) with (replicate 0 (of_string "..")) at 1.
    rewrite (fold_normalizeStep_dotdots k 0). cbn [Nat.add].
    now apply fold_normalizeStep_stable.
  - rewrite (Hk eq_refl). cbn [replicate fold_left app].
    now apply (fold_normalizeStep_stable false ords Hords []).
Qed.

Lemma fold_normalizeStep_skip allow (a b : list chars) (res : list chars) (seg : chars) :
  isEmpty seg || isDot seg = true →
  fold_left (normalizeStep allow) (a ++ seg :: b) res
  = fold_left (normalizeStep allow) (a ++ b) res.
Proof.
  intros Hskip. rewrite !fold_left_app. simpl. f_equal.
  unfold normalizeStep. now rewrite Hskip.
Qed.

Lemma normal_no_separator allow (segs : list chars) :
  normalSegments allow segs → Forall (λ seg, ("/"%char ∉ seg) ∧ seg ≠ []) segs.
Proof.
  intros (k & ords & -> & Hords & _). apply Forall_app. split.
  - apply Forall_replicate. split; [|discriminate].
    intros H. apply list_elem_of_In in H. simpl in H. intuition discriminate.
  - eapply Forall_impl; [exact Hords|]. intros o (H0 & _ & _ & Hs). now split.
Qed.

Lemma split_joinSlash_normal allow (segs : list chars) :
  normalSegments allow segs → segs ≠ [] →
  splitSlash (joinSlash segs) = segs.
Proof.
  intros Hn Hne. unfold splitSlash, joinSlash. rewrite split_join by assumption.
  apply normal_no_separator in Hn. clear Hne.
  induction Hn as [|seg segs [Hseg _] _ IH]; [reflexivity|].
  simpl. rewrite split_plain by assumption. now rewrite IH.
Qed.

Lemma joinSlash_nonempty allow (segs : list chars) :
  normalSegments allow segs → segs ≠ [] → joinSlash segs ≠ [].
Proof.
  intros Hn Hne E. pose proof (split_joinSlash_normal allow segs Hn Hne) as Hs.
  rewrite E in Hs. simpl in Hs. subst segs.
  apply normal_no_separator in Hn. inversion Hn as [|? ? [_ H] _]. now apply H.
Qed.

Lemma renderPath_nonempty (absolute trailing : bool) (segs : list chars) :
  isEmpty (joinSlash segs) = false →
  renderPath absolute segs trailing
  = (if absolute then ["/"%char] else []) ++ joinSlash segs
    ++ (if trailing then ["/"%char] else []).
Proof.
  intros He. unfold renderPath. cbv zeta. rewrite He. cbn [andb]. rewrite He.
  cbn [negb andb]. destruct absolute, trailing; cbn [app];
    rewrite ?app_nil_r; reflexivity.
Qed.

(** The segments of the text written for a normalised path. *)
Lemma split_renderPath (absolute trailing : bool) (segs : list chars) :
  normalSegments (negb absolute) segs →
  splitSlash (renderPath absolute segs trailing)
  = segmentsOfRendered absolute segs trailing.
Proof.
  intros Hn. unfold segmentsOfRendered.
  destruct segs as [|s0 segs'] eqn:Esegs.
  - destruct absolute, trailing; reflexivity.
  - rewrite <- Esegs in *.
    assert (Hne : segs ≠ []) by (rewrite Esegs; discriminate).
    pose proof (joinSlash_nonempty _ segs Hn Hne) as Hp.
    pose proof (split_joinSlash_normal _ segs Hn Hne) as Hs.
    assert (He : isEmpty (joinSlash segs) = false).
    { unfold isEmpty. now apply bool_decide_eq_false. }
    rewrite (renderPath_nonempty _ _ _ He).
    assert (Htrail : splitSlash (joinSlash segs ++ (if trailing then ["/"%char] else []))
                     = segs ++ (if trailing then [[]] else [])).
    { destruct trailing; [|now rewrite !app_nil_r].
      unfold splitSlash in *. rewrite split_app_sep, Hs. reflexivity. }
    destruct absolute.
    + change (["/"%char] ++ ?p) with ([] ++ "/"%char :: p).
      unfold splitSlash in *.
      rewrite (split_app_sep "/" []). rewrite Htrail. reflexivity.
    + exact Htrail.
Qed.

Lemma first_normal allow (s0 : chars) (segs : list chars) :
  normalSegments allow (s0 :: segs) → isEmpty s0 = false ∧ isDot s0 = false.
Proof.
  intros (k & ords & E & Hords & _).
  destruct k as [|k]; simpl in E.
  - subst ords. inversion Hords as [|? ? Ho _]; subst.
    destruct (ordinary_flags s0 Ho) as (H0 & H1 & _). now split.
  - injection E as -> _. now split.
Qed.

Lemma last_normal allow (segs : list chars) (s : chars) :
  normalSegments allow (segs ++ [s]) → isEmpty s = false.
Proof.
  intros Hn. apply normal_no_separator in Hn.
  apply Forall_app in Hn as [_ Hs]. inversion Hs as [|? ? [_ Hne] _]; subst.
  unfold isEmpty. now apply bool_decide_eq_false.
Qed.

(** The text of a normalised path reads as the path it was written
    for. *)
Lemma renderPath_reads_back (absolute trailing : bool) (segs : list chars) :
  normalSegments (negb absolute) segs →
  let p := renderPath absolute segs trailing in
  p ≠ []
  ∧ isAbsolute p = absolute
  ∧ (∀ rest, fold_left (normalizeStep (negb absolute)) (splitSlash p ++ rest) []
             = fold_left (normalizeStep (negb absolute)) rest segs)
  ∧ renderPath absolute segs (hasTrailingSeparator p) = p.
Proof.
  intros Hn p.
  assert (Hp : p ≠ []).
  { unfold p, renderPath. destruct absolute; [discriminate|]. simpl.
    destruct (isEmpty (joinSlash segs)) eqn:He; simpl.
    - destruct trailing; discriminate.
    - rewrite He. simpl. unfold isEmpty in He. apply bool_decide_eq_false in He.
      destruct trailing; [|assumption].
      intros E. apply app_eq_nil in E as [E _]. contradiction. }
  split; [exact Hp|].
  unfold isAbsolute, hasTrailingSeparator, p.
  rewrite (split_renderPath absolute trailing segs Hn).
  unfold segmentsOfRendered.
  destruct segs as [|s0 segs'] eqn:Esegs.
  - destruct absolute, trailing; repeat split; intros rest; reflexivity.
  - rewrite <- Esegs in *.
    assert (Hfirst : isEmpty (hd [] segs) = false).
    { rewrite Esegs in Hn |- *. now destruct (first_normal _ _ _ Hn). }
    assert (Hstable := normalizeString_stable _ segs Hn).
    split_and!.
    + destruct absolute; [reflexivity|]. simpl.
      rewrite Esegs in Hfirst |- *. exact Hfirst.
    + intros rest.
      assert (Hfold : ∀ pre post,
        Forall (λ seg, isEmpty seg || isDot seg = true) pre →
        Forall (λ seg, isEmpty seg || isDot seg = true) post →
        fold_left (normalizeStep (negb absolute)) ((pre ++ segs ++ post) ++ rest) []
        = fold_left (normalizeStep (negb absolute)) rest segs).
      { intros pre post Hpre Hpost.
        rewrite <- !app_assoc, !fold_left_app.
        assert (E1 : fold_left (normalizeStep (negb absolute)) pre [] = []).
        { clear -Hpre. induction Hpre as [|x pre Hx _ IH]; [reflexivity|].
          simpl. unfold normalizeStep at 2. now rewrite Hx. }
        rewrite E1, Hstable.
        assert (E2 : ∀ r, fold_left (normalizeStep (negb absolute)) post r = r).
        { clear -Hpost. induction Hpost as [|x post Hx _ IH]; intros r; [reflexivity|].
          simpl. unfold normalizeStep at 2. now rewrite Hx. }
        now rewrite E2. }
      destruct absolute, trailing; apply Hfold; repeat constructor.
    + assert (Hlast : isEmpty (List.last segs []) = false).
      { destruct segs as [|x l _] using rev_ind; [discriminate|].
        rewrite List.last_last. exact (last_normal _ l x Hn). }
      assert (Htr : isEmpty (List.last ((if absolute then [[]] else []) ++ segs
                                        ++ (if trailing then [[]] else [])) [])
                    = trailing).
      { destruct trailing.
        - rewrite app_assoc, List.last_last. reflexivity.
        - rewrite app_nil_r.
          destruct segs as [|x l _] using rev_ind; [discriminate|].
          rewrite app_assoc, List.last_last. now rewrite List.last_last in Hlast. }
      f_equal. exact Htr.
Qed.

Lemma isAbsolute_app (p rest : chars) :
  isAbsolute (p ++ "/"%char :: rest) = isAbsolute p.
Proof.
  unfold isAbsolute, splitSlash. rewrite split_app_sep.
  pose proof (split_nonempty "/" p). destruct (split "/" p); [contradiction|reflexivity].
Qed.

Lemma hasTrailingSeparator_app (p rest : chars) :
  hasTrailingSeparator (p ++ "/"%char :: rest) = hasTrailingSeparator rest.
Proof.
  unfold hasTrailingSeparator, splitSlash. rewrite split_app_sep.
  pose proof (split_nonempty "/" rest) as Hne.
  destruct (split "/" rest) as [|x l _] using rev_ind; [contradiction|].
  now rewrite app_assoc, !List.last_last.
Qed.

(** Normalising is idempotent, and a path may be normalised before
    something is joined to it. *)
Lemma normalizeNonEmpty_idempotent (path : chars) :
  normalizeNonEmpty (normalizeNonEmpty path) = normalizeNonEmpty path.
Proof.
  rewrite (normalizeNonEmpty_render path).
  set (a := isAbsolute path).
  set (segs := normalizeString (negb a) (splitSlash path)).
  set (t := hasTrailingSeparator path).
  assert (Hn : normalSegments (negb a) segs) by apply normalizeString_normal.
  destruct (renderPath_reads_back a t segs Hn) as (_ & Habs & Hfold & Hback).
  rewrite (normalizeNonEmpty_render (renderPath a segs t)), Habs.
  unfold normalizeString. specialize (Hfold []). rewrite app_nil_r in Hfold.
  rewrite Hfold. simpl. exact Hback.
Qed.

Lemma normalizeNonEmpty_before_join (path rest : chars) :
  normalizeNonEmpty (normalizeNonEmpty path ++ "/"%char :: rest)
  = normalizeNonEmpty (path ++ "/"%char :: rest).
Proof.
  rewrite !(normalizeNonEmpty_render (_ ++ "/"%char :: rest)).
  rewrite !isAbsolute_app, !hasTrailingSeparator_app.
  rewrite (normalizeNonEmpty_render path).
  set (a := isAbsolute path).
  set (segs := normalizeString (negb a) (splitSlash path)).
  set (t := hasTrailingSeparator path).
  assert (Hn : normalSegments (negb a) segs) by apply normalizeString_normal.
  destruct (renderPath_reads_back a t segs Hn) as (_ & Habs & Hfold & _).
  rewrite Habs. f_equal.
  unfold normalizeString, splitSlash. rewrite !split_app_sep.
  fold (splitSlash (renderPath a segs t)). rewrite Hfold.
  rewrite fold_left_app. reflexivity.
Qed.

Lemma normalize_nonempty (path : chars) : normalize path ≠ [].
Proof.
  destruct path as [|c path]; [discriminate|].
  unfold normalize. rewrite normalizeNonEmpty_render.
  apply renderPath_reads_back, normalizeString_normal.
Qed.

Lemma joinSlash_cons (p : chars) (rest : list chars) :
  rest ≠ [] → joinSlash (p :: rest) = p ++ "/"%char :: joinSlash rest.
Proof. destruct rest; [contradiction | reflexivity]. Qed.

Lemma joinSlash_app (a b : list chars) :
  a ≠ [] → b ≠ [] → joinSlash (a ++ b) = joinSlash a ++ "/"%char :: joinSlash b.
Proof.
  intros Ha Hb. induction a as [|p a IH]; [contradiction|].
  destruct a as [|q a].
  - simpl. now apply joinSlash_cons.
  - change ((p :: q :: a) ++ b) with (p :: ((q :: a) ++ b)).
    rewrite joinSlash_cons by discriminate.
    rewrite IH by discriminate.
    rewrite (joinSlash_cons p (q :: a)) by discriminate.
    now rewrite <- app_assoc.
Qed.

Lemma joinSlash_filter_nonempty (args : list chars) :
  List.filter (λ a, negb (isEmpty a)) args ≠ [] →
  joinSlash (List.filter (λ a, negb (isEmpty a)) args) ≠ [].
Proof.
  set (l := List.filter _ args). intros Hne E.
  assert (Hall : Forall (λ a, a ≠ []) l).
  { apply List.Forall_forall. intros x Hx. apply List.filter_In in Hx as [_ Hx].
    apply negb_true_iff in Hx. unfold isEmpty in Hx. now apply bool_decide_eq_false in Hx. }
  destruct l as [|p rest]; [contradiction|].
  inversion Hall as [|? ? Hp _]; subst.
  destruct rest; simpl in E; [contradiction|].
  apply app_eq_nil in E as [E _]. contradiction.
Qed.

(** [path.join] with a joined path in front is [path.join] of all the
    arguments, as long as the path in front was joined from something. *)
Lemma joinChars_joined_first (args more : list chars) :
  List.filter (λ a, negb (isEmpty a)) args ≠ [] →
  joinChars (joinChars args :: more) = joinChars (args ++ more).
Proof.
  intros Hargs. unfold joinChars at 1 3.
  rewrite List.filter_app.
  set (l := List.filter (λ a, negb (isEmpty a)) args) in *.
  set (m := List.filter (λ a, negb (isEmpty a)) more).
  pose proof (joinSlash_filter_nonempty args Hargs) as Hjoin. fold l in Hjoin.
  assert (Hj : joinChars args = normalizeNonEmpty (joinSlash l)).
  { unfold joinChars. fold l. destruct l; [contradiction|].
    unfold normalize. destruct (joinSlash (c :: l)); [contradiction | reflexivity]. }
  assert (Hjne : joinChars args ≠ []).
  { rewrite Hj, normalizeNonEmpty_render.
    apply renderPath_reads_back, normalizeString_normal. }
  cbn [List.filter]. unfold isEmpty at 1.
  rewrite bool_decide_eq_false_2 by assumption. cbn [negb]. fold m.
  assert (Hnorm : ∀ x, x ≠ [] → normalize x = normalizeNonEmpty x).
  { intros x Hx. destruct x; [contradiction | reflexivity]. }
  destruct (l ++ m) as [|x0 lm] eqn:Elm; [destruct l; [contradiction | discriminate]|].
  rewrite <- Elm.
  destruct m as [|m0 m'].
  - rewrite app_nil_r. simpl. rewrite !Hnorm by assumption.
    rewrite Hj. apply normalizeNonEmpty_idempotent.
  - rewrite joinSlash_cons by discriminate.
    rewrite joinSlash_app by (assumption || discriminate).
    rewrite !Hnorm.
    + rewrite Hj. apply normalizeNonEmpty_before_join.
    + intros E. apply app_eq_nil in E as [E _]. contradiction.
    + intros E. apply app_eq_nil in E as [E _]. contradiction.
Qed.

Lemma join_joined_first (args more : list string) :
  (∃ a, a ∈ args ∧ a ≠ "") →
  Path.join (Path.join args :: more) = Path.join (args ++ more).
Proof.
  intros (a & Ha & Hne). unfold Path.join.
  cbn [map]. rewrite of_to_string, map_app.
  rewrite joinChars_joined_first; [reflexivity|].
  intros E.
  assert (Hin : In (of_string a) (List.filter (λ a, negb (isEmpty a)) (map of_string args))).
  { apply List.filter_In. split.
    - apply in_map. now apply list_elem_of_In.
    - apply negb_true_iff. unfold isEmpty. apply bool_decide_eq_false.
      intros E'. apply Hne. apply of_string_inj. exact E'. }
  rewrite E in Hin. destruct Hin.
Qed.

(** Joining one ordinary segment to a joined path that is not [.] and
    has no trailing separator appends the separator and the segment. *)
Lemma joinChars_child (args : list chars) (s : chars) :
  ordinary s →
  joinChars args ≠ of_string "." →
  (∀ p, joinChars args ≠ p ++ of_string "/") →
  joinChars (args ++ [s]) = joinChars args ++ "/"%char :: s.
Proof.
  intros Hs Hdot Hslash.
  assert (Hargs : List.filter (λ a, negb (isEmpty a)) args ≠ []).
  { intros E. apply Hdot. unfold joinChars. now rewrite E. }
  rewrite <- (joinChars_joined_first args [s] Hargs).
  revert Hdot Hslash.
  assert (Hj : ∃ path, joinChars args = normalizeNonEmpty path).
  { unfold joinChars.
    pose proof (joinSlash_filter_nonempty args Hargs) as Hne.
    destruct (List.filter _ args); [contradiction|].
    exists (joinSlash (c :: l)). unfold normalize.
    destruct (joinSlash (c :: l)); [contradiction | reflexivity]. }
  destruct Hj as (path & ->). rewrite (normalizeNonEmpty_render path).
  set (a := isAbsolute path).
  set (segs := normalizeString (negb a) (splitSlash path)).
  set (t := hasTrailingSeparator path).
  assert (Hn : normalSegments (negb a) segs) by apply normalizeString_normal.
  destruct (renderPath_reads_back a t segs Hn) as (Hne & Habs & Hfold & _).
  intros Hdot Hslash.
  assert (Hshape : segs ≠ [] ∧ t = false).
  { destruct segs as [|s0 segs'] eqn:Esegs.
    - exfalso. destruct a, t.
      + apply (Hslash []). reflexivity.
      + apply (Hslash []). reflexivity.
      + apply (Hslash (of_string ".")). reflexivity.
      + apply Hdot. reflexivity.
    - split; [discriminate|]. destruct t; [|reflexivity]. exfalso.
      rewrite <- Esegs in *.
      assert (He : isEmpty (joinSlash segs) = false).
      { unfold isEmpty. apply bool_decide_eq_false.
        apply (joinSlash_nonempty _ _ Hn). rewrite Esegs. discriminate. }
      apply (Hslash ((if a then ["/"%char] else []) ++ joinSlash segs)).
      rewrite (renderPath_nonempty _ _ _ He). now rewrite <- app_assoc. }
  destruct Hshape as [Hsegs Ht]. rewrite Ht in *.
  assert (He : isEmpty (joinSlash segs) = false).
  { unfold isEmpty. apply bool_decide_eq_false. now apply (joinSlash_nonempty _ _ Hn). }
  unfold joinChars. cbn [List.filter].
  assert (Hf1 : negb (isEmpty (renderPath a segs false)) = true).
  { apply negb_true_iff. unfold isEmpty. now apply bool_decide_eq_false. }
  assert (Hf2 : negb (isEmpty s) = true).
  { apply negb_true_iff. now destruct (ordinary_flags s Hs) as (-> & _). }
  rewrite Hf1, Hf2.
  rewrite joinSlash_cons by discriminate. cbn [joinSlash Text.join].
  assert (Hnorm : ∀ x y, normalize (x ++ "/"%char :: y) = normalizeNonEmpty (x ++ "/"%char :: y)).
  { intros x y. destruct x; reflexivity. }
  rewrite Hnorm, normalizeNonEmpty_render.
  rewrite isAbsolute_app, hasTrailingSeparator_app, Habs.
  unfold normalizeString at 1, splitSlash at 1. rewrite split_app_sep.
  fold (splitSlash (renderPath a segs false)). rewrite Hfold.
  destruct Hs as (Hs0 & Hs1 & Hs2 & Hs3).
  rewrite (split_plain "/" s Hs3). cbn [fold_left].
  rewrite normalizeStep_ordinary by (repeat split; assumption).
  assert (Htrail : hasTrailingSeparator s = false).
  { unfold hasTrailingSeparator, splitSlash. rewrite (split_plain "/" s Hs3).
    cbn [List.last]. unfold isEmpty. now apply bool_decide_eq_false. }
  rewrite Htrail.
  assert (Hn' : normalSegments (negb a) (segs ++ [s])).
  { destruct Hn as (k & ords & E & Hords & Hk). exists k, (ords ++ [s]).
    rewrite E, app_assoc. split_and!; [reflexivity| |assumption].
    apply Forall_app. split; [assumption|]. constructor; [|constructor].
    repeat split; assumption. }
  assert (He' : isEmpty (joinSlash (segs ++ [s])) = false).
  { unfold isEmpty. apply bool_decide_eq_false.
    apply (joinSlash_nonempty _ _ Hn'). destruct segs; discriminate. }
  rewrite (renderPath_nonempty _ _ _ He'), (renderPath_nonempty _ _ _ He).
  rewrite joinSlash_app by (assumption || discriminate).
  cbn [joinSlash Text.join]. rewrite !app_nil_r, <- !app_assoc. reflexivity.
Qed.

Lemma join_child (args : list string) (s : string) :
  ordinary (of_string s) →
  Path.join args ≠ "." →
  (∀ p, Path.join args ≠ p +:+ "/") →
  Path.join (args ++ [s]) = Path.join args +:+ "/" +:+ s.
Proof.
  intros Hs Hdot Hslash. unfold Path.join in *.
  rewrite map_app. cbn [map].
  rewrite joinChars_child.
  - rewrite to_string_app. f_equal.
    change ("/"%char :: of_string s) with (of_string ("/" +:+ s)).
    apply to_of_string.
  - exact Hs.
  - intros E. apply Hdot. rewrite E. reflexivity.
  - intros p E. apply (Hslash (to_string p)). rewrite E.
    rewrite to_string_app. reflexivity.
Qed.

End path_facts.

Section config_paths.
Import Text Path Types Config.

(** X18: the path functions of the configuration compose with
    [path.join]: the path for segments given in two parts is [path.join]
    of the path for the first part and the second part. So
    [getBuildPath(build, '_esy', 'env')] is
    [path.join(getBuildPath(build), '_esy', 'env')], and in the same way
    for the install paths and every tree of a store. *)
Theorem store_paths_compose_with_join (c : BuildConfig) (build : BuildSpec)
    (first more : list string) :
  getBuildPath c build (first ++ more) = Path.join (getBuildPath c build first :: more)
  ∧ getInstallPath c build (first ++ more)
    = Path.join (getInstallPath c build first :: more)
  ∧ getFinalInstallPath c build (first ++ more)
    = Path.join (getFinalInstallPath c build first :: more).
Proof.
  assert (G : ∀ tree, tree ≠ "" →
    genPath c build tree (first ++ more)
    = Path.join (genPath c build tree first :: more)).
  { intros tree Htree. rewrite !genPath_storeRoot.
    rewrite join_joined_first.
    - now rewrite <- !app_comm_cons.
    - exists tree. split; [right; left | assumption]. }
  unfold getBuildPath, getInstallPath, getFinalInstallPath.
  split_and!; apply G; discriminate.
Qed.

End config_paths.

(** ** The checksum of the sources: what is ignored *)

Section ignore_facts.
Import Text FsLib.

Variable ignore : string → bool.

Lemma sameOutsideIgnored_ind' (P : string → Tree → Tree → Prop) :
  (∀ name t, P name t t) →
  (∀ name entries entries', ignore name = true → P name (Dir entries) (Dir entries')) →
  (∀ name entries entries',
     Forall2 (λ e e', e.1 = e'.1 ∧ P (name +:+ "/" +:+ e.1) e.2 e'.2) entries entries' →
     P name (Dir entries) (Dir entries')) →
  ∀ name t t', sameOutsideIgnored ignore name t t' → P name t t'.
Proof.
  intros Hsame Hign Hdir. fix IH 4. intros name t t' H.
  destruct H as [name t|name entries entries' Hi|name entries entries' Hall].
  - apply Hsame.
  - now apply Hign.
  - apply Hdir. induction Hall as [|e e' l l' [He Hsub] _ IHall]; constructor.
    + split; [exact He | apply IH, Hsub].
    + exact IHall.
Qed.

Lemma statOf_Dir entries entries' : statOf (Dir entries) = statOf (Dir entries').
Proof. reflexivity. Qed.

Lemma walkTree_sameOutsideIgnored name (t t' : Tree) :
  sameOutsideIgnored ignore name t t' →
  walkTree ignore name t = walkTree ignore name t'.
Proof.
  revert name t t'. apply sameOutsideIgnored_ind'.
  - reflexivity.
  - intros name entries entries' Hi. cbn [walkTree]. now rewrite Hi.
  - intros name entries entries' Hall.
    cbn [walkTree]. f_equal. destruct (ignore name); [reflexivity|].
    induction Hall as [|[n sub] [n' sub'] l l' [He Hsub] _ IH]; [reflexivity|].
    simpl in *. subst n'. now rewrite Hsub, IH.
Qed.

Lemma walkDir_sameOutsideIgnored dirname (entries entries' : list (string * Tree)) :
  entriesSameOutsideIgnored ignore dirname entries entries' →
  walkDir ignore dirname entries = walkDir ignore dirname entries'.
Proof.
  unfold entriesSameOutsideIgnored, walkDir.
  induction 1 as [|[n sub] [n' sub'] l l' [He Hsub] _ IH]; [reflexivity|].
  simpl in *. subst n'.
  now rewrite (walkTree_sameOutsideIgnored _ _ _ Hsub), IH.
Qed.

(** X19: the checksum does not see what is below a directory that
    [ignore] names, at any depth: two directories that are the same
    outside such directories have the same checksum. The test is on
    directories only: the modification time of a regular file is hashed
    even when [ignore] names the file itself. *)
Theorem mtime_checksum_skips_ignored_directories (sha1 : string → string) :
  (∀ dirname entries entries',
     entriesSameOutsideIgnored ignore dirname entries entries' →
     calculateMtimeChecksum sha1 dirname ignore entries
     = calculateMtimeChecksum sha1 dirname ignore entries')
  ∧ (∀ dirname name mtime content,
       mtimeSequence (walkDir ignore dirname [(name, File mtime content)])
       = [pretty mtime]).
Proof.
  split.
  - intros dirname entries entries' Hsame. unfold calculateMtimeChecksum.
    now rewrite (walkDir_sameOutsideIgnored _ _ _ Hsame).
  - intros dirname name mtime content.
    unfold walkDir, mtimeSequence. cbn [flat_map walkTree statOf app fold_left].
    unfold onPath. cbn [isFile mtime_getTime fst snd mapSet map].
    assert (Hsort : ∀ x : string, merge_sort String.le [x] = [x]) by reflexivity.
    rewrite Hsort. cbn [map mapGet].
    destruct (decide (dirname +:+ "/" +:+ name = dirname +:+ "/" +:+ name));
      [reflexivity | contradiction].
Qed.

End ignore_facts.

Lemma mtime_checksum_skips_ignored_directories_witness :
  FsLib.calculateMtimeChecksum exampleDigest "/sandbox"
    (λ name, bool_decide (name = "/sandbox/node_modules")) sourcesBefore
  = FsLib.calculateMtimeChecksum exampleDigest "/sandbox"
      (λ name, bool_decide (name = "/sandbox/node_modules")) sourcesReinstalled.
Proof.
  apply (proj1 (mtime_checksum_skips_ignored_directories
                  (λ name, bool_decide (name = "/sandbox/node_modules"))
                  exampleDigest)).
  repeat apply Forall2_cons_2; try apply Forall2_nil_2;
    (split; [reflexivity|]).
  - apply sameOutsideIgnored_same.
  - apply sameOutsideIgnored_same.
  - apply sameOutsideIgnored_ignored. reflexivity.
Defined.

Section source_checksum.
Import Text Types FsLib Driver.

Variable sha1 : string → string.
Variable config : Config.BuildConfig.

Lemma not_endsWithSeparator (path : string) :
  endsWithSeparator path = false → ∀ p, path ≠ p +:+ "/".
Proof.
  unfold endsWithSeparator. intros H p E. rewrite E, of_string_app in H.
  change (of_string "/") with ["/"%char] in H. now rewrite last_snoc in H.
Qed.

Lemma ordinary_ignored (s : string) :
  s ∈ IGNORE_FOR_CHECKSUM → Path.ordinary (of_string s).
Proof.
  intros Hs. unfold IGNORE_FOR_CHECKSUM in Hs.
  repeat (apply elem_of_cons in Hs as [->|Hs]);
    [| | | |inversion Hs];
    (repeat split; [discriminate..|]);
    intros H; apply list_elem_of_In in H; simpl in H; intuition discriminate.
Qed.

(** The paths that [calculateSourceChecksum] ignores are the entries of
    the source directory with the four names. *)
Lemma ignoreForChecksum_child (spec : BuildSpec) (s : string) :
  Config.getSourcePath config spec [] ≠ "." →
  endsWithSeparator (Config.getSourcePath config spec []) = false →
  s ∈ IGNORE_FOR_CHECKSUM →
  ignoreForChecksum config spec (Config.getSourcePath config spec [] +:+ "/" +:+ s)
  = true.
Proof.
  intros Hdot Hsep Hs. unfold ignoreForChecksum. apply bool_decide_eq_true.
  change (map (λ s0, Config.getSourcePath config spec [s0]) IGNORE_FOR_CHECKSUM)
    with ((λ s0, Config.getSourcePath config spec [s0]) <$> IGNORE_FOR_CHECKSUM).
  apply list_elem_of_fmap. exists s. split; [|assumption].
  unfold Config.getSourcePath in *.
  change (Config.sandboxPath config :: sourcePath spec :: [s])
    with ([Config.sandboxPath config; sourcePath spec] ++ [s]).
  symmetry. apply join_child; [now apply ordinary_ignored | assumption|].
  now apply not_endsWithSeparator.
Qed.

(** X20: what an install or a build leaves below [node_modules],
    [_build], [_install] and [_esy] in the source directory of a build
    does not change the checksum of its sources, and so does not make the
    driver build it again. This holds when the source directory is written
    without a trailing separator and is not [.], so that the paths
    [walkdir] reports are the ones [getSourcePath] gives. *)
Theorem source_checksum_ignores_build_directories (spec : BuildSpec) (w w' : World) :
  let dir := Config.getSourcePath config spec [] in
  dir ≠ "." → endsWithSeparator dir = false →
  Forall2 sameButIgnored (sourceTree w dir) (sourceTree w' dir) →
  calculateSourceChecksum sha1 config w spec
  = calculateSourceChecksum sha1 config w' spec.
Proof.
  intros dir Hdot Hsep Hsame. unfold calculateSourceChecksum, calculateMtimeChecksum.
  fold dir. f_equal. apply walkDir_sameOutsideIgnored.
  unfold entriesSameOutsideIgnored.
  eapply Forall2_impl; [exact Hsame|].
  intros e e' [He [Hsub|(Hname & entries & entries' & E & E')]].
  - split; [assumption|]. rewrite Hsub. apply sameOutsideIgnored_same.
  - split; [assumption|]. rewrite E, E'. apply sameOutsideIgnored_ignored.
    now apply ignoreForChecksum_child.
Qed.

End source_checksum.

Lemma source_checksum_ignores_build_directories_witness :
  Driver.calculateSourceChecksum exampleDigest exampleConfig
    (Driver.mkWorld ∅ (λ _, sourcesBefore)) (exampleSpec "dev" false)
  = Driver.calculateSourceChecksum exampleDigest exampleConfig
      (Driver.mkWorld ∅ (λ _, sourcesReinstalled)) (exampleSpec "dev" false).
Proof.
  apply (source_checksum_ignores_build_directories exampleDigest exampleConfig
           (exampleSpec "dev" false));
    [vm_compute; discriminate | reflexivity |].
  cbn [Driver.sourceTree].
  repeat apply Forall2_cons_2; try apply Forall2_nil_2;
    (split; [reflexivity|]); [now left | now left |].
  right. split; [left|]. eexists _, _. split; reflexivity.
Defined.

(** ** The breadth-first traversal *)

Section breadth_facts.
Import Graph Breadth.

Lemma queueWeight_app (a b : list Node) :
  queueWeight (a ++ b) = (queueWeight a + queueWeight b)%nat.
Proof. induction a as [|x a IH]; simpl; [reflexivity | rewrite IH; lia]. Qed.

Lemma nodeSize_weight (n : Node) : nodeSize n = S (queueWeight (dependencies n)).
Proof. destruct n. reflexivity. Qed.

(** With as much fuel as there are nodes in the trees of the queue, the
    loop ends. *)
Lemma loop_ends {A} (f : Node → A → A) (fuel : nat) :
  ∀ queue seen a, (queueWeight queue ≤ fuel)%nat →
                  ∃ r, loop f fuel queue seen a = Some r.
Proof.
  induction fuel as [|fuel IH]; intros queue seen a Hfuel.
  - destruct queue as [|cur rest]; [now exists a|].
    simpl in Hfuel. rewrite nodeSize_weight in Hfuel. lia.
  - destruct queue as [|cur rest]; [now exists a|].
    simpl in *. rewrite nodeSize_weight in Hfuel.
    destruct (decide (id cur ∈ seen)); apply IH; [lia|].
    rewrite queueWeight_app. lia.
Qed.

(** The callback is applied to the visited nodes in their order. *)
Lemma loop_fold {A} (f : Node → A → A) (fuel : nat) :
  ∀ queue seen a acc visited,
    loop recordVisit fuel queue seen acc = Some visited →
    ∃ new, visited = acc ++ new
           ∧ loop f fuel queue seen a = Some (fold_left (λ a n, f n a) new a).
Proof.
  induction fuel as [|fuel IH]; intros queue seen a acc visited.
  - destruct queue; [|discriminate]. simpl. intros [= <-].
    exists []. now rewrite app_nil_r.
  - destruct queue as [|cur rest]; simpl.
    + intros [= <-]. exists []. now rewrite app_nil_r.
    + destruct (decide (id cur ∈ seen)); [apply IH|].
      intros H. destruct (IH _ _ (f cur a) _ _ H) as (new & -> & Hf).
      exists (cur :: new). unfold recordVisit. rewrite <- app_assoc. auto.
Qed.

Lemma breadth_step (root cur : Node) (rest : list Node) seen acc :
  breadthInv root (cur :: rest) seen acc →
  if decide (id cur ∈ seen) then breadthInv root rest seen acc
  else breadthInv root (rest ++ dependencies cur) ({[id cur]} ∪ seen)
         (recordVisit cur acc).
Proof.
  intros (Hseen & Hnd & Hfirst & Hreach & Hclosed).
  destruct (decide (id cur ∈ seen)) as [Hin|Hnew].
  - unfold breadthInv. split_and!; try assumption.
    + right. destruct Hfirst as [[-> _]|Hfirst]; [|assumption].
      rewrite Hseen in Hin. unfold idsOf in Hin. simpl in Hin. set_solver.
    + rewrite Forall_app in Hreach |- *. destruct Hreach as [Ha Hq].
      split; [assumption|]. now inversion Hq.
    + intros n d Hn Hd. destruct (Hclosed n d Hn Hd) as [?|Hq]; [now left|].
      apply elem_of_cons in Hq as [->|Hq]; [now left | now right].
  - unfold breadthInv, recordVisit. split_and!.
    + rewrite idsOf_app, idsOf_singleton, Hseen. set_solver.
    + rewrite map_app. apply NoDup_app. split; [assumption|].
      split; [|apply NoDup_singleton].
      intros x Hx Hx'. apply list_elem_of_singleton in Hx'. subst x.
      apply Hnew. rewrite Hseen. unfold idsOf. now apply elem_of_list_to_set.
    + right. destruct Hfirst as [[-> E]|Hfirst].
      * injection E as -> _. reflexivity.
      * destruct acc; [discriminate | exact Hfirst].
    + rewrite Forall_app in Hreach. destruct Hreach as [Ha Hq].
      inversion Hq as [|? ? Hcur Hrest]; subst.
      rewrite !Forall_app. split_and!; try assumption; [now constructor|].
      apply List.Forall_forall. intros d Hd.
      destruct Hcur as [->|Hcur]; [right; now apply dependsOn_direct|].
      right. now apply dependsOn_step with cur.
    + intros n d Hn Hd. apply elem_of_app in Hn as [Hn|Hn].
      * destruct (Hclosed n d Hn Hd) as [?|Hq]; [left; set_solver|].
        apply elem_of_cons in Hq as [->|Hq]; [left; set_solver|].
        right. apply elem_of_app. now left.
      * apply list_elem_of_singleton in Hn. subst n.
        right. apply elem_of_app. right. now apply list_elem_of_In.
Qed.

Lemma loop_inv (root : Node) (fuel : nat) :
  ∀ queue seen acc visited,
    breadthInv root queue seen acc →
    loop recordVisit fuel queue seen acc = Some visited →
    breadthInv root [] (idsOf visited) visited.
Proof.
  induction fuel as [|fuel IH]; intros queue seen acc visited Hinv.
  - destruct queue; [|discriminate]. simpl. intros [= <-].
    destruct Hinv as (-> & ?). now split.
  - destruct queue as [|cur rest]; simpl.
    + intros [= <-]. destruct Hinv as (-> & ?). now split.
    + pose proof (breadth_step root cur rest seen acc Hinv) as Hstep.
      destruct (decide (id cur ∈ seen)); now apply IH.
Qed.

(** The nodes that the depth-first collection returns. *)
Lemma collect_members (root : Node) :
  uniqueIds root →
  NoDup (collectTransitiveDependencies root)
  ∧ ∀ m, m ∈ collectTransitiveDependencies root ↔ dependsOn root m.
Proof.
  intros Hunique.
  destruct (traverseDeepFirst_spec root Hunique) as (Hbelow & Hnodup & Hfirst & Hdirect).
  unfold collectTransitiveDependencies.
  set (post := traverseDeepFirst (pushUnlessRoot root) root []) in *.
  split.
  - apply NoDup_ListNoDup, List.NoDup_rev, NoDup_ListNoDup.
    change (map id post) with (id <$> post) in Hnodup.
    now apply NoDup_fmap_1 in Hnodup.
  - intros m. rewrite list_elem_of_In, <- List.in_rev, <- list_elem_of_In. split.
    + intros Hm. rewrite List.Forall_forall in Hbelow. apply Hbelow.
      now apply list_elem_of_In.
    + intros Hm.
      assert (Hchild : ∀ a d, a = root ∨ a ∈ post → In d (dependencies a) → d ∈ post).
      { intros a d [->|Ha] Hd; [now apply Hdirect|].
        apply list_elem_of_split in Ha as (l1 & l2 & E).
        pose proof (Hfirst l1 a l2 E d Hd) as Hd1.
        rewrite E. apply elem_of_app. now left. }
      assert (Hgen : ∀ n, dependsOn n m → n = root ∨ n ∈ post → m ∈ post);
        [|apply (Hgen root); auto].
      clear Hm. intros n Hnm.
      induction Hnm as [n m Hin|n d m Hin _ IH]; intros Hn.
      * now apply Hchild with n.
      * apply IH. right. now apply Hchild with n.
Qed.

(** X21: [traverse] ends, within as many iterations as the trees below
    the node have nodes. It calls the callback on the node it is given
    first, never on two nodes with the same id, and, when the ids tell the
    nodes apart, on the node and on every direct or indirect dependency
    of it and on nothing else: the same nodes, in another order, as the
    depth-first [collectTransitiveDependencies] returns. *)
Theorem traverse_visits_every_node_once (root : Node) :
  ∃ visited,
    traverse recordVisit (nodeSize root) root [] = Some visited
    ∧ (∀ (A : Type) (f : Node → A → A) (a : A),
         traverse f (nodeSize root) root a = Some (fold_left (λ a n, f n a) visited a))
    ∧ hd_error visited = Some root
    ∧ NoDup (map id visited)
    ∧ (uniqueIds root →
       (∀ m, m ∈ visited ↔ m = root ∨ dependsOn root m)
       ∧ visited ≡ₚ root :: collectTransitiveDependencies root).
Proof.
  unfold traverse.
  destruct (loop_ends recordVisit (nodeSize root) [root] ∅ []) as [visited Hrun].
  { simpl. lia. }
  exists visited. split; [exact Hrun|].
  assert (Hinv0 : breadthInv root [root] ∅ []).
  { unfold breadthInv. split_and!.
    - reflexivity.
    - constructor.
    - now left.
    - repeat constructor.
    - intros n d Hn. inversion Hn. }
  destruct (loop_inv root _ _ _ _ _ Hinv0 Hrun)
    as (_ & Hnd & Hfirst & Hreach & Hclosed).
  rewrite app_nil_r in Hreach.
  assert (Hhd : hd_error visited = Some root).
  { destruct Hfirst as [[_ E]|Hfirst]; [discriminate | exact Hfirst]. }
  split_and!; try assumption.
  - intros A f a. destruct (loop_fold f _ _ _ a _ _ Hrun) as (new & E & Hf).
    simpl in E. now subst new.
  - intros Hunique.
    assert (Hmem : ∀ m, m ∈ visited ↔ m = root ∨ dependsOn root m).
    { intros m. split.
      - intros Hm. rewrite List.Forall_forall in Hreach. apply Hreach.
        now apply list_elem_of_In.
      - assert (Hid : ∀ d, reachable root d → id d ∈ idsOf visited → d ∈ visited).
        { intros d Hd Hin. apply elem_of_idsOf in Hin as (e & He & Hid).
          assert (e = d) as <-; [|assumption].
          apply Hunique; [|assumption..].
          rewrite List.Forall_forall in Hreach. apply Hreach.
          now apply list_elem_of_In. }
        assert (Hroot : root ∈ visited).
        { destruct visited; [discriminate|]. injection Hhd as ->. left. }
        assert (Hchild : ∀ n d, n ∈ visited → In d (dependencies n) → d ∈ visited).
        { intros n d Hn Hd. destruct (Hclosed n d Hn Hd) as [Hin|Hq]; [|inversion Hq].
          apply Hid; [|assumption].
          rewrite List.Forall_forall in Hreach.
          destruct (Hreach n) as [->|Hn']; [now apply list_elem_of_In| |].
          - right. now apply dependsOn_direct.
          - right. now apply dependsOn_step with n. }
        intros [->|Hm]; [assumption|].
        assert (Hgen : ∀ n, dependsOn n m → n ∈ visited → m ∈ visited);
          [|now apply (Hgen root)].
        clear Hm. intros n Hnm.
        induction Hnm as [n m Hin|n d m Hin _ IH]; intros Hn.
        + now apply Hchild with n.
        + apply IH. now apply Hchild with n. }
    split; [exact Hmem|].
    destruct (collect_members root Hunique) as [Hcnd Hcmem].
    apply NoDup_Permutation.
    + change (map id visited) with (id <$> visited) in Hnd.
      now apply NoDup_fmap_1 in Hnd.
    + apply NoDup_cons. split; [|assumption].
      rewrite Hcmem. apply dependsOn_irrefl.
    + intros m. rewrite Hmem, elem_of_cons, Hcmem. reflexivity.
Qed.

End breadth_facts.

Lemma traverse_visits_every_node_once_witness :
  ∃ visited,
    Breadth.traverse recordVisit (nodeSize chainRoot) chainRoot [] = Some visited
    ∧ visited ≡ₚ chainRoot :: Graph.collectTransitiveDependencies chainRoot.
Proof.
  destruct (traverse_visits_every_node_once chainRoot)
    as (visited & Hrun & _ & _ & _ & Hunique).
  exists visited. split; [exact Hrun|]. apply Hunique, uniqueIds_chainRoot.
Defined.

(** ** The calls of a folded function *)

Section log_facts.
Import Graph.
Context {V : Type}.
Variable arguments : list (Call V) → Call V → Prop.
Hypothesis arguments_more :
  ∀ log new c, arguments log c → arguments (log ++ new) c.
Variable isNull : V → bool.
Variable root : Node.
Hypothesis Hunique : uniqueIds root.

Implicit Types (log new : list (Call V)) (memo : gmap string V)
  (n m d : Node).

Lemma reachable_below n m : reachable root n → reachable n m → reachable root m.
Proof.
  intros [->|Hn] [->|Hm]; [now left | now right | now right |].
  right. now apply dependsOn_transitive with n.
Qed.

Lemma log_below_other_id n m : reachable root n → dependsOn n m → id m ≠ id n.
Proof.
  intros Hn Hm E.
  assert (m = n) as ->; [|now apply dependsOn_irrefl in Hm].
  apply Hunique; [|assumption..]. apply reachable_below with n; [assumption | now right].
Qed.

Lemma valuesOf_more log new nodes values :
  valuesOf log nodes values → valuesOf (log ++ new) nodes values.
Proof.
  unfold valuesOf. intros H. eapply Forall2_impl; [exact H|].
  intros x v (c & Hc & E1 & E2). exists c. split; [|auto].
  apply elem_of_app. now left.
Qed.

Lemma log_memo_call log memo m v :
  logInv arguments isNull root log memo → reachable root m → memo !! id m = Some v →
  ∃ c, c ∈ log ∧ callNode c = m ∧ callResult c = v.
Proof.
  intros (I1 & _ & I3 & _) Hm Hv.
  apply I1 in Hv as (c & Hc & E & Ev). exists c. split_and!; try assumption.
  apply Hunique; try assumption.
  rewrite List.Forall_forall in I3. apply I3. now apply list_elem_of_In.
Qed.

Lemma log_memo_not_null log memo k v :
  logInv arguments isNull root log memo → memo !! k = Some v → isNull v = false.
Proof.
  intros (I1 & _ & _ & I4 & _) Hv.
  apply I1 in Hv as (c & Hc & _ & <-).
  rewrite List.Forall_forall in I4. apply I4. now apply list_elem_of_In.
Qed.

Lemma log_memo_mono log memo new memo' :
  logInv arguments isNull root log memo → logInv arguments isNull root (log ++ new) memo' → memo ⊆ memo'.
Proof.
  intros (I1 & _) (I1' & _). apply map_subseteq_spec. intros k v Hv.
  apply I1 in Hv as (c & Hc & E). apply I1'. exists c. split; [|exact E].
  apply elem_of_app. now left.
Qed.

Lemma log_memo_dom log memo (k : string) :
  logInv arguments isNull root log memo → (k ∈ dom memo ↔ ∃ c, c ∈ log ∧ id (callNode c) = k).
Proof.
  intros (I1 & _). rewrite elem_of_dom. split.
  - intros [v Hv]. apply I1 in Hv as (c & Hc & E & _). now exists c.
  - intros (c & Hc & E). exists (callResult c). apply I1. now exists c.
Qed.

Lemma logInv_empty : logInv arguments isNull root [] ∅.
Proof.
  unfold logInv. split_and!; try constructor.
  - intros H. now rewrite lookup_empty in H.
  - intros (c & Hc & _). inversion Hc.
  - intros l1 m l2 E. now destruct l1.
Qed.

(** The state after one more call. *)
Lemma logInv_call log memo (c : Call V) :
  logInv arguments isNull root log memo →
  memo !! id (callNode c) = None →
  reachable root (callNode c) →
  isNull (callResult c) = false →
  (∀ d, In d (dependencies (callNode c)) → d ∈ map callNode log) →
  arguments (log ++ [c]) c →
  logInv arguments isNull root (log ++ [c]) (<[id (callNode c) := callResult c]> memo).
Proof.
  intros (I1 & I2 & I3 & I4 & I5 & I6) Hnone Hreach Hnull Hdeps Hargs.
  assert (Hfresh : ∀ c', c' ∈ log → id (callNode c') ≠ id (callNode c)).
  { intros c' Hc' E.
    assert (memo !! id (callNode c) = Some (callResult c')) as Hsome.
    { apply I1. now exists c'. }
    congruence. }
  unfold logInv. split_and!.
  - intros k v. rewrite lookup_insert_Some, I1. split.
    + intros [[<- <-]|[Hne (c' & Hc' & E)]].
      * exists c. split; [|auto]. apply elem_of_app. right. now left.
      * exists c'. split; [|auto]. apply elem_of_app. now left.
    + intros (c' & Hc' & E1 & E2). apply elem_of_app in Hc' as [Hc'|Hc'].
      * right. split; [|now exists c']. rewrite <- E1. intros E.
        now apply (Hfresh c' Hc').
      * apply list_elem_of_singleton in Hc'. subst c'. now left.
  - rewrite map_app. apply NoDup_app. split; [assumption|].
    split; [|apply NoDup_singleton].
    intros k Hk Hk'. apply list_elem_of_singleton in Hk'. subst k.
    change (map (λ c0 : Call V, id (callNode c0)) log)
      with ((λ c0 : Call V, id (callNode c0)) <$> log) in Hk.
    apply list_elem_of_fmap in Hk as (c' & E & Hc').
    now apply (Hfresh c' Hc').
  - apply Forall_app. split; [assumption | now constructor].
  - apply Forall_app. split; [assumption | now constructor].
  - rewrite map_app. now apply dependenciesFirst_snoc.
  - apply Forall_app. split; [|now constructor].
    eapply Forall_impl; [exact I6|]. intros c'. apply arguments_more.
Qed.

(** The nodes and the values of calls of [onNode] that carry memoized
    values. *)
Lemma log_valuesOf_events log memo (events : list (V * Node)) :
  logInv arguments isNull root log memo →
  Forall (λ e, reachable root e.2 ∧ memo !! id e.2 = Some e.1) events →
  valuesOf log (map snd events) (map fst events).
Proof.
  intros Hinv. unfold valuesOf.
  induction 1 as [|e events [Hr Hv] _ IH]; simpl; constructor; [|exact IH].
  now apply (log_memo_call log memo).
Qed.

Lemma NoDup_event_nodes (events : list (V * Node)) :
  NoDup (map (λ e : V * Node, id e.2) events) → NoDup (map snd events).
Proof.
  intros H. apply (NoDup_fmap_1 id).
  change (NoDup (id <$> (snd <$> events))).
  rewrite <- list_fmap_compose. exact H.
Qed.

(** Whatever the root depends on got its call. *)
Lemma log_logged_below log memo n m :
  logInv arguments isNull root log memo → n ∈ map callNode log → dependsOn n m →
  m ∈ map callNode log.
Proof.
  intros (_ & _ & _ & _ & I5 & _) Hn Hm. revert Hn.
  induction Hm as [n m Hin|n d m Hin _ IH]; intros Hn.
  - apply list_elem_of_split in Hn as (l1 & l2 & E).
    pose proof (I5 l1 n l2 E m Hin). rewrite E. apply elem_of_app. now left.
  - apply IH. apply list_elem_of_split in Hn as (l1 & l2 & E).
    pose proof (I5 l1 n l2 E d Hin). rewrite E. apply elem_of_app. now left.
Qed.

End log_facts.

(** ** The topological fold *)

Section frame_facts.
Import Graph Fold.
Context {V : Type}.
Implicit Types (evs : list (V * Node)) (seen : gset string).

Lemma deliver_app evs1 evs2 (fr : @Frame V) :
  deliver (evs1 ++ evs2) fr = deliver evs2 (deliver evs1 fr).
Proof. unfold deliver. apply fold_left_app. Qed.

Lemma map_deliver_nil (frames : list (@Frame V)) : map (deliver []) frames = frames.
Proof. induction frames as [|fr frames IH]; simpl; [reflexivity|]. now rewrite IH. Qed.

Lemma map_deliver_app evs1 evs2 (frames : list (@Frame V)) :
  map (deliver evs2) (map (deliver evs1) frames) = map (deliver (evs1 ++ evs2)) frames.
Proof.
  rewrite map_map. apply map_ext. intros fr. now rewrite deliver_app.
Qed.

Lemma eventIds_cons (e : V * Node) evs :
  eventIds (e :: evs) = {[id e.2]} ∪ eventIds evs.
Proof. reflexivity. Qed.

Lemma elem_of_eventIds evs (k : string) :
  k ∈ eventIds evs ↔ ∃ e, e ∈ evs ∧ id e.2 = k.
Proof.
  unfold eventIds. rewrite elem_of_list_to_set.
  change (map (λ e : V * Node, id e.2) evs) with ((λ e : V * Node, id e.2) <$> evs).
  rewrite list_elem_of_fmap. split; intros (e & H1 & H2); exists e; auto.
Qed.

Lemma firstSeen_app evs1 : ∀ seen evs2,
  firstSeen seen (evs1 ++ evs2)
  = firstSeen seen evs1 ++ firstSeen (seen ∪ eventIds evs1) evs2.
Proof.
  induction evs1 as [|e evs1 IH]; intros seen evs2.
  - simpl. f_equal. unfold eventIds. simpl. set_solver.
  - rewrite eventIds_cons. cbn [app firstSeen].
    destruct (decide (id e.2 ∈ seen)) as [Hin|Hnew].
    + rewrite IH. do 2 f_equal. set_solver.
    + rewrite IH. cbn [app]. do 3 f_equal. set_solver.
Qed.

Lemma firstSeen_sub evs : ∀ seen e,
  e ∈ firstSeen seen evs → e ∈ evs ∧ id e.2 ∉ seen.
Proof.
  induction evs as [|x evs IH]; intros seen e; simpl; [inversion 1|].
  destruct (decide (id x.2 ∈ seen)) as [Hin|Hnew].
  - intros H. destruct (IH _ _ H). split; [now right | assumption].
  - intros H. apply elem_of_cons in H as [->|H]; [split; [now left | assumption]|].
    destruct (IH _ _ H) as [H1 H2]. split; [now right | set_solver].
Qed.

Lemma firstSeen_NoDup evs : ∀ seen,
  NoDup (map (λ e : V * Node, id e.2) (firstSeen seen evs)).
Proof.
  induction evs as [|x evs IH]; intros seen; simpl; [constructor|].
  destruct (decide (id x.2 ∈ seen)) as [Hin|Hnew]; [apply IH|].
  simpl. constructor; [|apply IH].
  change (map (λ e : V * Node, id e.2) ?l) with ((λ e : V * Node, id e.2) <$> l).
  rewrite list_elem_of_fmap. intros (e & E & He).
  apply firstSeen_sub in He as [_ He]. rewrite <- E in He. set_solver.
Qed.

Lemma firstSeen_covers evs : ∀ seen k,
  k ∈ eventIds evs → k ∉ seen → ∃ e, e ∈ firstSeen seen evs ∧ id e.2 = k.
Proof.
  induction evs as [|x evs IH]; intros seen k Hk Hseen.
  - unfold eventIds in Hk. simpl in Hk. set_solver.
  - rewrite eventIds_cons in Hk. simpl.
    destruct (decide (id x.2 ∈ seen)) as [Hin|Hnew].
    + apply IH; [|assumption].
      apply elem_of_union in Hk as [Hk|Hk]; [|assumption].
      apply elem_of_singleton in Hk. now subst k.
    + destruct (decide (k = id x.2)) as [->|Hne].
      * exists x. split; [now left | reflexivity].
      * destruct (IH ({[id x.2]} ∪ seen) k) as (e & He & E); [set_solver..|].
        exists e. split; [now right | assumption].
Qed.

Lemma deliver_cons (e : V * Node) evs (fr : @Frame V) :
  deliver (e :: evs) fr = deliver evs (onDependency e.1 e.2 fr).
Proof. reflexivity. Qed.

Lemma onDependency_frame (need0 : gset string) (value : V) (node : Node)
    (direct all : list V) seen :
  onDependency value node (mkFrame direct all seen (need0 ∖ seen))
  = if decide (id node ∈ seen) then mkFrame direct all seen (need0 ∖ seen)
    else if decide (id node ∈ need0) then
      mkFrame (direct ++ [value]) (all ++ [value]) ({[id node]} ∪ seen)
        (need0 ∖ ({[id node]} ∪ seen))
    else
      mkFrame direct (all ++ [value]) ({[id node]} ∪ seen)
        (need0 ∖ ({[id node]} ∪ seen)).
Proof.
  unfold onDependency. cbn [Fold.seen Fold.need].
  destruct (decide (id node ∈ seen)) as [Hin|Hnew].
  - cbn [Fold.need]. now rewrite decide_False by set_solver.
  - cbn [Fold.need Fold.seen directDependencies allDependencies].
    destruct (decide (id node ∈ need0)) as [Hneed|Hnot].
    + rewrite decide_True by set_solver. f_equal. set_solver.
    + rewrite decide_False by set_solver. f_equal. set_solver.
Qed.

(** The frame of a call after the calls of [onNode] that its
    dependencies gave rise to. *)
Lemma deliver_frame (need0 : gset string) evs : ∀ (direct all : list V) seen,
  deliver evs (mkFrame direct all seen (need0 ∖ seen))
  = mkFrame
      (direct ++ map fst (filter (λ e : V * Node, id e.2 ∈ need0) (firstSeen seen evs)))
      (all ++ map fst (firstSeen seen evs))
      (seen ∪ eventIds evs)
      (need0 ∖ (seen ∪ eventIds evs)).
Proof.
  induction evs as [|e evs IH]; intros direct all seen.
  - simpl. rewrite !app_nil_r. f_equal; unfold eventIds; simpl; set_solver.
  - rewrite eventIds_cons, deliver_cons, onDependency_frame. cbn [firstSeen].
    destruct (decide (id e.2 ∈ seen)) as [Hin|Hnew].
    + rewrite IH. f_equal; set_solver.
    + destruct (decide (id e.2 ∈ need0)) as [Hneed|Hnot]; rewrite IH.
      * rewrite filter_cons_True by exact Hneed.
        cbn [map]. rewrite <- !app_assoc. f_equal; set_solver.
      * rewrite filter_cons_False by exact Hnot.
        cbn [map]. rewrite <- !app_assoc. f_equal; set_solver.
Qed.

Lemma deliver_initial (need0 : gset string) evs :
  deliver evs (mkFrame [] [] ∅ need0)
  = mkFrame
      (map fst (filter (λ e : V * Node, id e.2 ∈ need0) (firstSeen ∅ evs)))
      (map fst (firstSeen ∅ evs))
      (eventIds evs)
      (need0 ∖ eventIds evs).
Proof.
  rewrite <- (difference_empty_L need0) at 1. rewrite deliver_frame.
  cbn [app]. f_equal; set_solver.
Qed.

End frame_facts.

Section fold_unfold.
Import Graph Fold.
Context {V S : Type}.
Variable isNull : V → bool.
Variable g : list V → list V → Node → S → V * S.

Lemma topologicalFoldImpl_unfold (n : Node) (st : @State V S) :
  topologicalFoldImpl isNull g n st
  = match cachedValue isNull n st with
    | Some cached => (cached, onNode cached n st)
    | None =>
        let frame := mkFrame [] [] ∅ (list_to_set (map id (dependencies n))) in
        let st1 :=
          fold_left (λ st dep, (topologicalFoldImpl isNull g dep st).2)
            (dependencies n)
            (mkState (world st) (memoized st) (frame :: frames st)) in
        let frame1 := hd frame (frames st1) in
        let '(value, w) :=
          g (directDependencies frame1) (allDependencies frame1) n (world st1) in
        (value,
         onNode value n
           (mkState w (<[id n := value]> (memoized st1)) (tl (frames st1))))
    end.
Proof. destruct n; reflexivity. Qed.

End fold_unfold.

Section fold_facts.
Import Graph Fold.
Context {V S : Type}.
Variable isNull : V → bool.
Variable f : list V → list V → Node → S → V * S.
Hypothesis f_not_null : ∀ direct all node s, isNull (f direct all node s).1 = false.
Variable root : Node.
Hypothesis Hunique : uniqueIds root.

Implicit Types (log new : list (Call V)) (memo : gmap string V)
  (evs : list (V * Node)) (n m d : Node).

Lemma argumentsOf_more log new (c : Call V) :
  argumentsOf log c → argumentsOf (log ++ new) c.
Proof.
  intros (direct & all & H1 & H2 & H).
  exists direct, all. split_and!; try apply valuesOf_more; tauto.
Qed.

Local Abbreviation below_other_id := (log_below_other_id root Hunique).
Local Abbreviation memo_call := (log_memo_call argumentsOf isNull root Hunique).
Local Abbreviation memo_not_null := (log_memo_not_null argumentsOf isNull root).
Local Abbreviation memo_mono := (log_memo_mono argumentsOf isNull root).
Local Abbreviation memo_dom := (log_memo_dom argumentsOf isNull root).
Local Abbreviation valuesOf_events := (log_valuesOf_events argumentsOf isNull root Hunique).
Local Abbreviation logged_below := (log_logged_below argumentsOf isNull root).

Lemma cachedValue_memo {W : Type} log memo n (w : W) (frames : list (@Frame V)) :
  logInv argumentsOf isNull root log memo →
  cachedValue isNull n (mkState w memo frames) = memo !! id n.
Proof.
  intros Hinv. unfold cachedValue. cbn [memoized].
  destruct (memo !! id n) as [v|] eqn:Hv; [|reflexivity].
  now rewrite (memo_not_null _ _ _ _ Hinv Hv).
Qed.

(** The arguments of the call for [n], when the calls of [onNode] that
    its dependencies gave rise to were [evs]. *)
Lemma arguments_from_events log memo n evs (value : V) :
  logInv argumentsOf isNull root log memo →
  reachable root n →
  Forall (λ e, dependsOn n e.2 ∧ memo !! id e.2 = Some e.1) evs →
  (∀ d, In d (dependencies n) → ∃ v, (v, d) ∈ evs) →
  let needed := λ e : V * Node, id e.2 ∈ (list_to_set (map id (dependencies n)) : gset string) in
  let call := mkCall (map fst (filter needed (firstSeen ∅ evs)))
                (map fst (firstSeen ∅ evs)) n value in
  argumentsOf (log ++ [call]) call.
Proof.
  intros Hinv Hn Hevs Hcover needed call.
  assert (Hsub : ∀ e, e ∈ firstSeen ∅ evs → e ∈ evs).
  { intros e He. now apply firstSeen_sub in He. }
  assert (Hev : ∀ e, e ∈ evs →
                     dependsOn n e.2 ∧ reachable root e.2 ∧ memo !! id e.2 = Some e.1).
  { intros e He. rewrite List.Forall_forall in Hevs.
    destruct (Hevs e) as [H1 H2]; [now apply list_elem_of_In|].
    split_and!; try assumption. apply reachable_below with n; [assumption | now right]. }
  assert (Hsome : Forall (λ e, reachable root e.2 ∧ memo !! id e.2 = Some e.1)
                    (firstSeen ∅ evs)).
  { apply List.Forall_forall. intros e He. apply list_elem_of_In in He.
    apply Hsub, Hev in He. tauto. }
  assert (Hnd : NoDup (map snd (firstSeen ∅ evs))).
  { apply NoDup_event_nodes, firstSeen_NoDup. }
  assert (Hfilter : map snd (filter needed (firstSeen ∅ evs))
                      `sublist_of` map snd (firstSeen ∅ evs)).
  { apply (fmap_sublist snd), sublist_filter. }
  exists (map snd (filter needed (firstSeen ∅ evs))), (map snd (firstSeen ∅ evs)).
  split_and!.
  - apply valuesOf_more, (valuesOf_events log memo); [assumption|].
    apply List.Forall_forall. intros e He. apply list_elem_of_In in He.
    apply list_elem_of_filter in He as [_ He]. apply Hsub, Hev in He. tauto.
  - now apply valuesOf_more, (valuesOf_events log memo).
  - now apply sublist_NoDup with (map snd (firstSeen ∅ evs)).
  - intros d. cbn [callNode call].
    change (map snd ?l) with (snd <$> l). rewrite list_elem_of_fmap. split.
    + intros (e & -> & He). apply list_elem_of_filter in He as [Hneed He].
      unfold needed in Hneed. apply elem_of_list_to_set in Hneed.
      change (map id ?l) with (id <$> l) in Hneed.
      apply list_elem_of_fmap in Hneed as (d' & E & Hd').
      assert (e.2 = d') as ->; [|now apply list_elem_of_In].
      apply Hsub, Hev in He as (_ & Hre & _).
      apply Hunique; [assumption | | assumption].
      apply reachable_below with n; [assumption|].
      right. apply dependsOn_direct. now apply list_elem_of_In.
    + intros Hd. destruct (Hcover d Hd) as [v Hv].
      destruct (firstSeen_covers evs ∅ (id d)) as (e & He & E).
      { apply elem_of_eventIds. now exists (v, d). }
      { set_solver. }
      exists e. assert (e.2 = d) as Heq.
      { apply Hunique; [| |assumption].
        - apply Hsub, Hev in He. tauto.
        - apply reachable_below with n; [assumption|].
          right. now apply dependsOn_direct. }
      split; [now symmetry|]. apply list_elem_of_filter. split; [|assumption].
      unfold needed. apply elem_of_list_to_set. rewrite E.
      change (map id ?l) with (id <$> l). apply list_elem_of_fmap.
      exists d. split; [reflexivity | now apply list_elem_of_In].
  - exact Hnd.
  - intros a. cbn [callNode call].
    change (map snd ?l) with (snd <$> l). rewrite list_elem_of_fmap.
    intros (e & -> & He). apply Hsub, Hev in He. tauto.
  - now apply sublist_subseteq.
Qed.

Local Abbreviation foldLogged := (topologicalFoldImpl isNull (logged f)).
Local Abbreviation foldPlain := (topologicalFoldImpl isNull f).

(** What one call of [topologicalFoldImpl] does, with and without the
    log. *)
Local Abbreviation nodeSpec n :=
  (∀ (s : S) log memo (frames : list (@Frame V)),
     logInv argumentsOf isNull root log memo → reachable root n →
     ∃ (v : V) (s' : S) memo' new evs,
       foldLogged n (mkState (s, log) memo frames)
       = (v, mkState (s', log ++ new) memo' (map (deliver (evs ++ [(v, n)])) frames))
       ∧ foldPlain n (mkState s memo frames)
         = (v, mkState s' memo' (map (deliver (evs ++ [(v, n)])) frames))
       ∧ logInv argumentsOf isNull root (log ++ new) memo'
       ∧ foldPost n memo memo' new (evs ++ [(v, n)])
       ∧ (memo !! id n = None →
          ∃ rest direct,
            new = rest ++ [mkCall direct (map fst (firstSeen ∅ evs)) n v]
            ∧ firstSeen (dom memo) evs = map callEvent rest)).

Lemma dom_after log memo new memo' evs :
  logInv argumentsOf isNull root log memo →
  logInv argumentsOf isNull root (log ++ new) memo' →
  Forall (λ e, memo' !! id e.2 = Some e.1) evs →
  firstSeen (dom memo) evs = map callEvent new →
  dom memo ∪ eventIds evs = dom memo'.
Proof.
  intros Hinv Hinv' Hevs Hfirst. apply set_eq. intros k.
  rewrite elem_of_union. split.
  - intros [Hk|Hk].
    + revert k Hk. apply subseteq_dom. now apply (memo_mono log memo new memo').
    + apply elem_of_eventIds in Hk as (e & He & <-).
      rewrite List.Forall_forall in Hevs. apply list_elem_of_In, Hevs in He.
      now apply elem_of_dom_2 in He.
  - intros Hk. apply (memo_dom _ _ _ Hinv') in Hk as (c & Hc & E).
    apply elem_of_app in Hc as [Hc|Hc].
    + left. apply (memo_dom _ _ _ Hinv). now exists c.
    + right. apply elem_of_eventIds. exists (callEvent c). split; [|exact E].
      assert (Hin : callEvent c ∈ map callEvent new).
      { change (map callEvent new) with (callEvent <$> new).
        apply list_elem_of_fmap. now exists c. }
      rewrite <- Hfirst in Hin. now apply firstSeen_sub in Hin.
Qed.

(** The loop over the dependencies of [n]. *)
Lemma dependencies_spec n (deps : list Node) :
  Forall (λ d, nodeSpec d) deps →
  Forall (λ d, reachable root d ∧ dependsOn n d) deps →
  ∀ (s : S) log memo (frames : list (@Frame V)),
    logInv argumentsOf isNull root log memo →
    ∃ (s' : S) memo' new evs,
      fold_left (λ st dep, (foldLogged dep st).2) deps (mkState (s, log) memo frames)
      = mkState (s', log ++ new) memo' (map (deliver evs) frames)
      ∧ fold_left (λ st dep, (foldPlain dep st).2) deps (mkState s memo frames)
        = mkState s' memo' (map (deliver evs) frames)
      ∧ logInv argumentsOf isNull root (log ++ new) memo'
      ∧ Forall (λ c, dependsOn n (callNode c)) new
      ∧ Forall (λ e, dependsOn n e.2 ∧ memo' !! id e.2 = Some e.1) evs
      ∧ firstSeen (dom memo) evs = map callEvent new
      ∧ (∀ d, In d deps → ∃ v, (v, d) ∈ evs).
Proof.
  induction deps as [|d deps IH]; intros Hspec Hdeps s log memo frames Hinv.
  - exists s, memo, [], []. cbn [fold_left]. rewrite app_nil_r, map_deliver_nil.
    split_and!; try reflexivity; try assumption; try apply Forall_nil_2.
    intros d [].
  - apply Forall_cons in Hspec as [Hd Hspec].
    apply Forall_cons in Hdeps as [[Hrd Hnd] Hdeps].
    destruct (Hd s log memo frames Hinv Hrd)
      as (v & s1 & memo1 & new1 & evs1 & EL & EF & Hinv1
          & (Hnew1 & Hevs1 & Hfirst1) & _).
    destruct (IH Hspec Hdeps s1 (log ++ new1) memo1
                (map (deliver (evs1 ++ [(v, d)])) frames) Hinv1)
      as (s2 & memo2 & new2 & evs2 & EL2 & EF2 & Hinv2 & Hnew2 & Hevs2 & Hfirst2 & Hcov2).
    assert (Hbelow : ∀ m, reachable d m → dependsOn n m).
    { intros m [->|Hm]; [assumption | now apply dependsOn_transitive with d]. }
    assert (Hmono : memo1 ⊆ memo2).
    { exact (memo_mono _ _ _ _ Hinv1 Hinv2). }
    exists s2, memo2, (new1 ++ new2), ((evs1 ++ [(v, d)]) ++ evs2).
    cbn [fold_left]. rewrite EL, EF. cbn [snd]. rewrite EL2, EF2.
    rewrite map_deliver_app, <- app_assoc.
    split_and!; try reflexivity.
    + now rewrite app_assoc.
    + apply Forall_app. split; [|assumption].
      eapply Forall_impl; [exact Hnew1|]. intros c. apply Hbelow.
    + apply Forall_app. split; [|assumption].
      eapply Forall_impl; [exact Hevs1|]. intros e [He1 He2]. split; [now apply Hbelow|].
      now apply (lookup_weaken memo1).
    + rewrite firstSeen_app, Hfirst1, map_app. f_equal.
      rewrite <- Hfirst2. f_equal.
      apply (dom_after log memo new1 memo1); try assumption.
      eapply Forall_impl; [exact Hevs1|]. now intros e [_ He].
    + intros d' [<-|Hd'].
      * exists v. apply elem_of_app. left. apply elem_of_app. right. now left.
      * destruct (Hcov2 d' Hd') as [v' Hv']. exists v'. apply elem_of_app. now right.
Qed.

Lemma topologicalFoldImpl_spec n : nodeSpec n.
Proof.
  induction n as [nid deps IHdeps] using Node_induction.
  intros s log memo frames Hinv Hreach.
  set (n := mkNode nid deps) in *.
  rewrite !topologicalFoldImpl_unfold.
  rewrite !(cachedValue_memo log memo) by exact Hinv.
  destruct (memo !! id n) as [cached|] eqn:Hmemo.
  - exists cached, s, memo, [], []. unfold onNode. cbn [world memoized Fold.frames app].
    rewrite app_nil_r. split_and!; try reflexivity; try assumption; [|discriminate].
    unfold foldPost. split_and!.
    + constructor.
    + constructor; [|constructor]. split; [now left | exact Hmemo].
    + cbn [firstSeen snd map]. rewrite decide_True; [reflexivity|].
      now apply elem_of_dom_2 in Hmemo.
  - cbv zeta. cbn [world memoized Fold.frames].
    assert (Hdeps : Forall (λ d, reachable root d ∧ dependsOn n d) deps).
    { apply List.Forall_forall. intros d Hd.
      assert (dependsOn n d) by now apply dependsOn_direct.
      split; [|assumption]. apply reachable_below with n; [assumption | now right]. }
    destruct (dependencies_spec n deps IHdeps Hdeps s log memo
                (mkFrame [] [] ∅ (list_to_set (map id deps)) :: frames) Hinv)
      as (s1 & memo1 & new1 & evs & EL & EF & Hinv1 & Hnew1 & Hevs & Hfirst & Hcover).
    change (dependencies n) with deps.
    rewrite EL, EF.
    cbn [world memoized Fold.frames map hd tl].
    rewrite deliver_initial. cbn [directDependencies allDependencies].
    set (direct := map fst (filter _ (firstSeen ∅ evs))).
    set (all := map fst (firstSeen ∅ evs)).
    unfold logged. cbn [fst snd].
    destruct (f direct all n s1) as [value s2] eqn:Hf.
    set (call := mkCall direct all n value).
    assert (Hids : ∀ e, e ∈ evs → id e.2 ≠ id n).
    { intros e He. rewrite List.Forall_forall in Hevs.
      apply list_elem_of_In, Hevs in He as [He _].
      now apply below_other_id. }
    assert (Hnone1 : memo1 !! id n = None).
    { destruct (memo1 !! id n) as [v|] eqn:Hv; [|reflexivity]. exfalso.
      destruct Hinv1 as (I1 & _). apply I1 in Hv as (c & Hc & E & _).
      apply elem_of_app in Hc as [Hc|Hc].
      - destruct Hinv as (I1' & _).
        assert (memo !! id n = Some (callResult c)) as Hsome; [|congruence].
        apply I1'. now exists c.
      - rewrite List.Forall_forall in Hnew1. apply list_elem_of_In, Hnew1 in Hc.
        now apply (below_other_id n (callNode c)). }
    assert (Hinv2 : logInv argumentsOf isNull root ((log ++ new1) ++ [call])
                      (<[id n := value]> memo1)).
    { apply (logInv_call argumentsOf argumentsOf_more isNull root (log ++ new1) memo1 call);
        try assumption.
      - cbn [callResult call].
        pose proof (f_not_null direct all n s1) as Hnn. now rewrite Hf in Hnn.
      - cbn [callNode call]. intros d Hd.
        destruct (Hcover d Hd) as [v Hv].
        rewrite List.Forall_forall in Hevs.
        assert (Hvd := Hv). apply list_elem_of_In, Hevs in Hvd as [Hnd Hmd].
        cbn [fst snd] in Hmd.
        destruct (memo_call _ _ d v Hinv1) as (c & Hc & E & _); try assumption.
        { apply reachable_below with n; [assumption | now right]. }
        change (map callNode ?l) with (callNode <$> l). apply list_elem_of_fmap.
        now exists c.
      - apply (arguments_from_events (log ++ new1) memo1 n evs value); assumption. }
    exists value, s2, (<[id n := value]> memo1), (new1 ++ [call]), evs.
    unfold onNode. cbn [world memoized Fold.frames].
    rewrite <- (map_deliver_app evs [(value, n)]).
    rewrite !app_assoc.
    split_and!; try reflexivity; try assumption;
      [|intros _; exists new1, direct; now split].
    unfold foldPost. split_and!.
    + apply Forall_app. split; [|constructor; [now left | constructor]].
      eapply Forall_impl; [exact Hnew1|]. intros c Hc. now right.
    + apply Forall_app. split.
      * eapply Forall_impl; [exact Hevs|]. intros e [He1 He2]. split; [now right|].
        rewrite lookup_insert_ne; [assumption|].
        intros E. symmetry in E. revert E. now apply below_other_id.
      * constructor; [|constructor]. split; [now left|]. cbn [fst snd]. apply lookup_insert_eq.
    + rewrite firstSeen_app, Hfirst, map_app. f_equal.
      cbn [firstSeen snd map]. rewrite decide_False; [reflexivity|].
      rewrite (dom_after log memo new1 memo1 evs); try assumption.
      * now apply not_elem_of_dom.
      * eapply Forall_impl; [exact Hevs|]. now intros e [_ He].
Qed.

(** The calls of a whole fold, the one for the root being the last. *)
Lemma topologicalFold_log (s : S) :
  ∃ (v : V) (s' : S) memo' rest direct,
    let log := rest ++ [mkCall direct (map callResult rest) root v] in
    topologicalFold isNull (logged f) root (s, []) = (v, (s', log))
    ∧ topologicalFold isNull f root s = (v, s')
    ∧ logInv argumentsOf isNull root log memo'.
Proof.
  destruct (topologicalFoldImpl_spec root s [] ∅ [] (logInv_empty argumentsOf isNull root))
    as (v & s' & memo' & new & evs & EL & EF & Hinv & _ & Hlast); [now left|].
  destruct Hlast as (rest & direct & -> & Hfirst); [apply lookup_empty|].
  rewrite dom_empty_L in Hfirst.
  exists v, s', memo', rest, direct. cbv zeta.
  unfold topologicalFold. rewrite EL, EF. cbn [world app] in *.
  rewrite Hfirst in Hinv |- *.
  assert (Hres : map fst (map callEvent rest) = map callResult rest).
  { rewrite map_map. reflexivity. }
  rewrite Hres in Hinv |- *. now split_and!.
Qed.

(** X22: when the ids tell the nodes of the graph apart and [f] returns
    no null value, [topologicalFold] calls [f] once for the node it is given
    and once for every direct or indirect dependency of it, for no node
    before its dependencies and for the given node last, and returns the
    result of that last call. Writing the calls down changes neither the
    value nor what is done to the world. *)
Theorem topologicalFold_calls_dependencies_first (s : S) :
  ∃ (v : V) (s' : S) log,
    topologicalFold isNull (logged f) root (s, []) = (v, (s', log))
    ∧ topologicalFold isNull f root s = (v, s')
    ∧ NoDup (map (λ c, id (callNode c)) log)
    ∧ (∀ m, m ∈ map callNode log ↔ reachable root m)
    ∧ dependenciesFirst (map callNode log)
    ∧ ∃ c, last log = Some c ∧ callNode c = root ∧ callResult c = v.
Proof.
  destruct (topologicalFold_log s) as (v & s' & memo' & rest & direct & EL & EF & Hinv).
  cbv zeta in *.
  set (call := mkCall direct (map callResult rest) root v) in *.
  exists v, s', (rest ++ [call]).
  pose proof Hinv as (_ & I2 & I3 & _ & I5 & _).
  assert (Hroot : root ∈ map callNode (rest ++ [call])).
  { rewrite map_app. apply elem_of_app. right. now left. }
  split_and!; try assumption.
  - intros m. split.
    + change (map callNode ?l) with (callNode <$> l). rewrite list_elem_of_fmap.
      intros (c & -> & Hc). rewrite List.Forall_forall in I3.
      now apply I3, list_elem_of_In.
    + intros [->|Hm]; [assumption|]. now apply (logged_below _ memo' root).
  - exists call. now rewrite last_snoc.
Qed.

(** X23: under the same conditions, every call of [f] is given, as
    [directDependencies], the results of the calls for the dependencies
    of its node, each dependency once, and, as [allDependencies], results
    of calls for nodes its node depends on, directly or not, no node twice
    and those of the direct dependencies among them. *)
Theorem topologicalFold_passes_results_of_dependencies (s : S) (c : Call V) :
  let log := (topologicalFold isNull (logged f) root (s, [])).2.2 in
  c ∈ log → argumentsOf log c.
Proof.
  destruct (topologicalFold_log s) as (v & s' & memo' & rest & direct & EL & _ & Hinv).
  cbv zeta in *. rewrite EL. cbn [snd].
  destruct Hinv as (_ & _ & _ & _ & _ & I6).
  rewrite List.Forall_forall in I6. intros Hc. now apply I6, list_elem_of_In.
Qed.

(** X24: under the same conditions, the call for the node that
    [topologicalFold] is given gets as [allDependencies] the results of
    all the calls before it, in their order: one for every node of the
    graph below it. *)
Theorem topologicalFold_root_gets_all_results (s : S) :
  ∃ rest direct,
    (topologicalFold isNull (logged f) root (s, [])).2.2
    = rest ++ [mkCall direct (map callResult rest) root
                 (topologicalFold isNull f root s).1]
    ∧ ∀ m, m ∈ map callNode rest ↔ dependsOn root m.
Proof.
  destruct (topologicalFold_log s) as (v & s' & memo' & rest & direct & EL & EF & Hinv).
  cbv zeta in *. rewrite EL, EF. cbn [fst snd].
  exists rest, direct. split; [reflexivity|].
  set (call := mkCall direct (map callResult rest) root v) in *.
  pose proof Hinv as (_ & I2 & I3 & _ & I5 & _).
  assert (Hother : ∀ m, m ∈ map callNode rest → id m ≠ id root).
  { intros m Hm E. rewrite map_app in I2. apply NoDup_app in I2 as (_ & I2 & _).
    apply (I2 (id m)).
    - change (map callNode rest) with (callNode <$> rest) in Hm.
      apply list_elem_of_fmap in Hm as (c & -> & Hc).
      change (map ?g rest) with (g <$> rest). apply list_elem_of_fmap. now exists c.
    - rewrite E. now left. }
  intros m. split.
  - intros Hm.
    rewrite List.Forall_forall in I3.
    change (map callNode rest) with (callNode <$> rest) in Hm.
    pose proof (Hother m Hm) as Hne.
    apply list_elem_of_fmap in Hm as (c & -> & Hc).
    destruct (I3 c) as [E|Hbelow]; [|now rewrite E in Hne | assumption].
    apply list_elem_of_In, elem_of_app. now left.
  - intros Hm.
    assert (Hin : m ∈ map callNode (rest ++ [call])).
    { apply (logged_below _ memo' root); try assumption.
      rewrite map_app. apply elem_of_app. right. now left. }
    rewrite map_app in Hin. apply elem_of_app in Hin as [Hin|Hin]; [assumption|].
    apply list_elem_of_singleton in Hin. cbn in Hin. subst m.
    now apply dependsOn_irrefl in Hm.
Qed.

End fold_facts.

Section fold_examples.
Import Graph Fold.

Lemma topologicalFold_calls_dependencies_first_witness :
  ∃ (v : string) (s' : unit) log,
    topologicalFold (λ _, false) (logged nodeName) chainRoot (tt, []) = (v, (s', log))
    ∧ topologicalFold (λ _, false) nodeName chainRoot tt = (v, s')
    ∧ NoDup (map (λ c, id (callNode c)) log)
    ∧ (∀ m, m ∈ map callNode log ↔ reachable chainRoot m)
    ∧ dependenciesFirst (map callNode log)
    ∧ ∃ c, last log = Some c ∧ callNode c = chainRoot ∧ callResult c = v.
Proof.
  apply (topologicalFold_calls_dependencies_first (λ _, false) nodeName).
  - reflexivity.
  - exact uniqueIds_chainRoot.
Defined.

Lemma topologicalFold_passes_results_of_dependencies_witness :
  argumentsOf (topologicalFold (λ _, false) (logged nodeName) chainRoot (tt, [])).2.2
    (mkCall ["b"] ["b"] midA "a").
Proof.
  apply (topologicalFold_passes_results_of_dependencies (λ _, false) nodeName).
  - reflexivity.
  - exact uniqueIds_chainRoot.
  - apply list_elem_of_In. vm_compute. right. left. reflexivity.
Defined.

Lemma topologicalFold_root_gets_all_results_witness :
  ∃ rest direct,
    (topologicalFold (λ _, false) (logged nodeName) chainRoot (tt, [])).2.2
    = rest ++ [mkCall direct (map callResult rest) chainRoot
                 (topologicalFold (λ _, false) nodeName chainRoot tt).1]
    ∧ ∀ m, m ∈ map callNode rest ↔ dependsOn chainRoot m.
Proof.
  apply (topologicalFold_root_gets_all_results (λ _, false) nodeName).
  - reflexivity.
  - exact uniqueIds_chainRoot.
Defined.

(** [b] depends on [x] through [a], but the call for [b] is not given the
    result for [x]: the value of [a] was memoized when [b] asked for it,
    and a memoized node reports itself only. *)
Example allDependencies_without_dependencies_of_memoized_node :
  (topologicalFold (λ _, false) (logged nodeName) diamondRoot (tt, [])).2.2
  = [mkCall [] [] leafX "x"; mkCall ["x"] ["x"] nodeA "a";
     mkCall ["a"] ["a"] nodeB "b";
     mkCall ["a"; "b"] ["x"; "a"; "b"] diamondRoot "root"].
Proof. vm_compute. reflexivity. Qed.

(** A null result is stored in [memoized] but never taken from it: the
    node is folded again the next time it is met. *)
Example null_result_is_computed_again :
  map (λ c, id (callNode c))
    (topologicalFold (λ v, bool_decide (v = "a")) (logged nodeName)
       diamondRoot (tt, [])).2.2
  = ["x"; "a"; "a"; "b"; "root"].
Proof. vm_compute. reflexivity. Qed.

End fold_examples.

(** ** The topological fold of [graph.js] *)

Section js_frame_facts.
Import Graph GraphJsFold.
Context {V : Type}.
Implicit Types (evs : list (V * Node)) (fr : @Frame V).

Lemma deliverJs_app evs1 evs2 fr :
  deliverJs (evs1 ++ evs2) fr = deliverJs evs2 (deliverJs evs1 fr).
Proof. unfold deliverJs. apply fold_left_app. Qed.

Lemma map_deliverJs_nil (frames : list (@Frame V)) : map (deliverJs []) frames = frames.
Proof. induction frames as [|fr frames IH]; simpl; [reflexivity|]. now rewrite IH. Qed.

Lemma map_deliverJs_app evs1 evs2 (frames : list (@Frame V)) :
  map (deliverJs evs2) (map (deliverJs evs1) frames)
  = map (deliverJs (evs1 ++ evs2)) frames.
Proof.
  rewrite map_map. apply map_ext. intros fr. now rewrite deliverJs_app.
Qed.

Lemma deliverJs_cons (e : V * Node) evs fr :
  deliverJs (e :: evs) fr = deliverJs evs (onDependency e.1 e.2 fr).
Proof. reflexivity. Qed.

Lemma onDependency_fresh (value : V) (dep : Node) fr :
  id dep ∉ seen fr →
  onDependency value dep fr
  = mkFrame
      (directDependencies fr
       ++ (if decide (id dep ∈ toVisit fr) then [value] else []))
      (allDependencies fr ++ [value])
      ({[id dep]} ∪ seen fr)
      (toVisit fr ∖ {[id dep]}).
Proof.
  intros Hnew. unfold onDependency, pushDirect, deleteToVisit.
  destruct (decide (id dep ∈ toVisit fr)) as [Hin|Hout];
    cbn [seen toVisit directDependencies allDependencies];
    rewrite decide_False by exact Hnew;
    cbn [seen toVisit directDependencies allDependencies].
  - reflexivity.
  - rewrite app_nil_r. f_equal. set_solver.
Qed.

Lemma filter_toVisit_other (k : string) (visit : gset string) evs :
  k ∉ eventIds evs →
  filter (λ e : V * Node, id e.2 ∈ visit ∖ {[k]}) evs
  = filter (λ e : V * Node, id e.2 ∈ visit) evs.
Proof.
  induction evs as [|e evs IH]; intros Hk; [reflexivity|].
  rewrite eventIds_cons in Hk.
  destruct (decide (id e.2 ∈ visit)) as [Hin|Hout].
  - rewrite !filter_cons_True by set_solver. f_equal. apply IH. set_solver.
  - rewrite !filter_cons_False by set_solver. apply IH. set_solver.
Qed.

(** A frame after calls of [onNode] for nodes with ids that are new to
    it. *)
Lemma deliverJs_frame evs : ∀ fr,
  NoDup (map (λ e : V * Node, id e.2) evs) →
  eventIds evs ## seen fr →
  deliverJs evs fr
  = mkFrame
      (directDependencies fr
       ++ map fst (filter (λ e : V * Node, id e.2 ∈ toVisit fr) evs))
      (allDependencies fr ++ map fst evs)
      (seen fr ∪ eventIds evs)
      (toVisit fr ∖ eventIds evs).
Proof.
  induction evs as [|e evs IH]; intros fr Hnd Hseen.
  - destruct fr. cbn. rewrite !app_nil_r. f_equal; unfold eventIds; simpl; set_solver.
  - rewrite eventIds_cons in Hseen |- *. cbn [map] in Hnd.
    apply NoDup_cons in Hnd as [Hnew Hnd].
    assert (Hk : id e.2 ∉ eventIds evs).
    { unfold eventIds. now rewrite elem_of_list_to_set. }
    rewrite deliverJs_cons, onDependency_fresh by set_solver.
    rewrite IH; [|assumption|cbn [seen]; set_solver].
    cbn [seen toVisit directDependencies allDependencies].
    rewrite filter_toVisit_other by exact Hk.
    destruct (decide (id e.2 ∈ toVisit fr)) as [Hin|Hout].
    + rewrite filter_cons_True by exact Hin. cbn [map].
      rewrite <- !app_assoc. f_equal; set_solver.
    + rewrite filter_cons_False by exact Hout. cbn [map].
      rewrite app_nil_r, <- !app_assoc. f_equal; set_solver.
Qed.

End js_frame_facts.

Section js_unfold.
Import Graph GraphJsFold.
Context {V S : Type}.
Variable isNull : V → bool.
Variable g : list V → list V → Node → S → V * S.

Lemma topologicalFoldJs_unfold (n : Node) (st : @State V S) :
  topologicalFoldImpl isNull g n st
  = let frame := mkFrame [] [] ∅ (list_to_set (map id (dependencies n))) in
    let '(fr, st1) :=
      fold_left (visitDependency isNull (topologicalFoldImpl isNull g))
        (dependencies n) (frame, st) in
    let '(value, w) :=
      g (directDependencies fr) (allDependencies fr) n (world st1) in
    (value, onNode value n (mkState w (memoized st1) (frames st1))).
Proof. destruct n; reflexivity. Qed.

End js_unfold.

Section js_fold_facts.
Import Graph GraphJsFold.
Context {V S : Type}.
Variable isNull : V → bool.
Variable f : list V → list V → Node → S → V * S.
Hypothesis f_not_null : ∀ direct all node s, isNull (f direct all node s).1 = false.
Variable root : Node.
Hypothesis Hunique : uniqueIds root.

Implicit Types (log new added : list (Call V)) (memo : gmap string V)
  (evs : list (V * Node)) (n m d : Node) (fr : @Frame V).

Lemma argumentsJs_more log new (c : Call V) :
  argumentsJs log c → argumentsJs (log ++ new) c.
Proof.
  intros [(direct & H1 & H2 & H3) (before & during & after & E & Hall & Hd & Hc)].
  split.
  - exists direct. split_and!; try assumption. now apply valuesOf_more.
  - exists before, during, (after ++ new). split_and!; try assumption.
    rewrite E, <- !app_assoc. reflexivity.
Qed.

Local Abbreviation below_other_id := (log_below_other_id root Hunique).
Local Abbreviation memo_call := (log_memo_call argumentsJs isNull root Hunique).
Local Abbreviation memo_not_null := (log_memo_not_null argumentsJs isNull root).
Local Abbreviation logged_below := (log_logged_below argumentsJs isNull root).

Lemma memoizedValue_memo {W : Type} log memo d (w : W) (frames : list (@Frame V)) :
  logInv argumentsJs isNull root log memo →
  memoizedValue isNull d (mkState w memo frames) = memo !! id d.
Proof.
  intros Hinv. unfold memoizedValue. cbn [memoized].
  destruct (memo !! id d) as [v|] eqn:Hv; [|reflexivity].
  now rewrite (memo_not_null _ _ _ _ Hinv Hv).
Qed.

Lemma elem_of_callIds new (k : string) :
  k ∈ eventIds (map callEvent new) ↔ ∃ c, c ∈ new ∧ id (callNode c) = k.
Proof.
  rewrite elem_of_eventIds. split.
  - intros (e & He & E). change (map callEvent new) with (callEvent <$> new) in He.
    apply list_elem_of_fmap in He as (c & -> & Hc). now exists c.
  - intros (c & Hc & E). exists (callEvent c). split; [|exact E].
    change (map callEvent new) with (callEvent <$> new). apply list_elem_of_fmap.
    now exists c.
Qed.

Lemma callIds_app new added :
  eventIds (map callEvent (new ++ added))
  = eventIds (map callEvent new) ∪ eventIds (map callEvent added).
Proof. unfold eventIds. rewrite !map_app. apply list_to_set_app_L. Qed.

Lemma dependency_by_id n d :
  reachable root n → reachable root d → id d ∈ idsOf (dependencies n) →
  In d (dependencies n).
Proof.
  intros Hn Hd Hk. apply elem_of_idsOf in Hk as (d' & Hd' & E).
  assert (d' = d) as <-; [|now apply list_elem_of_In].
  apply Hunique; try assumption.
  apply reachable_below with n; [assumption|].
  right. apply dependsOn_direct. now apply list_elem_of_In.
Qed.

Lemma frameInv_initial n log :
  frameInv n log []
    (mkFrame [] [] ∅ (list_to_set (map id (dependencies n)))).
Proof.
  unfold frameInv. cbn [allDependencies seen toVisit directDependencies map].
  split_and!; try reflexivity.
  - unfold eventIds. cbn. set_solver.
  - exists []. split_and!; [constructor | constructor |].
    intros d. split; [inversion 1|]. intros [Hd Hout]. exfalso. apply Hout.
    apply elem_of_list_to_set. change (map id ?l) with (id <$> l).
    apply list_elem_of_fmap. exists d. split; [reflexivity | now apply list_elem_of_In].
Qed.

(** The frame after a dependency whose value was memoized. *)
Lemma frameInv_memoized n log new fr d (v : V) :
  reachable root n →
  frameInv n log new fr →
  In d (dependencies n) → id d ∈ toVisit fr →
  (∃ c, c ∈ log ++ new ∧ callNode c = d ∧ callResult c = v) →
  frameInv n log new (pushDirect v (deleteToVisit (id d) fr)).
Proof.
  intros Hn (Hall & Hseen & Hsub & Hdisj & direct & Hvalues & Hnd & Hmem) Hd Hin Hcall.
  assert (Hrd : reachable root d).
  { apply reachable_below with n; [assumption | right; now apply dependsOn_direct]. }
  unfold frameInv, pushDirect, deleteToVisit.
  cbn [allDependencies seen toVisit directDependencies].
  split_and!; try assumption; [set_solver | set_solver |].
  exists (direct ++ [d]). split_and!.
  - apply Forall2_app; [assumption|]. now constructor.
  - apply NoDup_app. split_and!; [assumption | | apply NoDup_singleton].
    intros x Hx Hx'. apply list_elem_of_singleton in Hx'. subst x.
    apply Hmem in Hx as [_ Hout]. now apply Hout.
  - intros d'. rewrite elem_of_app, list_elem_of_singleton, Hmem. split.
    + intros [[H1 H2]| ->]; split; try assumption; set_solver.
    + intros [H1 H2]. destruct (decide (id d' = id d)) as [E|Hne].
      * right. apply Hunique; try assumption.
        apply reachable_below with n; [assumption | right; now apply dependsOn_direct].
      * left. split; [assumption|]. set_solver.
Qed.

(** The frame after a dependency that was folded, [added] being the
    calls made for it, its own last. *)
Lemma frameInv_folded n log new fr d added (c : Call V) :
  reachable root n →
  frameInv n log new fr →
  In d (dependencies n) → id d ∈ toVisit fr →
  NoDup (map (λ c, id (callNode c)) ((log ++ new) ++ added ++ [c])) →
  Forall (λ c', reachable root (callNode c')) (added ++ [c]) →
  callNode c = d →
  frameInv n log (new ++ added ++ [c])
    (pushDirect (callResult c)
       (deliverJs (map callEvent (added ++ [c])) (deleteToVisit (id d) fr))).
Proof.
  intros Hn (Hall & Hseen & Hsub & Hdisj & direct & Hvalues & Hnd & Hmem)
    Hd Hin Hnodup Hreach Hc.
  assert (Hrd : reachable root d).
  { apply reachable_below with n; [assumption | right; now apply dependsOn_direct]. }
  set (evs := map callEvent (added ++ [c])).
  assert (Hevs : NoDup (map (λ e : V * Node, id e.2) evs)).
  { unfold evs. rewrite map_map. cbn [callEvent snd].
    rewrite map_app in Hnodup. apply NoDup_app in Hnodup as (_ & _ & Hnodup).
    exact Hnodup. }
  assert (Hfresh : eventIds evs ## eventIds (map callEvent new)).
  { intros k Hk Hk'. apply elem_of_callIds in Hk as (c1 & Hc1 & E1).
    apply elem_of_callIds in Hk' as (c2 & Hc2 & E2).
    rewrite map_app in Hnodup. apply NoDup_app in Hnodup as (_ & Hnodup & _).
    apply (Hnodup k).
    - change (map ?g (log ++ new)) with (g <$> (log ++ new)).
      apply list_elem_of_fmap. exists c2. split; [now symmetry|].
      apply elem_of_app. now right.
    - change (map ?g (added ++ [c])) with (g <$> (added ++ [c])).
      apply list_elem_of_fmap. exists c1. split; [now symmetry | assumption]. }
  rewrite deliverJs_frame;
    [|exact Hevs|unfold deleteToVisit; cbn [seen]; now rewrite Hseen].
  unfold frameInv, pushDirect, deleteToVisit.
  cbn [allDependencies seen toVisit directDependencies].
  set (visit := toVisit fr ∖ {[id d]}).
  set (hits := filter (λ e : V * Node, id e.2 ∈ visit) evs).
  assert (Hlast : id d ∈ eventIds evs).
  { apply elem_of_callIds. exists c. split; [|now rewrite Hc].
    apply elem_of_app. right. now left. }
  assert (Hevent : ∀ e, e ∈ evs →
            ∃ c', c' ∈ added ++ [c] ∧ e = callEvent c' ∧ reachable root e.2).
  { intros e He. unfold evs in He. change (map callEvent ?l) with (callEvent <$> l) in He.
    apply list_elem_of_fmap in He as (c' & -> & Hc'). exists c'.
    split_and!; try reflexivity; try assumption.
    rewrite List.Forall_forall in Hreach. now apply Hreach, list_elem_of_In. }
  split_and!.
  - rewrite Hall. unfold evs. rewrite !map_app, !map_map. reflexivity.
  - rewrite Hseen, callIds_app. reflexivity.
  - unfold visit. revert Hsub.
    generalize (toVisit fr), (eventIds evs), (idsOf (dependencies n)).
    clear. set_solver.
  - rewrite callIds_app. fold evs. unfold visit. revert Hdisj.
    generalize (eventIds (map callEvent new)), (eventIds evs), (toVisit fr).
    clear. set_solver.
  - exists (direct ++ map snd hits ++ [d]). split_and!.
    + rewrite (app_assoc direct). apply Forall2_app; [apply Forall2_app|].
      * apply (valuesOf_more (log ++ new) (added ++ [c])) in Hvalues.
        rewrite <- app_assoc in Hvalues. exact Hvalues.
      * assert (Hhits : Forall (λ e, e ∈ evs) hits).
        { apply List.Forall_forall. intros e He. apply list_elem_of_In in He.
          now apply list_elem_of_filter in He. }
        induction Hhits as [|e hits' He _ IH]; cbn [map]; constructor; [|exact IH].
        destruct (Hevent e He) as (c' & Hc' & -> & _).
        exists c'. split_and!; try reflexivity.
        rewrite !elem_of_app. rewrite elem_of_app in Hc'. tauto.
      * constructor; [|constructor]. exists c. split_and!; try assumption; try reflexivity.
        rewrite !elem_of_app. right. right. right. now left.
    + assert (Hhd : NoDup (map snd hits)).
      { apply (sublist_NoDup _ (map snd evs)).
        - now apply NoDup_event_nodes.
        - apply (fmap_sublist snd), sublist_filter. }
      assert (Hhit : ∀ x, x ∈ map snd hits → id x ∈ visit).
      { intros x Hx. change (map snd hits) with (snd <$> hits) in Hx.
        apply list_elem_of_fmap in Hx as (e & -> & He).
        now apply list_elem_of_filter in He. }
      apply NoDup_app. split_and!; [assumption | |].
      * intros x Hx Hx'. apply Hmem in Hx as [_ Hout].
        apply elem_of_app in Hx' as [Hx'|Hx'].
        -- apply Hhit in Hx'. unfold visit in Hx'. set_solver.
        -- apply list_elem_of_singleton in Hx'. subst x. now apply Hout.
      * apply NoDup_app. split_and!; [assumption | | apply NoDup_singleton].
        intros x Hx Hx'. apply list_elem_of_singleton in Hx'. subst x.
        apply Hhit in Hx. unfold visit in Hx. set_solver.
    + intros d'. rewrite !elem_of_app, list_elem_of_singleton, Hmem. split.
      * intros [[H1 H2]|[Hx| ->]].
        -- split; [assumption|]. intros Hx.
           apply elem_of_difference in Hx as [Hx _]. unfold visit in Hx.
           apply elem_of_difference in Hx as [Hx _]. now apply H2.
        -- change (map snd hits) with (snd <$> hits) in Hx.
           apply list_elem_of_fmap in Hx as (e & -> & He).
           apply list_elem_of_filter in He as [Hv He].
           destruct (Hevent e He) as (c' & Hc' & E & Hre).
           split.
           ++ apply (dependency_by_id n e.2); try assumption.
              apply Hsub. unfold visit in Hv.
              now apply elem_of_difference in Hv as [Hv _].
           ++ intros Hx. apply elem_of_difference in Hx as [_ Hx]. apply Hx.
              apply elem_of_eventIds. now exists e.
        -- split; [assumption|]. intros Hx.
           apply elem_of_difference in Hx as [_ Hx]. now apply Hx.
      * intros [H1 H2].
        assert (Hrd' : reachable root d').
        { apply reachable_below with n; [assumption | right; now apply dependsOn_direct]. }
        destruct (decide (id d' ∈ toVisit fr)) as [Hvis|Hout]; [|left; now split].
        right. destruct (decide (id d' = id d)) as [E|Hne].
        { right. now apply Hunique. }
        left.
        assert (Hvisit : id d' ∈ visit).
        { unfold visit. apply elem_of_difference. split; [assumption|].
          now rewrite elem_of_singleton. }
        destruct (decide (id d' ∈ eventIds evs)) as [Hin'|Hno];
          [|exfalso; apply H2; apply elem_of_difference; now split].
        apply elem_of_eventIds in Hin' as (e & He & E).
        destruct (Hevent e He) as (c' & Hc' & _ & Hre).
        assert (e.2 = d') as Heq by now apply Hunique.
        change (map snd hits) with (snd <$> hits). apply list_elem_of_fmap.
        exists e. split; [now symmetry|]. apply list_elem_of_filter.
        split; [|assumption]. now rewrite E.
Qed.

Local Abbreviation foldLogged := (topologicalFoldImpl isNull (logged f)).
Local Abbreviation foldPlain := (topologicalFoldImpl isNull f).

(** What one call of [topologicalFoldImpl] does for a node without a
    memoized value, with and without the log. *)
Local Abbreviation nodeSpec n :=
  (∀ (s : S) log memo (frames : list (@Frame V)),
     logInv argumentsJs isNull root log memo → reachable root n →
     memo !! id n = None →
     ∃ (v : V) (s' : S) memo' new direct,
       foldLogged n (mkState (s, log) memo frames)
       = (v, mkState (s', (log ++ new) ++ [mkCall direct (map callResult new) n v])
               memo'
               (map (deliverJs (map callEvent
                                  (new ++ [mkCall direct (map callResult new) n v])))
                  frames))
       ∧ foldPlain n (mkState s memo frames)
         = (v, mkState s' memo'
                 (map (deliverJs (map callEvent
                                    (new ++ [mkCall direct (map callResult new) n v])))
                    frames))
       ∧ logInv argumentsJs isNull root (log ++ new) memo'
       ∧ memo' !! id n = None
       ∧ Forall (λ c, dependsOn n (callNode c)) new
       ∧ Forall (λ c, isNull (callResult c) = false)
           [mkCall direct (map callResult new) n v]
       ∧ (∀ d, In d (dependencies n) → d ∈ map callNode (log ++ new))
       ∧ argumentsJs ((log ++ new) ++ [mkCall direct (map callResult new) n v])
           (mkCall direct (map callResult new) n v)).

(** One turn of the loop of the call for [n]. *)
Lemma visitDependency_spec n d :
  reachable root n → nodeSpec d → In d (dependencies n) →
  ∀ fr (s : S) log new memo (frames : list (@Frame V)),
    logInv argumentsJs isNull root (log ++ new) memo →
    frameInv n log new fr →
    ∃ fr' (s' : S) memo' added,
      (visitDependency isNull foldLogged (fr, mkState (s, log ++ new) memo frames) d
       = (fr', mkState (s', (log ++ new) ++ added) memo'
                 (map (deliverJs (map callEvent added)) frames)))
      ∧ (visitDependency isNull foldPlain (fr, mkState s memo frames) d
         = (fr', mkState s' memo' (map (deliverJs (map callEvent added)) frames)))
      ∧ logInv argumentsJs isNull root ((log ++ new) ++ added) memo'
      ∧ frameInv n log (new ++ added) fr'
      ∧ Forall (λ c, dependsOn n (callNode c)) added
      ∧ (id d ∉ toVisit fr')
      ∧ toVisit fr' ⊆ toVisit fr.
Proof.
  intros Hn Hspec Hd fr s log new memo frames Hinv Hfr.
  assert (Hnd : dependsOn n d) by now apply dependsOn_direct.
  assert (Hrd : reachable root d).
  { apply reachable_below with n; [assumption | now right]. }
  unfold visitDependency.
  destruct (decide (id d ∈ toVisit fr)) as [Hin|Hout].
  - rewrite !(memoizedValue_memo (log ++ new) memo) by exact Hinv.
    cbn [world memoized GraphJsFold.frames].
    destruct (memo !! id d) as [v|] eqn:Hmemo.
    + exists (pushDirect v (deleteToVisit (id d) fr)), s, memo, [].
      cbn [map]. rewrite !app_nil_r, map_deliverJs_nil.
      split_and!; try reflexivity; try assumption.
      * apply frameInv_memoized; try assumption.
        now apply (memo_call (log ++ new) memo).
      * constructor.
      * unfold pushDirect, deleteToVisit. cbn [toVisit]. set_solver.
      * unfold pushDirect, deleteToVisit. cbn [toVisit]. set_solver.
    + destruct (Hspec s (log ++ new) memo (deleteToVisit (id d) fr :: frames)
                  Hinv Hrd Hmemo)
        as (v & s1 & memo1 & new1 & direct & EL & EF & Hinv1 & Hnone1 & Hnew1
            & Hnull & Hdeps & Hargs).
      set (call := mkCall direct (map callResult new1) d v) in *.
      rewrite EL, EF. cbn [world memoized GraphJsFold.frames map hd tl].
      assert (Hinv2 : logInv argumentsJs isNull root (((log ++ new) ++ new1) ++ [call])
                        (<[id d := v]> memo1)).
      { apply (logInv_call argumentsJs argumentsJs_more isNull root
                 ((log ++ new) ++ new1) memo1 call); try assumption.
        now inversion Hnull. }
      assert (Hbelow : Forall (λ c, dependsOn n (callNode c)) (new1 ++ [call])).
      { apply Forall_app. split; [|now repeat constructor].
        eapply Forall_impl; [exact Hnew1|]. intros c Hc.
        now apply dependsOn_transitive with d. }
      exists (pushDirect v (deliverJs (map callEvent (new1 ++ [call]))
                              (deleteToVisit (id d) fr))),
        s1, (<[id d := v]> memo1), (new1 ++ [call]).
      rewrite !app_assoc.
      split_and!; try reflexivity; try assumption.
      * rewrite <- app_assoc.
        apply (frameInv_folded n log new fr d new1 call); try assumption.
        -- destruct Hinv2 as (_ & I2 & _). rewrite <- app_assoc in I2. exact I2.
        -- destruct Hinv2 as (_ & _ & I3 & _).
           rewrite <- app_assoc in I3. apply Forall_app in I3 as [_ I3]. exact I3.
        -- reflexivity.
      * destruct Hfr as (_ & Hseen & _).
        rewrite deliverJs_frame.
        -- unfold pushDirect, deleteToVisit. cbn [toVisit]. set_solver.
        -- destruct Hinv2 as (_ & I2 & _). rewrite <- app_assoc in I2.
           rewrite map_app in I2. apply NoDup_app in I2 as (_ & _ & I2).
           rewrite map_map. exact I2.
        -- unfold deleteToVisit. cbn [seen]. rewrite Hseen.
           intros k Hk Hk'. apply elem_of_callIds in Hk as (c1 & Hc1 & E1).
           apply elem_of_callIds in Hk' as (c2 & Hc2 & E2).
           destruct Hinv2 as (_ & I2 & _). rewrite <- app_assoc in I2.
           rewrite map_app in I2. apply NoDup_app in I2 as (_ & I2 & _).
           apply (I2 k).
           ++ change (map ?g (log ++ new)) with (g <$> (log ++ new)).
              apply list_elem_of_fmap. exists c2. split; [now symmetry|].
              apply elem_of_app. now right.
           ++ change (map ?g (new1 ++ [call])) with (g <$> (new1 ++ [call])).
              apply list_elem_of_fmap. exists c1. split; [now symmetry | assumption].
      * destruct Hfr as (_ & Hseen & _).
        assert (Hsub : ∀ evs' fr0,
                  toVisit (pushDirect v (deliverJs evs' fr0)) ⊆ toVisit fr0).
        { clear. intros evs'. unfold pushDirect. cbn [toVisit].
          induction evs' as [|e evs' IH]; intros fr0; [reflexivity|].
          rewrite deliverJs_cons. etransitivity; [apply IH|].
          unfold onDependency, pushDirect, deleteToVisit.
          destruct (decide (id e.2 ∈ toVisit fr0));
            cbn [seen toVisit directDependencies allDependencies];
            match goal with |- context [decide ?P] => destruct (decide P) end;
            cbn [toVisit]; set_solver. }
        etransitivity; [apply Hsub|]. unfold deleteToVisit. cbn [toVisit]. set_solver.
  - exists fr, s, memo, []. cbn [map]. rewrite !app_nil_r, map_deliverJs_nil.
    split_and!; try reflexivity; try assumption. constructor.
Qed.

(** The loop of the call for [n]. *)
Lemma visitDependencies_spec n (deps : list Node) :
  reachable root n →
  Forall (λ d, nodeSpec d) deps →
  Forall (λ d, In d (dependencies n)) deps →
  ∀ fr (s : S) log new memo (frames : list (@Frame V)),
    logInv argumentsJs isNull root (log ++ new) memo →
    frameInv n log new fr →
    ∃ fr' (s' : S) memo' added,
      (fold_left (visitDependency isNull foldLogged) deps
         (fr, mkState (s, log ++ new) memo frames)
       = (fr', mkState (s', (log ++ new) ++ added) memo'
                 (map (deliverJs (map callEvent added)) frames)))
      ∧ (fold_left (visitDependency isNull foldPlain) deps
           (fr, mkState s memo frames)
         = (fr', mkState s' memo' (map (deliverJs (map callEvent added)) frames)))
      ∧ logInv argumentsJs isNull root ((log ++ new) ++ added) memo'
      ∧ frameInv n log (new ++ added) fr'
      ∧ Forall (λ c, dependsOn n (callNode c)) added
      ∧ (∀ d, In d deps → id d ∉ toVisit fr')
      ∧ toVisit fr' ⊆ toVisit fr.
Proof.
  intros Hn. induction deps as [|d deps IH];
    intros Hspec Hdeps fr s log new memo frames Hinv Hfr.
  - exists fr, s, memo, []. cbn [fold_left map].
    rewrite !app_nil_r, map_deliverJs_nil.
    split_and!; try reflexivity; try assumption; [constructor|].
    intros d [].
  - apply Forall_cons in Hspec as [Hd Hspec].
    apply Forall_cons in Hdeps as [Hin Hdeps].
    destruct (visitDependency_spec n d Hn Hd Hin fr s log new memo frames Hinv Hfr)
      as (fr1 & s1 & memo1 & added1 & EL & EF & Hinv1 & Hfr1 & Hbelow1 & Hout1 & Hsub1).
    rewrite <- app_assoc in Hinv1.
    destruct (IH Hspec Hdeps fr1 s1 log (new ++ added1) memo1
                (map (deliverJs (map callEvent added1)) frames) Hinv1 Hfr1)
      as (fr2 & s2 & memo2 & added2 & EL2 & EF2 & Hinv2 & Hfr2 & Hbelow2 & Hout2 & Hsub2).
    exists fr2, s2, memo2, (added1 ++ added2).
    cbn [fold_left]. rewrite EL, EF.
    rewrite <- (app_assoc log new added1), EL2, EF2.
    rewrite map_deliverJs_app, <- map_app.
    repeat rewrite app_assoc. repeat rewrite app_assoc in Hinv2.
    repeat rewrite app_assoc in Hfr2.
    split_and!; try reflexivity; try assumption.
    + now apply Forall_app.
    + intros d' [<-|Hd']; [|now apply Hout2].
      intros Hx. apply Hout1. now apply Hsub2.
    + now transitivity (toVisit fr1).
Qed.

Lemma topologicalFoldJs_spec n : nodeSpec n.
Proof.
  induction n as [nid deps IHdeps] using Node_induction.
  intros s log memo frames Hinv Hreach Hnone.
  set (n := mkNode nid deps) in *.
  rewrite !topologicalFoldJs_unfold. cbv zeta.
  change (dependencies n) with deps.
  assert (Hdeps : Forall (λ d, In d (dependencies n)) deps).
  { apply List.Forall_forall. now intros d Hd. }
  pose proof (app_nil_r log) as Elog.
  assert (Hinv0 : logInv argumentsJs isNull root (log ++ []) memo)
    by now rewrite app_nil_r.
  destruct (visitDependencies_spec n deps Hreach IHdeps Hdeps
              (mkFrame [] [] ∅ (list_to_set (map id deps))) s log [] memo frames
              Hinv0 (frameInv_initial n log))
    as (fr & s1 & memo1 & new & EL & EF & Hinv1 & Hfr & Hbelow & Hout & _).
  rewrite app_nil_r in EL, Hinv1. cbn [app] in Hfr.
  rewrite EL, EF. cbn [world memoized GraphJsFold.frames].
  destruct Hfr as (Hall & Hseen & Hsub & Hdisj & direct & Hvalues & Hnd & Hmem).
  rewrite Hall. unfold logged. cbn [fst snd].
  destruct (f (directDependencies fr) (map callResult new) n s1) as [v s2] eqn:Hf.
  set (call := mkCall (directDependencies fr) (map callResult new) n v).
  assert (Hother : ∀ c, c ∈ new → id (callNode c) ≠ id n).
  { intros c Hc. rewrite List.Forall_forall in Hbelow.
    apply list_elem_of_In, Hbelow in Hc. now apply below_other_id. }
  assert (Hdirect : ∀ d, d ∈ direct ↔ In d (dependencies n)).
  { intros d. rewrite Hmem. split; [tauto|]. intros Hd. split; [assumption|].
    now apply Hout. }
  assert (Hcalled : ∀ d, In d (dependencies n) → d ∈ map callNode (log ++ new)).
  { intros d Hd. apply Hdirect in Hd.
    apply list_elem_of_lookup in Hd as [i Hi].
    destruct (Forall2_lookup_l _ _ _ _ _ Hvalues Hi) as (x & _ & c & Hc & E & _).
    change (map callNode ?l) with (callNode <$> l). apply list_elem_of_fmap.
    exists c. split; [now symmetry | assumption]. }
  exists v, s2, memo1, new, (directDependencies fr).
  fold call. unfold onNode. cbn [world memoized GraphJsFold.frames].
  rewrite map_app, <- (map_deliverJs_app (map callEvent new) (map callEvent [call])).
  split_and!; try reflexivity; try assumption.
  - destruct (memo1 !! id n) as [x|] eqn:Hx; [|reflexivity]. exfalso.
    destruct Hinv1 as (I1 & _). apply I1 in Hx as (c & Hc & E & _).
    apply elem_of_app in Hc as [Hc|Hc].
    + destruct Hinv as (I1' & _).
      assert (memo !! id n = Some (callResult c)) as Hsome; [|congruence].
      apply I1'. now exists c.
    + now apply (Hother c).
  - constructor; [|constructor]. cbn [callResult call].
    pose proof (f_not_null (directDependencies fr) (map callResult new) n s1) as Hnn.
    now rewrite Hf in Hnn.
  - split.
    + exists direct. split_and!; try assumption. now apply valuesOf_more.
    + exists log, new, []. rewrite <- app_assoc. split_and!; try reflexivity.
      * exact Hbelow.
      * intros m Hm. inversion Hm as [? ? Hin|? d ? Hin Hdm]; subst.
        -- now apply Hcalled.
        -- apply (logged_below (log ++ new) memo1 d); try assumption.
           now apply Hcalled.
Qed.

(** The calls of a whole fold, the one for the root being the last. *)
Lemma topologicalFoldJs_log (s : S) :
  ∃ (v : V) (s' : S) memo' rest direct,
    let log := rest ++ [mkCall direct (map callResult rest) root v] in
    topologicalFold isNull (logged f) root (s, []) = (v, (s', log))
    ∧ topologicalFold isNull f root s = (v, s')
    ∧ logInv argumentsJs isNull root log memo'.
Proof.
  destruct (topologicalFoldJs_spec root s [] ∅ []
              (logInv_empty argumentsJs isNull root))
    as (v & s' & memo' & new & direct & EL & EF & Hinv & Hnone & _ & Hnull & Hdeps & Hargs);
    [now left | apply lookup_empty |].
  cbn [app map] in *.
  set (call := mkCall direct (map callResult new) root v) in *.
  exists v, s', (<[id root := v]> memo'), new, direct. cbv zeta. fold call.
  unfold topologicalFold. rewrite EL, EF. cbn [world].
  split_and!; try reflexivity.
  apply (logInv_call argumentsJs argumentsJs_more isNull root new memo' call);
    try assumption; [now left | now inversion Hnull].
Qed.

(** X25: in the revision of [graph.js] too, when the ids tell the nodes of
    the graph apart and [f] returns no null value, [topologicalFold] calls
    [f] once for the node it is given and once for every direct or
    indirect dependency of it, for no node before its dependencies and
    for the given node last, and returns the result of that last call.
    Writing the calls down changes neither the value nor what is done to
    the world. *)
Theorem graph_js_fold_calls_dependencies_first (s : S) :
  ∃ (v : V) (s' : S) log,
    topologicalFold isNull (logged f) root (s, []) = (v, (s', log))
    ∧ topologicalFold isNull f root s = (v, s')
    ∧ NoDup (map (λ c, id (callNode c)) log)
    ∧ (∀ m, m ∈ map callNode log ↔ reachable root m)
    ∧ dependenciesFirst (map callNode log)
    ∧ ∃ c, last log = Some c ∧ callNode c = root ∧ callResult c = v.
Proof.
  destruct (topologicalFoldJs_log s) as (v & s' & memo' & rest & direct & EL & EF & Hinv).
  cbv zeta in *.
  set (call := mkCall direct (map callResult rest) root v) in *.
  exists v, s', (rest ++ [call]).
  pose proof Hinv as (_ & I2 & I3 & _ & I5 & _).
  assert (Hroot : root ∈ map callNode (rest ++ [call])).
  { rewrite map_app. apply elem_of_app. right. now left. }
  split_and!; try assumption.
  - intros m. split.
    + change (map callNode ?l) with (callNode <$> l). rewrite list_elem_of_fmap.
      intros (c & -> & Hc). rewrite List.Forall_forall in I3.
      now apply I3, list_elem_of_In.
    + intros [->|Hm]; [assumption|]. now apply (logged_below _ memo' root).
  - exists call. now rewrite last_snoc.
Qed.

(** X26: in the revision of [graph.js], under the same conditions, every
    call of [f] is given, as [directDependencies], the results of the
    calls for the dependencies of its node, each dependency once, and, as
    [allDependencies], the results of the calls that were made for it, in
    their order: the calls that come just before it in the sequence of
    all calls, one for every node below its node that had no call earlier
    on. The result for a dependency that was memoized is among the former
    but not among the latter. *)
Theorem graph_js_fold_passes_results_of_dependencies (s : S) (c : Call V) :
  let log := (topologicalFold isNull (logged f) root (s, [])).2.2 in
  c ∈ log → argumentsJs log c.
Proof.
  destruct (topologicalFoldJs_log s) as (v & s' & memo' & rest & direct & EL & _ & Hinv).
  cbv zeta in *. rewrite EL. cbn [snd].
  destruct Hinv as (_ & _ & _ & _ & _ & I6).
  rewrite List.Forall_forall in I6. intros Hc. now apply I6, list_elem_of_In.
Qed.

(** X27: in the revision of [graph.js], under the same conditions, the
    call for the node that [topologicalFold] is given gets as
    [allDependencies] the results of all the calls before it, in their
    order: one for every node of the graph below it. *)
Theorem graph_js_fold_root_gets_all_results (s : S) :
  ∃ rest direct,
    (topologicalFold isNull (logged f) root (s, [])).2.2
    = rest ++ [mkCall direct (map callResult rest) root
                 (topologicalFold isNull f root s).1]
    ∧ ∀ m, m ∈ map callNode rest ↔ dependsOn root m.
Proof.
  destruct (topologicalFoldJs_log s) as (v & s' & memo' & rest & direct & EL & EF & Hinv).
  cbv zeta in *. rewrite EL, EF. cbn [fst snd].
  exists rest, direct. split; [reflexivity|].
  set (call := mkCall direct (map callResult rest) root v) in *.
  pose proof Hinv as (_ & I2 & I3 & _ & I5 & _).
  assert (Hother : ∀ m, m ∈ map callNode rest → id m ≠ id root).
  { intros m Hm E. rewrite map_app in I2. apply NoDup_app in I2 as (_ & I2 & _).
    apply (I2 (id m)).
    - change (map callNode rest) with (callNode <$> rest) in Hm.
      apply list_elem_of_fmap in Hm as (c & -> & Hc).
      change (map ?g rest) with (g <$> rest). apply list_elem_of_fmap. now exists c.
    - rewrite E. now left. }
  intros m. split.
  - intros Hm.
    rewrite List.Forall_forall in I3.
    change (map callNode rest) with (callNode <$> rest) in Hm.
    pose proof (Hother m Hm) as Hne.
    apply list_elem_of_fmap in Hm as (c & -> & Hc).
    destruct (I3 c) as [E|Hbelow]; [|now rewrite E in Hne | assumption].
    apply list_elem_of_In, elem_of_app. now left.
  - intros Hm.
    assert (Hin : m ∈ map callNode (rest ++ [call])).
    { apply (logged_below _ memo' root); try assumption.
      rewrite map_app. apply elem_of_app. right. now left. }
    rewrite map_app in Hin. apply elem_of_app in Hin as [Hin|Hin]; [assumption|].
    apply list_elem_of_singleton in Hin. cbn in Hin. subst m.
    now apply dependsOn_irrefl in Hm.
Qed.

End js_fold_facts.

Section js_fold_examples.
Import Graph GraphJsFold.

Lemma graph_js_fold_calls_dependencies_first_witness :
  ∃ (v : string) (s' : unit) log,
    topologicalFold (λ _, false) (logged nodeName) chainRoot (tt, []) = (v, (s', log))
    ∧ topologicalFold (λ _, false) nodeName chainRoot tt = (v, s')
    ∧ NoDup (map (λ c, id (callNode c)) log)
    ∧ (∀ m, m ∈ map callNode log ↔ reachable chainRoot m)
    ∧ dependenciesFirst (map callNode log)
    ∧ ∃ c, last log = Some c ∧ callNode c = chainRoot ∧ callResult c = v.
Proof.
  apply (graph_js_fold_calls_dependencies_first (λ _, false) nodeName).
  - reflexivity.
  - exact uniqueIds_chainRoot.
Defined.

Lemma graph_js_fold_passes_results_of_dependencies_witness :
  argumentsJs (topologicalFold (λ _, false) (logged nodeName) chainRoot (tt, [])).2.2
    (mkCall ["b"] ["b"] midA "a").
Proof.
  apply (graph_js_fold_passes_results_of_dependencies (λ _, false) nodeName).
  - reflexivity.
  - exact uniqueIds_chainRoot.
  - apply list_elem_of_In. vm_compute. right. left. reflexivity.
Defined.

Lemma graph_js_fold_root_gets_all_results_witness :
  ∃ rest direct,
    (topologicalFold (λ _, false) (logged nodeName) chainRoot (tt, [])).2.2
    = rest ++ [mkCall direct (map callResult rest) chainRoot
                 (topologicalFold (λ _, false) nodeName chainRoot tt).1]
    ∧ ∀ m, m ∈ map callNode rest ↔ dependsOn chainRoot m.
Proof.
  apply (graph_js_fold_root_gets_all_results (λ _, false) nodeName).
  - reflexivity.
  - exact uniqueIds_chainRoot.
Defined.

(** The value of [a] is memoized when the loop of [b] comes to it: the
    call for [b] gets it as a direct dependency, but no dependency at
    all in [allDependencies]. *)
Example graph_js_fold_memoized_dependency_is_not_in_allDependencies :
  (topologicalFold (λ _, false) (logged nodeName) diamondRoot (tt, [])).2.2
  = [mkCall [] [] leafX "x"; mkCall ["x"] ["x"] nodeA "a";
     mkCall ["a"] [] nodeB "b";
     mkCall ["a"; "b"] ["x"; "a"; "b"] diamondRoot "root"].
Proof. vm_compute. reflexivity. Qed.

End js_fold_examples.

(** ** The topological fold over Maps *)

Section map_fold_facts.
Context {V S : Type}.
Variable isNull : V → bool.
Variable f : list (string * V) → list (string * V) → MapFold.Node → S → V * S.

Lemma MapNode_induction (P : MapFold.Node → Prop) :
  (∀ nid deps, Forall (λ kd, P kd.2) deps → P (MapFold.mkNode nid deps)) → ∀ n, P n.
Proof.
  intros Hnode. fix IH 1. intros [nid deps]. apply Hnode.
  induction deps as [|[k d] deps IHdeps]; constructor.
  - apply IH.
  - exact IHdeps.
Qed.

Lemma id_erase (n : MapFold.Node) : Graph.id (erase n) = MapFold.id n.
Proof. now destruct n. Qed.

Lemma restore_erase (n : MapFold.Node) : keyedById n = true → restore (erase n) = n.
Proof.
  induction n as [nid deps IH] using MapNode_induction. cbn [keyedById erase restore].
  intros Hkeyed. f_equal. rewrite map_map.
  induction deps as [|[k d] deps IHdeps]; [reflexivity|].
  cbn [map forallb fst snd] in *.
  apply andb_prop in Hkeyed as [Hkd Hkeyed]. apply andb_prop in Hkd as [Hk Hd].
  apply bool_decide_eq_true in Hk. apply Forall_cons in IH as [IHd IH].
  cbn [fst snd] in IHd, Hk. rewrite id_erase, (IHd Hd), <- Hk. f_equal. now apply IHdeps.
Qed.

Lemma keys_are_ids nid (deps : list (string * MapFold.Node)) :
  keyedById (MapFold.mkNode nid deps) = true →
  map fst deps = map Graph.id (map (λ kd, erase kd.2) deps).
Proof.
  cbn [keyedById]. induction deps as [|[k d] deps IH]; [reflexivity|].
  cbn [map forallb fst snd]. intros Hkeyed.
  apply andb_prop in Hkeyed as [Hkd Hkeyed]. apply andb_prop in Hkd as [Hk _].
  apply bool_decide_eq_true in Hk. rewrite id_erase, <- Hk. f_equal. now apply IH.
Qed.

(** The callback changes a frame of the fold over Maps as the callback of
    the fold over arrays changes it. *)
Lemma onDependency_arrayFrame (value : V) (node : MapFold.Node) (fr : @MapFold.Frame V) :
  deliveredOnce fr →
  Fold.onDependency (MapFold.id node, value) (erase node) (arrayFrame fr)
  = arrayFrame (MapFold.onDependency value node fr)
  ∧ deliveredOnce (MapFold.onDependency value node fr).
Proof.
  intros Hok. unfold Fold.onDependency, MapFold.onDependency, MapFold.has.
  rewrite id_erase. destruct fr as [direct all need]. unfold deliveredOnce in *.
  cbn [arrayFrame Fold.seen Fold.need MapFold.allDependencies MapFold.need
         MapFold.directDependencies] in *.
  destruct (decide (MapFold.id node ∈ (list_to_set all.*1 : gset string))) as [Hin|Hnew].
  - rewrite bool_decide_eq_true_2 by now apply elem_of_list_to_set in Hin.
    cbn [arrayFrame Fold.seen Fold.need Fold.directDependencies Fold.allDependencies
           MapFold.allDependencies MapFold.need MapFold.directDependencies].
    destruct (decide (MapFold.id node ∈ need)) as [Hneed|Hnot].
    + cbn [MapFold.directDependencies MapFold.need MapFold.allDependencies].
      rewrite bool_decide_eq_false_2.
      * cbn [arrayFrame MapFold.allDependencies MapFold.need
               MapFold.directDependencies].
        split; [reflexivity|]. rewrite fmap_app, list_to_set_app_L. cbn. set_solver.
      * intros Hd. apply (Hok (MapFold.id node)); [|assumption].
        now apply elem_of_list_to_set.
    + split; [reflexivity | assumption].
  - rewrite bool_decide_eq_false_2
      by (intros Hx; apply Hnew; now apply elem_of_list_to_set).
    cbn [arrayFrame Fold.seen Fold.need Fold.directDependencies Fold.allDependencies
           MapFold.allDependencies MapFold.need MapFold.directDependencies].
    assert (Hseen : ({[MapFold.id node]} ∪ list_to_set all.*1 : gset string)
                    = list_to_set (all ++ [(MapFold.id node, value)]).*1).
    { rewrite fmap_app, list_to_set_app_L. cbn. set_solver. }
    destruct (decide (MapFold.id node ∈ need)) as [Hneed|Hnot].
    + cbn [MapFold.directDependencies MapFold.need MapFold.allDependencies].
      rewrite bool_decide_eq_false_2.
      * cbn [arrayFrame MapFold.allDependencies MapFold.need
               MapFold.directDependencies].
        rewrite Hseen. split; [reflexivity|].
        rewrite fmap_app, list_to_set_app_L. cbn. set_solver.
      * intros Hd. apply (Hok (MapFold.id node)); [|assumption].
        now apply elem_of_list_to_set.
    + cbn [arrayFrame MapFold.allDependencies MapFold.need
             MapFold.directDependencies].
      rewrite Hseen. split; [reflexivity | assumption].
Qed.

Lemma onNode_arrayState (value : V) (node : MapFold.Node) (st : @MapFold.State V S) :
  Forall deliveredOnce (MapFold.frames st) →
  Fold.onNode (MapFold.id node, value) (erase node) (arrayState st)
  = arrayState (MapFold.onNode value node st)
  ∧ Forall deliveredOnce (MapFold.frames (MapFold.onNode value node st))
  ∧ length (MapFold.frames (MapFold.onNode value node st)) = length (MapFold.frames st).
Proof.
  intros Hok. unfold Fold.onNode, MapFold.onNode, arrayState.
  cbn [Fold.world Fold.memoized Fold.frames MapFold.world MapFold.memoized
         MapFold.frames].
  split_and!.
  - f_equal. rewrite !map_map.
    induction Hok as [|fr frames Hfr _ IH]; [reflexivity|].
    cbn [map]. rewrite IH. f_equal. now apply onDependency_arrayFrame.
  - induction Hok as [|fr frames Hfr _ IH]; constructor; [|exact IH].
    now apply onDependency_arrayFrame.
  - now rewrite length_map.
Qed.

Lemma arrayMemoized_lookup (memo : gmap string V) (k : string) :
  arrayMemoized memo !! k = (λ v, (k, v)) <$> memo !! k.
Proof.
  unfold arrayMemoized. rewrite map_lookup_imap.
  now destruct (memo !! k).
Qed.

Lemma arrayMemoized_insert (memo : gmap string V) (k : string) (v : V) :
  arrayMemoized (<[k := v]> memo) = <[k := (k, v)]> (arrayMemoized memo).
Proof.
  apply map_eq. intros k'. rewrite arrayMemoized_lookup.
  destruct (decide (k = k')) as [->|Hne].
  - now rewrite !lookup_insert_eq.
  - rewrite !lookup_insert_ne by assumption. now rewrite arrayMemoized_lookup.
Qed.

Lemma cachedValue_arrayState (n : MapFold.Node) (st : @MapFold.State V S) :
  Fold.cachedValue (nullEntry isNull) (erase n) (arrayState st)
  = (λ v, (MapFold.id n, v)) <$> MapFold.cachedValue isNull n st.
Proof.
  unfold Fold.cachedValue, MapFold.cachedValue, arrayState. cbn [Fold.memoized].
  rewrite id_erase, arrayMemoized_lookup.
  destruct (MapFold.memoized st !! MapFold.id n) as [v|]; [|reflexivity].
  cbn. unfold nullEntry. cbn. now destruct (isNull v).
Qed.

Local Abbreviation foldMaps := (MapFold.topologicalFoldImpl isNull f).
Local Abbreviation foldArrays :=
  (Fold.topologicalFoldImpl (nullEntry isNull) (withIds f)).

(** One call of [topologicalFoldImpl] over Maps, seen as a call over
    arrays. *)
Local Abbreviation simulates n :=
  (∀ st : @MapFold.State V S,
     Forall deliveredOnce (MapFold.frames st) →
     foldArrays (erase n) (arrayState st)
     = ((MapFold.id n, (foldMaps n st).1), arrayState (foldMaps n st).2)
     ∧ Forall deliveredOnce (MapFold.frames (foldMaps n st).2)
     ∧ length (MapFold.frames (foldMaps n st).2) = length (MapFold.frames st)).

Lemma dependencies_simulate (deps : list (string * MapFold.Node)) :
  Forall (λ kd, simulates kd.2) deps →
  ∀ st : @MapFold.State V S,
    Forall deliveredOnce (MapFold.frames st) →
    let st' := fold_left (λ st dep, (foldMaps dep.2 st).2) deps st in
    fold_left (λ st dep, (foldArrays dep st).2) (map (λ kd, erase kd.2) deps)
      (arrayState st)
    = arrayState st'
    ∧ Forall deliveredOnce (MapFold.frames st')
    ∧ length (MapFold.frames st') = length (MapFold.frames st).
Proof.
  induction deps as [|[k d] deps IH]; intros Hsim st Hok; cbv zeta.
  - cbn [fold_left map]. now split_and!.
  - apply Forall_cons in Hsim as [Hd Hsim]. cbn [fold_left map snd] in *.
    destruct (Hd st Hok) as (E & Hok1 & Hlen1). rewrite E. cbn [snd].
    destruct (IH Hsim _ Hok1) as (E2 & Hok2 & Hlen2). cbv zeta in *.
    split_and!; [assumption | assumption | congruence].
Qed.

Lemma topologicalFoldImpl_simulates (n : MapFold.Node) :
  keyedById n = true → simulates n.
Proof.
  induction n as [nid deps IH] using MapNode_induction. intros Hkeyed st Hok.
  set (n := MapFold.mkNode nid deps) in *.
  assert (Hsim : Forall (λ kd, simulates kd.2) deps).
  { pose proof Hkeyed as Hall.
    change (forallb (λ kd, bool_decide (kd.1 = MapFold.id kd.2) && keyedById kd.2)
              deps = true) in Hall.
    rewrite forallb_forall in Hall.
    apply List.Forall_forall. intros kd Hkd.
    rewrite List.Forall_forall in IH. apply IH; [assumption|].
    now apply Hall, andb_prop in Hkd as [_ Hkd]. }
  rewrite topologicalFoldImpl_unfold, cachedValue_arrayState.
  assert (Hmaps : foldMaps n st
            = match MapFold.cachedValue isNull n st with
              | Some cached => (cached, MapFold.onNode cached n st)
              | None =>
                  let frame := MapFold.mkFrame [] [] (list_to_set (map fst deps)) in
                  let st1 :=
                    fold_left (λ st dep, (foldMaps dep.2 st).2) deps
                      (MapFold.mkState (MapFold.world st) (MapFold.memoized st)
                         (frame :: MapFold.frames st)) in
                  let frame1 := hd frame (MapFold.frames st1) in
                  let '(value, w) :=
                    f (MapFold.directDependencies frame1)
                      (MapFold.allDependencies frame1) n (MapFold.world st1) in
                  (value,
                   MapFold.onNode value n
                     (MapFold.mkState w (<[nid := value]> (MapFold.memoized st1))
                        (tl (MapFold.frames st1))))
              end) by reflexivity.
  rewrite Hmaps. clear Hmaps.
  destruct (MapFold.cachedValue isNull n st) as [cached|]; cbn [fmap option_fmap option_map].
  - cbn [fst snd]. destruct (onNode_arrayState cached n st Hok) as (E & Hok' & Hlen).
    rewrite E. now split_and!.
  - cbv zeta.
    set (frame := MapFold.mkFrame [] [] (list_to_set (map fst deps))).
    set (st0 := MapFold.mkState (MapFold.world st) (MapFold.memoized st)
                  (frame :: MapFold.frames st)).
    assert (Hok0 : Forall deliveredOnce (MapFold.frames st0)).
    { constructor; [|exact Hok]. unfold deliveredOnce, frame. cbn. set_solver. }
    destruct (dependencies_simulate deps Hsim st0 Hok0) as (E & Hok1 & Hlen1).
    cbv zeta in E, Hok1, Hlen1.
    set (st1 := fold_left (λ st dep, (foldMaps dep.2 st).2) deps st0) in *.
    assert (E0 : Fold.mkState (Fold.world (arrayState st))
                   (Fold.memoized (arrayState st))
                   (Fold.mkFrame [] [] ∅
                      (list_to_set (map Graph.id (Graph.dependencies (erase n))))
                    :: Fold.frames (arrayState st))
                 = arrayState st0).
    { unfold arrayState, st0. cbn [MapFold.world MapFold.memoized MapFold.frames
                                    Fold.world Fold.memoized Fold.frames map].
      f_equal. f_equal. unfold arrayFrame, frame.
      cbn [MapFold.directDependencies MapFold.allDependencies MapFold.need].
      f_equal. cbn [erase n Graph.dependencies]. now rewrite <- (keys_are_ids nid). }
    rewrite E0. change (Graph.dependencies (erase n)) with (map (λ kd, erase kd.2) deps).
    rewrite E.
    destruct (MapFold.frames st1) as [|frame1 rest] eqn:Hframes;
      [cbn in Hlen1; discriminate|].
    assert (Hfr : Fold.frames (arrayState st1) = arrayFrame frame1 :: map arrayFrame rest).
    { unfold arrayState. cbn [Fold.frames]. now rewrite Hframes. }
    assert (Hw : Fold.world (arrayState st1) = MapFold.world st1) by reflexivity.
    assert (Hm : Fold.memoized (arrayState st1) = arrayMemoized (MapFold.memoized st1))
      by reflexivity.
    rewrite Hfr, Hw, Hm. cbn [hd tl].
    cbn [arrayFrame Fold.directDependencies Fold.allDependencies].
    unfold withIds. rewrite (restore_erase n Hkeyed).
    destruct (f (MapFold.directDependencies frame1) (MapFold.allDependencies frame1)
                n (MapFold.world st1)) as [value w].
    cbn [fst snd]. rewrite id_erase.
    apply Forall_cons in Hok1 as [_ Hrest].
    set (st2 := MapFold.mkState w (<[nid := value]> (MapFold.memoized st1)) rest).
    destruct (onNode_arrayState value n st2 Hrest) as (E2 & Hok2 & Hlen2).
    change (MapFold.id n) with nid in *.
    assert (E3 : Fold.mkState w (<[nid := (nid, value)]> (arrayMemoized (MapFold.memoized st1)))
                   (map arrayFrame rest)
                 = arrayState st2).
    { unfold arrayState, st2.
      cbn [MapFold.world MapFold.memoized MapFold.frames].
      now rewrite arrayMemoized_insert. }
    rewrite E3, E2. split_and!; try reflexivity; try assumption.
    rewrite Hlen2. unfold st2. cbn [MapFold.frames].
    cbn [length] in Hlen1. unfold st0 in Hlen1. cbn [MapFold.frames length] in Hlen1.
    lia.
Qed.


End map_fold_facts.


(** ** The built-in variables of two packages *)

Section builtIn_facts.
Import Text Types Environment Validation.

Variable realpathSync : string → string.
Variable pathIsInside : string → string → bool.
Variable relative : string → string → string.

Local Abbreviation errorsForVar := (errorsForVar realpathSync pathIsInside relative).
Local Abbreviation addEnvConfigForPackage :=
  (addEnvConfigForPackage realpathSync pathIsInside relative).

(** What [seenVars] holds after [addEnvConfigForPackage]. *)
Lemma addEnvConfigForPackage_seenVars
    (st : EnvironmentConfigState) (root packageName path : string)
    (exportedEnv : list (string * EnvironmentVarExport)) (k : string) :
  NoDup (map fst exportedEnv) →
  seenVars (addEnvConfigForPackage st root packageName path exportedEnv) !! k
  = match Collections.get k exportedEnv with
    | Some config => Some (seenAs path config)
    | None => seenVars st !! k
    end.
Proof.
  intros Hnd. unfold Environment.addEnvConfigForPackage.
  destruct (fold_addEnvVar_state realpathSync pathIsInside relative
              (seenVars st) root packageName path exportedEnv (mkState ∅ [] []))
    as [_ Hseen].
  cbn [Environment.seenVars]. rewrite lookup_union, Hseen, get_rev_NoDup by assumption.
  destruct (Collections.get k exportedEnv) as [config|]; cbn [Environment.seenVars].
  - now destruct (seenVars st !! k).
  - rewrite lookup_empty. now destruct (seenVars st !! k).
Qed.

Lemma beginsWithChars_app (l1 l2 a b : chars) :
  l1 ++ a = l2 ++ b → beginsWithChars l1 l2 = true ∨ beginsWithChars l2 l1 = true.
Proof.
  revert l2. induction l1 as [|x l1 IH]; intros l2 E; [now left|].
  destruct l2 as [|y l2]; [now right|].
  cbn [app] in E. injection E as -> E. cbn [beginsWithChars].
  rewrite Ascii.eqb_refl. cbn [andb]. now apply IH.
Qed.

(** No name of a built-in variable of one package is the name of another
    built-in variable of any package. *)
Lemma builtIn_names_apart (p1 p2 s1 s2 : string) :
  s1 ∈ builtInSuffixes → s2 ∈ builtInSuffixes →
  p1 +:+ s1 = p2 +:+ s2 → p1 = p2 ∧ s1 = s2.
Proof.
  intros H1 H2 E.
  assert (Hall : forallb (λ a, forallb (λ b,
                    bool_decide (a = b)
                    || negb (beginsWithChars (rev (of_string a)) (rev (of_string b))))
                    builtInSuffixes) builtInSuffixes = true)
    by (vm_compute; reflexivity).
  rewrite forallb_forall in Hall.
  assert (Hpair : ∀ a b, a ∈ builtInSuffixes → b ∈ builtInSuffixes →
            a = b ∨ beginsWithChars (rev (of_string a)) (rev (of_string b)) = false).
  { intros a b Ha Hb. apply list_elem_of_In, Hall in Ha.
    rewrite forallb_forall in Ha. apply list_elem_of_In, Ha in Hb.
    apply orb_prop in Hb as [Hb|Hb].
    - left. now apply bool_decide_eq_true in Hb.
    - right. now apply negb_true_iff in Hb. }
  assert (Hs : s1 = s2).
  { apply (f_equal of_string) in E. rewrite !of_string_app in E.
    apply (f_equal (@rev ascii)) in E. rewrite !rev_app_distr in E.
    destruct (Hpair s1 s2 H1 H2) as [?|H12]; [assumption|].
    destruct (Hpair s2 s1 H2 H1) as [?|H21]; [now symmetry|].
    apply beginsWithChars_app in E as [E|E]; congruence. }
  split; [|assumption]. subst s2.
  apply (f_equal of_string) in E. rewrite !of_string_app in E.
  apply app_inv_tail in E. now apply of_string_inj.
Qed.

Lemma builtIn_names (c : Config.BuildConfig) (b : BuildSpec) :
  map fst (builtInsPerPackage c b false)
  = map (λ s, Util.normalizePackageName (name b) +:+ s) builtInSuffixes.
Proof. reflexivity. Qed.

Lemma builtIns_exclusive (c : Config.BuildConfig) (b : BuildSpec) (current : bool) :
  Forall (λ entry, exclusive entry.2 = true) (builtInsPerPackage c b current).
Proof. unfold builtInsPerPackage. repeat constructor. Qed.

Lemma builtIn_names_NoDup (c : Config.BuildConfig) (b : BuildSpec) :
  NoDup (map fst (builtInsPerPackage c b false)).
Proof.
  rewrite builtIn_names.
  change (map ?g ?l) with (g <$> l). apply NoDup_fmap_2_strong.
  - intros s1 s2 _ _ E. apply (f_equal of_string) in E. rewrite !of_string_app in E.
    apply app_inv_head in E. now apply of_string_inj.
  - apply (bool_decide_unpack _). vm_compute. exact I.
Qed.

Lemma get_Some_key {A} (k : string) (l : list (string * A)) :
  k ∈ map fst l → ∃ x, Collections.get k l = Some x ∧ (k, x) ∈ l.
Proof.
  induction l as [|[k' x] l IH]; [inversion 1|].
  cbn [map fst Collections.get]. intros Hk.
  destruct (decide (k' = k)) as [->|Hne].
  - exists x. split; [reflexivity | left].
  - apply elem_of_cons in Hk as [->|Hk]; [contradiction|].
    destruct (IH Hk) as (y & Hy & Hin). exists y. split; [assumption | now right].
Qed.

Lemma get_None_key {A} (k : string) (l : list (string * A)) :
  k ∉ map fst l → Collections.get k l = None.
Proof.
  induction l as [|[k' x] l IH]; [reflexivity|].
  cbn [map fst Collections.get]. intros Hk.
  destruct (decide (k' = k)) as [->|Hne]; [exfalso; apply Hk; left|].
  apply IH. intros Hin. apply Hk. now right.
Qed.


End builtIn_facts.

